(** * go-inject: the tag parser, the object graph and the field resolution engine

    A shallow embedding of [structtag.go] and of the engine file of the
    package ([Graph.Provide], [Graph.Populate], [populateExplicit],
    [populateUnnamedInterface], [parseTag]), followed by the properties the
    specification states about them. *)

From Stdlib Require Import Ascii String ZArith Lia.
From stdpp Require Import base option list gmap strings.

Set Warnings "-register-all".

Local Open Scope string_scope.

(** ** Go strings

    A Go string is a sequence of bytes; [string] over the 8-bit [ascii] is
    used as such.  The three characters the scanner tests for are named. *)

Definition chSpace : ascii := " ".
Definition chColon : ascii := ":".
Definition chQuote : ascii := "034".
Definition chBackslash : ascii := "\".
Definition chNewline : ascii := "010".

(** [s[i:]] and [s[:i]] for [i <= len(s)]. *)
Definition sliceFrom (s : string) (i : nat) : string :=
  substring i (String.length s - i) s.

Definition sliceTo (s : string) (i : nat) : string :=
  substring 0 i s.

(** [s[i] == c], false when [i] is out of range. *)
Definition byteIs (s : string) (i : nat) (c : ascii) : bool :=
  match String.get i s with
  | Some d => Ascii.eqb d c
  | None => false
  end.

Module strconv.

(** Model of Go's [strconv.Unquote] on interpreted (double-quoted) string
    literals, the only form [Extract] hands to it.  [None] stands for
    [ErrSyntax]. *)

Definition byteZ (c : ascii) : Z := Z.of_N (N_of_ascii c).
Definition zByte (z : Z) : ascii := ascii_of_N (Z.to_N z).

Definition unhex (c : ascii) : option Z :=
  let z := byteZ c in
  if (48 <=? z)%Z && (z <=? 57)%Z then Some (z - 48)%Z
  else if (97 <=? z)%Z && (z <=? 102)%Z then Some (z - 97 + 10)%Z
  else if (65 <=? z)%Z && (z <=? 70)%Z then Some (z - 65 + 10)%Z
  else None.

(** [n] hexadecimal digits at the head of [s]: their value and the rest. *)
Fixpoint hexDigits (n : nat) (s : string) (v : Z) : option (Z * string) :=
  match n with
  | O => Some (v, s)
  | S n' =>
      match s with
      | String c rest =>
          match unhex c with
          | Some x => hexDigits n' rest (Z.lor (Z.shiftl v 4) x)
          | None => None
          end
      | EmptyString => None
      end
  end.

(** Two more octal digits after the first one. *)
Fixpoint octDigits (n : nat) (s : string) (v : Z) : option (Z * string) :=
  match n with
  | O => Some (v, s)
  | S n' =>
      match s with
      | String c rest =>
          let x := (byteZ c - 48)%Z in
          if (x <? 0)%Z || (7 <? x)%Z then None
          else octDigits n' rest (Z.lor (Z.shiftl v 3) x)
      | EmptyString => None
      end
  end.

(** [utf8.ValidRune]. *)
Definition ValidRune (r : Z) : bool :=
  ((0 <=? r)%Z && (r <? 55296)%Z) || ((57343 <? r)%Z && (r <=? 1114111)%Z).

(** [utf8.AppendRune] on a valid rune. *)
Definition EncodeRune (r : Z) : string :=
  if (r <? 128)%Z then String (zByte r) EmptyString
  else if (r <? 2048)%Z then
    String (zByte (Z.lor 192 (Z.shiftr r 6)))
      (String (zByte (Z.lor 128 (Z.land r 63))) EmptyString)
  else if (r <? 65536)%Z then
    String (zByte (Z.lor 224 (Z.shiftr r 12)))
      (String (zByte (Z.lor 128 (Z.land (Z.shiftr r 6) 63)))
         (String (zByte (Z.lor 128 (Z.land r 63))) EmptyString))
  else
    String (zByte (Z.lor 240 (Z.shiftr r 18)))
      (String (zByte (Z.lor 128 (Z.land (Z.shiftr r 12) 63)))
         (String (zByte (Z.lor 128 (Z.land (Z.shiftr r 6) 63)))
            (String (zByte (Z.lor 128 (Z.land r 63))) EmptyString))).

Definition inRange (lo hi : Z) (c : ascii) : bool :=
  (lo <=? byteZ c)%Z && (byteZ c <=? hi)%Z.

(** Length of the well-formed UTF-8 sequence at the head of [s] whose first
    byte [c] is at least 0x80, or [None]: [utf8.DecodeRuneInString] then
    yields [RuneError] of width 1. *)
Definition utf8Width (c : ascii) (rest : string) : option nat :=
  let cont := inRange 128 191 in
  match rest with
  | String c1 r1 =>
      if inRange 194 223 c then (if cont c1 then Some 2 else None)
      else
        let second3 :=
          if inRange 224 224 c then inRange 160 191 c1
          else if inRange 237 237 c then inRange 128 159 c1
          else inRange 225 239 c && cont c1 in
        let second4 :=
          if inRange 240 240 c then inRange 144 191 c1
          else if inRange 244 244 c then inRange 128 143 c1
          else inRange 241 243 c && cont c1 in
        match r1 with
        | String c2 r2 =>
            if inRange 224 239 c then
              (if second3 && cont c2 then Some 3 else None)
            else if inRange 240 244 c then
              match r2 with
              | String c3 _ =>
                  if second4 && cont c2 && cont c3 then Some 4 else None
              | EmptyString => None
              end
            else None
        | EmptyString => None
        end
  | EmptyString => None
  end.

(** The replacement character U+FFFD in UTF-8. *)
Definition runeError : string := EncodeRune 65533.

(** What a backslash followed by [c] and [rest] unquotes to inside a
    double-quoted literal, and what is left ([UnquoteChar], hard case). *)
Definition unquoteEscape (c : ascii) (rest : string) : option (string * string) :=
  let one (z : Z) := Some (String (zByte z) EmptyString, rest) in
  let z := byteZ c in
  if (z =? 97)%Z then one 7%Z            (* a *)
  else if (z =? 98)%Z then one 8%Z       (* b *)
  else if (z =? 102)%Z then one 12%Z     (* f *)
  else if (z =? 110)%Z then one 10%Z     (* n *)
  else if (z =? 114)%Z then one 13%Z     (* r *)
  else if (z =? 116)%Z then one 9%Z      (* t *)
  else if (z =? 118)%Z then one 11%Z     (* v *)
  else if (z =? 120)%Z then              (* x: one byte, possibly not UTF-8 *)
    match hexDigits 2 rest 0%Z with
    | Some (v, rest') => Some (String (zByte v) EmptyString, rest')
    | None => None
    end
  else if (z =? 117)%Z || (z =? 85)%Z then   (* u and U *)
    match hexDigits (if (z =? 117)%Z then 4 else 8) rest 0%Z with
    | Some (v, rest') =>
        if ValidRune v then Some (EncodeRune v, rest') else None
    | None => None
    end
  else if (48 <=? z)%Z && (z <=? 55)%Z then  (* three octal digits *)
    match octDigits 2 rest (z - 48)%Z with
    | Some (v, rest') =>
        if (255 <? v)%Z then None else Some (String (zByte v) EmptyString, rest')
    | None => None
    end
  else if (z =? 92)%Z then one 92%Z      (* backslash *)
  else if (z =? 34)%Z then one 34%Z      (* the quote of the literal *)
  else None.

(** The body of a double-quoted literal, up to and including its closing
    quote, which must be the last byte. *)
Fixpoint unquoteBody (fuel : nat) (s : string) : option string :=
  match fuel with
  | O => None
  | S fuel' =>
      match s with
      | EmptyString => None
      | String c rest =>
          if Ascii.eqb c chQuote then
            (if String.eqb rest EmptyString then Some EmptyString else None)
          else if Ascii.eqb c chNewline then None
          else if Ascii.eqb c chBackslash then
            match rest with
            | String e rest' =>
                match unquoteEscape e rest' with
                | Some (out, rest'') =>
                    option_map (String.append out) (unquoteBody fuel' rest'')
                | None => None
                end
            | EmptyString => None
            end
          else if (byteZ c <? 128)%Z then
            option_map (String c) (unquoteBody fuel' rest)
          else
            match utf8Width c rest with
            | Some w =>
                option_map (String.append (sliceTo s w))
                  (unquoteBody fuel' (sliceFrom s w))
            | None =>
                option_map (String.append runeError) (unquoteBody fuel' rest)
            end
      end
  end.

Definition Unquote (s : string) : option string :=
  match s with
  | String c rest =>
      if Ascii.eqb c chQuote then unquoteBody (String.length s) rest else None
  | EmptyString => None
  end.

End strconv.

(** ** structtag.go *)

(** The first loop of [Extract]: skip leading spaces ([tag = tag[i:]]). *)
Fixpoint skipSpaces (tag : string) : string :=
  match tag with
  | String c rest => if Ascii.eqb c chSpace then skipSpaces rest else tag
  | EmptyString => tag
  end.

(** The second loop: the index of the first space, colon or quote, or
    [len(tag)]. *)
Fixpoint scanName (tag : string) : nat :=
  match tag with
  | String c rest =>
      if Ascii.eqb c chSpace || Ascii.eqb c chColon || Ascii.eqb c chQuote
      then 0
      else S (scanName rest)
  | EmptyString => 0
  end.

(** The third loop, started at [i = 1]: [s] is [tag[i:]]; a backslash skips
    the byte after it; the result is the final [i], which is [>= len(tag)]
    when no closing quote is met. *)
Fixpoint scanValue (s : string) (i : nat) : nat :=
  match s with
  | EmptyString => i
  | String c rest =>
      if Ascii.eqb c chQuote then i
      else if Ascii.eqb c chBackslash then
        match rest with
        | EmptyString => i + 2
        | String _ rest' => scanValue rest' (i + 2)
        end
      else scanValue rest (i + 1)
  end.

(** The two errors [Extract] can return. *)
Inductive tagError : Type :=
| errInvalidTag
| ErrSyntax.

(** [Extract] returns [(found, value, err)].  The outer loop runs on the
    remaining tag, which loses at least three bytes per round: [len(tag)]
    rounds are enough (lemma [ExtractLoop_fuel] below). *)
Fixpoint ExtractLoop (fuel : nat) (name tag : string) : bool * string * option tagError :=
  match fuel with
  | O => (false, EmptyString, None)
  | S fuel' =>
      if String.eqb tag EmptyString then (false, EmptyString, None) else
      let tag := skipSpaces tag in
      if String.eqb tag EmptyString then (false, EmptyString, None) else
      let i := scanName tag in
      if (String.length tag <=? i + 1)%nat
         || negb (byteIs tag i chColon)
         || negb (byteIs tag (i + 1) chQuote)
      then (false, EmptyString, Some errInvalidTag)
      else
        let foundName := sliceTo tag i in
        let tag := sliceFrom tag (i + 1) in
        let i := scanValue (sliceFrom tag 1) 1 in
        if (String.length tag <=? i)%nat then (false, EmptyString, Some errInvalidTag)
        else
          let qValue := sliceTo tag (i + 1) in
          let tag := sliceFrom tag (i + 1) in
          if String.eqb foundName name then
            match strconv.Unquote qValue with
            | Some value => (true, value, None)
            | None => (false, EmptyString, Some ErrSyntax)
            end
          else ExtractLoop fuel' name tag
  end.

Definition Extract (name tag : string) : bool * string * option tagError :=
  ExtractLoop (String.length tag) name tag.

(** A value between double quotes, for writing tags. *)
Definition quoted (s : string) : string :=
  String chQuote (s ++ String chQuote EmptyString).


(** ** The engine file: tags *)

Module tag.
Record t : Type := mk { Name : string; Inline : bool; Private : bool }.
End tag.

Definition injectOnly : tag.t := tag.mk EmptyString false false.
Definition injectPrivate : tag.t := tag.mk EmptyString false true.
Definition injectInline : tag.t := tag.mk EmptyString true false.

(** [parseTag] returns a tag pointer and an error; a nil tag is [None]. *)
Definition parseTag (t : string) : option tag.t * option tagError :=
  match Extract "inject" t with
  | (_, _, Some err) => (None, Some err)
  | (false, _, None) => (None, None)
  | (true, value, None) =>
      if String.eqb value EmptyString then (Some injectOnly, None)
      else if String.eqb value "inline" then (Some injectInline, None)
      else if String.eqb value "private" then (Some injectPrivate, None)
      else (Some (tag.mk value false false), None)
  end.

(** ** What the engine sees through package reflect

    Types are the declared struct types (by name), pointers, interface types
    (by name), maps, and one class for every other kind. *)

Inductive Kind : Type := Struct | Ptr | Interface | Map | OtherKind.

Inductive type : Type :=
| TBasic (n : string)
| TStruct (n : string)
| TPtr (elem : type)
| TInterface (n : string)
| TMap (key elem : type).

Definition kindOf (t : type) : Kind :=
  match t with
  | TBasic _ => OtherKind
  | TStruct _ => Struct
  | TPtr _ => Ptr
  | TInterface _ => Interface
  | TMap _ _ => Map
  end.

Definition Kind_eqb (k1 k2 : Kind) : bool :=
  match k1, k2 with
  | Struct, Struct | Ptr, Ptr | Interface, Interface | Map, Map
  | OtherKind, OtherKind => true
  | _, _ => false
  end.

Fixpoint type_eqb (t1 t2 : type) : bool :=
  match t1, t2 with
  | TBasic a, TBasic b => String.eqb a b
  | TStruct a, TStruct b => String.eqb a b
  | TPtr a, TPtr b => type_eqb a b
  | TInterface a, TInterface b => String.eqb a b
  | TMap k1 e1, TMap k2 e2 => type_eqb k1 k2 && type_eqb e1 e2
  | _, _ => false
  end.

(** [t.Kind() == reflect.Ptr && t.Elem().Kind() == reflect.Struct] *)
Definition isStructPtr (t : type) : bool :=
  match t with
  | TPtr e => Kind_eqb (kindOf e) Struct
  | _ => false
  end.

(** [reflect.StructField]; [Exported] is what [CanSet] answers for a field
    reached through a pointer. *)
Module StructField.
Record t : Type := mk {
  Name : string;
  Type_ : type;
  Tag : string;
  Exported : bool;
  Anonymous : bool
}.
End StructField.

(** The program's type declarations: the fields of each struct type; the
    method sets, given as which types implement which interface; and, for two
    different types, whether a value of the first is directly assignable to
    the second. Package reflect finds it so when their underlying types are
    identical and one of the two is not a defined type (a [[]string] for a
    [type Names []string]), or for a two-way channel and a one-way channel
    type of the same element type. *)
Record TypeEnv : Type := {
  structs : list (string * list StructField.t);
  implements : type -> string -> bool;
  directlyAssignable : type -> type -> bool
}.

Definition lookupStruct (env : TypeEnv) (n : string) : option (list StructField.t) :=
  snd <$> List.find (fun d => String.eqb (fst d) n) (structs env).

(** [V.AssignableTo(T)]: identical types, [T] an interface that [V]
    implements, or two types that are directly assignable. *)
Definition AssignableTo (env : TypeEnv) (V T : type) : bool :=
  type_eqb V T
  || match T with
     | TInterface i => implements env V i
     | _ => false
     end
  || directlyAssignable env V T.

(** An address is an allocation and a path of field indices into it: the
    engine takes the address of struct fields held by value. *)
Definition addr : Type := nat * list nat.

Definition addr_eqb (a b : addr) : bool :=
  Nat.eqb (fst a) (fst b) && bool_decide (snd a = snd b).

Definition fieldAddr (a : addr) (i : nat) : addr := (fst a, (snd a ++ [i])%list).

(** Values: nil (pointer, map or interface), a pointer, a non-nil map, a value
    of another kind (its zero value is 0), a struct held by value, and a
    non-nil interface with its dynamic type. *)
Inductive value : Type :=
| VNil
| VPtr (a : addr)
| VMap
| VScalar (z : Z)
| VStruct (fs : list value)
| VIface (t : type) (v : value).

(** An [interface{}] as [Object.Value] holds: nil, or a dynamic type and a
    value. *)
Definition iface : Type := option (type * value).

(** [==] on two interfaces whose dynamic types are pointer types. *)
Definition ifaceEq (x y : iface) : bool :=
  match x, y with
  | None, None => true
  | Some (t1, v1), Some (t2, v2) =>
      type_eqb t1 t2
      && match v1, v2 with
         | VNil, VNil => true
         | VPtr a, VPtr b => addr_eqb a b
         | _, _ => false
         end
  | _, _ => false
  end.

Fixpoint zeroValue (env : TypeEnv) (depth : nat) (t : type) : value :=
  match t with
  | TBasic _ => VScalar 0
  | TStruct n =>
      match depth with
      | O => VStruct []
      | S depth' =>
          match lookupStruct env n with
          | Some fs =>
              VStruct (List.map (fun f => zeroValue env depth' (StructField.Type_ f)) fs)
          | None => VStruct []
          end
      end
  | TPtr _ | TInterface _ | TMap _ _ => VNil
  end.

(** [reflect.Zero(t)]: structs nest by value at most as deep as there are
    declarations. *)
Definition Zero (env : TypeEnv) (t : type) : value :=
  zeroValue env (S (length (structs env))) t.

(** [isNilOrZero(v, t)] is [reflect.DeepEqual] of [v] with the zero value of
    its type: a nil pointer, map or interface, a zero scalar, or a struct all
    of whose fields are so. *)
Fixpoint isZero (v : value) : bool :=
  match v with
  | VNil => true
  | VPtr _ => false
  | VMap => false
  | VScalar z => Z.eqb z 0
  | VStruct fs => forallb isZero fs
  | VIface _ _ => false
  end.

Definition isNilOrZero (v : value) (t : type) : bool := isZero v.

(** What [field.Set(reflect.ValueOf(x))] stores in a field of type [t]. *)
Definition boxFor (t : type) (x : type * value) : value :=
  match kindOf t with
  | Interface => VIface (fst x) (snd x)
  | _ => snd x
  end.

(** Memory: the allocated structs. *)
Fixpoint readPath (v : value) (p : list nat) : option value :=
  match p with
  | [] => Some v
  | i :: p' =>
      match v with
      | VStruct fs =>
          match fs !! i with
          | Some w => readPath w p'
          | None => None
          end
      | _ => None
      end
  end.

Fixpoint writePath (v : value) (p : list nat) (x : value) : option value :=
  match p with
  | [] => Some x
  | i :: p' =>
      match v with
      | VStruct fs =>
          match fs !! i with
          | Some w =>
              match writePath w p' x with
              | Some w' => Some (VStruct (<[i := w']> fs))
              | None => None
              end
          | None => None
          end
      | _ => None
      end
  end.

Definition load (m : list value) (a : addr) : option value :=
  match m !! fst a with
  | Some v => readPath v (snd a)
  | None => None
  end.

Definition store (m : list value) (a : addr) (x : value) : option (list value) :=
  match m !! fst a with
  | Some v =>
      match writePath v (snd a) x with
      | Some v' => Some (<[fst a := v']> m)
      | None => None
      end
  | None => None
  end.

(** ** Objects and the graph

    An [*Object] is an index into the store of objects, so that the graph,
    the dependency maps and the caller share one record per pointer. *)

Record Object : Type := mkObject {
  Value : iface;
  Name : string;
  Complete : bool;
  Fields : option (gmap string nat);
  reflectType : option type;
  reflectValue : option value;
  private : bool;
  created : bool;
  embedded : bool
}.

(** [&Object{Value: v, private: p, created: c, embedded: e}] *)
Definition objectLit (v : iface) (p c e : bool) : Object :=
  mkObject v EmptyString false None None None p c e.

Definition withReflect (o : Object) : Object :=
  mkObject (Value o) (Name o) (Complete o) (Fields o)
    (fst <$> Value o) (snd <$> Value o)
    (private o) (created o) (embedded o).

Definition withFields (o : Object) (m : gmap string nat) : Object :=
  mkObject (Value o) (Name o) (Complete o) (Some m)
    (reflectType o) (reflectValue o)
    (private o) (created o) (embedded o).

(** [unnamedType] is the set of keys mapped to true. The logger is left out:
    it only receives messages. *)
Record Graph : Type := mkGraph {
  unnamed : list nat;
  unnamedType : list type;
  named : gmap string nat
}.

Record state : Type := mkState {
  heap : list value;
  objects : list Object;
  graph : Graph
}.

Definition emptyState : state := mkState [] [] (mkGraph [] [] ∅).

Definition setHeap (st : state) (m : list value) : state :=
  mkState m (objects st) (graph st).

Definition setObject (st : state) (oid : nat) (o : Object) : state :=
  mkState (heap st) (<[oid := o]> (objects st)) (graph st).

Definition setGraph (st : state) (g : Graph) : state :=
  mkState (heap st) (objects st) g.

(** Allocation of an [Object] literal: its pointer and the new state. *)
Definition newObject (o : Object) (st : state) : nat * state :=
  (length (objects st), mkState (heap st) (objects st ++ [o])%list (graph st)).

(** [reflect.New]: the address of a fresh allocation holding [v]. *)
Definition newValue (v : value) (st : state) : addr * state :=
  ((length (heap st), []), mkState (heap st ++ [v])%list (objects st) (graph st)).

(** The errors built by the engine, one constructor per [fmt.Errorf] call
    site, with what the message is formatted from. The receiver is named by
    its pointer where the message prints the object. *)
Inductive error : Type :=
| ErrFieldsSpecified (o : nat)
| ErrNotStructPtr (t : type) (v : iface)
| ErrTwoUnnamed (t : type)
| ErrTwoNamed (name : string)
| ErrTagFormat (fieldTag fieldName : string) (t : option type)
| ErrUnexported (fieldName : string) (t : option type)
| ErrInlineNonStruct (fieldName : string) (t : option type)
| ErrNamedNotFound (name fieldName : string) (t : option type)
| ErrNotAssignable (name : string) (fieldType : type) (fieldName : string)
    (existingType : type) (t : option type)
| ErrPrivateInline (fieldName : string) (t : option type)
| ErrInlineNeedsTag (fieldName : string) (t : option type)
| ErrMapNotPrivate (fieldName : string) (t : option type)
| ErrUnsupported (fieldName : string) (t : option type)
| ErrPrivateInterface (fieldName : string) (t : option type)
| ErrTwoAssignable (fieldName : string) (t : option type)
    (foundType : option type) (foundValue : iface)
    (existingType : option type) (existingValue : option value)
| ErrNoAssignable (fieldName : string) (t : option type).

(** How a call ends: it returns nil, returns an error, panics, or (in the
    model only) has not finished within the given number of nested calls or
    loop rounds. *)
Inductive outcome : Type :=
| Done
| Failed (e : error)
| Panicked
| OutOfFuel.

Definition typeTaken (g : Graph) (t : type) : bool :=
  existsb (type_eqb t) (unnamedType g).

(** The body of the loop of [Provide], for one object pointer. *)
Definition provideOne (oid : nat) (st : state) : state * outcome :=
  match objects st !! oid with
  | None => (st, Panicked)
  | Some o0 =>
      let o := withReflect o0 in
      let st := setObject st oid o in
      let g := graph st in
      match Fields o with
      | Some _ => (st, Failed (ErrFieldsSpecified oid))
      | None =>
          if String.eqb (Name o) EmptyString then
            match reflectType o with
            | None => (st, Panicked)
            | Some t =>
                if negb (isStructPtr t) then (st, Failed (ErrNotStructPtr t (Value o)))
                else if negb (private o) then
                  if typeTaken g t then (st, Failed (ErrTwoUnnamed t))
                  else
                    (setGraph st
                       (mkGraph (unnamed g ++ [oid])%list (t :: unnamedType g) (named g)),
                     Done)
                else
                  (setGraph st
                     (mkGraph (unnamed g ++ [oid])%list (unnamedType g) (named g)),
                   Done)
            end
          else
            match named g !! Name o with
            | Some _ => (st, Failed (ErrTwoNamed (Name o)))
            | None =>
                (setGraph st
                   (mkGraph (unnamed g) (unnamedType g) (<[Name o := oid]> (named g))),
                 Done)
            end
      end
  end.

(** [g.Provide(objects...)] *)
Fixpoint Provide (oids : list nat) (st : state) : state * outcome :=
  match oids with
  | [] => (st, Done)
  | oid :: rest =>
      match provideOne oid st with
      | (st', Done) => Provide rest st'
      | r => r
      end
  end.

(** [o.addDep(field, dep)] *)
Definition addDep (oid : nat) (field : string) (dep : nat) (st : state) : state :=
  match objects st !! oid with
  | Some o => setObject st oid (withFields o (<[field := dep]> (default ∅ (Fields o))))
  | None => st
  end.

(** [field.Set(x)] on the field at [fa]; a dangling address cannot arise in
    Go and is a panic here. *)
Definition setField (fa : addr) (x : value) (st : state) : option state :=
  setHeap st <$> store (heap st) fa x.

(** The result of a scan of the unnamed objects for one assignable to a
    type. *)
Inductive scanResult : Type :=
| Found (eid : nat) (x : type * value)
| NotFound
| ScanPanic.

Section Engine.

Variable env : TypeEnv.

(** The scan of [populateExplicit] for an existing value to assign: the
    first unnamed object that is not private and whose type is assignable
    to the field's. *)
Fixpoint findAssignable (objs : list Object) (fieldType : type) (l : list nat)
  : scanResult :=
  match l with
  | [] => NotFound
  | eid :: l' =>
      match objs !! eid with
      | None => ScanPanic
      | Some existing =>
          if private existing then findAssignable objs fieldType l'
          else
            match reflectType existing with
            | None => ScanPanic
            | Some et =>
                if AssignableTo env et fieldType then
                  match Value existing with
                  | Some x => Found eid x
                  | None => ScanPanic
                  end
                else findAssignable objs fieldType l'
            end
      end
  end.

(** The scan of the deep injection: does an unnamed object hold this very
    value? *)
Definition tracked (st : state) (x : iface) : bool :=
  existsb
    (fun eid =>
       match objects st !! eid with
       | Some existing => ifaceEq (Value existing) x
       | None => false
       end)
    (unnamed (graph st)).

(** One round of [StructLoop] in [populateExplicit], for field [i] (declared
    as [f]) of the struct at [a] that object [oid], of type [ot], points to.
    [rec] is [populateExplicit] itself. [Done] is: go on with the next
    field. *)
Definition explicitField (rec : nat -> state -> state * outcome)
    (oid : nat) (ot : option type) (a : addr)
    (i : nat) (f : StructField.t) (st : state) : state * outcome :=
  let fa := fieldAddr a i in
  let fieldType := StructField.Type_ f in
  let fieldName := StructField.Name f in
  match load (heap st) fa with
  | None => (st, Panicked)
  | Some field =>
  match parseTag (StructField.Tag f) with
  | (_, Some _) => (st, Failed (ErrTagFormat (StructField.Tag f) fieldName ot))
  | (None, None) => (st, Done)
  | (Some tg, None) =>
    if negb (StructField.Exported f) then
      (st, Failed (ErrUnexported fieldName ot))
    else if tag.Inline tg && negb (Kind_eqb (kindOf fieldType) Struct) then
      (st, Failed (ErrInlineNonStruct fieldName ot))
    else if negb (isNilOrZero field fieldType) then
      if isStructPtr fieldType && negb (tag.Private tg) then
        let existingValue : iface := Some (fieldType, field) in
        if tracked st existingValue then (st, Done)
        else
          let (existingObject, st1) :=
            newObject (objectLit existingValue false false false) st in
          match Provide [existingObject] st1 with
          | (st2, Done) => rec existingObject st2
          | (st2, Failed _) => (st2, Done)
          | r => r
          end
      else (st, Done)
    else if negb (String.eqb (tag.Name tg) EmptyString) then
      match named (graph st) !! tag.Name tg with
      | None => (st, Failed (ErrNamedNotFound (tag.Name tg) fieldName ot))
      | Some eid =>
          match objects st !! eid with
          | None => (st, Panicked)
          | Some existing =>
              match reflectType existing with
              | None => (st, Panicked)
              | Some et =>
                  if negb (AssignableTo env et fieldType) then
                    (st, Failed (ErrNotAssignable (tag.Name tg) fieldType fieldName et ot))
                  else
                    match Value existing with
                    | None => (st, Panicked)
                    | Some x =>
                        match setField fa (boxFor fieldType x) st with
                        | None => (st, Panicked)
                        | Some st1 => (addDep oid fieldName eid st1, Done)
                        end
                    end
              end
          end
      end
    else if Kind_eqb (kindOf fieldType) Struct then
      if tag.Private tg then (st, Failed (ErrPrivateInline fieldName ot))
      else if negb (tag.Inline tg) then (st, Failed (ErrInlineNeedsTag fieldName ot))
      else
        let (inlineObject, st1) :=
          newObject
            (objectLit (Some (TPtr fieldType, VPtr fa)) true false
               (StructField.Anonymous f)) st in
        Provide [inlineObject] st1
    else if Kind_eqb (kindOf fieldType) Interface then (st, Done)
    else if Kind_eqb (kindOf fieldType) Map then
      if negb (tag.Private tg) then (st, Failed (ErrMapNotPrivate fieldName ot))
      else
        match setField fa VMap st with
        | None => (st, Panicked)
        | Some st1 => (st1, Done)
        end
    else if negb (isStructPtr fieldType) then
      (st, Failed (ErrUnsupported fieldName ot))
    else
      let create (_ : unit) : state * outcome :=
        let elem := match fieldType with TPtr e => e | _ => fieldType end in
        let (na, st1) := newValue (Zero env elem) st in
        let (newObj, st2) :=
          newObject (objectLit (Some (TPtr elem, VPtr na)) (tag.Private tg) true false)
            st1 in
        match Provide [newObj] st2 with
        | (st3, Done) =>
            match rec newObj st3 with
            | (st4, Done) =>
                match setField fa (VPtr na) st4 with
                | None => (st4, Panicked)
                | Some st5 => (addDep oid fieldName newObj st5, Done)
                end
            | r => r
            end
        | r => r
        end in
      if negb (tag.Private tg) then
        match findAssignable (objects st) fieldType (unnamed (graph st)) with
        | ScanPanic => (st, Panicked)
        | Found eid x =>
            match setField fa (boxFor fieldType x) st with
            | None => (st, Panicked)
            | Some st1 => (addDep oid fieldName eid st1, Done)
            end
        | NotFound => create tt
        end
      else create tt
  end
  end.

(** A loop over the fields of a struct type, in declaration order, that
    stops at the first round that does not end with [Done]. *)
Fixpoint structLoop (step : nat -> StructField.t -> state -> state * outcome)
    (i : nat) (fs : list StructField.t) (st : state) : state * outcome :=
  match fs with
  | [] => (st, Done)
  | f :: fs' =>
      match step i f st with
      | (st', Done) => structLoop step (S i) fs' st'
      | r => r
      end
  end.

(** What both passes do first with an object: a named value that is not a
    pointer to a struct is skipped (the pass returns nil at once); otherwise
    the fields of [o.reflectValue.Elem()] are walked, from its address and the
    declared fields of its type; anything else panics inside package
    reflect. *)
Inductive target : Type :=
| Skip
| Walk (a : addr) (fs : list StructField.t)
| Bad.

Definition walkTarget (o : Object) : target :=
  let elem :=
    match reflectType o, reflectValue o with
    | Some (TPtr (TStruct n)), Some (VPtr a) =>
        match lookupStruct env n with
        | Some fs => Walk a fs
        | None => Bad
        end
    | _, _ => Bad
    end in
  if negb (String.eqb (Name o) EmptyString) then
    match reflectType o with
    | None => Bad
    | Some t => if negb (isStructPtr t) then Skip else elem
    end
  else elem.

(** [g.populateExplicit(o)]; [fuel] bounds the depth of nested calls. *)
Fixpoint populateExplicit (fuel : nat) (oid : nat) (st : state) : state * outcome :=
  match fuel with
  | O => (st, OutOfFuel)
  | S fuel' =>
      match objects st !! oid with
      | None => (st, Panicked)
      | Some o =>
          match walkTarget o with
          | Skip => (st, Done)
          | Bad => (st, Panicked)
          | Walk a fs =>
              structLoop
                (explicitField (populateExplicit fuel') oid (reflectType o) a)
                0 fs st
          end
      end
  end.

(** The scan of [populateUnnamedInterface] over [g.unnamed] for the field at
    [fa]; [found] is the object assigned so far. *)
Fixpoint interfaceScan (oid : nat) (ot : option type) (fa : addr)
    (fieldType : type) (fieldName : string)
    (l : list nat) (found : option nat) (st : state) : state * outcome :=
  match l with
  | [] =>
      match found with
      | None => (st, Failed (ErrNoAssignable fieldName ot))
      | Some _ => (st, Done)
      end
  | eid :: l' =>
      match objects st !! eid with
      | None => (st, Panicked)
      | Some existing =>
          if private existing then
            interfaceScan oid ot fa fieldType fieldName l' found st
          else
            match reflectType existing with
            | None => (st, Panicked)
            | Some et =>
                if AssignableTo env et fieldType then
                  match found with
                  | Some fid =>
                      match objects st !! fid with
                      | Some fo =>
                          (st, Failed (ErrTwoAssignable fieldName ot
                                         (reflectType fo) (Value fo)
                                         (reflectType existing) (reflectValue existing)))
                      | None => (st, Panicked)
                      end
                  | None =>
                      match Value existing with
                      | None => (st, Panicked)
                      | Some x =>
                          match setField fa (boxFor fieldType x) st with
                          | None => (st, Panicked)
                          | Some st1 =>
                              interfaceScan oid ot fa fieldType fieldName l'
                                (Some eid) (addDep oid fieldName eid st1)
                          end
                      end
                  end
                else interfaceScan oid ot fa fieldType fieldName l' found st
            end
      end
  end.

(** One round of the loop of [populateUnnamedInterface]. This pass has no
    [CanSet] test: on a field that is not exported, [isNilOrZero] panics in
    [Value.Interface]. *)
Definition interfaceField (oid : nat) (ot : option type) (a : addr)
    (i : nat) (f : StructField.t) (st : state) : state * outcome :=
  let fa := fieldAddr a i in
  let fieldType := StructField.Type_ f in
  let fieldName := StructField.Name f in
  match load (heap st) fa with
  | None => (st, Panicked)
  | Some field =>
  match parseTag (StructField.Tag f) with
  | (_, Some _) => (st, Failed (ErrTagFormat (StructField.Tag f) fieldName ot))
  | (None, None) => (st, Done)
  | (Some tg, None) =>
    if negb (Kind_eqb (kindOf fieldType) Interface) then (st, Done)
    else if tag.Private tg then (st, Failed (ErrPrivateInterface fieldName ot))
    else if negb (StructField.Exported f) then (st, Panicked)
    else if negb (isNilOrZero field fieldType) then (st, Done)
    else if negb (String.eqb (tag.Name tg) EmptyString) then (st, Panicked)
    else interfaceScan oid ot fa fieldType fieldName (unnamed (graph st)) None st
  end
  end.

(** [g.populateUnnamedInterface(o)] *)
Definition populateUnnamedInterface (oid : nat) (st : state) : state * outcome :=
  match objects st !! oid with
  | None => (st, Panicked)
  | Some o =>
      match walkTarget o with
      | Skip => (st, Done)
      | Bad => (st, Panicked)
      | Walk a fs => structLoop (interfaceField oid (reflectType o) a) 0 fs st
      end
  end.

(** [for _, o := range g.named]: Go visits the keys of a map in an order it
    does not specify; the order [ks] taken by the run is a parameter.
    Objects marked complete are skipped. *)
Fixpoint rangeNamed (f : nat -> state -> state * outcome)
    (ks : list string) (st : state) : state * outcome :=
  match ks with
  | [] => (st, Done)
  | k :: ks' =>
      match named (graph st) !! k with
      | None => rangeNamed f ks' st
      | Some oid =>
          match objects st !! oid with
          | None => (st, Panicked)
          | Some o =>
              if Complete o then rangeNamed f ks' st
              else
                match f oid st with
                | (st', Done) => rangeNamed f ks' st'
                | r => r
                end
          end
      end
  end.

(** The second loop of [Populate]: by index over [g.unnamed], which grows
    while it is walked. [rounds] bounds the number of rounds. *)
Fixpoint explicitLoop (fuel rounds : nat) (i : nat) (st : state) : state * outcome :=
  match rounds with
  | O => (st, OutOfFuel)
  | S rounds' =>
      match unnamed (graph st) !! i with
      | None => (st, Done)
      | Some oid =>
          match objects st !! oid with
          | None => (st, Panicked)
          | Some o =>
              if Complete o then explicitLoop fuel rounds' (S i) st
              else
                match populateExplicit fuel oid st with
                | (st', Done) => explicitLoop fuel rounds' (S i) st'
                | r => r
                end
          end
      end
  end.

(** [for _, o := range g.unnamed] over the slice as it is when the loop
    starts. *)
Fixpoint rangeUnnamed (f : nat -> state -> state * outcome)
    (l : list nat) (st : state) : state * outcome :=
  match l with
  | [] => (st, Done)
  | oid :: l' =>
      match objects st !! oid with
      | None => (st, Panicked)
      | Some o =>
          if Complete o then rangeUnnamed f l' st
          else
            match f oid st with
            | (st', Done) => rangeUnnamed f l' st'
            | r => r
            end
      end
  end.

(** [g.Populate()]: [ks1] and [ks4] are the orders in which the first and
    the last loop visit the names. *)
Definition Populate (fuel : nat) (ks1 ks4 : list string) (st : state)
  : state * outcome :=
  match rangeNamed (populateExplicit fuel) ks1 st with
  | (st1, Done) =>
      match explicitLoop fuel fuel 0 st1 with
      | (st2, Done) =>
          match rangeUnnamed populateUnnamedInterface (unnamed (graph st2)) st2 with
          | (st3, Done) => rangeNamed populateUnnamedInterface ks4 st3
          | r => r
          end
      | r => r
      end
  | r => r
  end.

End Engine.

(** ** Registration: statements and examples *)

(** C6, as the specification words it: a record is rejected for its
    dependency map exactly when that map has an entry. *)
Definition rejected_iff_nonempty (st : state) (oid : nat) (o : Object) : Prop :=
  snd (Provide [oid] st) = Failed (ErrFieldsSpecified oid)
  <-> exists m, Fields o = Some m /\ m <> ∅.

(** An object whose dependency map is allocated but has no entry. *)
Definition emptyMapObject : Object :=
  mkObject (Some (TPtr (TStruct "T"), VPtr (0, []))) EmptyString false (Some ∅)
    None None false false false.

Definition emptyMapState : state :=
  mkState [VStruct []] [emptyMapObject] (mkGraph [] [] ∅).

(** Two records for two instances of one struct type. *)
Definition twinState (p1 p2 : bool) : state :=
  mkState [VStruct []; VStruct []]
    [objectLit (Some (TPtr (TStruct "T"), VPtr (0, []))) p1 false false;
     objectLit (Some (TPtr (TStruct "T"), VPtr (1, []))) p2 false false]
    (mkGraph [] [] ∅).

(** A named configuration value of a basic type, already provided. *)
Definition namedIntState : state :=
  mkState []
    [mkObject (Some (TBasic "int", VScalar 42)) "answer" false None
       (Some (TBasic "int")) (Some (VScalar 42)) false false false]
    (mkGraph [] [] {["answer" := 0]}).

Definition noTypes : TypeEnv := Build_TypeEnv [] (fun _ _ => false) (fun _ _ => false).


(** ** The tag grammar, as the specification describes it

    A tag is a sequence of pairs, each a key, a colon and a quoted value,
    with optional spaces before each key. *)

Fixpoint allBytes (P : ascii -> Prop) (s : string) : Prop :=
  match s with
  | EmptyString => True
  | String c rest => P c /\ allBytes P rest
  end.

Definition isSpaces (s : string) : Prop := allBytes (fun c => c = chSpace) s.

(** A key has no space, colon or quote. *)
Definition keyChar (c : ascii) : Prop :=
  c <> chSpace /\ c <> chColon /\ c <> chQuote.

Definition isKey (s : string) : Prop := allBytes keyChar s.

(** What follows an opening quote, up to and including the closing quote: a
    backslash takes the next byte with it. *)
Inductive closedBody : string -> Prop :=
| closed_end : closedBody (String chQuote EmptyString)
| closed_char (c : ascii) (s : string) :
    c <> chQuote -> c <> chBackslash -> closedBody s -> closedBody (String c s)
| closed_escape (c : ascii) (s : string) :
    closedBody s -> closedBody (String chBackslash (String c s)).

(** What follows an opening quote when no quote closes it. *)
Inductive openBody : string -> Prop :=
| open_end : openBody EmptyString
| open_char (c : ascii) (s : string) :
    c <> chQuote -> c <> chBackslash -> openBody s -> openBody (String c s)
| open_backslash : openBody (String chBackslash EmptyString)
| open_escape (c : ascii) (s : string) :
    openBody s -> openBody (String chBackslash (String c s)).

(** [wellFormedUpTo tag ps r]: [tag] is the well-formed pairs [ps] (keys with
    the values still quoted) followed by [r]. *)
Inductive wellFormedUpTo : string -> list (string * string) -> string -> Prop :=
| upto_nil (r : string) : wellFormedUpTo r [] r
| upto_cons (sp k body tag r : string) (ps : list (string * string)) :
    isSpaces sp -> isKey k -> closedBody body ->
    wellFormedUpTo tag ps r ->
    wellFormedUpTo (sp ++ k ++ String chColon (String chQuote (body ++ tag)))
      ((k, String chQuote body) :: ps) r.

(** The ways the next pair can be malformed for the scanner: spaces, a key,
    and then no colon, no opening quote after the colon, or no closing
    quote. *)
Inductive malformedPair : string -> Prop :=
| missing_colon_end (sp k : string) :
    isSpaces sp -> isKey k -> k <> EmptyString -> malformedPair (sp ++ k)
| missing_colon (sp k : string) (c : ascii) (rest : string) :
    isSpaces sp -> isKey k -> c = chSpace \/ c = chQuote ->
    (k <> EmptyString \/ c = chQuote) ->
    malformedPair (sp ++ k ++ String c rest)
| missing_quote_end (sp k : string) :
    isSpaces sp -> isKey k -> malformedPair (sp ++ k ++ String chColon EmptyString)
| missing_quote (sp k : string) (c : ascii) (rest : string) :
    isSpaces sp -> isKey k -> c <> chQuote ->
    malformedPair (sp ++ k ++ String chColon (String c rest))
| unterminated_quote (sp k body : string) :
    isSpaces sp -> isKey k -> openBody body ->
    malformedPair (sp ++ k ++ String chColon (String chQuote body)).

(** C8, as the specification words it: whenever some pair of the tag is
    malformed, or the value of some pair has an invalid escape sequence,
    [Extract] returns an error. *)
Definition anyMalformedPairIsAnError (name tag : string) : Prop :=
  (exists ps r, wellFormedUpTo tag ps r
     /\ (malformedPair r \/ exists k q, (k, q) ∈ ps /\ strconv.Unquote q = None)) ->
  exists e, snd (Extract name tag) = Some e.

(** The body of the loop of [Extract] once the leading spaces are gone and the
    tag is not empty; [continue] is the rest of the loop. *)
Definition extractRound (continue : string -> bool * string * option tagError)
    (name tag : string) : bool * string * option tagError :=
  let i := scanName tag in
  if (String.length tag <=? i + 1)%nat
     || negb (byteIs tag i chColon)
     || negb (byteIs tag (i + 1) chQuote)
  then (false, EmptyString, Some errInvalidTag)
  else
    let foundName := sliceTo tag i in
    let tag := sliceFrom tag (i + 1) in
    let i := scanValue (sliceFrom tag 1) 1 in
    if (String.length tag <=? i)%nat then (false, EmptyString, Some errInvalidTag)
    else
      let qValue := sliceTo tag (i + 1) in
      let tag := sliceFrom tag (i + 1) in
      if String.eqb foundName name then
        match strconv.Unquote qValue with
        | Some value => (true, value, None)
        | None => (false, EmptyString, Some ErrSyntax)
        end
      else continue tag.

(** A bare directive followed by a key with no colon. *)
Definition bareThenJunk : string := "inject:" ++ quoted "" ++ " x".

(** ** What one round of the explicit pass can do

    [provideFresh lit st] is [g.Provide(&Object{...})] on a literal: the
    allocation of the object and its registration. *)
Definition provideFresh (lit : Object) (st : state) : nat * (state * outcome) :=
  (length (objects st), Provide [length (objects st)] (snd (newObject lit st))).

(** The state in which a literal of an unnamed record for a pointer to a
    struct has been registered. *)
Definition registered (lit : Object) (t : type) (st : state) : state :=
  mkState (heap st) (objects st ++ [withReflect lit])%list
    (mkGraph (unnamed (graph st) ++ [length (objects st)])%list
       (if private lit then unnamedType (graph st) else t :: unnamedType (graph st))
       (named (graph st))).

(** The state in which the literal was allocated but its registration was
    refused. *)
Definition refused (lit : Object) (st : state) : state :=
  mkState (heap st) (objects st ++ [withReflect lit])%list (graph st).

(** The outcomes of a round of [StructLoop], each with the facts that hold
    when it is taken. *)
Inductive explicitStep (env : TypeEnv) (rec : nat -> state -> state * outcome)
    (oid : nat) (a : addr) (i : nat) (f : StructField.t) (st : state)
  : state * outcome -> Prop :=
| step_same (r : outcome) :
    r <> OutOfFuel ->
    explicitStep env rec oid a i f st (st, r)
| step_deep_refused (field : value) :
    load (heap st) (fieldAddr a i) = Some field ->
    isZero field = false ->
    typeTaken (graph st) (StructField.Type_ f) = true ->
    explicitStep env rec oid a i f st
      (refused (objectLit (Some (StructField.Type_ f, field)) false false false) st, Done)
| step_deep (field : value) (tg : tag.t) :
    load (heap st) (fieldAddr a i) = Some field ->
    isZero field = false ->
    parseTag (StructField.Tag f) = (Some tg, None) ->
    tag.Private tg = false ->
    isStructPtr (StructField.Type_ f) = true ->
    tracked st (Some (StructField.Type_ f, field)) = false ->
    typeTaken (graph st) (StructField.Type_ f) = false ->
    explicitStep env rec oid a i f st
      (rec (length (objects st))
         (registered (objectLit (Some (StructField.Type_ f, field)) false false false)
            (StructField.Type_ f) st))
| step_assign (field : value) (x : type * value) (eid : nat) (st1 : state) :
    load (heap st) (fieldAddr a i) = Some field ->
    isZero field = true ->
    setField (fieldAddr a i) (boxFor (StructField.Type_ f) x) st = Some st1 ->
    explicitStep env rec oid a i f st (addDep oid (StructField.Name f) eid st1, Done)
| step_inline (field : value) (tg : tag.t) :
    load (heap st) (fieldAddr a i) = Some field ->
    isZero field = true ->
    parseTag (StructField.Tag f) = (Some tg, None) ->
    StructField.Exported f = true ->
    tag.Inline tg = true ->
    kindOf (StructField.Type_ f) = Struct ->
    explicitStep env rec oid a i f st
      (registered
         (objectLit (Some (TPtr (StructField.Type_ f), VPtr (fieldAddr a i))) true false
            (StructField.Anonymous f))
         (TPtr (StructField.Type_ f)) st, Done)
| step_map (field : value) (st1 : state) :
    load (heap st) (fieldAddr a i) = Some field ->
    isZero field = true ->
    setField (fieldAddr a i) VMap st = Some st1 ->
    explicitStep env rec oid a i f st (st1, Done)
| step_create_refused (elem : type) :
    StructField.Type_ f = TPtr elem ->
    typeTaken (graph st) (TPtr elem) = true ->
    explicitStep env rec oid a i f st
      (refused
         (objectLit (Some (TPtr elem, VPtr (length (heap st), []))) false true false)
         (setHeap st (heap st ++ [Zero env elem])%list),
       Failed (ErrTwoUnnamed (TPtr elem)))
| step_create (field : value) (tg : tag.t) (elem : type) (st4 : state) (r : outcome) :
    load (heap st) (fieldAddr a i) = Some field ->
    isZero field = true ->
    parseTag (StructField.Tag f) = (Some tg, None) ->
    StructField.Exported f = true ->
    StructField.Type_ f = TPtr elem ->
    isStructPtr (TPtr elem) = true ->
    (tag.Private tg = true \/ typeTaken (graph st) (TPtr elem) = false) ->
    rec (length (objects st))
      (registered
         (objectLit (Some (TPtr elem, VPtr (length (heap st), []))) (tag.Private tg) true false)
         (TPtr elem)
         (setHeap st (heap st ++ [Zero env elem])%list)) = (st4, r) ->
    explicitStep env rec oid a i f st
      (match r with
       | Done =>
           match setField (fieldAddr a i) (VPtr (length (heap st), [])) st4 with
           | Some st5 => (addDep oid (StructField.Name f) (length (objects st)) st5, Done)
           | None => (st4, Panicked)
           end
       | _ => (st4, r)
       end).

(** ** What the passes never undo *)

(** Two versions of an object that differ at most in the dependency map. *)
Definition sameButFields (o o' : Object) : Prop :=
  Value o' = Value o /\ Name o' = Name o /\ Complete o' = Complete o
  /\ reflectType o' = reflectType o /\ reflectValue o' = reflectValue o
  /\ private o' = private o /\ created o' = created o /\ embedded o' = embedded o.

(** [extends st st']: every object of [st] is still there, changed at most in
    its dependency map; the unnamed sequence and the set of taken types have
    only grown; the named map is the same. *)
Record extends (st st' : state) : Prop := mkExtends {
  ext_objects : forall i o, objects st !! i = Some o ->
                exists o', objects st' !! i = Some o' /\ sameButFields o o';
  ext_unnamed : unnamed (graph st) `prefix_of` unnamed (graph st');
  ext_types : unnamedType (graph st) `suffix_of` unnamedType (graph st');
  ext_named : named (graph st') = named (graph st)
}.

(** Pointers stored in memory stay where they are. *)
Definition keepsPointers (st st' : state) : Prop :=
  forall a p, load (heap st) a = Some (VPtr p) -> load (heap st') a = Some (VPtr p).

(** ** Statements about single fields *)

(** The edge recorded for a field of an object. *)
Definition dependency (st : state) (oid : nat) (field : string) : option nat :=
  match objects st !! oid with
  | Some o =>
      match Fields o with
      | Some m => m !! field
      | None => None
      end
  | None => None
  end.

(** An unnamed object that the scans take: not private, of a type assignable
    to the field's. *)
Definition isCandidate (env : TypeEnv) (objs : list Object) (fieldType : type)
    (eid : nat) : bool :=
  match objs !! eid with
  | Some e =>
      negb (private e)
      && match reflectType e with
         | Some et => AssignableTo env et fieldType
         | None => false
         end
  | None => false
  end.

(** Every unnamed object of the graph is in the store and has the type and
    value that [Provide] recorded. *)
Definition typedUnnamed (st : state) : Prop :=
  forall eid, eid ∈ unnamed (graph st) ->
    exists e x, objects st !! eid = Some e /\ Value e = Some x
                /\ reflectType e = Some (fst x) /\ reflectValue e = Some (snd x).

(** Every type marked as taken is the type of an unnamed object that is not
    private. *)
Definition typesBacked (st : state) : Prop :=
  forall t, typeTaken (graph st) t = true ->
    exists eid e, eid ∈ unnamed (graph st) /\ objects st !! eid = Some e
                  /\ private e = false /\ reflectType e = Some t.

(** ** The services of the tests

    [ServiceA] has no injected field, [ServiceB] has a bare pointer to
    [ServiceA], [ServiceC] a bare pointer to [ServiceB]. *)
Definition bareTag : string := "inject:" ++ quoted EmptyString.
Definition privateTag : string := "inject:" ++ quoted "private".

Definition tServiceA : type := TPtr (TStruct "ServiceA").
Definition tServiceB : type := TPtr (TStruct "ServiceB").
Definition tServiceC : type := TPtr (TStruct "ServiceC").

Definition fieldA : StructField.t := StructField.mk "A" tServiceA bareTag true false.
Definition fieldB : StructField.t := StructField.mk "B" tServiceB bareTag true false.

Definition serviceEnv : TypeEnv := {|
  structs := [("ServiceA", [StructField.mk "Name" (TBasic "string") EmptyString true false]);
              ("ServiceB", [fieldA]);
              ("ServiceC", [fieldB])];
  implements := fun _ _ => false;
  directlyAssignable := fun _ _ => false
|}.

(** [&Object{Value: v}] for a pointer to the struct allocated at [b]. *)
Definition objectFor (t : type) (b : nat) : Object :=
  objectLit (Some (t, VPtr (b, []))) false false false.

(** serviceA and an empty ServiceB, both about to be provided. *)
Definition reuseStart : state :=
  mkState [VStruct [VScalar 1]; VStruct [VNil]]
    [objectFor tServiceA 0; objectFor tServiceB 1] (mkGraph [] [] ∅).

Definition reuseProvided : state := fst (Provide [0; 1] reuseStart).

(** serviceA, a ServiceB built by hand with a nil A, and serviceC whose B is
    that ServiceB; the records are for serviceA and serviceC only. *)
Definition mixedStart : state :=
  mkState [VStruct [VScalar 1]; VStruct [VNil]; VStruct [VPtr (1, [])]]
    [objectFor tServiceA 0; objectFor tServiceC 2] (mkGraph [] [] ∅).

Definition mixedProvided : state := fst (Provide [0; 1] mixedStart).

(** The same with one more ServiceB, provided by the caller. *)
Definition crowdedStart : state :=
  mkState [VStruct [VScalar 1]; VStruct [VNil]; VStruct [VPtr (1, [])]; VStruct [VNil]]
    [objectFor tServiceA 0; objectFor tServiceB 3; objectFor tServiceC 2]
    (mkGraph [] [] ∅).

Definition crowdedProvided : state := fst (Provide [0; 1; 2] crowdedStart).

(** C1, as the specification words it, for one round of the explicit pass: a
    pointer-to-struct field with a directive that is not private holds a
    pointer that no unnamed object holds; then the value is registered (not
    private, not created) and the explicit pass runs on the new record. *)
Definition untrackedValueIsRegistered (env : TypeEnv) (fuel : nat) (oid : nat)
    (ot : option type) (a : addr) (i : nat) (f : StructField.t) (st : state) : Prop :=
  forall (p : addr) (tg : tag.t),
    load (heap st) (fieldAddr a i) = Some (VPtr p) ->
    parseTag (StructField.Tag f) = (Some tg, None) ->
    StructField.Exported f = true ->
    tag.Inline tg = false ->
    isStructPtr (StructField.Type_ f) = true ->
    tag.Private tg = false ->
    tracked st (Some (StructField.Type_ f, VPtr p)) = false ->
    explicitField env (populateExplicit env fuel) oid ot a i f st
    = populateExplicit env fuel (length (objects st))
        (registered (objectLit (Some (StructField.Type_ f, VPtr p)) false false false)
           (StructField.Type_ f) st).

(** C5, as the specification words it, for the registration of a value that
    deep injection discovers: when [Provide] refuses the new record with an
    error, the round returns that error. *)
Definition registrationFailureIsReported (env : TypeEnv) (fuel : nat) (oid : nat)
    (ot : option type) (a : addr) (i : nat) (f : StructField.t) (st : state) : Prop :=
  forall (p : addr) (tg : tag.t) (st' : state) (e : error),
    load (heap st) (fieldAddr a i) = Some (VPtr p) ->
    parseTag (StructField.Tag f) = (Some tg, None) ->
    StructField.Exported f = true ->
    tag.Inline tg = false ->
    isStructPtr (StructField.Type_ f) = true ->
    tag.Private tg = false ->
    tracked st (Some (StructField.Type_ f, VPtr p)) = false ->
    Provide [length (objects st)]
      (snd (newObject (objectLit (Some (StructField.Type_ f, VPtr p)) false false false) st))
    = (st', Failed e) ->
    snd (explicitField env (populateExplicit env fuel) oid ot a i f st) = Failed e.

(** ** An interface with two implementations

    [App] has a bare field of interface type [Logger]; [ConsoleLogger] and
    [FileLogger] both implement it. *)
Definition tLogger : type := TInterface "Logger".
Definition tConsole : type := TPtr (TStruct "ConsoleLogger").
Definition tFile : type := TPtr (TStruct "FileLogger").
Definition tApp : type := TPtr (TStruct "App").

Definition fieldLog : StructField.t := StructField.mk "Log" tLogger bareTag true false.

Definition loggerEnv : TypeEnv := {|
  structs := [("ConsoleLogger", []); ("FileLogger", []); ("App", [fieldLog])];
  implements := fun t i =>
    String.eqb i "Logger" && (type_eqb t tConsole || type_eqb t tFile);
  directlyAssignable := fun _ _ => false
|}.

(** An App and one ConsoleLogger; with [both], a FileLogger as well. *)
Definition loggerStart (both : bool) : state :=
  mkState [VStruct [VNil]; VStruct []; VStruct []]
    ([objectFor tApp 0; objectFor tConsole 1] ++ (if both then [objectFor tFile 2] else []))%list
    (mkGraph [] [] ∅).

Definition loggerProvided (both : bool) : state :=
  fst (Provide (if both then [0; 1; 2] else [0; 1]) (loggerStart both)).

(** ** Termination: statements and examples *)

(** C2, as the specification words it: [Populate] returns, that is, some
    number of nested calls and loop rounds is enough for it. *)
Definition populateTerminates (env : TypeEnv) (ks1 ks4 : list string) (st : state) : Prop :=
  exists fuel, snd (Populate env fuel ks1 ks4 st) <> OutOfFuel.

(** A list node that asks for a private instance of its own type. *)
Definition fieldNext : StructField.t :=
  StructField.mk "Next" (TPtr (TStruct "Node")) privateTag true false.

Definition nodeEnv : TypeEnv := {|
  structs := [("Node", [fieldNext])];
  implements := fun _ _ => false;
  directlyAssignable := fun _ _ => false
|}.

Definition nodeStart : state :=
  mkState [VStruct [VNil]] [objectFor (TPtr (TStruct "Node")) 0] (mkGraph [] [] ∅).

Definition nodeProvided : state := fst (Provide [0] nodeStart).

(** The cyclic pair of the tests: [a.B == b] and [b.A == a], both provided;
    [A] is of the empty interface type. *)
Definition tCircularA : type := TPtr (TStruct "CircularA").
Definition tCircularB : type := TPtr (TStruct "CircularB").

Definition circularEnv : TypeEnv := {|
  structs := [("CircularB",
               [StructField.mk "A" (TInterface "interface{}") bareTag true false]);
              ("CircularA", [StructField.mk "B" tCircularB bareTag true false])];
  implements := fun _ i => String.eqb i "interface{}";
  directlyAssignable := fun _ _ => false
|}.

Definition circularStart : state :=
  mkState [VStruct [VPtr (1, [])]; VStruct [VIface tCircularA (VPtr (0, []))]]
    [objectFor tCircularA 0; objectFor tCircularB 1] (mkGraph [] [] ∅).

Definition circularProvided : state := fst (Provide [0; 1] circularStart).

(** The types of the fields of the declared structs: the only types the
    passes register records for. *)
Definition fieldTypes (env : TypeEnv) : list type :=
  flat_map (fun d => List.map StructField.Type_ (snd d)) (structs env).

(** How many of them (with repetitions) are not taken yet. *)
Definition avail (env : TypeEnv) (st : state) : nat :=
  length (List.filter (fun t => negb (typeTaken (graph st) t)) (fieldTypes env)).

(** The struct for which a round of the explicit pass makes a record
    whatever the graph holds: the struct that an exported field with the
    inline directive holds by value, or the struct that a nil exported field
    with the private directive points to. *)
Definition freshStruct (f : StructField.t) (m : string) : Prop :=
  exists tg, parseTag (StructField.Tag f) = (Some tg, None)
    /\ StructField.Exported f = true
    /\ ((tag.Inline tg = true /\ StructField.Type_ f = TStruct m)
        \/ (tag.Private tg = true /\ StructField.Type_ f = TPtr (TStruct m))).

(** A rank of the struct types that decreases along such fields. *)
Definition ranked (env : TypeEnv) (rk : string -> nat) : Prop :=
  forall d f m, d ∈ structs env -> f ∈ snd d -> freshStruct f m -> rk m < rk (fst d).

(** No cycle of struct types runs through private pointer fields and inline
    fields: there is such a rank. Go itself rejects a cycle of fields held by
    value, so such a cycle has a private pointer field; with an inline field
    in it, it is the second loop of [Populate] that does not end. *)
Definition noPrivateCycle (env : TypeEnv) : Prop := exists rk : string -> nat, ranked env rk.

(** A holder with a private pointer to a leaf that has no injected field. *)
Definition fieldLeaf : StructField.t :=
  StructField.mk "L" (TPtr (TStruct "Leaf")) privateTag true false.

Definition holderEnv : TypeEnv := {|
  structs := [("Leaf", [StructField.mk "N" (TBasic "int") EmptyString true false]);
              ("Holder", [fieldLeaf])];
  implements := fun _ _ => false;
  directlyAssignable := fun _ _ => false
|}.

Definition tHolder : type := TPtr (TStruct "Holder").

Definition holderRank (n : string) : nat := if String.eqb n "Holder" then 1 else 0.

Definition holderStart : state :=
  mkState [VStruct [VNil]] [objectFor tHolder 0] (mkGraph [] [] ∅).

Definition holderProvided : state := fst (Provide [0] holderStart).

(** The measure of the termination proof. A record weighs more than the
    records the explicit pass can add for its inline and private fields, which
    are of lower rank; a fresh registration of a type is paid by the number
    of types still free. *)
Definition maxFields (env : TypeEnv) : nat :=
  list_max (List.map (fun d => length (snd d)) (structs env)).

Definition maxRank (env : TypeEnv) (rk : string -> nat) : nat :=
  list_max (List.map (fun d => rk (fst d)) (structs env)).

Definition rankWeight (env : TypeEnv) (r : nat) : nat := S (2 * maxFields env) ^ r.

Definition typeWeight (env : TypeEnv) (rk : string -> nat) (t : option type) : nat :=
  match t with
  | Some (TPtr (TStruct n)) =>
      match lookupStruct env n with
      | Some _ => rankWeight env (rk n)
      | None => 1
      end
  | _ => 1
  end.

Definition maxWeight (env : TypeEnv) (rk : string -> nat) : nat :=
  rankWeight env (maxRank env rk).

Definition idWeight (env : TypeEnv) (rk : string -> nat) (objs : list Object)
    (id : nat) : nat :=
  match objs !! id with
  | Some o => typeWeight env rk (reflectType o)
  | None => maxWeight env rk
  end.

Definition listWeight (env : TypeEnv) (rk : string -> nat) (objs : list Object)
    (l : list nat) : nat :=
  list_sum (List.map (idWeight env rk objs) l).

(** The weight a record for an inline or private field of a struct of rank
    [r] can have. *)
Definition childWeight (env : TypeEnv) (r : nat) : nat :=
  match r with
  | O => 0
  | S r' => rankWeight env r'
  end.

(** The rank of the struct that a record points to, and how deep the calls of
    the explicit pass can nest below a call on the record: a nested call
    follows the registration of a type that was free, or is for a struct of
    lower rank. *)
Definition typeRank (env : TypeEnv) (rk : string -> nat) (t : option type) : nat :=
  match t with
  | Some (TPtr (TStruct n)) =>
      match lookupStruct env n with
      | Some _ => rk n
      | None => 0
      end
  | _ => 0
  end.

Definition idRank (env : TypeEnv) (rk : string -> nat) (objs : list Object)
    (id : nat) : nat :=
  match objs !! id with
  | Some o => typeRank env rk (reflectType o)
  | None => 0
  end.

Definition depth (env : TypeEnv) (rk : string -> nat) (st : state) (id : nat) : nat :=
  avail env st * S (maxRank env rk) + idRank env rk (objects st) id.

(** A number of nested calls that is enough for every call of the explicit
    pass from [st] on. *)
Definition callsNeeded (env : TypeEnv) (rk : string -> nat) (st : state) : nat :=
  (avail env st + 1) * S (maxRank env rk).

(** What is left to do for the second loop of [Populate] at index [i]. *)
Definition potential (env : TypeEnv) (rk : string -> nat) (st : state) (i : nat) : nat :=
  listWeight env rk (objects st) (drop i (unnamed (graph st)))
  + 2 * maxWeight env rk * avail env st.

(** What a call of the explicit pass on [id] may cost: the weight of what it
    appends to the unnamed sequence, less what it takes from the free types,
    stays below the weight of [id]. *)
Definition callBounded (env : TypeEnv) (rk : string -> nat) (st : state) (id : nat)
    (res : state * outcome) : Prop :=
  exists k, unnamed (graph (fst res)) = (unnamed (graph st) ++ k)%list
    /\ snd res <> OutOfFuel
    /\ listWeight env rk (objects (fst res)) k
        + 2 * maxWeight env rk * avail env (fst res) + 1
        <= idWeight env rk (objects st) id + 2 * maxWeight env rk * avail env st.

(** The same for one round, against a given bound. *)
Definition roundBounded (env : TypeEnv) (rk : string -> nat) (st : state) (bound : nat)
    (res : state * outcome) : Prop :=
  exists k, unnamed (graph (fst res)) = (unnamed (graph st) ++ k)%list
    /\ snd res <> OutOfFuel
    /\ listWeight env rk (objects (fst res)) k
        + 2 * maxWeight env rk * avail env (fst res)
        <= bound + 2 * maxWeight env rk * avail env st.


(** ** Writing and reading tags: statements *)

(** How a value is written between the quotes of a tag: a backslash goes
    before every quote and every backslash of the value. *)
Fixpoint escape (v : string) : string :=
  match v with
  | EmptyString => EmptyString
  | String c rest =>
      if Ascii.eqb c chQuote || Ascii.eqb c chBackslash
      then String chBackslash (String c (escape rest))
      else String c (escape rest)
  end.

(** The bytes that stand for themselves between the quotes (the quote and the
    backslash once escaped): ASCII, and not a newline. *)
Definition plainByte (c : ascii) : Prop :=
  (strconv.byteZ c < 128)%Z /\ c <> chNewline.

Definition isPlain (v : string) : Prop := allBytes plainByte v.

(** [startsWithPair r name body]: after optional spaces, [r] starts with a
    well-formed pair for the key [name], whose value is the quote followed by
    [body]. *)
Definition startsWithPair (r name body : string) : Prop :=
  exists sp rest,
    r = sp ++ name ++ String chColon (String chQuote (body ++ rest))
    /\ isSpaces sp /\ isKey name /\ closedBody body.

(** ** The container (ioc_container.go) and the package-level helper *)

Module Container.

(** [NewContainer()]: a container with an empty graph, in a program whose
    memory is [m]. *)
Definition NewContainer (m : list value) : state := mkState m [] (mkGraph [] [] ∅).

(** [c.Provides(beans...)]: one [&Object{Value: bean}] per bean, provided in
    turn; the first error is returned. *)
Fixpoint Provides (beans : list iface) (st : state) : state * outcome :=
  match beans with
  | [] => (st, Done)
  | bean :: rest =>
      let (o, st1) := newObject (objectLit bean false false false) st in
      match Provide [o] st1 with
      | (st2, Done) => Provides rest st2
      | r => r
      end
  end.

(** [c.ProvideWithName(name, bean)]: [&Object{Name: name, Value: bean}]. *)
Definition ProvideWithName (name : string) (bean : iface) (st : state) : state * outcome :=
  let (o, st1) :=
    newObject (mkObject bean name false None None None false false false) st in
  Provide [o] st1.

(** [c.Populate()]; the deferred function only logs the time taken. *)
Definition Populate (env : TypeEnv) (fuel : nat) (ks1 ks4 : list string) (st : state)
  : state * outcome :=
  Populate env fuel ks1 ks4 st.

End Container.

Module inject.

(** The package-level [Populate(values...)]: a new graph, every value
    provided as [&Object{Value: v}], then [g.Populate()]. *)
Definition Populate (env : TypeEnv) (fuel : nat) (ks1 ks4 : list string)
    (values : list iface) (m : list value) : state * outcome :=
  match Container.Provides values (mkState m [] (mkGraph [] [] ∅)) with
  | (st, Done) => Populate env fuel ks1 ks4 st
  | r => r
  end.

End inject.

(** ** [g.Objects()] *)

(** The two loops that collect the objects: every object of [l] that is not
    embedded is appended to [acc]. *)
Fixpoint appendVisible (objs : list Object) (l : list nat) (acc : list nat)
  : option (list nat) :=
  match l with
  | [] => Some acc
  | oid :: l' =>
      match objs !! oid with
      | None => None
      | Some o => appendVisible objs l' (if embedded o then acc else (acc ++ [oid])%list)
      end
  end.

(** [objects[i], objects[j] = objects[j], objects[i]]; an index out of range
    panics. *)
Definition swap (i j : nat) (l : list nat) : option (list nat) :=
  match l !! i, l !! j with
  | Some x, Some y => Some (<[j := x]> (<[i := y]> l))
  | _, _ => None
  end.

(** The shuffle: round [i] swaps element [i] with element [rand.Intn(i+1)].
    [Intn i n] is what the call of round [i] returns for the argument [n]. *)
Fixpoint shuffleFrom (Intn : nat -> nat -> nat) (rounds i : nat) (l : list nat)
  : option (list nat) :=
  match rounds with
  | O => Some l
  | S rounds' =>
      match swap i (Intn i (i + 1)) l with
      | Some l' => shuffleFrom Intn rounds' (S i) l'
      | None => None
      end
  end.

(** The objects that [for _, o := range g.named] visits when it takes the
    keys in the order [ks]. *)
Definition namedIn (g : Graph) (ks : list string) : list nat :=
  omap (fun k => named g !! k) ks.

(** [g.Objects()]; [None] is a panic. *)
Definition Objects (Intn : nat -> nat -> nat) (ks : list string) (st : state)
  : option (list nat) :=
  match appendVisible (objects st) (unnamed (graph st)) [] with
  | Some l1 =>
      match appendVisible (objects st) (namedIn (graph st) ks) l1 with
      | Some l => shuffleFrom Intn (length l) 0 l
      | None => None
      end
  | None => None
  end.

(** ** Statements about the graph *)

(** An object pointer that is not embedded. *)
Definition notEmbedded (objs : list Object) (oid : nat) : bool :=
  match objs !! oid with
  | Some o => negb (embedded o)
  | None => false
  end.

(** The types of the unnamed objects that are not private, in the order of
    the unnamed sequence. *)
Definition publicTypesOf (objs : list Object) (l : list nat) : list type :=
  omap (fun eid =>
          match objs !! eid with
          | Some e => if private e then None else reflectType e
          | None => None
          end) l.

Definition publicTypes (st : state) : list type :=
  publicTypesOf (objects st) (unnamed (graph st)).

(** Every such type is marked as taken. *)
Definition typesIndexed (st : state) : Prop :=
  forall t, t ∈ publicTypes st -> typeTaken (graph st) t = true.

(** No two unnamed objects that are not private have the same type. *)
Definition oneInstancePerType (st : state) : Prop := NoDup (publicTypes st).

(** The graph as [Provide] and the passes keep it. *)
Definition graphConsistent (st : state) : Prop :=
  typedUnnamed st /\ typesBacked st /\ typesIndexed st /\ oneInstancePerType st.

(** An object pointer that the graph holds, in the unnamed sequence or under
    a name. *)
Definition isRegistered (st : state) (oid : nat) : Prop :=
  oid ∈ unnamed (graph st) \/ exists name, named (graph st) !! name = Some oid.

(** What [Provide] may do to a record: nothing, or set its reflected type
    and value. *)
Definition sameOrReflected (o o' : Object) : Prop := o' = o \/ o' = withReflect o.

(** ** Statements about the passes *)

(** A value that is set: a pointer, a map, an interface value or a scalar
    other than zero; nil and structs are not. *)
Definition isSet (w : value) : bool :=
  match w with
  | VPtr _ | VMap | VIface _ _ => true
  | VScalar z => negb (Z.eqb z 0)
  | VNil | VStruct _ => false
  end.

(** Values that are set stay where they are. *)
Definition keepsValues (st st' : state) : Prop :=
  forall a w, load (heap st) a = Some w -> isSet w = true -> load (heap st') a = Some w.

(** The records other than [oid] that [st] holds are the same in [st']. *)
Definition touchesOnly (oid : nat) (st st' : state) : Prop :=
  forall k, k < length (objects st) -> k <> oid -> objects st' !! k = objects st !! k.
(** What the interface pass leaves of the state it starts from. *)
Definition interfaceFrame (oid : nat) (st s : state) : Prop :=
  graph s = graph st
  /\ length (objects s) = length (objects st)
  /\ length (heap s) = length (heap st)
  /\ forall k, k <> oid -> objects s !! k = objects st !! k.

(** ** A repository with a named database, a private map and a counter *)

Definition tDatabase : type := TPtr (TStruct "Database").
Definition tRepo : type := TPtr (TStruct "Repo").

Definition fieldDB : StructField.t :=
  StructField.mk "DB" tDatabase ("inject:" ++ quoted "primary") true false.

Definition fieldCache : StructField.t :=
  StructField.mk "Cache" (TMap (TBasic "string") (TBasic "int")) privateTag true false.

Definition fieldCount : StructField.t :=
  StructField.mk "Count" (TBasic "int") bareTag true false.

Definition repoEnv : TypeEnv := {|
  structs := [("Database", []); ("Repo", [fieldDB; fieldCache; fieldCount])];
  implements := fun _ _ => false;
  directlyAssignable := fun _ _ => false
|}.

(** The database is provided under the name primary; the repository has its
    counter set to 5 and nothing else. *)
Definition repoStart : state :=
  mkState [VStruct []; VStruct [VNil; VNil; VScalar 5]]
    [mkObject (Some (tDatabase, VPtr (0, []))) "primary" false None None None
       false false false;
     objectFor tRepo 1]
    (mkGraph [] [] ∅).

Definition repoProvided : state := fst (Provide [0; 1] repoStart).

(** [type Names []string] and [type Roster struct { Who Names `inject:"who"` }]:
    a [[]string], which is not a defined type, is assignable to [Names]. The
    slice is provided under the name who. *)
Definition tStrings : type := TBasic "[]string".
Definition tNames : type := TBasic "Names".
Definition tRoster : type := TPtr (TStruct "Roster").

Definition fieldWho : StructField.t :=
  StructField.mk "Who" tNames ("inject:" ++ quoted "who") true false.

Definition rosterEnv : TypeEnv := {|
  structs := [("Roster", [fieldWho])];
  implements := fun _ _ => false;
  directlyAssignable := fun v t =>
    (type_eqb v tStrings && type_eqb t tNames) || (type_eqb v tNames && type_eqb t tStrings)
|}.

Definition rosterStart : state :=
  mkState [VStruct [VScalar 0]]
    [mkObject (Some (tStrings, VScalar 3)) "who" false None None None false false false;
     objectFor tRoster 0]
    (mkGraph [] [] ∅).

Definition rosterProvided : state := fst (Provide [0; 1] rosterStart).

(** A field that asks for nothing, with a tag whose second pair has no
    colon. *)
Definition fieldBroken : StructField.t :=
  StructField.mk "id" (TBasic "string") ("json:" ++ quoted "id" ++ " xml") false false.

(** serviceA and a ServiceB marked complete. *)
Definition completeStart : state :=
  mkState [VStruct [VScalar 1]; VStruct [VNil]]
    [objectFor tServiceA 0;
     mkObject (Some (tServiceB, VPtr (1, []))) EmptyString true None None None
       false false false]
    (mkGraph [] [] ∅).

Definition completeProvided : state := fst (Provide [0; 1] completeStart).

(** ** The panic of the interface pass *)

(** The condition under which a round of the interface pass reaches
    [panic("unhandled named instance ...")]: the field is of interface type,
    its directive is not private and has a name, and the field is nil. *)
Definition namedPanic (a : addr) (i : nat) (f : StructField.t) (s : state) : bool :=
  match load (heap s) (fieldAddr a i), parseTag (StructField.Tag f) with
  | Some field, (Some tg, None) =>
      Kind_eqb (kindOf (StructField.Type_ f)) Interface
      && negb (tag.Private tg)
      && isNilOrZero field (StructField.Type_ f)
      && negb (String.eqb (tag.Name tg) EmptyString)
  | _, _ => false
  end.

(** Something is set at or below an address. *)
Definition setBelow (s : state) (fa : addr) : Prop :=
  exists q u, load (heap s) (fst fa, (snd fa ++ q)%list) = Some u /\ isSet u = true.

(** A field of interface type with a named directive. *)
Definition namedInterfaceField (f : StructField.t) : Prop :=
  exists tg, parseTag (StructField.Tag f) = (Some tg, None)
    /\ tag.Name tg <> EmptyString /\ kindOf (StructField.Type_ f) = Interface.

(** The fields that the explicit pass resolves: those with a directive that
    are neither structs held by value nor of interface type. *)
Definition explicitTarget (f : StructField.t) : Prop :=
  exists tg, parseTag (StructField.Tag f) = (Some tg, None)
    /\ kindOf (StructField.Type_ f) <> Struct
    /\ kindOf (StructField.Type_ f) <> Interface.

(** The fields that the interface pass resolves. *)
Definition interfaceTarget (f : StructField.t) : Prop :=
  exists tg, parseTag (StructField.Tag f) = (Some tg, None)
    /\ kindOf (StructField.Type_ f) = Interface.

(** Every field of the class [target], in the struct that the record [oid]
    points to, holds a value. *)
Definition fieldsSet (env : TypeEnv) (target : StructField.t -> Prop) (oid : nat)
    (s : state) : Prop :=
  forall o a fs i f,
    objects s !! oid = Some o -> walkTarget env o = Walk a fs ->
    fs !! i = Some f -> target f -> setBelow s (fieldAddr a i).

(** The record [oid] is stored and, unless it is complete, has these fields
    set. *)
Definition walkedRecord (env : TypeEnv) (target : StructField.t -> Prop) (s : state)
    (oid : nat) : Prop :=
  exists o, objects s !! oid = Some o
    /\ (Complete o = false -> fieldsSet env target oid s).

(** The values that can be assigned to a field are not nil: those of the
    unnamed objects that are not private, and those of the named objects.
    Every object of the graph is stored. *)
Definition unnamedNonZero (s : state) : Prop :=
  forall eid, eid ∈ unnamed (graph s) ->
    exists e, objects s !! eid = Some e
      /\ (private e = false -> forall x, Value e = Some x -> isZero (snd x) = false).

Definition namedNonZero (s : state) : Prop :=
  forall k eid, named (graph s) !! k = Some eid ->
    exists e, objects s !! eid = Some e
      /\ forall x, Value e = Some x -> isZero (snd x) = false.

Definition valuesNonZero (s : state) : Prop := unnamedNonZero s /\ namedNonZero s.

(** A service with a logger taken by name. *)
Definition fieldNamedLog : StructField.t :=
  StructField.mk "Log" tLogger ("inject:" ++ quoted "console") true false.

Definition namedLoggerEnv : TypeEnv := {|
  structs := [("ConsoleLogger", []); ("App", [fieldNamedLog])];
  implements := fun t i => String.eqb i "Logger" && type_eqb t tConsole;
  directlyAssignable := fun _ _ => false
|}.

Definition namedLoggerStart : state :=
  mkState [VStruct [VNil]; VStruct []]
    [objectFor tApp 0;
     mkObject (Some (tConsole, VPtr (1, []))) "console" false None None None
       false false false]
    (mkGraph [] [] ∅).

Definition namedLoggerProvided : state := fst (Provide [0; 1] namedLoggerStart).

(** ** A struct held by value

    [Outer] holds an [Inner] by value with the inline directive; [Inner] has
    a bare pointer to [ServiceA]. *)
Definition tOuter : type := TPtr (TStruct "Outer").

Definition fieldInner : StructField.t :=
  StructField.mk "In" (TStruct "Inner") ("inject:" ++ quoted "inline") true false.

Definition inlineEnv : TypeEnv := {|
  structs := [("ServiceA", [StructField.mk "Name" (TBasic "string") EmptyString true false]);
              ("Inner", [fieldA]);
              ("Outer", [fieldInner])];
  implements := fun _ _ => false;
  directlyAssignable := fun _ _ => false
|}.

Definition inlineStart : state :=
  mkState [VStruct [VScalar 1]; VStruct [VStruct [VNil]]]
    [objectFor tServiceA 0; objectFor tOuter 1] (mkGraph [] [] ∅).

Definition inlineProvided : state := fst (Provide [0; 1] inlineStart).

(** ** A new instance for a nil pointer field: statements *)

(** C3, as the specification words it, for the half that creates: when no
    unnamed object is a candidate, or the directive is private, the round
    ends with the field holding the new instance and the edge to its record
    recorded. *)
Definition freshInstanceIsAssigned (env : TypeEnv) (oid : nat) (ot : option type)
    (a : addr) (i : nat) (f : StructField.t) (st : state) : Prop :=
  forall (field : value) (tg : tag.t) (n : string),
    load (heap st) (fieldAddr a i) = Some field ->
    isNilOrZero field (StructField.Type_ f) = true ->
    parseTag (StructField.Tag f) = (Some tg, None) ->
    StructField.Exported f = true ->
    tag.Inline tg = false ->
    tag.Name tg = EmptyString ->
    StructField.Type_ f = TPtr (TStruct n) ->
    (tag.Private tg = true
     \/ forall c, c ∈ unnamed (graph st) ->
          isCandidate env (objects st) (TPtr (TStruct n)) c = false) ->
    exists fuel,
      let run := explicitField env (populateExplicit env fuel) oid ot a i f st in
      snd run = Done
      /\ load (heap (fst run)) (fieldAddr a i) = Some (VPtr (length (heap st), []))
      /\ dependency (fst run) oid (StructField.Name f) = Some (length (objects st)).

(** Memory as [st] has it is the same in [st']. *)
Definition oldKept (st st' : state) : Prop :=
  forall b, b < length (heap st) -> heap st' !! b = heap st !! b.

(** The same but for the allocation [b0]; no allocation is dropped. *)
Definition othersKept (b0 : nat) (st st' : state) : Prop :=
  length (heap st) <= length (heap st')
  /\ forall b, b <> b0 -> b < length (heap st) -> heap st' !! b = heap st !! b.

(** The fields of the struct at allocation [b], from the one of index [j] on,
    are nil or zero. *)
Definition zeroFrom (st : state) (b j : nat) : Prop :=
  forall j' w, j <= j' -> load (heap st) (b, [j']) = Some w -> isZero w = true.

(** ** The interface pass: statements *)

(** The interface pass on the record [oid], started in [st0], comes to the
    field [f] in state [st]: [f] follows the fields [pre] in the struct, and
    the rounds for [pre] ended without error. *)
Definition passReaches (env : TypeEnv) (oid : nat) (st0 : state) (o : Object) (a : addr)
    (pre : list StructField.t) (f : StructField.t) (post : list StructField.t)
    (st : state) : Prop :=
  objects st0 !! oid = Some o
  /\ walkTarget env o = Walk a (pre ++ f :: post)%list
  /\ structLoop (interfaceField env oid (reflectType o) a) 0 pre st0 = (st, Done).

(** A field of interface type at [fa] that is nil, with a bare directive that
    is not private. *)
Definition bareInterfaceField (f : StructField.t) (st : state) (fa : addr) : Prop :=
  exists field tg,
    load (heap st) fa = Some field
    /\ isNilOrZero field (StructField.Type_ f) = true
    /\ parseTag (StructField.Tag f) = (Some tg, None)
    /\ tag.Private tg = false
    /\ tag.Name tg = EmptyString
    /\ kindOf (StructField.Type_ f) = Interface.

(** The unnamed objects that the scan for a field of type [ft] takes, in the
    order of the unnamed sequence. *)
Definition candidates (env : TypeEnv) (st : state) (ft : type) : list nat :=
  List.filter (isCandidate env (objects st) ft) (unnamed (graph st)).

(** [Populate], run from [s], calls the interface pass on [oid] in state
    [st0], and goes on with [rest] when that call returns without error. The
    loops of the explicit pass have ended without error; then either the
    third loop has come to the unnamed object [oid], or the third loop has
    ended and the fourth has come to a name, visited by the first loop, that
    is bound to [oid]. *)
Definition interfacePassCalled (env : TypeEnv) (fuel : nat) (ks1 ks4 : list string)
    (s : state) (oid : nat) (st0 : state) (rest : state -> state * outcome) : Prop :=
  exists st1 st2,
    rangeNamed (populateExplicit env fuel) ks1 s = (st1, Done)
    /\ explicitLoop env fuel fuel 0 st1 = (st2, Done)
    /\ ((exists l1 l2,
           unnamed (graph st2) = (l1 ++ oid :: l2)%list
           /\ rangeUnnamed (populateUnnamedInterface env) l1 st2 = (st0, Done)
           /\ rest = (fun s' =>
                        match rangeUnnamed (populateUnnamedInterface env) l2 s' with
                        | (st3, Done) => rangeNamed (populateUnnamedInterface env) ks4 st3
                        | r => r
                        end))
        \/ (exists st3 ka k kb,
              ks4 = (ka ++ k :: kb)%list /\ k ∈ ks1
              /\ rangeUnnamed (populateUnnamedInterface env) (unnamed (graph st2)) st2
                 = (st3, Done)
              /\ rangeNamed (populateUnnamedInterface env) ka st3 = (st0, Done)
              /\ named (graph st0) !! k = Some oid
              /\ rest = rangeNamed (populateUnnamedInterface env) kb)).

(** Every field with a directive in the struct of the record is exported. *)
Definition taggedExported (env : TypeEnv) (o : Object) : Prop :=
  forall a fs j f tg,
    walkTarget env o = Walk a fs -> fs !! j = Some f ->
    parseTag (StructField.Tag f) = (Some tg, None) ->
    StructField.Exported f = true.

(** The record [oid] is stored and, unless it is complete, has the property
    [Q]. *)
Definition visited (Q : Object -> Prop) (s : state) (oid : nat) : Prop :=
  exists o, objects s !! oid = Some o /\ (Complete o = false -> Q o).

(** ** Named values: statements *)

(** C9, as the specification words it: a named record [oid] whose value is
    not a pointer to a struct is skipped by both passes, which return nil and
    leave the state as it is. The type is the one [Provide] has cached from
    the value; a nil value has none. *)
Definition namedValueIsSkipped (env : TypeEnv) (fuel : nat) (oid : nat) (st : state)
  : Prop :=
  forall o,
    objects st !! oid = Some o ->
    Name o <> EmptyString ->
    (forall t, reflectType o = Some t -> isStructPtr t = false) ->
    populateExplicit env (S fuel) oid st = (st, Done)
    /\ populateUnnamedInterface env oid st = (st, Done).

(** A new container after [ProvideWithName("nothing", nil)]. *)
Definition namedNilProvided : state :=
  fst (Container.ProvideWithName "nothing" None (Container.NewContainer [])).

(** ** A cycle through an inline field

    [type Car struct { Engine Engine `inject:"inline"` }] and
    [type Engine struct { Owner *Car `inject:"private"` }]: the cycle of
    struct types runs through a field held by value and a private pointer. *)
Definition tCar : type := TPtr (TStruct "Car").
Definition tEngine : type := TPtr (TStruct "Engine").

Definition fieldEngine : StructField.t :=
  StructField.mk "Engine" (TStruct "Engine") ("inject:" ++ quoted "inline") true false.

Definition fieldOwner : StructField.t :=
  StructField.mk "Owner" tCar privateTag true false.

Definition carEnv : TypeEnv := {|
  structs := [("Car", [fieldEngine]); ("Engine", [fieldOwner])];
  implements := fun _ _ => false;
  directlyAssignable := fun _ _ => false
|}.

(** A car whose engine has no owner yet. *)
Definition newCar : value := VStruct [VStruct [VNil]].

Definition carStart : state := mkState [newCar] [objectFor tCar 0] (mkGraph [] [] ∅).

Definition carProvided : state := fst (Provide [0] carStart).

(** Memory holds cars only; the owner of an engine is nil or a pointer. *)
Definition carCell (v : value) : Prop :=
  exists x, v = VStruct [VStruct [x]] /\ (x = VNil \/ exists p, x = VPtr p).

Definition carHeap (st : state) : Prop :=
  forall b v, heap st !! b = Some v -> carCell v.

(** The record [oid] is for the car allocated at [b], or for its engine. *)
Definition carRecord (st : state) (oid b : nat) : Prop :=
  exists o,
    objects st !! oid = Some o /\ Name o = EmptyString /\ Complete o = false
    /\ ((reflectType o = Some tCar /\ reflectValue o = Some (VPtr (b, [])))
        \/ (reflectType o = Some tEngine /\ reflectValue o = Some (VPtr (b, [0])))).

(** What the second loop of [Populate] finds when it comes to index [i] of
    the unnamed sequence: the records from there on are for allocated cars
    and their engines, and the last one is for a new car or its engine. *)
Definition carPending (st : state) (i : nat) : Prop :=
  carHeap st
  /\ (forall j oid, i <= j -> unnamed (graph st) !! j = Some oid ->
        exists b, b < length (heap st) /\ carRecord st oid b)
  /\ (exists j oid b,
        i <= j /\ S j = length (unnamed (graph st))
        /\ unnamed (graph st) !! j = Some oid
        /\ carRecord st oid b /\ heap st !! b = Some newCar).
(** * Properties of [Provide] *)

Lemma Provide_single (oid : nat) (st : state) :
  Provide [oid] st = provideOne oid st.
Proof.
  simpl. destruct (provideOne oid st) as [st' []]; reflexivity.
Qed.

Lemma provideOne_fields_specified (oid : nat) (st : state) (o : Object) (m : gmap string nat) :
  objects st !! oid = Some o ->
  Fields o = Some m ->
  provideOne oid st = (setObject st oid (withReflect o), Failed (ErrFieldsSpecified oid)).
Proof.
  intros Ho Hf. unfold provideOne. rewrite Ho. simpl. rewrite Hf. reflexivity.
Qed.

Lemma provideOne_fields_nil (oid : nat) (st : state) (o : Object) (k : nat) :
  objects st !! oid = Some o ->
  Fields o = None ->
  snd (provideOne oid st) <> Failed (ErrFieldsSpecified k).
Proof.
  intros Ho Hf. unfold provideOne. rewrite Ho. simpl. rewrite Hf.
  destruct (String.eqb (Name o) EmptyString).
  - destruct (Value o) as [[t v]|]; simpl; [|discriminate].
    destruct (isStructPtr t); simpl; [|discriminate].
    destruct (private o); simpl; [discriminate|].
    destruct (typeTaken _ t); simpl; discriminate.
  - destruct (named (graph _) !! Name o); simpl; discriminate.
Qed.

(** C6 (counterexample): [Provide] tests the map against nil, so a record with
    an allocated map without entries is rejected as well. *)
Lemma Provide_rejects_empty_map :
  ~ rejected_iff_nonempty emptyMapState 0 emptyMapObject.
Proof.
  unfold rejected_iff_nonempty. intros [H _].
  destruct (H eq_refl) as (m & Hm & Hne).
  apply Hne. simpl in Hm. congruence.
Qed.

(** C6 (amended): [Provide] rejects a record with the fields-specified error
    exactly when its dependency map is not nil, whether or not it has
    entries; a record with a nil map is never rejected for that reason. *)
Theorem Provide_rejects_specified_fields (st : state) (oid : nat) (o : Object) :
  objects st !! oid = Some o ->
  (snd (Provide [oid] st) = Failed (ErrFieldsSpecified oid) <-> Fields o <> None)
  /\ (Fields o = None -> forall k, snd (Provide [oid] st) <> Failed (ErrFieldsSpecified k)).
Proof.
  intros Ho. rewrite Provide_single. split; [split|].
  - intros Hr Hn. eapply provideOne_fields_nil; eauto.
  - intros Hn. destruct (Fields o) as [m|] eqn:Hf; [|congruence].
    erewrite provideOne_fields_specified; eauto.
  - intros Hn k. eapply provideOne_fields_nil; eauto.
Qed.

Lemma Provide_rejects_specified_fields_witness :
  objects emptyMapState !! 0 = Some emptyMapObject
  /\ snd (Provide [0] emptyMapState) = Failed (ErrFieldsSpecified 0).
Proof.
  split; [reflexivity|].
  apply (Provide_rejects_specified_fields emptyMapState 0 emptyMapObject eq_refl).
  simpl. discriminate.
Defined.

Lemma provideOne_unnamed_ok (oid : nat) (st : state) (o : Object) (t : type) (v : value) :
  objects st !! oid = Some o ->
  Fields o = None -> Name o = EmptyString -> Value o = Some (t, v) ->
  isStructPtr t = true ->
  (private o = true \/ typeTaken (graph st) t = false) ->
  provideOne oid st =
    (mkState (heap st) (<[oid := withReflect o]> (objects st))
       (mkGraph (unnamed (graph st) ++ [oid])%list
          (if private o then unnamedType (graph st) else t :: unnamedType (graph st))
          (named (graph st))),
     Done).
Proof.
  intros Ho Hf Hn Hv Hp Hfree. unfold provideOne. rewrite Ho. simpl.
  rewrite Hf, Hn, Hv. simpl. rewrite Hp. simpl.
  destruct (private o); simpl; [reflexivity|].
  destruct Hfree as [?|Hfree]; [discriminate|]. rewrite Hfree. reflexivity.
Qed.

Lemma provideOne_Done_inv (oid : nat) (st st' : state) :
  provideOne oid st = (st', Done) ->
  exists o, objects st !! oid = Some o /\ Fields o = None
    /\ heap st' = heap st
    /\ objects st' = <[oid := withReflect o]> (objects st)
    /\ ((Name o = EmptyString
         /\ exists t v, Value o = Some (t, v) /\ isStructPtr t = true
            /\ unnamed (graph st') = (unnamed (graph st) ++ [oid])%list
            /\ named (graph st') = named (graph st)
            /\ ((private o = true /\ unnamedType (graph st') = unnamedType (graph st))
                \/ (private o = false /\ typeTaken (graph st) t = false
                    /\ unnamedType (graph st') = t :: unnamedType (graph st))))
        \/ (Name o <> EmptyString
            /\ unnamed (graph st') = unnamed (graph st)
            /\ unnamedType (graph st') = unnamedType (graph st)
            /\ named (graph st) !! Name o = None
            /\ named (graph st') = <[Name o := oid]> (named (graph st)))).
Proof.
  unfold provideOne. destruct (objects st !! oid) as [o|] eqn:Ho; [|discriminate].
  simpl. destruct (Fields o) eqn:Hf; [discriminate|].
  destruct (String.eqb (Name o) EmptyString) eqn:Hn.
  - apply String.eqb_eq in Hn.
    destruct (Value o) as [[t v]|] eqn:Hv; simpl; [|discriminate].
    destruct (isStructPtr t) eqn:Hp; simpl; [|discriminate].
    destruct (private o) eqn:Hpr; simpl.
    + intros [= <-]. exists o. repeat split; auto. left. split; auto.
      exists t, v. repeat split; auto.
    + destruct (typeTaken _ t) eqn:Ht; [discriminate|].
      intros [= <-]. exists o. repeat split; auto. left. split; auto.
      exists t, v. repeat split; auto.
  - apply String.eqb_neq in Hn.
    destruct (named (graph st) !! Name o) eqn:Hk; [discriminate|].
    intros [= <-]. exists o. repeat split; auto. right. repeat split; auto.
Qed.

Lemma type_eqb_eq (t1 t2 : type) : type_eqb t1 t2 = true <-> t1 = t2.
Proof.
  revert t2. induction t1; intros []; simpl; split; try discriminate;
    rewrite ?andb_true_iff, ?String.eqb_eq, ?IHt1, ?IHt1_1, ?IHt1_2 in *;
    try (intros; f_equal; tauto); try (intros [=]; auto).
  all: intros [-> ->]; reflexivity.
Qed.

Lemma type_eqb_refl (t : type) : type_eqb t t = true.
Proof. apply type_eqb_eq. reflexivity. Qed.

Lemma typeTaken_cons (g : Graph) (t : type) :
  existsb (type_eqb t) (t :: unnamedType g) = true.
Proof. simpl. rewrite type_eqb_refl. reflexivity. Qed.

(** C7: two distinct unnamed records of one concrete type. If neither is
    private and the first is provided, providing the second fails with the
    duplicate-type error; if at least one is private (the type being a pointer
    to a struct, not yet taken in the graph unless both are private),
    providing both succeeds. *)
Theorem Provide_two_of_one_type (st : state) (o1 o2 : nat) (r1 r2 : Object)
    (t : type) (v1 v2 : value) :
  objects st !! o1 = Some r1 -> objects st !! o2 = Some r2 -> o1 <> o2 ->
  Name r1 = EmptyString -> Name r2 = EmptyString ->
  Fields r1 = None -> Fields r2 = None ->
  Value r1 = Some (t, v1) -> Value r2 = Some (t, v2) ->
  (private r1 = false -> private r2 = false ->
   forall st1, Provide [o1] st = (st1, Done) ->
     snd (Provide [o2] st1) = Failed (ErrTwoUnnamed t))
  /\ (private r1 || private r2 = true ->
      isStructPtr t = true ->
      (private r1 && private r2 = false -> typeTaken (graph st) t = false) ->
      exists st2, Provide [o1; o2] st = (st2, Done)
        /\ unnamed (graph st2) = (unnamed (graph st) ++ [o1; o2])%list).
Proof.
  intros H1 H2 Hne Hn1 Hn2 Hf1 Hf2 Hv1 Hv2. split.
  - intros Hp1 Hp2 st1. rewrite !Provide_single. intros HP.
    apply provideOne_Done_inv in HP.
    destruct HP as (o & Ho & _ & _ & Hobjs & [(_ & t' & v' & Hv & Hsp & _ & _ & Hty)|(Hn & _)]).
    2: { rewrite H1 in Ho. injection Ho as <-. contradiction. }
    rewrite H1 in Ho. injection Ho as <-.
    rewrite Hv1 in Hv. injection Hv as <- <-.
    destruct Hty as [(Hp & _)|(_ & _ & Hty)]; [congruence|].
    unfold provideOne. rewrite Hobjs.
    rewrite list_lookup_insert_ne by auto. rewrite H2. simpl.
    rewrite Hf2, Hn2, Hv2. simpl. rewrite Hsp, Hp2. simpl.
    unfold typeTaken. simpl. rewrite Hty.
    rewrite typeTaken_cons. reflexivity.
  - intros Hp Hsp Hfree. simpl.
    erewrite (provideOne_unnamed_ok o1 st r1); eauto.
    2: { destruct (private r1) eqn:E1; [left; reflexivity|right].
         apply Hfree. reflexivity. }
    set (st1 := mkState _ _ _).
    assert (Ho2 : objects st1 !! o2 = Some r2).
    { subst st1. simpl. rewrite list_lookup_insert_ne; auto. }
    erewrite (provideOne_unnamed_ok o2 st1 r2); eauto.
    + eexists. split; [reflexivity|]. simpl. rewrite <- app_assoc. reflexivity.
    + subst st1. simpl. unfold typeTaken. simpl.
      destruct (private r2) eqn:E2; [left; reflexivity|right].
      destruct (private r1) eqn:E1; [|discriminate].
      apply Hfree. reflexivity.
Qed.

Lemma Provide_two_of_one_type_witness :
  snd (Provide [1] (fst (Provide [0] (twinState false false))))
    = Failed (ErrTwoUnnamed (TPtr (TStruct "T")))
  /\ exists st2, Provide [0; 1] (twinState false true) = (st2, Done)
       /\ unnamed (graph st2) = [0; 1].
Proof.
  split.
  - refine (proj1 (Provide_two_of_one_type (twinState false false) 0 1 _ _
                     (TPtr (TStruct "T")) (VPtr (0, [])) (VPtr (1, []))
                     eq_refl eq_refl _ eq_refl eq_refl eq_refl eq_refl eq_refl eq_refl)
                  eq_refl eq_refl _ _).
    + discriminate.
    + reflexivity.
  - refine (proj2 (Provide_two_of_one_type (twinState false true) 0 1 _ _
                     (TPtr (TStruct "T")) (VPtr (0, [])) (VPtr (1, []))
                     eq_refl eq_refl _ eq_refl eq_refl eq_refl eq_refl eq_refl eq_refl)
                  eq_refl eq_refl (fun _ => eq_refl)).
    discriminate.
Defined.


(** * The tag scanner *)

Lemma length_append (s1 s2 : string) :
  String.length (s1 ++ s2) = String.length s1 + String.length s2.
Proof. induction s1; simpl; auto. Qed.

Lemma sliceFrom_0 (s : string) : sliceFrom s 0 = s.
Proof.
  unfold sliceFrom. rewrite Nat.sub_0_r.
  induction s; simpl; [reflexivity|]. f_equal. exact IHs.
Qed.

Lemma sliceFrom_S (c : ascii) (s : string) (i : nat) :
  sliceFrom (String c s) (S i) = sliceFrom s i.
Proof. reflexivity. Qed.

Lemma sliceFrom_append (k s : string) (i : nat) :
  sliceFrom (k ++ s) (String.length k + i) = sliceFrom s i.
Proof. induction k; simpl; auto. Qed.

Lemma sliceTo_append (k s : string) : sliceTo (k ++ s) (String.length k) = k.
Proof.
  unfold sliceTo. induction k; simpl.
  - destruct s; reflexivity.
  - f_equal. exact IHk.
Qed.

Lemma sliceTo_S (c : ascii) (s : string) (i : nat) :
  sliceTo (String c s) (S i) = String c (sliceTo s i).
Proof. reflexivity. Qed.

Lemma byteIs_append (k s : string) (i : nat) (c : ascii) :
  byteIs (k ++ s) (String.length k + i) c = byteIs s i c.
Proof. unfold byteIs. induction k; simpl; auto. Qed.

Lemma skipSpaces_append (sp s : string) :
  isSpaces sp -> skipSpaces (sp ++ s) = skipSpaces s.
Proof.
  induction sp as [|c sp IH]; simpl; [reflexivity|].
  intros [-> Hsp]. simpl. auto.
Qed.

Lemma skipSpaces_spaces (sp : string) : isSpaces sp -> skipSpaces sp = EmptyString.
Proof.
  induction sp as [|c sp IH]; simpl; [reflexivity|].
  intros [-> Hsp]. simpl. auto.
Qed.

Lemma ascii_eqb_false (c d : ascii) : c <> d -> Ascii.eqb c d = false.
Proof. apply Ascii.eqb_neq. Qed.

Lemma skipSpaces_key (k : string) (c : ascii) (s : string) :
  isKey k -> c <> chSpace -> skipSpaces (k ++ String c s) = k ++ String c s.
Proof.
  destruct k as [|d k]; simpl.
  - intros _ Hc. rewrite ascii_eqb_false; auto.
  - intros [(Hd & _) _] _. rewrite ascii_eqb_false; auto.
Qed.

Lemma skipSpaces_key_end (k : string) : isKey k -> skipSpaces k = k.
Proof.
  destruct k as [|d k]; simpl; [reflexivity|].
  intros [(Hd & _) _]. rewrite ascii_eqb_false; auto.
Qed.

Definition stopChar (c : ascii) : Prop := c = chSpace \/ c = chColon \/ c = chQuote.

Lemma scanName_key (k : string) (c : ascii) (s : string) :
  isKey k -> stopChar c -> scanName (k ++ String c s) = String.length k.
Proof.
  induction k as [|d k IH]; simpl.
  - intros _ [->|[->| ->]]; reflexivity.
  - intros [(H1 & H2 & H3) Hk] Hc.
    rewrite !ascii_eqb_false by auto. simpl. f_equal. auto.
Qed.

Lemma scanName_key_end (k : string) : isKey k -> scanName k = String.length k.
Proof.
  induction k as [|d k IH]; simpl; [reflexivity|].
  intros [(H1 & H2 & H3) Hk].
  rewrite !ascii_eqb_false by auto. simpl. f_equal. auto.
Qed.

Lemma scanValue_closed (body rest : string) (i : nat) :
  closedBody body ->
  S (scanValue (body ++ rest) i) = i + String.length body.
Proof.
  intros H. revert i. induction H; intros i; simpl.
  - lia.
  - rewrite !ascii_eqb_false by auto. rewrite IHclosedBody. lia.
  - change (Ascii.eqb chBackslash chQuote) with false.
    change (Ascii.eqb chBackslash chBackslash) with true. simpl.
    rewrite IHclosedBody. lia.
Qed.

Lemma scanValue_open (body : string) (i : nat) :
  openBody body -> i + String.length body <= scanValue body i.
Proof.
  intros H. revert i. induction H; intros i; simpl.
  - lia.
  - rewrite !ascii_eqb_false by auto. specialize (IHopenBody (i + 1)). lia.
  - change (Ascii.eqb chBackslash chQuote) with false.
    change (Ascii.eqb chBackslash chBackslash) with true. simpl. lia.
  - change (Ascii.eqb chBackslash chQuote) with false.
    change (Ascii.eqb chBackslash chBackslash) with true. simpl.
    specialize (IHopenBody (i + 2)). lia.
Qed.

Lemma closedBody_length (body : string) : closedBody body -> 1 <= String.length body.
Proof. induction 1; simpl; lia. Qed.

Lemma append_nonempty (s1 : string) (c : ascii) (s2 : string) :
  String.eqb (s1 ++ String c s2) EmptyString = false.
Proof. destruct s1; reflexivity. Qed.

Lemma nonempty_eqb (s : string) : s <> EmptyString -> String.eqb s EmptyString = false.
Proof. destruct s; [congruence|reflexivity]. Qed.

Lemma ExtractLoop_round (fuel : nat) (name sp tag0 : string) :
  isSpaces sp -> skipSpaces tag0 = tag0 -> tag0 <> EmptyString ->
  ExtractLoop (S fuel) name (sp ++ tag0) = extractRound (ExtractLoop fuel name) name tag0.
Proof.
  intros Hsp Hskip Hne.
  change (ExtractLoop (S fuel) name (sp ++ tag0)) with
    (if String.eqb (sp ++ tag0) EmptyString then (false, EmptyString, None) else
     if String.eqb (skipSpaces (sp ++ tag0)) EmptyString then (false, EmptyString, None)
     else extractRound (ExtractLoop fuel name) name (skipSpaces (sp ++ tag0))).
  assert (E : String.eqb (sp ++ tag0) EmptyString = false).
  { destruct tag0; [congruence|]. apply append_nonempty. }
  rewrite E, skipSpaces_append, Hskip by auto.
  rewrite nonempty_eqb by auto. reflexivity.
Qed.

Lemma key_colon_round (k tag1 : string) :
  isKey k ->
  skipSpaces (k ++ String chColon tag1) = k ++ String chColon tag1
  /\ k ++ String chColon tag1 <> EmptyString
  /\ scanName (k ++ String chColon tag1) = String.length k
  /\ sliceTo (k ++ String chColon tag1) (String.length k) = k
  /\ sliceFrom (k ++ String chColon tag1) (String.length k + 1) = tag1.
Proof.
  intros Hk. repeat split.
  - apply skipSpaces_key; auto; discriminate.
  - destruct k; discriminate.
  - apply scanName_key; auto. right; left; reflexivity.
  - apply sliceTo_append.
  - rewrite sliceFrom_append.
    change (sliceFrom (String chColon tag1) 1) with (sliceFrom tag1 0).
    apply sliceFrom_0.
Qed.

(** One round of the loop of [Extract] on a well-formed pair. *)
Lemma ExtractLoop_pair (fuel : nat) (name sp k body rest : string) :
  isSpaces sp -> isKey k -> closedBody body ->
  ExtractLoop (S fuel) name (sp ++ k ++ String chColon (String chQuote (body ++ rest)))
  = if String.eqb k name then
      match strconv.Unquote (String chQuote body) with
      | Some value => (true, value, None)
      | None => (false, EmptyString, Some ErrSyntax)
      end
    else ExtractLoop fuel name rest.
Proof.
  intros Hsp Hk Hb.
  set (tag1 := String chQuote (body ++ rest)).
  destruct (key_colon_round k tag1 Hk) as (Hskip & Hne & Hscan & Hname & Hrest0).
  rewrite ExtractLoop_round by auto. unfold extractRound.
  rewrite Hscan, Hname, Hrest0.
  assert (Hlen0 : String.length (k ++ String chColon tag1)
                  = String.length k + 2 + String.length body + String.length rest).
  { unfold tag1. rewrite length_append. simpl. rewrite length_append. lia. }
  assert (Hcolon : byteIs (k ++ String chColon tag1) (String.length k) chColon = true).
  { rewrite <- (Nat.add_0_r (String.length k)) at 1.
    rewrite byteIs_append. reflexivity. }
  assert (Hquote : byteIs (k ++ String chColon tag1) (String.length k + 1) chQuote = true).
  { rewrite byteIs_append. reflexivity. }
  assert (Hval : scanValue (sliceFrom tag1 1) 1 = String.length body).
  { unfold tag1. rewrite sliceFrom_S, sliceFrom_0.
    pose proof (scanValue_closed body rest 1 Hb). lia. }
  assert (Hlen1 : String.length tag1 = 1 + String.length body + String.length rest).
  { unfold tag1. simpl. rewrite length_append. lia. }
  assert (Hq : sliceTo tag1 (String.length body + 1) = String chQuote body).
  { unfold tag1. rewrite Nat.add_1_r, sliceTo_S, sliceTo_append. reflexivity. }
  assert (Hrest1 : sliceFrom tag1 (String.length body + 1) = rest).
  { unfold tag1. rewrite Nat.add_1_r, sliceFrom_S.
    rewrite <- (Nat.add_0_r (String.length body)), sliceFrom_append. apply sliceFrom_0. }
  rewrite Hcolon, Hquote, Hval, Hq, Hrest1.
  replace (String.length (k ++ String chColon tag1) <=? String.length k + 1)%nat with false
    by (symmetry; apply Nat.leb_gt; lia).
  replace (String.length tag1 <=? String.length body)%nat with false
    by (symmetry; apply Nat.leb_gt; lia).
  reflexivity.
Qed.

Lemma ExtractLoop_spaces (fuel : nat) (name sp : string) :
  isSpaces sp -> ExtractLoop fuel name sp = (false, EmptyString, None).
Proof.
  intros Hsp. destruct fuel; simpl; [reflexivity|].
  destruct (String.eqb sp EmptyString); [reflexivity|].
  rewrite skipSpaces_spaces by auto. reflexivity.
Qed.

Lemma extractRound_no_colon (continue : string -> bool * string * option tagError)
    (name tag0 : string) :
  (String.length tag0 <=? scanName tag0 + 1)%nat
    || negb (byteIs tag0 (scanName tag0) chColon)
    || negb (byteIs tag0 (scanName tag0 + 1) chQuote) = true ->
  extractRound continue name tag0 = (false, EmptyString, Some errInvalidTag).
Proof. intros H. unfold extractRound. rewrite H. reflexivity. Qed.

Lemma ExtractLoop_malformed (fuel : nat) (name r : string) :
  malformedPair r ->
  ExtractLoop (S fuel) name r = (false, EmptyString, Some errInvalidTag).
Proof.
  intros H. destruct H as [sp k Hsp Hk Hne | sp k c rest Hsp Hk Hc Hne
                          | sp k Hsp Hk | sp k c rest Hsp Hk Hc | sp k body Hsp Hk Hb].
  - rewrite ExtractLoop_round; auto using skipSpaces_key_end.
    apply extractRound_no_colon.
    rewrite scanName_key_end by auto.
    replace (String.length k <=? String.length k + 1)%nat with true
      by (symmetry; apply Nat.leb_le; lia).
    reflexivity.
  - rewrite ExtractLoop_round; auto.
    + apply extractRound_no_colon.
      assert (Hstop : stopChar c) by (destruct Hc; [left|right; right]; auto).
      rewrite scanName_key by auto.
      rewrite <- (Nat.add_0_r (String.length k)) at 2.
      rewrite byteIs_append.
      replace (byteIs (String c rest) 0 chColon) with false.
      * rewrite orb_true_r. reflexivity.
      * destruct Hc as [-> | ->]; reflexivity.
    + destruct k as [|d k]; simpl.
      * destruct Hne as [?| ->]; [congruence|reflexivity].
      * destruct Hk as [(Hd & _) _]. rewrite ascii_eqb_false; auto.
    + destruct k; discriminate.
  - destruct (key_colon_round k EmptyString Hk) as (Hskip & Hne & Hscan & _).
    rewrite ExtractLoop_round by auto.
    apply extractRound_no_colon. rewrite Hscan.
    rewrite length_append. simpl.
    replace (String.length k + 1 <=? String.length k + 1)%nat with true
      by (symmetry; apply Nat.leb_le; lia).
    reflexivity.
  - destruct (key_colon_round k (String c rest) Hk) as (Hskip & Hne & Hscan & _).
    rewrite ExtractLoop_round by auto.
    apply extractRound_no_colon. rewrite Hscan.
    rewrite (byteIs_append k _ 1).
    replace (byteIs (String chColon (String c rest)) 1 chQuote) with false.
    + rewrite orb_true_r. reflexivity.
    + unfold byteIs. simpl. symmetry. apply ascii_eqb_false. auto.
  - set (tag1 := String chQuote body).
    destruct (key_colon_round k tag1 Hk) as (Hskip & Hne & Hscan & Hname & Hrest0).
    rewrite ExtractLoop_round by auto. unfold extractRound.
    rewrite Hscan, Hrest0.
    assert (Hval : String.length tag1 <= scanValue (sliceFrom tag1 1) 1).
    { unfold tag1. rewrite sliceFrom_S, sliceFrom_0.
      pose proof (scanValue_open body 1 Hb). simpl. lia. }
    destruct (_ || _ || _); [reflexivity|].
    replace (String.length tag1 <=? scanValue (sliceFrom tag1 1) 1)%nat with true
      by (symmetry; apply Nat.leb_le; lia).
    reflexivity.
Qed.

Lemma substring_length (s : string) (n m : nat) :
  String.length (substring n m s) <= m.
Proof.
  revert n m. induction s as [|c s IH]; intros n m; simpl.
  - destruct n, m; simpl; lia.
  - destruct n; [destruct m; simpl; [lia|]|apply IH].
    specialize (IH 0 m). lia.
Qed.

Lemma skipSpaces_length (s : string) : String.length (skipSpaces s) <= String.length s.
Proof.
  induction s as [|c s IH]; simpl; [lia|].
  destruct (Ascii.eqb c chSpace); simpl; lia.
Qed.

(** The number of rounds given to the loop of [Extract] does not matter once
    it is at least the length of the tag: [len(tag)] rounds are enough. *)
Lemma ExtractLoop_fuel (name : string) (fuel1 : nat) :
  forall (fuel2 : nat) (tag : string),
    String.length tag <= fuel1 -> String.length tag <= fuel2 ->
    ExtractLoop fuel1 name tag = ExtractLoop fuel2 name tag.
Proof.
  induction fuel1 as [|fuel1 IH]; intros fuel2 tag H1 H2.
  - destruct tag; [|simpl in H1; lia]. destruct fuel2; reflexivity.
  - destruct fuel2 as [|fuel2].
    { destruct tag; [|simpl in H2; lia]. reflexivity. }
    simpl. destruct (String.eqb tag EmptyString); [reflexivity|].
    destruct (String.eqb (skipSpaces tag) EmptyString); [reflexivity|].
    destruct (_ || _ || _); [reflexivity|].
    destruct (Nat.leb _ _); [reflexivity|].
    destruct (String.eqb _ name); [reflexivity|].
    pose proof (skipSpaces_length tag) as Hs.
    apply IH; unfold sliceFrom at 1;
      match goal with
      | |- String.length (substring ?n ?m ?s) <= _ =>
          pose proof (substring_length s n m) as Hl
      end;
      match type of Hl with
      | context [String.length (sliceFrom ?t ?j)] =>
          pose proof (substring_length t j (String.length t - j)) as Hl2;
          fold (sliceFrom t j) in Hl2
      end; lia.
Qed.

Lemma wellFormedUpTo_length (tag r : string) (ps : list (string * string)) :
  wellFormedUpTo tag ps r -> length ps + String.length r <= String.length tag.
Proof.
  induction 1; simpl; [lia|].
  rewrite !length_append. simpl. rewrite length_append. lia.
Qed.

Lemma ExtractLoop_prefix (name tag r : string) (ps : list (string * string)) :
  wellFormedUpTo tag ps r ->
  name ∉ ps.*1 ->
  forall fuel, ExtractLoop (length ps + fuel) name tag = ExtractLoop fuel name r.
Proof.
  induction 1 as [r | sp k body tag r ps Hsp Hk Hb Hwf IH]; intros Hnotin fuel.
  - reflexivity.
  - simpl in Hnotin. apply not_elem_of_cons in Hnotin as [Hne Hnotin].
    change (length ((k, String chQuote body) :: ps) + fuel) with (S (length ps + fuel)).
    rewrite ExtractLoop_pair by auto.
    replace (String.eqb k name) with false.
    + apply IH. exact Hnotin.
    + symmetry. apply String.eqb_neq. congruence.
Qed.

Lemma Extract_prefix (name tag r : string) (ps : list (string * string)) :
  wellFormedUpTo tag ps r ->
  name ∉ ps.*1 ->
  exists fuel, String.length r <= fuel /\ Extract name tag = ExtractLoop fuel name r.
Proof.
  intros Hwf Hnotin. pose proof (wellFormedUpTo_length _ _ _ Hwf) as Hlen.
  exists (String.length tag - length ps). split; [lia|].
  unfold Extract. rewrite <- (ExtractLoop_prefix name tag r ps Hwf Hnotin).
  f_equal. lia.
Qed.

Lemma malformedPair_nonempty (r : string) : malformedPair r -> 1 <= String.length r.
Proof.
  destruct 1; rewrite ?length_append; simpl; try lia.
  destruct k; [congruence|simpl; lia].
Qed.

(** C8 (counterexample): after a bare inject directive, a key that has no
    colon is never looked at; [Extract] reports the directive and no error. *)
Lemma Extract_ignores_pairs_after_match :
  ~ anyMalformedPairIsAnError "inject" bareThenJunk.
Proof.
  intros H.
  destruct H as [e He]; [|vm_compute in He; discriminate].
  exists [("inject", quoted "")], " x". split.
  - apply (upto_cons "" "inject" (String chQuote "") " x" " x" []).
    + exact I.
    + simpl. unfold keyChar. repeat split; discriminate.
    + constructor.
    + constructor.
  - left. apply (missing_colon_end " " "x").
    + simpl. repeat split.
    + simpl. unfold keyChar. repeat split; discriminate.
    + discriminate.
Qed.

(** C8 (amended): let the tag start with well-formed pairs, none with the
    wanted key, and let [r] be what follows them. If [r] is only spaces,
    [Extract] returns found=false and no error. If [r] starts with a pair for
    the wanted key, [Extract] returns what unquoting its value gives, the
    value with found=true or the error of an invalid escape, whatever comes
    after that pair. If the next pair in [r] is malformed (no colon, no
    opening quote, no closing quote), [Extract] returns an error. A pair with
    an empty value gives found=true and the empty value, which differs from
    found=false. *)
Theorem Extract_first_match_or_error :
  (forall (name tag r : string) (ps : list (string * string)),
      wellFormedUpTo tag ps r ->
      name ∉ ps.*1 ->
      (isSpaces r -> Extract name tag = (false, EmptyString, None))
      /\ (forall sp body rest,
             r = sp ++ name ++ String chColon (String chQuote (body ++ rest)) ->
             isSpaces sp -> isKey name -> closedBody body ->
             Extract name tag =
               match strconv.Unquote (String chQuote body) with
               | Some value => (true, value, None)
               | None => (false, EmptyString, Some ErrSyntax)
               end)
      /\ (malformedPair r -> Extract name tag = (false, EmptyString, Some errInvalidTag)))
  /\ (forall name : string,
         isKey name ->
         Extract name (name ++ String chColon (quoted EmptyString)) = (true, EmptyString, None)
         /\ Extract name EmptyString = (false, EmptyString, None)).
Proof.
  split.
  - intros name tag r ps Hwf Hnotin.
    destruct (Extract_prefix name tag r ps Hwf Hnotin) as (fuel & Hfuel & ->).
    split; [|split].
    + intros Hsp. apply ExtractLoop_spaces. exact Hsp.
    + intros sp body rest -> Hsp Hk Hb.
      destruct fuel as [|fuel].
      { rewrite !length_append in Hfuel. simpl in Hfuel. lia. }
      rewrite ExtractLoop_pair by auto. rewrite String.eqb_refl. reflexivity.
    + intros Hbad. pose proof (malformedPair_nonempty r Hbad).
      destruct fuel as [|fuel]; [lia|].
      apply ExtractLoop_malformed. exact Hbad.
  - intros name Hk. split; [|reflexivity].
    unfold Extract. rewrite length_append. simpl.
    rewrite Nat.add_succ_r.
    rewrite (ExtractLoop_pair _ name EmptyString name (String chQuote EmptyString) EmptyString);
      [|exact I|assumption|constructor].
    rewrite String.eqb_refl. reflexivity.
Qed.

Lemma Extract_first_match_or_error_witness :
  Extract "inject" ("json:" ++ quoted "id" ++ " inject:" ++ quoted "private" ++ " x")
  = (true, "private", None).
Proof.
  refine (proj1 (proj2 (proj1 Extract_first_match_or_error "inject"
                          ("json:" ++ quoted "id" ++ " inject:" ++ quoted "private" ++ " x")
                          (" inject:" ++ quoted "private" ++ " x")
                          [("json", quoted "id")] _ _))
            " " (String.append "private" (String chQuote EmptyString)) " x" eq_refl _ _ _).
  - apply (upto_cons "" "json" (String.append "id" (String chQuote EmptyString)) _ _ []).
    + exact I.
    + simpl. unfold keyChar. repeat split; discriminate.
    + repeat (apply closed_char; [discriminate|discriminate|]). constructor.
    + constructor.
  - simpl. intros H. apply list_elem_of_singleton in H. discriminate.
  - simpl. repeat split.
  - simpl. unfold keyChar. repeat split; discriminate.
  - repeat (apply closed_char; [discriminate|discriminate|]). constructor.
Defined.

(** * One round of the explicit pass *)

Lemma provideFresh_spec (v : type * value) (p c e : bool) (st : state) :
  Provide [length (objects st)] (snd (newObject (objectLit (Some v) p c e) st))
  = if isStructPtr (fst v) then
      if p || negb (typeTaken (graph st) (fst v))
      then (registered (objectLit (Some v) p c e) (fst v) st, Done)
      else (refused (objectLit (Some v) p c e) st, Failed (ErrTwoUnnamed (fst v)))
    else (refused (objectLit (Some v) p c e) st, Failed (ErrNotStructPtr (fst v) (Some v))).
Proof.
  rewrite Provide_single. unfold provideOne, newObject. simpl.
  rewrite lookup_app_r by lia. rewrite Nat.sub_diag. simpl.
  assert (E : forall (l : list Object) x y, <[length l := y]> (l ++ [x])%list = (l ++ [y])%list).
  { intros l x y. induction l; simpl; [reflexivity|]. f_equal. exact IHl. }
  unfold setObject, refused, registered, typeTaken. simpl. rewrite E.
  destruct v as [t w]. simpl.
  destruct (isStructPtr t); simpl; [|reflexivity].
  destruct p; simpl; [reflexivity|].
  destruct (existsb (type_eqb t) (unnamedType (graph st))); reflexivity.
Qed.

Lemma explicitField_cases (env : TypeEnv) (rec : nat -> state -> state * outcome)
    (oid : nat) (ot : option type) (a : addr) (i : nat) (f : StructField.t) (st : state) :
  explicitStep env rec oid a i f st (explicitField env rec oid ot a i f st).
Proof.
  unfold explicitField.
  destruct (load (heap st) (fieldAddr a i)) as [field|] eqn:Hload;
    [|apply step_same; discriminate].
  destruct (parseTag (StructField.Tag f)) as [[tg|] [err|]] eqn:Htag;
    try (apply step_same; discriminate).
  destruct (StructField.Exported f) eqn:Hexp; cbn [negb];
    [|apply step_same; discriminate].
  destruct (tag.Inline tg && negb (Kind_eqb (kindOf (StructField.Type_ f)) Struct));
    [apply step_same; discriminate|].
  unfold isNilOrZero.
  destruct (isZero field) eqn:Hz; simpl negb; cbv iota.
  2: { destruct (isStructPtr (StructField.Type_ f)) eqn:Hsp; cbn [andb negb];
         [|apply step_same; discriminate].
       destruct (tag.Private tg) eqn:Hp; cbn [andb negb]; [apply step_same; discriminate|].
       destruct (tracked st _) eqn:Htr; [apply step_same; discriminate|].
       change (newObject ?lit st) with (length (objects st), snd (newObject lit st)).
       cbv beta iota. rewrite provideFresh_spec. simpl fst. rewrite Hsp. cbn [orb].
       destruct (typeTaken (graph st) (StructField.Type_ f)) eqn:Ht; cbn [negb].
       - eapply step_deep_refused; eauto.
       - eapply step_deep; eauto. }
  destruct (negb (String.eqb (tag.Name tg) EmptyString)).
  { destruct (named (graph st) !! tag.Name tg) as [eid|]; [|apply step_same; discriminate].
    destruct (objects st !! eid) as [existing|]; [|apply step_same; discriminate].
    destruct (reflectType existing) as [et|]; [|apply step_same; discriminate].
    destruct (negb (AssignableTo env et (StructField.Type_ f)));
      [apply step_same; discriminate|].
    destruct (Value existing) as [x|]; [|apply step_same; discriminate].
    destruct (setField _ _ st) as [st1|] eqn:Hset; [|apply step_same; discriminate].
    eapply step_assign; eauto. }
  destruct (Kind_eqb (kindOf (StructField.Type_ f)) Struct) eqn:Hk.
  { destruct (tag.Private tg); [apply step_same; discriminate|].
    destruct (tag.Inline tg) eqn:Hinl; cbn [negb]; [|apply step_same; discriminate].
    change (newObject ?lit st) with (length (objects st), snd (newObject lit st)).
    cbv beta iota. rewrite provideFresh_spec. simpl.
    destruct (kindOf (StructField.Type_ f)) eqn:Hkind; try discriminate. simpl.
    eapply step_inline; eauto. }
  destruct (Kind_eqb (kindOf (StructField.Type_ f)) Interface);
    [apply step_same; discriminate|].
  destruct (Kind_eqb (kindOf (StructField.Type_ f)) Map).
  { destruct (negb (tag.Private tg)); [apply step_same; discriminate|].
    destruct (setField _ VMap st) as [st1|] eqn:Hset; [|apply step_same; discriminate].
    eapply step_map; eauto. }
  destruct (isStructPtr (StructField.Type_ f)) eqn:Hsp; simpl negb; cbv iota;
    [|apply step_same; discriminate].
  destruct (StructField.Type_ f) as [| |elem| |] eqn:Hty; try discriminate.
  assert (Hcreate : forall p, (p = tag.Private tg) ->
    (p = true \/ typeTaken (graph st) (TPtr elem) = false
     \/ typeTaken (graph st) (TPtr elem) = true) ->
    explicitStep env rec oid a i f st
      (let (na, st1) := newValue (Zero env elem) st in
       let (newObj, st2) :=
         newObject (objectLit (Some (TPtr elem, VPtr na)) p true false) st1 in
       match Provide [newObj] st2 with
       | (st3, Done) =>
           match rec newObj st3 with
           | (st4, Done) =>
               match setField (fieldAddr a i) (VPtr na) st4 with
               | Some st5 => (addDep oid (StructField.Name f) newObj st5, Done)
               | None => (st4, Panicked)
               end
           | r => r
           end
       | r => r
       end)).
  { intros p Hp _. unfold newValue.
    change (newObject ?lit ?s) with (length (objects s), snd (newObject lit s)).
    cbv beta iota.
    change (mkState (heap st ++ [Zero env elem])%list (objects st) (graph st))
      with (setHeap st (heap st ++ [Zero env elem])%list).
    rewrite provideFresh_spec. simpl fst. rewrite Hsp.
    destruct (p || negb (typeTaken (graph (setHeap st _)) (TPtr elem))) eqn:Hfree.
    - destruct (rec _ _) as [st4 r] eqn:Hrec.
      assert (Hfree' : tag.Private tg = true \/ typeTaken (graph st) (TPtr elem) = false).
      { subst p. apply orb_true_iff in Hfree as [?|Hfree]; [left; auto|right].
        apply negb_true_iff in Hfree. exact Hfree. }
      subst p.
      pose proof (step_create env rec oid a i f st field tg elem st4 r
                    Hload Hz Htag Hexp Hty Hsp Hfree' Hrec) as Hstep.
      destruct r; exact Hstep.
    - apply orb_false_iff in Hfree as [-> Hfree]. apply negb_false_iff in Hfree.
      eapply step_create_refused; eauto. }
  destruct (tag.Private tg) eqn:Hp; simpl negb; cbv iota.
  - apply Hcreate; auto.
  - destruct (findAssignable env (objects st) (TPtr elem) (unnamed (graph st)))
      as [eid x| |] eqn:Hfind.
    + destruct (setField _ _ st) as [st1|] eqn:Hset; [|apply step_same; discriminate].
      rewrite <- Hty in Hset. eapply step_assign; eauto.
    + apply Hcreate; auto. destruct (typeTaken (graph st) (TPtr elem)); auto.
    + apply step_same; discriminate.
Qed.

(** The cases of a round, with names for what each brings. *)
Ltac step_cases H :=
  destruct H as
    [ r Hr
    | field Hload Hzero Htaken
    | field tg Hload Hzero Htag Hpriv Hsp Htracked Htaken
    | field x eid st1 Hload Hzero Hset
    | field tg Hload Hzero Htag Hexp Hinl Hkind
    | field st1 Hload Hzero Hset
    | elem Hty Htaken
    | field tg elem st4 r Hload Hzero Htag Hexp Hty Hsp Hfree Hrec' ].

(** * Frame: objects, sequence and types only grow *)

Lemma sameButFields_refl (o : Object) : sameButFields o o.
Proof. repeat split. Qed.

Lemma sameButFields_trans (o1 o2 o3 : Object) :
  sameButFields o1 o2 -> sameButFields o2 o3 -> sameButFields o1 o3.
Proof. unfold sameButFields. intuition congruence. Qed.

Lemma extends_refl (st : state) : extends st st.
Proof.
  split; auto.
  intros i o Ho. exists o. split; [exact Ho|apply sameButFields_refl].
Qed.

Lemma extends_trans (st1 st2 st3 : state) :
  extends st1 st2 -> extends st2 st3 -> extends st1 st3.
Proof.
  intros [A1 B1 C1 D1] [A2 B2 C2 D2]. split.
  - intros i o Ho. destruct (A1 i o Ho) as (o' & Ho' & Hs).
    destruct (A2 i o' Ho') as (o'' & Ho'' & Hs').
    exists o''. split; [exact Ho''|eapply sameButFields_trans; eauto].
  - etrans; eauto.
  - etrans; eauto.
  - congruence.
Qed.

Lemma extends_registered (lit : Object) (t : type) (st : state) :
  extends st (registered lit t st).
Proof.
  split; simpl.
  - intros i o Ho. exists o. split; [|apply sameButFields_refl].
    apply lookup_app_l_Some. exact Ho.
  - apply prefix_app_r. reflexivity.
  - destruct (private lit); [reflexivity|]. apply suffix_cons_r. reflexivity.
  - reflexivity.
Qed.

Lemma extends_refused (lit : Object) (st : state) : extends st (refused lit st).
Proof.
  split; simpl; auto.
  intros i o Ho. exists o. split; [|apply sameButFields_refl].
  apply lookup_app_l_Some. exact Ho.
Qed.

Lemma extends_setHeap (st : state) (m : list value) : extends st (setHeap st m).
Proof. split; simpl; auto. intros i o Ho. exists o. split; [exact Ho|apply sameButFields_refl]. Qed.

Lemma extends_setField (fa : addr) (x : value) (st st1 : state) :
  setField fa x st = Some st1 -> extends st st1.
Proof.
  unfold setField. destruct (store (heap st) fa x); simpl; [|discriminate].
  intros [= <-]. apply extends_setHeap.
Qed.

Lemma extends_addDep (oid : nat) (field : string) (dep : nat) (st : state) :
  extends st (addDep oid field dep st).
Proof.
  unfold addDep. destruct (objects st !! oid) as [o|] eqn:Ho; [|apply extends_refl].
  split; simpl; auto.
  intros i o' Ho'. destruct (decide (i = oid)) as [->|Hne].
  - rewrite list_lookup_insert_eq by (eapply lookup_lt_Some; eauto).
    eexists. split; [reflexivity|]. rewrite Ho in Ho'. injection Ho' as <-.
    repeat split.
  - rewrite list_lookup_insert_ne by auto. exists o'. split; [exact Ho'|apply sameButFields_refl].
Qed.

Lemma explicitStep_extends (env : TypeEnv) (rec : nat -> state -> state * outcome)
    (oid : nat) (a : addr) (i : nat) (f : StructField.t) (st : state)
    (r : state * outcome) :
  (forall id s, extends s (fst (rec id s))) ->
  explicitStep env rec oid a i f st r ->
  extends st (fst r).
Proof.
  intros Hrec Hstep. step_cases Hstep; simpl.
  - apply extends_refl.
  - apply extends_refused.
  - eapply extends_trans; [apply extends_registered|apply Hrec].
  - eapply extends_trans; [eapply extends_setField; eauto|apply extends_addDep].
  - apply extends_registered.
  - eapply extends_setField; eauto.
  - eapply extends_trans; [apply extends_setHeap|apply extends_refused].
  - assert (Hst4 : extends st st4).
    { eapply extends_trans; [apply extends_setHeap|].
      eapply extends_trans; [apply extends_registered|].
      change st4 with (fst (st4, r)). rewrite <- Hrec'. apply Hrec. }
    destruct r; simpl; auto.
    destruct (setField _ _ st4) as [st5|] eqn:Hset5; simpl; auto.
    eapply extends_trans; [exact Hst4|].
    eapply extends_trans; [eapply extends_setField; eauto|apply extends_addDep].
Qed.

Lemma structLoop_extends (step : nat -> StructField.t -> state -> state * outcome)
    (fs : list StructField.t) :
  (forall i f s, extends s (fst (step i f s))) ->
  forall i st, extends st (fst (structLoop step i fs st)).
Proof.
  intros Hstep. induction fs as [|f fs IH]; intros i st; simpl.
  - apply extends_refl.
  - specialize (Hstep i f st). destruct (step i f st) as [st' []]; simpl in *; auto.
    eapply extends_trans; [exact Hstep|apply IH].
Qed.

Lemma populateExplicit_extends (env : TypeEnv) (fuel : nat) (oid : nat) (st : state) :
  extends st (fst (populateExplicit env fuel oid st)).
Proof.
  revert oid st. induction fuel as [|fuel IH]; intros oid st; simpl.
  - apply extends_refl.
  - destruct (objects st !! oid) as [o|]; [|apply extends_refl].
    destruct (walkTarget env o); try apply extends_refl.
    apply structLoop_extends. intros i f s.
    eapply explicitStep_extends; [exact IH|apply explicitField_cases].
Qed.

(** * Frame: a pointer already in a field is never replaced *)

Lemma readPath_zero (v w : value) (q : list nat) :
  readPath v q = Some w -> isZero v = true -> isZero w = true.
Proof.
  revert v. induction q as [|j q IH]; intros v; simpl.
  - intros [= <-]. auto.
  - destruct v as [| | | |fs|]; try discriminate.
    destruct (fs !! j) as [u|] eqn:Hu; [|discriminate].
    intros Hr Hz. apply (IH u Hr). simpl in Hz.
    rewrite forallb_forall in Hz. apply Hz.
    apply list_elem_of_In. eapply list_elem_of_lookup_2. exact Hu.
Qed.

Lemma writePath_keeps (v v' x : value) (p q : list nat) (z : addr) :
  writePath v p x = Some v' ->
  readPath v q = Some (VPtr z) ->
  ~ p `prefix_of` q ->
  readPath v' q = Some (VPtr z).
Proof.
  revert v v' q. induction p as [|i p IH]; intros v v' q; simpl.
  - intros _ _ Hn. exfalso. apply Hn. apply prefix_nil.
  - destruct v as [| | | |fs|]; try discriminate.
    destruct (fs !! i) as [w|] eqn:Hw; [|discriminate].
    destruct (writePath w p x) as [w'|] eqn:Hw'; [|discriminate].
    intros [= <-]. destruct q as [|j q]; simpl; [discriminate|].
    destruct (decide (j = i)) as [->|Hne].
    + rewrite Hw. rewrite list_lookup_insert_eq by (eapply lookup_lt_Some; eauto).
      intros Hr Hn. eapply IH; eauto.
      intros Hp. apply Hn. apply prefix_cons. exact Hp.
    + rewrite list_lookup_insert_ne by auto. auto.
Qed.

Lemma store_keeps (m m' : list value) (fa a : addr) (x : value) (z : addr) :
  store m fa x = Some m' ->
  load m a = Some (VPtr z) ->
  ~ (fst a = fst fa /\ snd fa `prefix_of` snd a) ->
  load m' a = Some (VPtr z).
Proof.
  unfold store, load.
  destruct (m !! fst fa) as [v|] eqn:Hv; [|discriminate].
  destruct (writePath v (snd fa) x) as [v'|] eqn:Hv'; [|discriminate].
  intros [= <-] Ha Hn.
  destruct (decide (fst a = fst fa)) as [E|Hne].
  - rewrite E in *. rewrite Hv in Ha.
    rewrite list_lookup_insert_eq by (eapply lookup_lt_Some; eauto).
    eapply writePath_keeps; eauto.
  - rewrite list_lookup_insert_ne by auto. exact Ha.
Qed.

Lemma zero_not_above_pointer (m : list value) (fa a : addr) (field : value) (z : addr) :
  load m fa = Some field -> isZero field = true ->
  load m a = Some (VPtr z) ->
  ~ (fst a = fst fa /\ snd fa `prefix_of` snd a).
Proof.
  unfold load. intros Hf Hz Ha [E [q Hq]]. rewrite E in Ha.
  destruct (m !! fst fa) as [v|]; [|discriminate].
  rewrite Hq in Ha.
  assert (Hsplit : forall p q v, readPath v (p ++ q) =
            match readPath v p with Some w => readPath w q | None => None end).
  { clear. induction p as [|i p IH]; intros q v; simpl; [reflexivity|].
    destruct v; try reflexivity. destruct (fs !! i); [apply IH|reflexivity]. }
  rewrite Hsplit, Hf in Ha.
  pose proof (readPath_zero _ _ _ Ha Hz). discriminate.
Qed.

Lemma keepsPointers_refl (st : state) : keepsPointers st st.
Proof. intros a p H. exact H. Qed.

Lemma keepsPointers_trans (st1 st2 st3 : state) :
  keepsPointers st1 st2 -> keepsPointers st2 st3 -> keepsPointers st1 st3.
Proof. intros H1 H2 a p H. auto. Qed.

Lemma keepsPointers_heap (st st' : state) :
  heap st' = heap st -> keepsPointers st st'.
Proof. intros E a p H. rewrite E. exact H. Qed.

Lemma keepsPointers_alloc (st : state) (v : value) :
  keepsPointers st (setHeap st (heap st ++ [v])%list).
Proof.
  intros a p. unfold load. simpl.
  destruct (heap st !! fst a) as [w|] eqn:Hw; [|discriminate].
  rewrite (lookup_app_l_Some _ _ _ _ Hw). auto.
Qed.

Lemma keepsPointers_setField (st0 st st1 : state) (fa : addr) (field x : value) :
  load (heap st0) fa = Some field -> isZero field = true ->
  keepsPointers st0 st ->
  setField fa x st = Some st1 ->
  keepsPointers st0 st1.
Proof.
  intros Hf Hz Hk Hset a p Ha.
  unfold setField in Hset.
  destruct (store (heap st) fa x) as [m'|] eqn:Hst; [|discriminate].
  injection Hset as <-. simpl.
  eapply store_keeps; eauto.
  eapply zero_not_above_pointer; eauto.
Qed.

Lemma addDep_heap (oid : nat) (field : string) (dep : nat) (st : state) :
  heap (addDep oid field dep st) = heap st.
Proof. unfold addDep. destruct (objects st !! oid); reflexivity. Qed.

Lemma explicitStep_keepsPointers (env : TypeEnv) (rec : nat -> state -> state * outcome)
    (oid : nat) (a : addr) (i : nat) (f : StructField.t) (st : state)
    (r : state * outcome) :
  (forall id s, keepsPointers s (fst (rec id s))) ->
  explicitStep env rec oid a i f st r ->
  keepsPointers st (fst r).
Proof.
  intros Hrec Hstep. step_cases Hstep; simpl.
  - apply keepsPointers_refl.
  - apply keepsPointers_heap. reflexivity.
  - eapply keepsPointers_trans; [|apply Hrec]. apply keepsPointers_heap. reflexivity.
  - eapply keepsPointers_trans; [|apply keepsPointers_heap, addDep_heap].
    eapply keepsPointers_setField; eauto using keepsPointers_refl.
  - apply keepsPointers_heap. reflexivity.
  - eapply keepsPointers_setField; eauto using keepsPointers_refl.
  - apply keepsPointers_alloc.
  - assert (Hst4 : keepsPointers st st4).
    { match type of Hrec' with
      | rec ?id ?s = _ => pose proof (Hrec id s) as Hs; rewrite Hrec' in Hs
      end.
      eapply keepsPointers_trans; [apply (keepsPointers_alloc st (Zero env elem))|].
      eapply keepsPointers_trans; [|exact Hs].
      apply keepsPointers_heap. reflexivity. }
    destruct r; simpl; auto.
    destruct (setField _ _ st4) as [st5|] eqn:Hset5; simpl; auto.
    eapply keepsPointers_trans; [|apply keepsPointers_heap, addDep_heap].
    eapply keepsPointers_setField; eauto.
Qed.

Lemma structLoop_keepsPointers (step : nat -> StructField.t -> state -> state * outcome)
    (fs : list StructField.t) :
  (forall i f s, keepsPointers s (fst (step i f s))) ->
  forall i st, keepsPointers st (fst (structLoop step i fs st)).
Proof.
  intros Hstep. induction fs as [|f fs IH]; intros i st; simpl.
  - apply keepsPointers_refl.
  - specialize (Hstep i f st). destruct (step i f st) as [st' []]; simpl in *; auto.
    eapply keepsPointers_trans; [exact Hstep|apply IH].
Qed.

Lemma populateExplicit_keepsPointers (env : TypeEnv) (fuel : nat) (oid : nat) (st : state) :
  keepsPointers st (fst (populateExplicit env fuel oid st)).
Proof.
  revert oid st. induction fuel as [|fuel IH]; intros oid st; simpl.
  - apply keepsPointers_refl.
  - destruct (objects st !! oid) as [o|]; [|apply keepsPointers_refl].
    destruct (walkTarget env o); try apply keepsPointers_refl.
    apply structLoop_keepsPointers. intros i f s.
    eapply explicitStep_keepsPointers; [exact IH|apply explicitField_cases].
Qed.

(** * Single fields in the explicit pass *)

Lemma explicitField_nonzero (env : TypeEnv) (rec : nat -> state -> state * outcome)
    (oid : nat) (ot : option type) (a : addr) (i : nat) (f : StructField.t) (st : state)
    (field : value) (tg : tag.t) :
  load (heap st) (fieldAddr a i) = Some field ->
  isZero field = false ->
  parseTag (StructField.Tag f) = (Some tg, None) ->
  StructField.Exported f = true ->
  tag.Inline tg = false ->
  isStructPtr (StructField.Type_ f) = true ->
  tag.Private tg = false ->
  let lit := objectLit (Some (StructField.Type_ f, field)) false false false in
  explicitField env rec oid ot a i f st =
    if tracked st (Some (StructField.Type_ f, field)) then (st, Done)
    else if typeTaken (graph st) (StructField.Type_ f) then (refused lit st, Done)
    else rec (length (objects st)) (registered lit (StructField.Type_ f) st).
Proof.
  intros Hload Hz Htag Hexp Hinl Hsp Hpriv lit. unfold explicitField.
  rewrite Hload, Htag, Hexp, Hinl. unfold isNilOrZero. rewrite Hz, Hsp, Hpriv.
  cbn [negb andb].
  destruct (tracked st _); [reflexivity|].
  change (newObject ?l st) with (length (objects st), snd (newObject l st)).
  cbv beta iota. rewrite provideFresh_spec. simpl fst. rewrite Hsp. cbn [orb].
  fold lit.
  destruct (typeTaken (graph st) (StructField.Type_ f)); cbn [negb]; [reflexivity|].
  destruct (rec _ _) as [st' []]; reflexivity.
Qed.

Lemma explicitField_pointer (env : TypeEnv) (rec : nat -> state -> state * outcome)
    (oid : nat) (ot : option type) (a : addr) (i : nat) (f : StructField.t) (st : state)
    (field : value) (tg : tag.t) (n : string) :
  load (heap st) (fieldAddr a i) = Some field ->
  isZero field = true ->
  parseTag (StructField.Tag f) = (Some tg, None) ->
  StructField.Exported f = true ->
  tag.Inline tg = false ->
  tag.Name tg = EmptyString ->
  StructField.Type_ f = TPtr (TStruct n) ->
  let fa := fieldAddr a i in
  let na : addr := (length (heap st), []) in
  let lit := objectLit (Some (TPtr (TStruct n), VPtr na)) (tag.Private tg) true false in
  let create :=
    if tag.Private tg || negb (typeTaken (graph st) (TPtr (TStruct n))) then
      match rec (length (objects st))
              (registered lit (TPtr (TStruct n))
                 (setHeap st (heap st ++ [Zero env (TStruct n)])%list)) with
      | (st4, Done) =>
          match setField fa (VPtr na) st4 with
          | Some st5 => (addDep oid (StructField.Name f) (length (objects st)) st5, Done)
          | None => (st4, Panicked)
          end
      | r => r
      end
    else (refused lit (setHeap st (heap st ++ [Zero env (TStruct n)])%list),
          Failed (ErrTwoUnnamed (TPtr (TStruct n)))) in
  explicitField env rec oid ot a i f st =
    if tag.Private tg then create
    else
      match findAssignable env (objects st) (TPtr (TStruct n)) (unnamed (graph st)) with
      | ScanPanic => (st, Panicked)
      | Found eid x =>
          match setField fa (boxFor (TPtr (TStruct n)) x) st with
          | None => (st, Panicked)
          | Some st1 => (addDep oid (StructField.Name f) eid st1, Done)
          end
      | NotFound => create
      end.
Proof.
  intros Hload Hz Htag Hexp Hinl Hname Hty fa na lit create. unfold explicitField.
  rewrite Hload, Htag, Hexp, Hinl, Hname, Hty. unfold isNilOrZero. rewrite Hz.
  cbn [negb andb kindOf Kind_eqb isStructPtr String.eqb].
  assert (Hc : (let (na0, st1) := newValue (Zero env (TStruct n)) st in
       let (newObj, st2) :=
         newObject (objectLit (Some (TPtr (TStruct n), VPtr na0)) (tag.Private tg) true false)
           st1 in
       match Provide [newObj] st2 with
       | (st3, Done) =>
           match rec newObj st3 with
           | (st4, Done) =>
               match setField (fieldAddr a i) (VPtr na0) st4 with
               | Some st5 => (addDep oid (StructField.Name f) newObj st5, Done)
               | None => (st4, Panicked)
               end
           | r => r
           end
       | r => r
       end) = create).
  { unfold newValue.
    change (newObject ?l ?s) with (length (objects s), snd (newObject l s)).
    cbv beta iota.
    change (mkState (heap st ++ [Zero env (TStruct n)])%list (objects st) (graph st))
      with (setHeap st (heap st ++ [Zero env (TStruct n)])%list).
    rewrite provideFresh_spec. simpl fst. cbn [isStructPtr kindOf Kind_eqb].
    unfold create. fold na. fold lit. simpl graph. simpl objects.
    destruct (tag.Private tg || negb (typeTaken (graph st) (TPtr (TStruct n)))); [|reflexivity].
    destruct (rec _ _) as [st4 []]; reflexivity. }
  rewrite Hc. destruct (tag.Private tg); [reflexivity|].
  destruct (findAssignable _ _ _ _); reflexivity.
Qed.

Lemma findAssignable_find (env : TypeEnv) (objs : list Object) (ft : type) (l : list nat) :
  (forall eid, eid ∈ l ->
     exists e x, objs !! eid = Some e /\ Value e = Some x /\ reflectType e = Some (fst x)) ->
  findAssignable env objs ft l =
    match List.find (isCandidate env objs ft) l with
    | Some eid =>
        match objs !! eid with
        | Some e => match Value e with Some x => Found eid x | None => ScanPanic end
        | None => ScanPanic
        end
    | None => NotFound
    end.
Proof.
  induction l as [|eid l IH]; intros Hl; simpl; [reflexivity|].
  destruct (Hl eid) as (e & x & He & Hv & Ht); [left|].
  unfold isCandidate at 1. rewrite He, Ht.
  destruct (private e); simpl.
  - apply IH. intros k Hk. apply Hl. right. exact Hk.
  - destruct (AssignableTo env (fst x) ft).
    + rewrite He, Hv. reflexivity.
    + apply IH. intros k Hk. apply Hl. right. exact Hk.
Qed.

Lemma find_isCandidate (env : TypeEnv) (objs : list Object) (ft : type) (l : list nat)
    (eid : nat) :
  List.find (isCandidate env objs ft) l = Some eid ->
  eid ∈ l /\ isCandidate env objs ft eid = true.
Proof.
  intros H. apply find_some in H as [Hin Hc]. split; [|exact Hc].
  apply list_elem_of_In. exact Hin.
Qed.

Lemma setField_load (fa : addr) (x : value) (st st1 : state) :
  setField fa x st = Some st1 -> load (heap st1) fa = Some x.
Proof.
  unfold setField, store, load.
  destruct (heap st !! fst fa) as [v|] eqn:Hv; [|discriminate].
  destruct (writePath v (snd fa) x) as [v'|] eqn:Hw; [|discriminate].
  simpl. intros [= <-]. simpl.
  rewrite list_lookup_insert_eq by (eapply lookup_lt_Some; eauto).
  clear Hv. revert v v' Hw. induction (snd fa) as [|i p IH]; intros v v'; simpl.
  - intros [= <-]. reflexivity.
  - destruct v as [| | | |fs|]; try discriminate.
    destruct (fs !! i) as [w|] eqn:Hi; [|discriminate].
    destruct (writePath w p x) as [w'|] eqn:Hw'; [|discriminate].
    intros [= <-]. rewrite list_lookup_insert_eq by (eapply lookup_lt_Some; eauto).
    eapply IH; eauto.
Qed.

Lemma setField_objects (fa : addr) (x : value) (st st1 : state) :
  setField fa x st = Some st1 -> objects st1 = objects st /\ graph st1 = graph st.
Proof.
  unfold setField. destruct (store (heap st) fa x); [|discriminate].
  intros [= <-]. auto.
Qed.

Lemma load_setField (fa : addr) (x field : value) (st : state) :
  load (heap st) fa = Some field -> exists st1, setField fa x st = Some st1.
Proof.
  unfold setField, store, load.
  destruct (heap st !! fst fa) as [v|]; [|discriminate].
  intros Hr.
  assert (Hw : exists v', writePath v (snd fa) x = Some v').
  { revert v Hr. induction (snd fa) as [|i p IH]; intros v; simpl; [eauto|].
    destruct v as [| | | |fs|]; try discriminate.
    destruct (fs !! i) as [w|]; [|discriminate].
    intros Hr. destruct (IH w Hr) as [w' ->]. eauto. }
  destruct Hw as [v' ->]. simpl. eauto.
Qed.

Lemma addDep_dependency (oid : nat) (field : string) (dep : nat) (st : state) (o : Object) :
  objects st !! oid = Some o ->
  dependency (addDep oid field dep st) oid field = Some dep.
Proof.
  intros Ho. unfold dependency, addDep. rewrite Ho. simpl.
  rewrite list_lookup_insert_eq by (eapply lookup_lt_Some; eauto).
  simpl. apply lookup_insert_eq.
Qed.

Lemma addDep_graph (oid : nat) (field : string) (dep : nat) (st : state) :
  graph (addDep oid field dep st) = graph st.
Proof. unfold addDep. destruct (objects st !! oid); reflexivity. Qed.

(** The graph as [Provide] keeps it. *)
Lemma withReflect_typed (e : Object) (x : type * value) :
  Value e = Some x -> reflectType e = Some (fst x) -> reflectValue e = Some (snd x) ->
  withReflect e = e.
Proof.
  destruct e. simpl. intros -> -> ->. reflexivity.
Qed.

Lemma provideOne_typedUnnamed (oid : nat) (st : state) :
  typedUnnamed st -> typedUnnamed (fst (provideOne oid st)).
Proof.
  intros Hty.
  assert (Hset : forall o, objects st !! oid = Some o ->
            forall eid, eid ∈ unnamed (graph st) ->
            exists e x, <[oid := withReflect o]> (objects st) !! eid = Some e
                        /\ Value e = Some x /\ reflectType e = Some (fst x)
                        /\ reflectValue e = Some (snd x)).
  { intros o Ho eid Hin. destruct (Hty eid Hin) as (e & x & He & Hv & Ht & Hr).
    destruct (decide (eid = oid)) as [->|Hne].
    - rewrite list_lookup_insert_eq by (eapply lookup_lt_Some; eauto).
      rewrite Ho in He. injection He as ->.
      rewrite (withReflect_typed e x) by auto. eauto 10.
    - rewrite list_lookup_insert_ne by auto. eauto 10. }
  unfold provideOne. destruct (objects st !! oid) as [o|] eqn:Ho; [|exact Hty].
  specialize (Hset o eq_refl).
  assert (Hnew : forall x, Value o = Some x ->
            exists e y, <[oid := withReflect o]> (objects st) !! oid = Some e
                        /\ Value e = Some y /\ reflectType e = Some (fst y)
                        /\ reflectValue e = Some (snd y)).
  { intros x Hv. rewrite list_lookup_insert_eq by (eapply lookup_lt_Some; eauto).
    exists (withReflect o), x. simpl. rewrite Hv. auto. }
  simpl. destruct (Fields o); [exact Hset|].
  destruct (String.eqb (Name o) EmptyString).
  - destruct (Value o) as [x|] eqn:Hv; simpl; [|exact Hset].
    destruct (negb (isStructPtr (fst x))); [exact Hset|].
    destruct (negb (private o)).
    + destruct (typeTaken _ (fst x)); [exact Hset|].
      intros eid Hin. simpl in Hin. apply elem_of_app in Hin as [Hin|Hin]; [auto|].
      apply list_elem_of_singleton in Hin as ->. eauto.
    + intros eid Hin. simpl in Hin. apply elem_of_app in Hin as [Hin|Hin]; [auto|].
      apply list_elem_of_singleton in Hin as ->. eauto.
  - destruct (named _ !! _); exact Hset.
Qed.

Lemma provideOne_typesBacked (oid : nat) (st : state) :
  typedUnnamed st -> typesBacked st -> typesBacked (fst (provideOne oid st)).
Proof.
  intros Hty Hb.
  assert (Hset : forall o, objects st !! oid = Some o ->
            forall t, typeTaken (graph st) t = true ->
            exists eid e, eid ∈ unnamed (graph st)
                          /\ <[oid := withReflect o]> (objects st) !! eid = Some e
                          /\ private e = false /\ reflectType e = Some t).
  { intros o Ho t Ht. destruct (Hb t Ht) as (eid & e & Hin & He & Hp & Hte).
    exists eid. destruct (decide (eid = oid)) as [->|Hne].
    - rewrite list_lookup_insert_eq by (eapply lookup_lt_Some; eauto).
      destruct (Hty oid Hin) as (e' & x & He' & Hv & Hrt & Hrv).
      rewrite Ho in He, He'. injection He as ->. injection He' as <-.
      rewrite (withReflect_typed e x) by auto. eauto.
    - rewrite list_lookup_insert_ne by auto. eauto. }
  unfold provideOne. destruct (objects st !! oid) as [o|] eqn:Ho; [|exact Hb].
  specialize (Hset o eq_refl).
  simpl. destruct (Fields o); [exact Hset|].
  destruct (String.eqb (Name o) EmptyString).
  - destruct (Value o) as [[t v]|] eqn:Hv; simpl; [|exact Hset].
    destruct (negb (isStructPtr t)); [exact Hset|].
    destruct (negb (private o)) eqn:Hp.
    + destruct (typeTaken _ t) eqn:Htk; [exact Hset|].
      intros t' Ht'. unfold typeTaken in Ht'. simpl in Ht'.
      apply orb_true_iff in Ht' as [Heq|Ht'].
      * apply type_eqb_eq in Heq as ->. exists oid, (withReflect o). simpl.
        split; [apply elem_of_app; right; left|].
        rewrite list_lookup_insert_eq by (eapply lookup_lt_Some; eauto).
        apply negb_true_iff in Hp. rewrite Hv. auto.
      * destruct (Hset t' Ht') as (eid & e & Hin & He & Hpe & Hte).
        exists eid, e. simpl. split; [apply elem_of_app; left; exact Hin|auto].
    + intros t' Ht'. destruct (Hset t' Ht') as (eid & e & Hin & He & Hpe & Hte).
      exists eid, e. simpl. split; [apply elem_of_app; left; exact Hin|auto].
  - destruct (named _ !! _); exact Hset.
Qed.

Lemma Provide_graph_ok (oids : list nat) (st : state) :
  typedUnnamed st /\ typesBacked st ->
  typedUnnamed (fst (Provide oids st)) /\ typesBacked (fst (Provide oids st)).
Proof.
  revert st. induction oids as [|oid oids IH]; intros st [H1 H2]; simpl; [auto|].
  pose proof (provideOne_typedUnnamed oid st H1) as H1'.
  pose proof (provideOne_typesBacked oid st H1 H2) as H2'.
  destruct (provideOne oid st) as [st' []]; simpl in *; auto.
Qed.

Lemma empty_graph_ok (m : list value) (objs : list Object) :
  typedUnnamed (mkState m objs (mkGraph [] [] ∅))
  /\ typesBacked (mkState m objs (mkGraph [] [] ∅)).
Proof.
  split.
  - intros eid H. inversion H.
  - intros t H. discriminate.
Qed.

Lemma reuseProvided_ok : typedUnnamed reuseProvided /\ typesBacked reuseProvided.
Proof. apply Provide_graph_ok, empty_graph_ok. Qed.

(** * The interface pass *)

Lemma addDep_lookup_other (oid : nat) (field : string) (dep : nat) (st : state) (k : nat) :
  exists same : Object -> Object,
    (forall o, sameButFields o (same o))
    /\ objects (addDep oid field dep st) !! k = same <$> objects st !! k.
Proof.
  unfold addDep. destruct (objects st !! oid) as [o|] eqn:Ho.
  - destruct (decide (k = oid)) as [->|Hne].
    + exists (fun o => withFields o (<[field := dep]> (default ∅ (Fields o)))).
      split; [intros o'; repeat split|].
      simpl. rewrite list_lookup_insert_eq by (eapply lookup_lt_Some; eauto).
      rewrite Ho. reflexivity.
    + exists (fun o => o). split; [intros o'; repeat split|].
      simpl. rewrite list_lookup_insert_ne by auto.
      destruct (objects st !! k); reflexivity.
  - exists (fun o => o). split; [intros o'; repeat split|].
    destruct (objects st !! k); reflexivity.
Qed.

Lemma isCandidate_same (env : TypeEnv) (objs objs' : list Object) (ft : type) (k : nat) :
  (exists same : Object -> Object,
      (forall o, sameButFields o (same o)) /\ objs' !! k = same <$> objs !! k) ->
  isCandidate env objs' ft k = isCandidate env objs ft k.
Proof.
  intros (same & Hs & E). unfold isCandidate. rewrite E.
  destruct (objs !! k) as [o|]; simpl; [|reflexivity].
  destruct (Hs o) as (_ & _ & _ & -> & _ & -> & _). reflexivity.
Qed.

(** The scan once an object has been assigned: a further candidate is the
    ambiguity error; the state no longer changes. *)
Lemma interfaceScan_found (env : TypeEnv) (oid : nat) (ot : option type) (fa : addr)
    (ft : type) (name : string) (st : state) (fid : nat) (fo : Object) (l : list nat) :
  objects st !! fid = Some fo ->
  (forall eid, eid ∈ l -> exists e t, objects st !! eid = Some e /\ reflectType e = Some t) ->
  interfaceScan env oid ot fa ft name l (Some fid) st =
    match List.filter (isCandidate env (objects st) ft) l with
    | [] => (st, Done)
    | e2 :: _ =>
        match objects st !! e2 with
        | Some o2 =>
            (st, Failed (ErrTwoAssignable name ot (reflectType fo) (Value fo)
                           (reflectType o2) (reflectValue o2)))
        | None => (st, Panicked)
        end
    end.
Proof.
  intros Hfo. induction l as [|eid l IH]; intros Hl; simpl; [reflexivity|].
  destruct (Hl eid) as (e & t & He & Ht); [left|].
  unfold isCandidate at 1. rewrite He, Ht.
  assert (IH' := IH (fun k Hk => Hl k (list_elem_of_further _ _ _ Hk))).
  destruct (private e); simpl; [exact IH'|].
  destruct (AssignableTo env t ft); [|exact IH'].
  rewrite Hfo, He, ?Ht. reflexivity.
Qed.

(** The scan from its start. *)
Lemma interfaceScan_start (env : TypeEnv) (oid : nat) (ot : option type) (fa : addr)
    (ft : type) (name : string) (st : state) (field : value) (l : list nat) :
  load (heap st) fa = Some field ->
  (forall eid, eid ∈ l ->
     exists e x, objects st !! eid = Some e /\ Value e = Some x
                 /\ reflectType e = Some (fst x)) ->
  interfaceScan env oid ot fa ft name l None st =
    match List.filter (isCandidate env (objects st) ft) l with
    | [] => (st, Failed (ErrNoAssignable name ot))
    | e1 :: rest =>
        match objects st !! e1 with
        | Some o1 =>
            match Value o1 with
            | Some x =>
                match setField fa (boxFor ft x) st with
                | Some st1 =>
                    match rest with
                    | [] => (addDep oid name e1 st1, Done)
                    | e2 :: _ =>
                        match objects st !! e2 with
                        | Some o2 =>
                            (addDep oid name e1 st1,
                             Failed (ErrTwoAssignable name ot (reflectType o1) (Value o1)
                                       (reflectType o2) (reflectValue o2)))
                        | None => (st, Panicked)
                        end
                    end
                | None => (st, Panicked)
                end
            | None => (st, Panicked)
            end
        | None => (st, Panicked)
        end
    end.
Proof.
  intros Hload. induction l as [|eid l IH]; intros Hl; simpl; [reflexivity|].
  destruct (Hl eid) as (e & x & He & Hv & Ht); [left|].
  unfold isCandidate at 1. rewrite He, Ht.
  assert (IH' := IH (fun k Hk => Hl k (list_elem_of_further _ _ _ Hk))).
  destruct (private e); simpl; [exact IH'|].
  destruct (AssignableTo env (fst x) ft); [|exact IH'].
  rewrite He, Hv.
  destruct (load_setField fa (boxFor ft x) field st Hload) as [st1 Hset].
  rewrite Hset.
  destruct (setField_objects _ _ _ _ Hset) as [Hobjs Hgraph].
  set (st2 := addDep oid name eid st1).
  assert (Hsame : forall k, exists same : Object -> Object,
             (forall o, sameButFields o (same o))
             /\ objects st2 !! k = same <$> objects st !! k).
  { intros k. rewrite <- Hobjs. apply addDep_lookup_other. }
  destruct (Hsame eid) as (same & Hs & Heid). rewrite He in Heid. simpl in Heid.
  rewrite (interfaceScan_found env oid ot fa ft name st2 eid (same e) l Heid).
  2: { intros k Hk. destruct (Hl k) as (e' & x' & He' & _ & Ht'); [right; exact Hk|].
       destruct (Hsame k) as (same' & Hs' & Hk'). rewrite He' in Hk'. simpl in Hk'.
       exists (same' e'), (fst x'). split; [exact Hk'|].
       destruct (Hs' e') as (_ & _ & _ & -> & _). exact Ht'. }
  assert (Hfilter : List.filter (isCandidate env (objects st2) ft) l
                    = List.filter (isCandidate env (objects st) ft) l).
  { apply filter_ext. intros k. apply isCandidate_same. apply Hsame. }
  rewrite Hfilter.
  destruct (List.filter (isCandidate env (objects st) ft) l) as [|e2 rest] eqn:Hf;
    [reflexivity|].
  destruct (Hsame e2) as (same2 & Hs2 & He2). rewrite He2.
  destruct (objects st !! e2) as [o2|] eqn:Ho2; simpl.
  - destruct (Hs e) as (-> & _ & _ & -> & _).
    destruct (Hs2 o2) as (_ & _ & _ & -> & -> & _). rewrite Hv. reflexivity.
  - exfalso. assert (Hin : In e2 (List.filter (isCandidate env (objects st) ft) l)).
    { rewrite Hf. left. reflexivity. }
    apply filter_In in Hin as [_ Hc]. unfold isCandidate in Hc.
    rewrite Ho2 in Hc. discriminate.
Qed.

Lemma interfaceField_bare (env : TypeEnv) (oid : nat) (ot : option type) (a : addr)
    (i : nat) (f : StructField.t) (st : state) (field : value) (tg : tag.t) :
  load (heap st) (fieldAddr a i) = Some field ->
  isZero field = true ->
  parseTag (StructField.Tag f) = (Some tg, None) ->
  tag.Private tg = false ->
  tag.Name tg = EmptyString ->
  kindOf (StructField.Type_ f) = Interface ->
  StructField.Exported f = true ->
  interfaceField env oid ot a i f st =
    interfaceScan env oid ot (fieldAddr a i) (StructField.Type_ f) (StructField.Name f)
      (unnamed (graph st)) None st.
Proof.
  intros Hload Hz Htag Hp Hn Hk Hexp. unfold interfaceField, isNilOrZero.
  rewrite Hload, Htag, Hk, Hp, Hexp, Hz, Hn. reflexivity.
Qed.

Lemma typedUnnamed_scan (st : state) :
  typedUnnamed st ->
  forall eid, eid ∈ unnamed (graph st) ->
    exists e x, objects st !! eid = Some e /\ Value e = Some x
                /\ reflectType e = Some (fst x).
Proof.
  intros H eid Hin. destruct (H eid Hin) as (e & x & He & Hv & Ht & _). eauto.
Qed.

Lemma candidates_head (env : TypeEnv) (st : state) (ft : type) (l : list nat)
    (e1 : nat) (rest : list nat) :
  typedUnnamed st ->
  (forall k, k ∈ l -> k ∈ unnamed (graph st)) ->
  List.filter (isCandidate env (objects st) ft) l = e1 :: rest ->
  exists o1 x, objects st !! e1 = Some o1 /\ Value o1 = Some x
               /\ reflectType o1 = Some (fst x) /\ private o1 = false.
Proof.
  intros Hty Hsub Hf.
  assert (Hin : In e1 (List.filter (isCandidate env (objects st) ft) l)).
  { rewrite Hf. left. reflexivity. }
  apply filter_In in Hin as [Hin Hc].
  destruct (Hty e1) as (o1 & x & Ho & Hv & Ht & _).
  { apply Hsub. apply list_elem_of_In. exact Hin. }
  exists o1, x. repeat split; auto.
  unfold isCandidate in Hc. rewrite Ho in Hc. destruct (private o1); [discriminate|reflexivity].
Qed.

Lemma loggerProvided_typed (both : bool) : typedUnnamed (loggerProvided both).
Proof. apply Provide_graph_ok, empty_graph_ok. Qed.

(** * Deep injection *)

(** C1 (counterexample): serviceC holds a ServiceB built by hand while another
    ServiceB is registered. The hand-built one is not registered and its
    fields are not resolved. *)
Lemma deep_injection_skips_taken_type :
  ~ untrackedValueIsRegistered serviceEnv 1 2 (Some tServiceC) (2, []) 0 fieldB
      crowdedProvided.
Proof.
  intros H.
  specialize (H (1, []) injectOnly eq_refl eq_refl eq_refl eq_refl eq_refl eq_refl eq_refl).
  apply (f_equal (fun r => heap (fst r))) in H. vm_compute in H. discriminate.
Qed.

(** C1 (amended): a pointer-to-struct field with a directive that is not
    private holds a pointer that no unnamed object holds. If no unnamed object
    that is not private has the field's type yet, the value is registered as
    a new unnamed record (not private, not created) before the explicit pass
    runs on it, the record stays registered, and the field keeps its pointer.
    If the type is taken, the value stays unregistered and the round ends
    without error. With serviceC holding a hand-built ServiceB and serviceA
    provided, after Populate serviceC.B is unchanged and serviceC.B.A is
    serviceA. *)
Theorem deep_injection_registers_untracked :
  (forall (env : TypeEnv) (fuel : nat) (oid : nat) (ot : option type) (a : addr)
          (i : nat) (f : StructField.t) (st : state) (p : addr) (tg : tag.t),
      load (heap st) (fieldAddr a i) = Some (VPtr p) ->
      parseTag (StructField.Tag f) = (Some tg, None) ->
      StructField.Exported f = true ->
      tag.Inline tg = false ->
      isStructPtr (StructField.Type_ f) = true ->
      tag.Private tg = false ->
      tracked st (Some (StructField.Type_ f, VPtr p)) = false ->
      let newObj := length (objects st) in
      let lit := objectLit (Some (StructField.Type_ f, VPtr p)) false false false in
      let st2 := registered lit (StructField.Type_ f) st in
      let run := explicitField env (populateExplicit env fuel) oid ot a i f st in
      (typeTaken (graph st) (StructField.Type_ f) = false ->
         run = populateExplicit env fuel newObj st2
         /\ objects st2 !! newObj = Some (withReflect lit)
         /\ newObj ∈ unnamed (graph st2)
         /\ load (heap (fst run)) (fieldAddr a i) = Some (VPtr p)
         /\ newObj ∈ unnamed (graph (fst run))
         /\ exists o', objects (fst run) !! newObj = Some o'
              /\ Value o' = Some (StructField.Type_ f, VPtr p)
              /\ private o' = false /\ created o' = false)
      /\ (typeTaken (graph st) (StructField.Type_ f) = true ->
          run = (refused lit st, Done)))
  /\ (snd (Populate serviceEnv 4 [] [] mixedProvided) = Done
      /\ load (heap mixedProvided) (2, [0]) = Some (VPtr (1, []))
      /\ load (heap (fst (Populate serviceEnv 4 [] [] mixedProvided))) (2, [0])
         = Some (VPtr (1, []))
      /\ load (heap (fst (Populate serviceEnv 4 [] [] mixedProvided))) (1, [0])
         = Some (VPtr (0, []))).
Proof.
  split; [|vm_compute; auto].
  intros env fuel oid ot a i f st p tg Hload Htag Hexp Hinl Hsp Hpriv Htr newObj lit st2 run.
  pose proof (explicitField_nonzero env (populateExplicit env fuel) oid ot a i f st
                (VPtr p) tg Hload eq_refl Htag Hexp Hinl Hsp Hpriv) as Hrun.
  cbv zeta in Hrun. rewrite Htr in Hrun. fold lit newObj st2 run in Hrun.
  split; intros Ht; rewrite Ht in Hrun; [|exact Hrun].
  assert (Hnew : objects st2 !! newObj = Some (withReflect lit)).
  { unfold st2, newObj. simpl. rewrite lookup_app_r by lia.
    rewrite Nat.sub_diag. reflexivity. }
  assert (Hin : newObj ∈ unnamed (graph st2)).
  { unfold st2. simpl. apply elem_of_app. right. left. }
  rewrite Hrun.
  pose proof (populateExplicit_extends env fuel newObj st2) as Hext.
  pose proof (populateExplicit_keepsPointers env fuel newObj st2) as Hkeep.
  split; [reflexivity|]. split; [exact Hnew|]. split; [exact Hin|].
  split; [|split].
  - apply Hkeep. exact Hload.
  - destruct (ext_unnamed _ _ Hext) as [k ->]. apply elem_of_app. left. exact Hin.
  - destruct (ext_objects _ _ Hext newObj _ Hnew) as (o' & Ho' & V & _ & _ & _ & _ & P & C & _).
    exists o'. rewrite V, P, C. auto.
Qed.

Lemma deep_injection_registers_untracked_witness :
  explicitField serviceEnv (populateExplicit serviceEnv 1) 1 (Some tServiceC) (2, []) 0
    fieldB mixedProvided
  = populateExplicit serviceEnv 1 2
      (registered (objectLit (Some (tServiceB, VPtr (1, []))) false false false)
         tServiceB mixedProvided).
Proof.
  apply (proj1 (proj1 deep_injection_registers_untracked serviceEnv 1 1 (Some tServiceC)
                  (2, []) 0 fieldB mixedProvided (1, []) injectOnly
                  eq_refl eq_refl eq_refl eq_refl eq_refl eq_refl eq_refl) eq_refl).
Defined.

(** * Which errors reach the caller *)

(** C5 (counterexample): with a ServiceB registered, the registration of the
    hand-built ServiceB found in serviceC fails with the duplicate-type
    error, and the round ends without error. *)
Lemma refused_registration_is_dropped :
  ~ registrationFailureIsReported serviceEnv 1 2 (Some tServiceC) (2, []) 0 fieldB
      crowdedProvided.
Proof.
  intros H.
  specialize (H (1, []) injectOnly
                (refused (objectLit (Some (tServiceB, VPtr (1, []))) false false false)
                   crowdedProvided)
                (ErrTwoUnnamed tServiceB)
                eq_refl eq_refl eq_refl eq_refl eq_refl eq_refl eq_refl eq_refl).
  vm_compute in H. discriminate.
Qed.

(** The whole run on that graph: [Populate] returns nil, and the A of the
    hand-built ServiceB is still nil. *)
Example crowded_populate_returns_nil :
  snd (Populate serviceEnv 4 [] [] crowdedProvided) = Done
  /\ load (heap (fst (Populate serviceEnv 4 [] [] crowdedProvided))) (1, [0]) = Some VNil
  /\ load (heap (fst (Populate serviceEnv 4 [] [] crowdedProvided))) (3, [0])
     = Some (VPtr (0, [])).
Proof. vm_compute. auto. Qed.

Lemma structLoop_failure (step : nat -> StructField.t -> state -> state * outcome)
    (i : nat) (fs1 : list StructField.t) (f : StructField.t) (fs2 : list StructField.t)
    (st st1 st2 : state) (e : error) :
  structLoop step i fs1 st = (st1, Done) ->
  step (i + length fs1) f st1 = (st2, Failed e) ->
  structLoop step i (fs1 ++ f :: fs2)%list st = (st2, Failed e).
Proof.
  revert i st. induction fs1 as [|g fs1 IH]; intros i st; simpl.
  - intros [= ->]. rewrite Nat.add_0_r. intros ->. reflexivity.
  - destruct (step i g st) as [st' []]; try discriminate.
    intros H1 H2. apply IH; [exact H1|].
    rewrite <- H2. f_equal. lia.
Qed.

Lemma rangeUnnamed_failure (f : nat -> state -> state * outcome)
    (l1 : list nat) (oid : nat) (l2 : list nat) (st st1 st2 : state) (o : Object)
    (e : error) :
  rangeUnnamed f l1 st = (st1, Done) ->
  objects st1 !! oid = Some o -> Complete o = false ->
  f oid st1 = (st2, Failed e) ->
  rangeUnnamed f (l1 ++ oid :: l2)%list st = (st2, Failed e).
Proof.
  revert st. induction l1 as [|k l1 IH]; intros st; simpl.
  - intros [= ->] -> -> ->. reflexivity.
  - destruct (objects st !! k) as [ok|]; [|discriminate].
    destruct (Complete ok); [apply IH|].
    destruct (f k st) as [st' []]; try discriminate. apply IH.
Qed.

Lemma rangeNamed_failure (f : nat -> state -> state * outcome)
    (ks1 : list string) (k : string) (ks2 : list string) (st st1 st2 : state)
    (oid : nat) (o : Object) (e : error) :
  rangeNamed f ks1 st = (st1, Done) ->
  named (graph st1) !! k = Some oid ->
  objects st1 !! oid = Some o -> Complete o = false ->
  f oid st1 = (st2, Failed e) ->
  rangeNamed f (ks1 ++ k :: ks2)%list st = (st2, Failed e).
Proof.
  revert st. induction ks1 as [|j ks1 IH]; intros st; simpl.
  - intros [= ->] -> -> -> ->. reflexivity.
  - destruct (named (graph st) !! j) as [jd|]; [|apply IH].
    destruct (objects st !! jd) as [oj|]; [|discriminate].
    destruct (Complete oj); [apply IH|].
    destruct (f jd st) as [st' []]; try discriminate. apply IH.
Qed.

Lemma Provide_failure (l1 : list nat) (oid : nat) (l2 : list nat)
    (st st1 st2 : state) (e : error) :
  Provide l1 st = (st1, Done) ->
  provideOne oid st1 = (st2, Failed e) ->
  Provide (l1 ++ oid :: l2)%list st = (st2, Failed e).
Proof.
  revert st. induction l1 as [|k l1 IH]; intros st; simpl.
  - intros [= ->] ->. reflexivity.
  - destruct (provideOne k st) as [st' []]; try discriminate. apply IH.
Qed.

(** * The passes keep the graph as [Provide] builds it *)

Lemma graph_ok_frame (st st' : state) :
  extends st st' ->
  unnamed (graph st') = unnamed (graph st) ->
  unnamedType (graph st') = unnamedType (graph st) ->
  typedUnnamed st /\ typesBacked st ->
  typedUnnamed st' /\ typesBacked st'.
Proof.
  intros Hext Hu Ht [Hty Hb]. split.
  - intros eid Hin. rewrite Hu in Hin.
    destruct (Hty eid Hin) as (e & x & He & Hv & Hrt & Hrv).
    destruct (ext_objects _ _ Hext eid e He) as (e' & He' & V & _ & _ & T & RV & _).
    exists e', x. rewrite V, T, RV. auto.
  - intros t Htaken. unfold typeTaken in Htaken. rewrite Ht in Htaken.
    destruct (Hb t Htaken) as (eid & e & Hin & He & Hp & Hrt).
    destruct (ext_objects _ _ Hext eid e He) as (e' & He' & _ & _ & _ & T & _ & P & _).
    exists eid, e'. rewrite Hu, T, P. auto.
Qed.

Lemma graph_ok_registered (lit : Object) (t : type) (v : value) (st : state) :
  Value lit = Some (t, v) ->
  typedUnnamed st /\ typesBacked st ->
  typedUnnamed (registered lit t st) /\ typesBacked (registered lit t st).
Proof.
  intros Hv [Hty Hb].
  assert (Hnew : objects (registered lit t st) !! length (objects st)
                 = Some (withReflect lit)).
  { simpl. rewrite lookup_app_r by lia. rewrite Nat.sub_diag. reflexivity. }
  assert (Hold : forall eid e, objects st !! eid = Some e ->
                   objects (registered lit t st) !! eid = Some e).
  { intros eid e He. simpl. apply lookup_app_l_Some. exact He. }
  split.
  - intros eid Hin. simpl in Hin. apply elem_of_app in Hin as [Hin|Hin].
    + destruct (Hty eid Hin) as (e & x & He & Hx). exists e, x. split; auto.
    + apply list_elem_of_singleton in Hin as ->.
      exists (withReflect lit), (t, v). rewrite Hnew. simpl. rewrite Hv. auto.
  - intros t' Htaken.
    assert (Hback : typeTaken (graph st) t' = true ->
              exists eid e, eid ∈ unnamed (graph (registered lit t st))
                /\ objects (registered lit t st) !! eid = Some e
                /\ private e = false /\ reflectType e = Some t').
    { intros H. destruct (Hb t' H) as (eid & e & Hin & He & Hp & Hrt).
      exists eid, e. split; [simpl; apply elem_of_app; left; exact Hin|]. auto. }
    unfold typeTaken in Htaken. simpl in Htaken.
    destruct (private lit) eqn:Hp; [apply Hback; exact Htaken|].
    simpl in Htaken. apply orb_true_iff in Htaken as [Heq|Htaken]; [|apply Hback; exact Htaken].
    apply type_eqb_eq in Heq as ->.
    exists (length (objects st)), (withReflect lit).
    split; [simpl; apply elem_of_app; right; left|].
    rewrite Hnew. simpl. rewrite Hv. auto.
Qed.

Lemma explicitStep_graph_ok (env : TypeEnv) (rec : nat -> state -> state * outcome)
    (oid : nat) (a : addr) (i : nat) (f : StructField.t) (st : state)
    (res : state * outcome) :
  (forall id s, typedUnnamed s /\ typesBacked s ->
                typedUnnamed (fst (rec id s)) /\ typesBacked (fst (rec id s))) ->
  explicitStep env rec oid a i f st res ->
  typedUnnamed st /\ typesBacked st ->
  typedUnnamed (fst res) /\ typesBacked (fst res).
Proof.
  intros Hrec Hstep Hok. step_cases Hstep; simpl.
  - exact Hok.
  - eapply graph_ok_frame; [apply extends_refused| | |exact Hok]; reflexivity.
  - apply Hrec. eapply graph_ok_registered; [reflexivity|exact Hok].
  - destruct (setField_objects _ _ _ _ Hset) as [_ Hg].
    eapply graph_ok_frame; [| | |exact Hok].
    + eapply extends_trans; [eapply extends_setField; eauto|apply extends_addDep].
    + rewrite addDep_graph, Hg. reflexivity.
    + rewrite addDep_graph, Hg. reflexivity.
  - eapply graph_ok_registered; [reflexivity|exact Hok].
  - destruct (setField_objects _ _ _ _ Hset) as [_ Hg].
    eapply graph_ok_frame; [eapply extends_setField; eauto| | |exact Hok];
      rewrite Hg; reflexivity.
  - eapply graph_ok_frame; [| | |exact Hok]; try reflexivity.
    eapply extends_trans; [apply extends_setHeap|apply extends_refused].
  - assert (Hok4 : typedUnnamed st4 /\ typesBacked st4).
    { match type of Hrec' with
      | rec ?id ?s = _ => pose proof (Hrec id s) as Hs; rewrite Hrec' in Hs
      end.
      apply Hs. eapply graph_ok_registered; [reflexivity|].
      eapply graph_ok_frame; [apply extends_setHeap| | |exact Hok]; reflexivity. }
    destruct r; simpl; auto.
    destruct (setField _ _ st4) as [st5|] eqn:Hset5; simpl; auto.
    destruct (setField_objects _ _ _ _ Hset5) as [_ Hg].
    eapply graph_ok_frame; [| | |exact Hok4].
    + eapply extends_trans; [eapply extends_setField; eauto|apply extends_addDep].
    + rewrite addDep_graph, Hg. reflexivity.
    + rewrite addDep_graph, Hg. reflexivity.
Qed.

Lemma structLoop_graph_ok (step : nat -> StructField.t -> state -> state * outcome)
    (fs : list StructField.t) :
  (forall i f s, typedUnnamed s /\ typesBacked s ->
                 typedUnnamed (fst (step i f s)) /\ typesBacked (fst (step i f s))) ->
  forall i st, typedUnnamed st /\ typesBacked st ->
    typedUnnamed (fst (structLoop step i fs st)) /\ typesBacked (fst (structLoop step i fs st)).
Proof.
  intros Hstep. induction fs as [|f fs IH]; intros i st Hok; simpl; [exact Hok|].
  specialize (Hstep i f st Hok). destruct (step i f st) as [st' []]; simpl in *; auto.
Qed.

Lemma populateExplicit_graph_ok (env : TypeEnv) (fuel : nat) :
  forall oid st, typedUnnamed st /\ typesBacked st ->
    typedUnnamed (fst (populateExplicit env fuel oid st))
    /\ typesBacked (fst (populateExplicit env fuel oid st)).
Proof.
  induction fuel as [|fuel IH]; intros oid st Hok; simpl; [exact Hok|].
  destruct (objects st !! oid) as [o|]; [|exact Hok].
  destruct (walkTarget env o); try exact Hok.
  apply structLoop_graph_ok; [|exact Hok]. intros i f s Hs.
  eapply explicitStep_graph_ok; [exact IH|apply explicitField_cases|exact Hs].
Qed.

Lemma interfaceScan_graph_ok (env : TypeEnv) (oid : nat) (ot : option type) (fa : addr)
    (ft : type) (name : string) (l : list nat) :
  forall found st, typedUnnamed st /\ typesBacked st ->
    typedUnnamed (fst (interfaceScan env oid ot fa ft name l found st))
    /\ typesBacked (fst (interfaceScan env oid ot fa ft name l found st)).
Proof.
  induction l as [|eid l IH]; intros found st Hok; simpl.
  - destruct found; exact Hok.
  - destruct (objects st !! eid) as [e|]; [|exact Hok].
    destruct (private e); [apply IH; exact Hok|].
    destruct (reflectType e) as [et|]; [|exact Hok].
    destruct (AssignableTo env et ft); [|apply IH; exact Hok].
    destruct found as [fid|].
    + destruct (objects st !! fid); exact Hok.
    + destruct (Value e) as [x|]; [|exact Hok].
      destruct (setField fa (boxFor ft x) st) as [st1|] eqn:Hset; [|exact Hok].
      apply IH. destruct (setField_objects _ _ _ _ Hset) as [_ Hg].
      eapply graph_ok_frame; [| | |exact Hok].
      * eapply extends_trans; [eapply extends_setField; eauto|apply extends_addDep].
      * rewrite addDep_graph, Hg. reflexivity.
      * rewrite addDep_graph, Hg. reflexivity.
Qed.

Lemma populateUnnamedInterface_graph_ok (env : TypeEnv) (oid : nat) (st : state) :
  typedUnnamed st /\ typesBacked st ->
  typedUnnamed (fst (populateUnnamedInterface env oid st))
  /\ typesBacked (fst (populateUnnamedInterface env oid st)).
Proof.
  intros Hok. unfold populateUnnamedInterface.
  destruct (objects st !! oid) as [o|]; [|exact Hok].
  destruct (walkTarget env o); try exact Hok.
  apply structLoop_graph_ok; [|exact Hok]. intros i f s Hs. unfold interfaceField.
  repeat case_match; simpl; try exact Hs. apply interfaceScan_graph_ok. exact Hs.
Qed.

Lemma rangeNamed_graph_ok (f : nat -> state -> state * outcome) (ks : list string) :
  (forall oid s, typedUnnamed s /\ typesBacked s ->
                 typedUnnamed (fst (f oid s)) /\ typesBacked (fst (f oid s))) ->
  forall st, typedUnnamed st /\ typesBacked st ->
    typedUnnamed (fst (rangeNamed f ks st)) /\ typesBacked (fst (rangeNamed f ks st)).
Proof.
  intros Hf. induction ks as [|k ks IH]; intros st Hok; simpl; [exact Hok|].
  destruct (named (graph st) !! k) as [oid|]; [|apply IH; exact Hok].
  destruct (objects st !! oid) as [o|]; [|exact Hok].
  destruct (Complete o); [apply IH; exact Hok|].
  specialize (Hf oid st Hok). destruct (f oid st) as [st' []]; simpl in *; auto.
Qed.

Lemma rangeUnnamed_graph_ok (f : nat -> state -> state * outcome) (l : list nat) :
  (forall oid s, typedUnnamed s /\ typesBacked s ->
                 typedUnnamed (fst (f oid s)) /\ typesBacked (fst (f oid s))) ->
  forall st, typedUnnamed st /\ typesBacked st ->
    typedUnnamed (fst (rangeUnnamed f l st)) /\ typesBacked (fst (rangeUnnamed f l st)).
Proof.
  intros Hf. induction l as [|oid l IH]; intros st Hok; simpl; [exact Hok|].
  destruct (objects st !! oid) as [o|]; [|exact Hok].
  destruct (Complete o); [apply IH; exact Hok|].
  specialize (Hf oid st Hok). destruct (f oid st) as [st' []]; simpl in *; auto.
Qed.

Lemma explicitLoop_graph_ok (env : TypeEnv) (fuel rounds : nat) :
  forall i st, typedUnnamed st /\ typesBacked st ->
    typedUnnamed (fst (explicitLoop env fuel rounds i st))
    /\ typesBacked (fst (explicitLoop env fuel rounds i st)).
Proof.
  induction rounds as [|rounds IH]; intros i st Hok; simpl; [exact Hok|].
  destruct (unnamed (graph st) !! i) as [oid|]; [|exact Hok].
  destruct (objects st !! oid) as [o|]; [|exact Hok].
  destruct (Complete o); [apply IH; exact Hok|].
  pose proof (populateExplicit_graph_ok env fuel oid st Hok) as H.
  destruct (populateExplicit env fuel oid st) as [st' []]; simpl in *; auto.
Qed.

(** From a graph built by [Provide], every state [Populate] goes through, and
    the one it returns, has its unnamed objects typed and its taken types
    backed by an object that is not private. *)
Lemma Populate_graph_ok (env : TypeEnv) (fuel : nat) (ks1 ks4 : list string) (st : state) :
  typedUnnamed st /\ typesBacked st ->
  typedUnnamed (fst (Populate env fuel ks1 ks4 st))
  /\ typesBacked (fst (Populate env fuel ks1 ks4 st)).
Proof.
  intros Hok. unfold Populate.
  pose proof (rangeNamed_graph_ok (populateExplicit env fuel) ks1
                (populateExplicit_graph_ok env fuel) st Hok) as H1.
  destruct (rangeNamed (populateExplicit env fuel) ks1 st) as [st1 r1]. simpl in H1.
  destruct r1; simpl; auto.
  pose proof (explicitLoop_graph_ok env fuel fuel 0 st1 H1) as H2.
  destruct (explicitLoop env fuel fuel 0 st1) as [st2 r2]. simpl in H2.
  destruct r2; simpl; auto.
  pose proof (rangeUnnamed_graph_ok (populateUnnamedInterface env) (unnamed (graph st2))
                (populateUnnamedInterface_graph_ok env) st2 H2) as H3.
  destruct (rangeUnnamed _ _ st2) as [st3 r3]. simpl in H3.
  destruct r3; simpl; auto.
  apply rangeNamed_graph_ok; [apply populateUnnamedInterface_graph_ok|exact H3].
Qed.

(** * Termination *)

(** A record for a node whose Next is nil drives the explicit pass into a
    call on a record for a fresh node whose Next is nil. *)
Lemma node_never_returns (fuel : nat) :
  forall (oid : nat) (st : state) (o : Object) (b : nat),
    objects st !! oid = Some o ->
    Name o = EmptyString ->
    reflectType o = Some (TPtr (TStruct "Node")) ->
    reflectValue o = Some (VPtr (b, [])) ->
    heap st !! b = Some (VStruct [VNil]) ->
    snd (populateExplicit nodeEnv fuel oid st) = OutOfFuel.
Proof.
  induction fuel as [|fuel IH]; intros oid st o b Ho Hn Ht Hv Hb; simpl; [reflexivity|].
  rewrite Ho. unfold walkTarget. rewrite Hn, Ht, Hv. simpl.
  assert (Hload : load (heap st) (fieldAddr (b, []) 0) = Some VNil).
  { unfold load. simpl. rewrite Hb. reflexivity. }
  rewrite (explicitField_pointer nodeEnv (populateExplicit nodeEnv fuel) oid
             (Some (TPtr (TStruct "Node"))) (b, []) 0 fieldNext st VNil injectPrivate "Node"
             Hload eq_refl eq_refl eq_refl eq_refl eq_refl eq_refl).
  cbv zeta. simpl tag.Private. cbn [orb].
  match goal with
  | |- context [populateExplicit nodeEnv fuel ?id ?s] =>
      pose proof (IH id s (withReflect
                             (objectLit (Some (TPtr (TStruct "Node"), VPtr (length (heap st), [])))
                                true true false))
                    (length (heap st))) as Hrec;
      destruct (populateExplicit nodeEnv fuel id s) as [st4 r4]
  end.
  simpl in Hrec. rewrite Hrec; try reflexivity.
  - rewrite lookup_app_r by lia. rewrite Nat.sub_diag. reflexivity.
  - rewrite lookup_app_r by lia. rewrite Nat.sub_diag. reflexivity.
Qed.

(** C2 (counterexample): for a provided node, [Populate] runs out of every
    number of calls it is given. *)
Lemma private_self_reference_never_returns :
  ~ populateTerminates nodeEnv [] [] nodeProvided.
Proof.
  intros [fuel H]. apply H. clear H.
  unfold Populate. simpl rangeNamed. cbv iota.
  destruct fuel as [|fuel]; [reflexivity|].
  change (explicitLoop nodeEnv (S fuel) (S fuel) 0 nodeProvided) with
    (match populateExplicit nodeEnv (S fuel) 0 nodeProvided with
     | (st', Done) => explicitLoop nodeEnv (S fuel) fuel 1 st'
     | r => r
     end).
  pose proof (node_never_returns (S fuel) 0 nodeProvided _ 0
                eq_refl eq_refl eq_refl eq_refl eq_refl) as Hn.
  destruct (populateExplicit nodeEnv (S fuel) 0 nodeProvided) as [st' r].
  simpl in Hn. subst r. reflexivity.
Qed.

Section Measure.

Variable env : TypeEnv.
Variable rk : string -> nat.
Hypothesis rk_decreases : ranked env rk.

Local Abbreviation W := (rankWeight env).
Local Abbreviation Wmax := (maxWeight env rk).
Local Abbreviation K := (2 * maxWeight env rk).
Local Abbreviation R := (S (maxRank env rk)).

Lemma lookupStruct_declared (n : string) (fs : list StructField.t) :
  lookupStruct env n = Some fs -> (n, fs) ∈ structs env.
Proof.
  unfold lookupStruct. destruct (List.find _ (structs env)) as [d|] eqn:Hf; [|discriminate].
  simpl. intros [= <-]. apply find_some in Hf as [Hin Heq].
  apply String.eqb_eq in Heq. subst n.
  apply list_elem_of_In. destruct d. exact Hin.
Qed.

Lemma declared_bounds (d : string * list StructField.t) :
  d ∈ structs env -> length (snd d) <= maxFields env /\ rk (fst d) <= maxRank env rk.
Proof.
  intros Hin. apply list_elem_of_In in Hin. split.
  - pose proof (proj1 (list_max_le (List.map (fun d => length (snd d)) (structs env))
                         (maxFields env)) (Nat.le_refl _)) as H.
    rewrite Forall_forall in H. apply H. apply list_elem_of_In.
    apply in_map_iff. eauto.
  - pose proof (proj1 (list_max_le (List.map (fun d => rk (fst d)) (structs env))
                         (maxRank env rk)) (Nat.le_refl _)) as H.
    rewrite Forall_forall in H. apply H. apply list_elem_of_In.
    apply in_map_iff. eauto.
Qed.

Lemma rankWeight_pos (r : nat) : 1 <= W r.
Proof.
  unfold rankWeight. induction r as [|r IH]; [simpl; lia|].
  rewrite Nat.pow_succ_r'. nia.
Qed.

Lemma rankWeight_mono (r s : nat) : r <= s -> W r <= W s.
Proof. intros H. unfold rankWeight. apply Nat.pow_le_mono_r; lia. Qed.

Lemma typeWeight_bounds (t : option type) :
  1 <= typeWeight env rk t /\ typeWeight env rk t <= Wmax.
Proof.
  pose proof (rankWeight_pos (maxRank env rk)) as Hmax.
  unfold typeWeight, maxWeight.
  destruct t as [[| |[| n | | |]| |]|]; try lia.
  destruct (lookupStruct env n) as [fs|] eqn:Hl; [|lia].
  split; [apply rankWeight_pos|]. apply rankWeight_mono.
  apply (declared_bounds (n, fs)). apply lookupStruct_declared. exact Hl.
Qed.

Lemma idWeight_bounds (objs : list Object) (id : nat) :
  1 <= idWeight env rk objs id /\ idWeight env rk objs id <= Wmax.
Proof.
  unfold idWeight. destruct (objs !! id); [apply typeWeight_bounds|].
  split; [apply rankWeight_pos|lia].
Qed.

Lemma typeRank_bound (t : option type) : typeRank env rk t <= maxRank env rk.
Proof.
  unfold typeRank. destruct t as [[| |[| n | | |]| |]|]; try lia.
  destruct (lookupStruct env n) as [fs|] eqn:Hl; [|lia].
  apply (declared_bounds (n, fs)). apply lookupStruct_declared. exact Hl.
Qed.

Lemma idRank_bound (objs : list Object) (id : nat) : idRank env rk objs id <= maxRank env rk.
Proof. unfold idRank. destruct (objs !! id); [apply typeRank_bound|lia]. Qed.

Lemma idWeight_extends (st st' : state) (id : nat) :
  extends st st' ->
  idWeight env rk (objects st') id <= idWeight env rk (objects st) id.
Proof.
  intros Hext. unfold idWeight at 2.
  destruct (objects st !! id) as [o|] eqn:Ho; [|apply idWeight_bounds].
  destruct (ext_objects _ _ Hext id o Ho) as (o' & Ho' & _ & _ & _ & Ht & _).
  unfold idWeight. rewrite Ho', Ht. lia.
Qed.

Lemma listWeight_extends (st st' : state) (l : list nat) :
  extends st st' ->
  listWeight env rk (objects st') l <= listWeight env rk (objects st) l.
Proof.
  intros Hext. unfold listWeight. induction l as [|id l IH]; simpl; [lia|].
  pose proof (idWeight_extends st st' id Hext). lia.
Qed.

Lemma listWeight_app (objs : list Object) (l1 l2 : list nat) :
  listWeight env rk objs (l1 ++ l2)%list
  = listWeight env rk objs l1 + listWeight env rk objs l2.
Proof. unfold listWeight. rewrite map_app, list_sum_app. reflexivity. Qed.

Lemma listWeight_cons (objs : list Object) (id : nat) (l : list nat) :
  listWeight env rk objs (id :: l) = idWeight env rk objs id + listWeight env rk objs l.
Proof. reflexivity. Qed.

Lemma filter_length_le {A : Type} (p q : A -> bool) (l : list A) :
  (forall x, q x = true -> p x = true) ->
  length (List.filter q l) <= length (List.filter p l).
Proof.
  intros Hpq. induction l as [|x l IH]; simpl; [lia|].
  destruct (q x) eqn:Hq.
  - rewrite (Hpq x Hq). simpl. lia.
  - destruct (p x); simpl; lia.
Qed.

Lemma filter_length_lt {A : Type} (p q : A -> bool) (l : list A) (t : A) :
  (forall x, q x = true -> p x = true) ->
  In t l -> p t = true -> q t = false ->
  length (List.filter q l) < length (List.filter p l).
Proof.
  intros Hpq. induction l as [|x l IH]; simpl; [tauto|].
  intros [->|Hin] Hp Hq.
  - rewrite Hp, Hq. simpl. pose proof (filter_length_le p q l Hpq). lia.
  - specialize (IH Hin Hp Hq). destruct (q x) eqn:Hqx.
    + rewrite (Hpq x Hqx). simpl. lia.
    + destruct (p x); simpl; lia.
Qed.

Lemma avail_graph (st st' : state) : graph st' = graph st -> avail env st' = avail env st.
Proof. unfold avail. intros ->. reflexivity. Qed.

Lemma avail_extends (st st' : state) : extends st st' -> avail env st' <= avail env st.
Proof.
  intros Hext. unfold avail. apply filter_length_le. intros t Ht.
  apply negb_true_iff in Ht. apply negb_true_iff.
  destruct (typeTaken (graph st) t) eqn:E; [|reflexivity].
  destruct (ext_types _ _ Hext) as [k Hk].
  unfold typeTaken in *. rewrite Hk, existsb_app, E, orb_true_r in Ht. discriminate.
Qed.

Lemma avail_registered (lit : Object) (t : type) (st : state) :
  In t (fieldTypes env) -> typeTaken (graph st) t = false -> private lit = false ->
  avail env (registered lit t st) + 1 <= avail env st.
Proof.
  intros Hin Hfree Hp. unfold avail.
  pose proof (filter_length_lt
                (fun t => negb (typeTaken (graph st) t))
                (fun t' => negb (typeTaken (graph (registered lit t st)) t'))
                (fieldTypes env) t) as H.
  assert (Htaken : forall x, typeTaken (graph (registered lit t st)) x
                             = type_eqb x t || typeTaken (graph st) x).
  { intros x. unfold typeTaken. simpl. rewrite Hp. reflexivity. }
  cut (length (List.filter (fun t' => negb (typeTaken (graph (registered lit t st)) t'))
                 (fieldTypes env))
       < length (List.filter (fun t => negb (typeTaken (graph st) t)) (fieldTypes env)));
    [lia|].
  apply H; auto.
  - intros x. rewrite Htaken. destruct (typeTaken (graph st) x); [|reflexivity].
    rewrite orb_true_r. discriminate.
  - rewrite Hfree. reflexivity.
  - rewrite Htaken, type_eqb_refl. reflexivity.
Qed.

Lemma fieldTypes_declared (d : string * list StructField.t) (f : StructField.t) :
  d ∈ structs env -> f ∈ snd d -> In (StructField.Type_ f) (fieldTypes env).
Proof.
  intros Hd Hf. unfold fieldTypes. apply in_flat_map. exists d.
  split; [apply list_elem_of_In; exact Hd|].
  apply in_map. apply list_elem_of_In. exact Hf.
Qed.

Lemma roundBounded_same (st st' : state) (r : outcome) (bound : nat) :
  graph st' = graph st -> r <> OutOfFuel -> roundBounded env rk st bound (st', r).
Proof.
  intros Hg Hr. exists []. simpl. rewrite Hg, app_nil_r.
  rewrite (avail_graph st st' Hg). repeat split; auto.
  unfold listWeight. simpl. lia.
Qed.

Lemma mul_avail_step (a a' : nat) : a' + 1 <= a -> K * a' + K <= K * a.
Proof. intros H. nia. Qed.

(** A fresh registration that is not private, followed by a call on the new
    record that is itself bounded. *)
Lemma registered_then_call (st s1 : state) (lit : Object) (t : type)
    (rec : nat -> state -> state * outcome) (bound r : nat) (fuel : nat) :
  graph s1 = graph st -> objects s1 = objects st ->
  In t (fieldTypes env) -> typeTaken (graph st) t = false -> private lit = false ->
  avail env st * R + r <= fuel ->
  (forall id s, depth env rk s id < fuel -> callBounded env rk s id (rec id s)) ->
  roundBounded env rk st bound (rec (length (objects st)) (registered lit t s1))
  /\ avail env (fst (rec (length (objects st)) (registered lit t s1))) + 1 <= avail env st.
Proof.
  intros Hg Ho Hin Hfree Hp Hfuel Hrec.
  assert (Hfree1 : typeTaken (graph s1) t = false) by (rewrite Hg; exact Hfree).
  pose proof (avail_registered lit t s1 Hin Hfree1 Hp) as Hav.
  rewrite (avail_graph st s1 Hg) in Hav.
  destruct (Hrec (length (objects st)) (registered lit t s1)) as (k & Hk & Hr & Hcost).
  { unfold depth.
    pose proof (idRank_bound (objects (registered lit t s1)) (length (objects st))).
    nia. }
  pose proof (idWeight_bounds (objects (registered lit t s1)) (length (objects st))) as [_ Hw].
  pose proof (idWeight_bounds
                (objects (fst (rec (length (objects st)) (registered lit t s1))))
                (length (objects st))) as [_ Hw'].
  pose proof (mul_avail_step (avail env st) (avail env (registered lit t s1)) Hav) as Hmul.
  split.
  - exists (length (objects st) :: k). split; [|split; [exact Hr|]].
    + rewrite Hk. simpl. rewrite Hg, Ho, <- app_assoc. reflexivity.
    + rewrite listWeight_cons. lia.
  - pose proof (rankWeight_pos (maxRank env rk)). unfold maxWeight in *. nia.
Qed.

Lemma roundBounded_after (st s s' : state) (r r' : outcome) (bound : nat) :
  roundBounded env rk st bound (s, r) ->
  graph s' = graph s -> extends s s' -> r' <> OutOfFuel ->
  roundBounded env rk st bound (s', r').
Proof.
  intros (k & Hk & _ & Hcost) Hg Hext Hr. exists k. simpl in *.
  rewrite Hg. split; [exact Hk|]. split; [exact Hr|].
  rewrite (avail_graph s s' Hg).
  pose proof (listWeight_extends s s' k Hext). lia.
Qed.

Lemma fresh_weight (d : string * list StructField.t) (f : StructField.t) (m : string) :
  d ∈ structs env -> f ∈ snd d -> freshStruct f m ->
  typeWeight env rk (Some (TPtr (TStruct m))) <= childWeight env (rk (fst d))
  /\ typeRank env rk (Some (TPtr (TStruct m))) < rk (fst d).
Proof.
  intros Hd Hf Hfresh. pose proof (rk_decreases d f m Hd Hf Hfresh) as Hlt.
  split.
  - destruct (rk (fst d)) as [|r] eqn:Hr; [lia|]. simpl.
    unfold typeWeight. destruct (lookupStruct env m).
    + apply rankWeight_mono. lia.
    + apply rankWeight_pos.
  - unfold typeRank. destruct (lookupStruct env m); lia.
Qed.

Lemma inline_weight (d : string * list StructField.t) (f : StructField.t) (tg : tag.t) :
  d ∈ structs env -> f ∈ snd d ->
  parseTag (StructField.Tag f) = (Some tg, None) -> StructField.Exported f = true ->
  tag.Inline tg = true ->
  kindOf (StructField.Type_ f) = Struct ->
  typeWeight env rk (Some (TPtr (StructField.Type_ f))) <= childWeight env (rk (fst d)).
Proof.
  intros Hd Hf Htag Hexp Hinl Hk.
  destruct (StructField.Type_ f) as [|m| | |] eqn:Hty; try discriminate.
  apply (fresh_weight d f m Hd Hf). exists tg. split; [exact Htag|].
  split; [exact Hexp|]. left. auto.
Qed.

(** A registration that is private, followed by a call on the new record,
    which is for a struct of lower rank. *)
Lemma private_then_call (st s1 : state) (lit : Object) (t : type)
    (rec : nat -> state -> state * outcome) (r : nat) (fuel : nat) :
  graph s1 = graph st -> objects s1 = objects st ->
  private lit = true -> fst <$> Value lit = Some t ->
  typeWeight env rk (Some t) <= childWeight env r ->
  typeRank env rk (Some t) < r ->
  avail env st * R + r <= fuel ->
  (forall id s, extends s (fst (rec id s))) ->
  (forall id s, depth env rk s id < fuel -> callBounded env rk s id (rec id s)) ->
  roundBounded env rk st (2 * childWeight env r)
    (rec (length (objects st)) (registered lit t s1)).
Proof.
  intros Hg Ho Hp Hv Hw Hrank Hfuel Hext Hrec.
  set (reg := registered lit t s1).
  assert (Hnew : objects reg !! length (objects st) = Some (withReflect lit)).
  { unfold reg. simpl. rewrite Ho, lookup_app_r by lia. rewrite Nat.sub_diag. reflexivity. }
  assert (Hav : avail env reg = avail env st).
  { unfold avail, reg, typeTaken. simpl. rewrite Hp, Hg. reflexivity. }
  assert (Hidw : idWeight env rk (objects reg) (length (objects st)) = typeWeight env rk (Some t)).
  { unfold idWeight. rewrite Hnew. simpl. rewrite Hv. reflexivity. }
  assert (Hidr : idRank env rk (objects reg) (length (objects st)) = typeRank env rk (Some t)).
  { unfold idRank. rewrite Hnew. simpl. rewrite Hv. reflexivity. }
  destruct (Hrec (length (objects st)) reg) as (k & Hk & Hr & Hcost).
  { unfold depth. rewrite Hav, Hidr. lia. }
  pose proof (idWeight_extends reg (fst (rec (length (objects st)) reg))
                (length (objects st)) (Hext _ _)) as Hle.
  exists (length (objects st) :: k). split; [|split; [exact Hr|]].
  - rewrite Hk. unfold reg. simpl. rewrite Hg, Ho, <- app_assoc. reflexivity.
  - rewrite listWeight_cons. rewrite Hav, Hidw in *. lia.
Qed.

(** One round of the explicit pass on a field of a declared struct. *)
Lemma explicitStep_bounded (rec : nat -> state -> state * outcome)
    (oid : nat) (a : addr) (i : nat) (f : StructField.t) (st : state)
    (res : state * outcome) (d : string * list StructField.t) (fuel : nat) :
  d ∈ structs env -> f ∈ snd d ->
  avail env st * R + rk (fst d) <= fuel ->
  (forall id s, extends s (fst (rec id s))) ->
  (forall id s, depth env rk s id < fuel -> callBounded env rk s id (rec id s)) ->
  explicitStep env rec oid a i f st res ->
  roundBounded env rk st (2 * childWeight env (rk (fst d))) res.
Proof.
  intros Hd Hf Hfuel Hext Hrec Hstep. step_cases Hstep.
  - apply roundBounded_same; auto.
  - apply roundBounded_same; [reflexivity|discriminate].
  - apply (registered_then_call st st _ _ rec _ (rk (fst d)) fuel); auto.
    eapply fieldTypes_declared; eauto.
  - apply roundBounded_same; [|discriminate].
    rewrite addDep_graph. apply (setField_objects _ _ _ _ Hset).
  - set (lit := objectLit (Some (TPtr (StructField.Type_ f), VPtr (fieldAddr a i)))
                  true false (StructField.Anonymous f)).
    exists [length (objects st)]. cbn [fst snd].
    split; [reflexivity|]. split; [discriminate|].
    rewrite listWeight_cons. unfold listWeight. cbn [List.map list_sum].
    assert (Hw : idWeight env rk (objects (registered lit (TPtr (StructField.Type_ f)) st))
                   (length (objects st))
                 = typeWeight env rk (Some (TPtr (StructField.Type_ f)))).
    { unfold idWeight. simpl objects. rewrite lookup_app_r by lia.
      rewrite Nat.sub_diag. reflexivity. }
    rewrite Hw. pose proof (inline_weight d f tg Hd Hf Htag Hexp Hinl Hkind).
    assert (Hav : avail env (registered lit (TPtr (StructField.Type_ f)) st) = avail env st)
      by reflexivity.
    rewrite Hav. change (list_sum []) with 0. lia.
  - apply roundBounded_same; [|discriminate]. apply (setField_objects _ _ _ _ Hset).
  - apply roundBounded_same; [reflexivity|discriminate].
  - assert (Hround : roundBounded env rk st (2 * childWeight env (rk (fst d)))
                        (rec (length (objects st))
                           (registered
                              (objectLit (Some (TPtr elem, VPtr (length (heap st), [])))
                                 (tag.Private tg) true false)
                              (TPtr elem) (setHeap st (heap st ++ [Zero env elem])%list)))).
    { destruct (tag.Private tg) eqn:Hpriv.
      - destruct elem as [|m| | |]; try discriminate.
        assert (Hfresh : freshStruct f m).
        { exists tg. split; [exact Htag|]. split; [exact Hexp|]. right. auto. }
        destruct (fresh_weight d f m Hd Hf Hfresh) as [Hwt Hrt].
        apply (private_then_call st (setHeap st (heap st ++ [Zero env (TStruct m)])%list)
                 _ (TPtr (TStruct m)) rec (rk (fst d)) fuel); auto.
      - destruct Hfree as [Hfree|Hfree]; [discriminate|].
        apply (registered_then_call st (setHeap st (heap st ++ [Zero env elem])%list)
                 _ (TPtr elem) rec _ (rk (fst d)) fuel); auto.
        rewrite <- Hty. eapply fieldTypes_declared; eauto. }
    simpl objects in Hround. rewrite Hrec' in Hround.
    destruct r; try exact Hround.
    destruct (setField _ _ st4) as [st5|] eqn:Hset5.
    + eapply roundBounded_after; [exact Hround| | |discriminate].
      * rewrite addDep_graph. apply (setField_objects _ _ _ _ Hset5).
      * eapply extends_trans; [eapply extends_setField; eauto|apply extends_addDep].
    + eapply roundBounded_after; [exact Hround|reflexivity|apply extends_refl|discriminate].
Qed.

Lemma structLoop_bounded (step : nat -> StructField.t -> state -> state * outcome)
    (d : string * list StructField.t) (fuel : nat) :
  (forall i f s, f ∈ snd d -> avail env s * R + rk (fst d) <= fuel ->
                 roundBounded env rk s (2 * childWeight env (rk (fst d))) (step i f s)) ->
  (forall i f s, extends s (fst (step i f s))) ->
  forall fs i st,
    (forall f, f ∈ fs -> f ∈ snd d) -> avail env st * R + rk (fst d) <= fuel ->
    roundBounded env rk st (length fs * (2 * childWeight env (rk (fst d))))
      (structLoop step i fs st).
Proof.
  intros Hstep Hext. induction fs as [|f fs IH]; intros i st Hsub Hfuel.
  - apply roundBounded_same; [reflexivity|discriminate].
  - simpl structLoop.
    destruct (Hstep i f st (Hsub f (list_elem_of_here f fs)) Hfuel) as (k1 & Hk1 & Hr1 & Hc1).
    pose proof (Hext i f st) as Hext1.
    destruct (step i f st) as [st1 r1]. simpl in Hk1, Hr1, Hc1, Hext1.
    assert (Hweak : r1 <> Done ->
              roundBounded env rk st (length (f :: fs) * (2 * childWeight env (rk (fst d))))
                (st1, r1)).
    { intros _. exists k1. simpl. repeat split; auto. lia. }
    destruct r1; try (apply Hweak; discriminate).
    pose proof (avail_extends st st1 Hext1) as Hav.
    destruct (IH (S i) st1 (fun g Hg => Hsub g (list_elem_of_further _ _ _ Hg)))
      as (k2 & Hk2 & Hr2 & Hc2); [nia|].
    pose proof (structLoop_extends step fs Hext (S i) st1) as Hext2.
    destruct (structLoop step (S i) fs st1) as [st2 r2]. simpl in *.
    exists (k1 ++ k2)%list. simpl. split; [|split; [exact Hr2|]].
    + rewrite Hk2, Hk1, <- app_assoc. reflexivity.
    + rewrite listWeight_app.
      pose proof (listWeight_extends st1 st2 k1 Hext2). lia.
Qed.

Lemma walkTarget_Walk (o : Object) (a : addr) (fs : list StructField.t) :
  walkTarget env o = Walk a fs ->
  exists n, reflectType o = Some (TPtr (TStruct n)) /\ lookupStruct env n = Some fs.
Proof.
  unfold walkTarget. intros H.
  assert (Helem : match reflectType o, reflectValue o with
                  | Some (TPtr (TStruct n)), Some (VPtr a0) =>
                      match lookupStruct env n with
                      | Some fs0 => Walk a0 fs0
                      | None => Bad
                      end
                  | _, _ => Bad
                  end = Walk a fs).
  { destruct (negb (String.eqb (Name o) EmptyString)); [|exact H].
    destruct (reflectType o) as [t|]; [|discriminate].
    destruct (negb (isStructPtr t)); [discriminate|exact H]. }
  destruct (reflectType o) as [[| |[|n| | |]| |]|]; try discriminate.
  destruct (reflectValue o) as [[]|]; try discriminate.
  destruct (lookupStruct env n) as [fs0|] eqn:Hl; [|discriminate].
  injection Helem as _ ->. eauto.
Qed.

Lemma children_weigh_less (n : string) (fs : list StructField.t) :
  lookupStruct env n = Some fs ->
  length fs * (2 * childWeight env (rk n)) + 1 <= W (rk n).
Proof.
  intros Hl. pose proof (declared_bounds (n, fs) (lookupStruct_declared n fs Hl)) as [Hlen _].
  simpl in Hlen. destruct (rk n) as [|r]; simpl.
  - unfold rankWeight. simpl. lia.
  - pose proof (rankWeight_pos r). unfold rankWeight in *.
    change (S (2 * maxFields env) ^ S r)
      with (S (2 * maxFields env) * S (2 * maxFields env) ^ r). nia.
Qed.

(** A call of the explicit pass returns when given more nested calls than
    its depth, and what it appends is bounded. *)
Lemma populateExplicit_bounded (fuel : nat) :
  forall oid st, depth env rk st oid < fuel ->
    callBounded env rk st oid (populateExplicit env fuel oid st).
Proof.
  induction fuel as [|fuel IH]; intros oid st Hfuel; [lia|].
  assert (Hsame : forall r, r <> OutOfFuel -> callBounded env rk st oid (st, r)).
  { intros r Hr. exists []. simpl. rewrite app_nil_r. repeat split; auto.
    pose proof (idWeight_bounds (objects st) oid). unfold listWeight. simpl. lia. }
  simpl. destruct (objects st !! oid) as [o|] eqn:Ho; [|apply Hsame; discriminate].
  destruct (walkTarget env o) as [|a fs|] eqn:Hw; try (apply Hsame; discriminate).
  destruct (walkTarget_Walk o a fs Hw) as (n & Ht & Hl).
  pose proof (lookupStruct_declared n fs Hl) as Hd.
  destruct (structLoop_bounded
              (explicitField env (populateExplicit env fuel) oid (reflectType o) a)
              (n, fs) fuel) with (fs := fs) (i := 0) (st := st) as (k & Hk & Hr & Hc).
  - intros i f s Hf Hs.
    apply (explicitStep_bounded (populateExplicit env fuel) oid a i f s _ (n, fs) fuel);
      auto using populateExplicit_extends, explicitField_cases.
  - intros i f s. eapply explicitStep_extends;
      [apply populateExplicit_extends|apply explicitField_cases].
  - auto.
  - unfold depth, idRank in Hfuel. rewrite Ho, Ht in Hfuel. unfold typeRank in Hfuel.
    rewrite Hl in Hfuel. simpl fst. lia.
  - exists k. split; [exact Hk|]. split; [exact Hr|].
    pose proof (children_weigh_less n fs Hl). simpl fst in Hc.
    assert (Hid : idWeight env rk (objects st) oid = W (rk n)).
    { unfold idWeight. rewrite Ho, Ht. unfold typeWeight. rewrite Hl. reflexivity. }
    rewrite Hid. lia.
Qed.

Lemma depth_bound (st : state) (id : nat) : depth env rk st id < avail env st * R + R.
Proof. unfold depth. pose proof (idRank_bound (objects st) id). lia. Qed.

(** Given [callsNeeded] nested calls, a call of the explicit pass returns,
    from the state itself and from every state that comes after it. *)
Lemma populateExplicit_returns (fuel : nat) (oid : nat) (st st' : state) :
  extends st st' -> callsNeeded env rk st <= fuel ->
  snd (populateExplicit env fuel oid st') <> OutOfFuel.
Proof.
  intros Hext Hfuel. unfold callsNeeded in Hfuel.
  destruct (populateExplicit_bounded fuel oid st') as (_ & _ & Hr & _); [|exact Hr].
  pose proof (depth_bound st' oid). pose proof (avail_extends st st' Hext). nia.
Qed.

Lemma potential_avail (st : state) (i : nat) : avail env st <= potential env rk st i.
Proof.
  unfold potential. pose proof (rankWeight_pos (maxRank env rk)).
  unfold maxWeight. nia.
Qed.

(** The second loop of [Populate] ends within [potential] rounds. *)
Lemma explicitLoop_bounded (fuel : nat) (rounds : nat) :
  forall i st,
    avail env st * R + R <= fuel -> potential env rk st i < rounds ->
    snd (explicitLoop env fuel rounds i st) <> OutOfFuel.
Proof.
  induction rounds as [|rounds IH]; intros i st Hfuel Hpot; [lia|].
  simpl. destruct (unnamed (graph st) !! i) as [oid|] eqn:Hi; [|discriminate].
  destruct (objects st !! oid) as [o|] eqn:Ho; [|discriminate].
  assert (Hdrop : drop i (unnamed (graph st)) = oid :: drop (S i) (unnamed (graph st))).
  { apply drop_S. exact Hi. }
  assert (Hpot' : listWeight env rk (objects st) (drop (S i) (unnamed (graph st)))
                  + idWeight env rk (objects st) oid + K * avail env st < S rounds).
  { unfold potential in Hpot. rewrite Hdrop, listWeight_cons in Hpot. lia. }
  pose proof (idWeight_bounds (objects st) oid) as [Hid _].
  destruct (Complete o).
  - apply IH; [exact Hfuel|]. unfold potential. lia.
  - destruct (populateExplicit_bounded fuel oid st) as (k & Hk & Hr & Hc).
    { pose proof (depth_bound st oid). lia. }
    pose proof (populateExplicit_extends env fuel oid st) as Hext.
    destruct (populateExplicit env fuel oid st) as [st' r]. simpl in Hk, Hr, Hc, Hext.
    destruct r; simpl; try discriminate; [|contradiction].
    apply IH.
    + pose proof (avail_extends st st' Hext). nia.
    + unfold potential. rewrite Hk.
      rewrite drop_app_le by (apply lookup_lt_Some in Hi; lia).
      rewrite listWeight_app.
      pose proof (listWeight_extends st st' (drop (S i) (unnamed (graph st))) Hext). lia.
Qed.

(** The first loop of [Populate]. *)
Lemma rangeNamed_explicit_bounded (fuel : nat) (ks : list string) :
  forall st,
    avail env st * R + R <= fuel ->
    snd (rangeNamed (populateExplicit env fuel) ks st) <> OutOfFuel
    /\ avail env (fst (rangeNamed (populateExplicit env fuel) ks st)) <= avail env st
    /\ potential env rk (fst (rangeNamed (populateExplicit env fuel) ks st)) 0
        <= potential env rk st 0 + length ks * Wmax.
Proof.
  induction ks as [|k ks IH]; intros st Hfuel; simpl.
  - repeat split; [discriminate|lia|lia].
  - assert (Hskip : snd (rangeNamed (populateExplicit env fuel) ks st) <> OutOfFuel
      /\ avail env (fst (rangeNamed (populateExplicit env fuel) ks st)) <= avail env st
      /\ potential env rk (fst (rangeNamed (populateExplicit env fuel) ks st)) 0
        <= potential env rk st 0 + (Wmax + length ks * Wmax)).
    { destruct (IH st Hfuel) as (H1 & H2 & H3). repeat split; auto. lia. }
    destruct (named (graph st) !! k) as [oid|]; [|exact Hskip].
    destruct (objects st !! oid) as [o|]; [|simpl; repeat split; [discriminate|lia|lia]].
    destruct (Complete o); [exact Hskip|].
    destruct (populateExplicit_bounded fuel oid st) as (app & Happ & Hr & Hc).
    { pose proof (depth_bound st oid). lia. }
    pose proof (populateExplicit_extends env fuel oid st) as Hext.
    destruct (populateExplicit env fuel oid st) as [st' r]. simpl in Happ, Hr, Hc, Hext.
    pose proof (avail_extends st st' Hext) as Hav.
    pose proof (idWeight_bounds (objects st) oid) as [_ Hid].
    assert (Hpot : potential env rk st' 0 <= potential env rk st 0 + Wmax).
    { unfold potential. rewrite !drop_0, Happ, listWeight_app.
      pose proof (listWeight_extends st st' (unnamed (graph st)) Hext). lia. }
    destruct r; simpl; try (repeat split; [discriminate|lia|lia]).
    + destruct (IH st') as (H1 & H2 & H3); [nia|]. repeat split; auto; lia.
    + contradiction.
Qed.

End Measure.

Lemma interfaceScan_returns (env : TypeEnv) (oid : nat) (ot : option type) (fa : addr)
    (ft : type) (name : string) (l : list nat) :
  forall found st, snd (interfaceScan env oid ot fa ft name l found st) <> OutOfFuel.
Proof.
  induction l as [|eid l IH]; intros found st; simpl.
  - destruct found; discriminate.
  - repeat case_match; simpl; try discriminate; apply IH.
Qed.

Lemma structLoop_returns (step : nat -> StructField.t -> state -> state * outcome)
    (fs : list StructField.t) :
  (forall i f s, snd (step i f s) <> OutOfFuel) ->
  forall i st, snd (structLoop step i fs st) <> OutOfFuel.
Proof.
  intros Hstep. induction fs as [|f fs IH]; intros i st; simpl; [discriminate|].
  specialize (Hstep i f st). destruct (step i f st) as [st' []]; simpl in *; auto.
Qed.

Lemma populateUnnamedInterface_returns (env : TypeEnv) (oid : nat) (st : state) :
  snd (populateUnnamedInterface env oid st) <> OutOfFuel.
Proof.
  unfold populateUnnamedInterface.
  destruct (objects st !! oid) as [o|]; [|discriminate].
  destruct (walkTarget env o); try discriminate.
  apply structLoop_returns. intros i f s. unfold interfaceField.
  repeat case_match; simpl; try discriminate. apply interfaceScan_returns.
Qed.

Lemma rangeUnnamed_returns (f : nat -> state -> state * outcome) (l : list nat) :
  (forall oid s, snd (f oid s) <> OutOfFuel) ->
  forall st, snd (rangeUnnamed f l st) <> OutOfFuel.
Proof.
  intros Hf. induction l as [|oid l IH]; intros st; simpl; [discriminate|].
  destruct (objects st !! oid) as [o|]; [|discriminate].
  destruct (Complete o); [apply IH|].
  specialize (Hf oid st). destruct (f oid st) as [st' []]; simpl in *; auto.
Qed.

Lemma rangeNamed_returns (f : nat -> state -> state * outcome) (ks : list string) :
  (forall oid s, snd (f oid s) <> OutOfFuel) ->
  forall st, snd (rangeNamed f ks st) <> OutOfFuel.
Proof.
  intros Hf. induction ks as [|k ks IH]; intros st; simpl; [discriminate|].
  destruct (named (graph st) !! k) as [oid|]; [|apply IH].
  destruct (objects st !! oid) as [o|]; [|discriminate].
  destruct (Complete o); [apply IH|].
  specialize (Hf oid st). destruct (f oid st) as [st' []]; simpl in *; auto.
Qed.

(** With enough nested calls and rounds, [Populate] returns. *)
Lemma Populate_returns (env : TypeEnv) (rk : string -> nat) :
  ranked env rk ->
  forall (ks1 ks4 : list string) (st : state) (fuel : nat),
    potential env rk st 0 + length ks1 * maxWeight env rk + callsNeeded env rk st < fuel ->
    snd (Populate env fuel ks1 ks4 st) <> OutOfFuel.
Proof.
  intros Hrk ks1 ks4 st fuel Hfuel. unfold callsNeeded in Hfuel. unfold Populate.
  destruct (rangeNamed_explicit_bounded env rk Hrk fuel ks1 st) as (H1 & H2 & H3); [lia|].
  destruct (rangeNamed (populateExplicit env fuel) ks1 st) as [st1 r1]. simpl in H1, H2, H3.
  destruct r1; simpl; try discriminate; [|contradiction].
  pose proof (explicitLoop_bounded env rk Hrk fuel fuel 0 st1) as H4.
  destruct (explicitLoop env fuel fuel 0 st1) as [st2 r2]. simpl in H4.
  destruct r2; simpl; try discriminate; [|apply H4; nia].
  pose proof (rangeUnnamed_returns (populateUnnamedInterface env) (unnamed (graph st2))
                (populateUnnamedInterface_returns env) st2) as H5.
  destruct (rangeUnnamed _ _ st2) as [st3 r3]. simpl in H5.
  destruct r3; simpl; try discriminate; [|contradiction].
  apply rangeNamed_returns. apply populateUnnamedInterface_returns.
Qed.

Lemma ifaceEq_refl_ptr (t : type) (p : addr) : ifaceEq (Some (t, VPtr p)) (Some (t, VPtr p)) = true.
Proof.
  simpl. rewrite type_eqb_refl. unfold addr_eqb. rewrite Nat.eqb_refl.
  rewrite bool_decide_eq_true_2; reflexivity.
Qed.

Lemma tracked_registered (lit : Object) (t : type) (st : state) (p : addr) :
  Value lit = Some (t, VPtr p) ->
  tracked (registered lit t st) (Some (t, VPtr p)) = true.
Proof.
  intros Hv. unfold tracked. simpl. rewrite existsb_app. apply orb_true_iff. right.
  simpl. rewrite lookup_app_r by lia. rewrite Nat.sub_diag. simpl.
  rewrite Hv, ifaceEq_refl_ptr. reflexivity.
Qed.

(** C2 (amended): when no cycle of struct types runs through private pointer
    fields (and inline fields), [Populate] returns for every graph and every
    order of the names, given enough nested calls and rounds; private pointer
    fields that form no cycle are allowed. A value found by deep injection is
    tracked in the state in which the explicit pass starts on its record, and
    a field that already holds a tracked value ends its round at once without
    any call. For the cyclic pair a, b of the tests [Populate] returns nil
    and leaves memory as it was. *)
Theorem populate_terminates_without_private_cycle :
  (forall (env : TypeEnv),
      noPrivateCycle env ->
      forall (ks1 ks4 : list string) (st : state),
        exists n, forall fuel, n <= fuel ->
          snd (Populate env fuel ks1 ks4 st) <> OutOfFuel)
  /\ (forall (env : TypeEnv) (fuel : nat) (oid : nat) (ot : option type) (a : addr)
             (i : nat) (f : StructField.t) (st : state) (p : addr) (tg : tag.t),
         load (heap st) (fieldAddr a i) = Some (VPtr p) ->
         parseTag (StructField.Tag f) = (Some tg, None) ->
         StructField.Exported f = true ->
         tag.Inline tg = false ->
         isStructPtr (StructField.Type_ f) = true ->
         tag.Private tg = false ->
         tracked st (Some (StructField.Type_ f, VPtr p)) = false ->
         typeTaken (graph st) (StructField.Type_ f) = false ->
         let st2 :=
           registered (objectLit (Some (StructField.Type_ f, VPtr p)) false false false)
             (StructField.Type_ f) st in
         explicitField env (populateExplicit env fuel) oid ot a i f st
         = populateExplicit env fuel (length (objects st)) st2
         /\ tracked st2 (Some (StructField.Type_ f, VPtr p)) = true)
  /\ (forall (env : TypeEnv) (rec : nat -> state -> state * outcome) (oid : nat)
             (ot : option type) (a : addr) (i : nat) (f : StructField.t) (st : state)
             (p : addr) (tg : tag.t),
         load (heap st) (fieldAddr a i) = Some (VPtr p) ->
         parseTag (StructField.Tag f) = (Some tg, None) ->
         StructField.Exported f = true ->
         tag.Inline tg = false ->
         isStructPtr (StructField.Type_ f) = true ->
         tag.Private tg = false ->
         tracked st (Some (StructField.Type_ f, VPtr p)) = true ->
         explicitField env rec oid ot a i f st = (st, Done))
  /\ (snd (Populate circularEnv 3 [] [] circularProvided) = Done
      /\ heap (fst (Populate circularEnv 3 [] [] circularProvided)) = heap circularProvided
      /\ load (heap circularProvided) (0, [0]) = Some (VPtr (1, []))
      /\ load (heap circularProvided) (1, [0]) = Some (VIface tCircularA (VPtr (0, [])))).
Proof.
  split; [|split; [|split]].
  - intros env [rk Hrk] ks1 ks4 st.
    exists (S (potential env rk st 0 + length ks1 * maxWeight env rk
               + callsNeeded env rk st)).
    intros fuel Hfuel. apply (Populate_returns env rk Hrk). lia.
  - intros env fuel oid ot a i f st p tg Hload Htag Hexp Hinl Hsp Hpriv Htr Hfree st2.
    split.
    + rewrite (explicitField_nonzero env (populateExplicit env fuel) oid ot a i f st
                 (VPtr p) tg Hload eq_refl Htag Hexp Hinl Hsp Hpriv).
      cbv zeta. rewrite Htr, Hfree. reflexivity.
    + apply tracked_registered. reflexivity.
  - intros env rec oid ot a i f st p tg Hload Htag Hexp Hinl Hsp Hpriv Htr.
    rewrite (explicitField_nonzero env rec oid ot a i f st
               (VPtr p) tg Hload eq_refl Htag Hexp Hinl Hsp Hpriv).
    cbv zeta. rewrite Htr. reflexivity.
  - vm_compute. auto.
Qed.

Lemma holderEnv_ranked : ranked holderEnv holderRank.
Proof.
  intros d f m Hd Hf (tg & Htag & _ & Hcase). simpl in Hd.
  apply elem_of_cons in Hd as [->|Hd]; [|apply elem_of_cons in Hd as [->|Hd]].
  - simpl in Hf. apply list_elem_of_singleton in Hf as ->.
    vm_compute in Htag. discriminate.
  - simpl in Hf. apply list_elem_of_singleton in Hf as ->. simpl in Hcase.
    destruct Hcase as [[_ Hty]|[_ Hty]]; [discriminate|].
    injection Hty as <-. unfold holderRank. simpl. lia.
  - inversion Hd.
Qed.

Lemma holderEnv_no_cycle : noPrivateCycle holderEnv.
Proof. exists holderRank. exact holderEnv_ranked. Qed.

Lemma circularEnv_no_cycle : noPrivateCycle circularEnv.
Proof.
  exists (fun _ => 0). intros d f m Hd Hf (tg & Htag & _ & Hcase). simpl in Hd.
  apply elem_of_cons in Hd as [->|Hd]; [|apply elem_of_cons in Hd as [->|Hd]].
  - simpl in Hf. apply list_elem_of_singleton in Hf as ->.
    vm_compute in Htag. injection Htag as <-.
    destruct Hcase as [[H _]|[H _]]; discriminate.
  - simpl in Hf. apply list_elem_of_singleton in Hf as ->.
    vm_compute in Htag. injection Htag as <-.
    destruct Hcase as [[H _]|[H _]]; discriminate.
  - inversion Hd.
Qed.

Lemma populate_terminates_without_private_cycle_witness :
  (exists n, forall fuel, n <= fuel ->
     snd (Populate holderEnv fuel [] [] holderProvided) <> OutOfFuel)
  /\ (exists n, forall fuel, n <= fuel ->
        snd (Populate circularEnv fuel [] [] circularProvided) <> OutOfFuel)
  /\ snd (Populate holderEnv 3 [] [] holderProvided) = Done
  /\ load (heap (fst (Populate holderEnv 3 [] [] holderProvided))) (0, [0])
     = Some (VPtr (1, [])).
Proof.
  split; [|split; [|split; reflexivity]].
  - apply (proj1 populate_terminates_without_private_cycle holderEnv
             holderEnv_no_cycle [] [] holderProvided).
  - apply (proj1 populate_terminates_without_private_cycle circularEnv
             circularEnv_no_cycle [] [] circularProvided).
Defined.

(** * The tag scanner: every tag, and values written with escapes *)

Lemma append_assoc (s1 s2 s3 : string) : (s1 ++ s2) ++ s3 = s1 ++ (s2 ++ s3).
Proof.
  induction s1 as [|a s1 IH]; [reflexivity|].
  change (String a ((s1 ++ s2) ++ s3) = String a (s1 ++ s2 ++ s3)). f_equal. exact IH.
Qed.

Lemma append_empty_r (s : string) : s ++ EmptyString = s.
Proof.
  induction s as [|a s IH]; [reflexivity|].
  change (String a (s ++ EmptyString) = String a s). f_equal. exact IH.
Qed.

Lemma append_cons (c : ascii) (s t : string) : String c s ++ t = String c (s ++ t).
Proof. reflexivity. Qed.

Lemma isSpaces_app (s1 s2 : string) : isSpaces s1 -> isSpaces s2 -> isSpaces (s1 ++ s2).
Proof.
  induction s1 as [|c s1 IH]; simpl; [auto|].
  intros [Hc H1] H2. split; [assumption|]. apply IH; assumption.
Qed.

(** What the first loop of [Extract] skips, and what it stops at. *)
Lemma skipSpaces_split (s : string) :
  exists sp, isSpaces sp /\ s = sp ++ skipSpaces s
    /\ (skipSpaces s = EmptyString
        \/ exists c t, skipSpaces s = String c t /\ c <> chSpace).
Proof.
  induction s as [|c s (sp & Hsp & Heq & Hrest)]; simpl.
  - exists EmptyString. repeat split. left. reflexivity.
  - destruct (Ascii.eqb_spec c chSpace) as [->|Hc].
    + exists (String chSpace sp). split; [split; [reflexivity|assumption]|].
      split; [rewrite append_cons; f_equal; assumption|assumption].
    + exists EmptyString. split; [exact I|]. split; [reflexivity|].
      right. exists c, s. split; [reflexivity|assumption].
Qed.

(** What the second loop of [Extract] takes as the key, and what it stops
    at. *)
Lemma scanName_split (s : string) :
  exists k t, s = k ++ t /\ isKey k /\ scanName s = String.length k
    /\ (t = EmptyString \/ exists c t', t = String c t' /\ stopChar c).
Proof.
  induction s as [|c s (k & t & Heq & Hk & Hscan & Hrest)]; simpl.
  - exists EmptyString, EmptyString. repeat split. left. reflexivity.
  - destruct (Ascii.eqb_spec c chSpace) as [->|H1]; simpl.
    { exists EmptyString, (String chSpace s). repeat split.
      right. exists chSpace, s. split; [reflexivity|left; reflexivity]. }
    destruct (Ascii.eqb_spec c chColon) as [->|H2]; simpl.
    { exists EmptyString, (String chColon s). repeat split.
      right. exists chColon, s. split; [reflexivity|right; left; reflexivity]. }
    destruct (Ascii.eqb_spec c chQuote) as [->|H3]; simpl.
    { exists EmptyString, (String chQuote s). repeat split.
      right. exists chQuote, s. split; [reflexivity|right; right; reflexivity]. }
    exists (String c k), t. split; [rewrite append_cons; f_equal; assumption|].
    split; [split; [repeat split; assumption|assumption]|].
    split; [simpl; f_equal; assumption|assumption].
Qed.

(** What follows an opening quote is closed by a quote, or is not. *)
Lemma body_split (n : nat) :
  forall s, String.length s <= n ->
    openBody s \/ exists body rest, s = body ++ rest /\ closedBody body.
Proof.
  induction n as [|n IH]; intros s Hlen.
  - destruct s; [|simpl in Hlen; lia]. left. apply open_end.
  - destruct s as [|c s]; [left; apply open_end|]. simpl in Hlen.
    destruct (Ascii.eqb_spec c chQuote) as [->|Hq].
    { right. exists (String chQuote EmptyString), s. split; [reflexivity|apply closed_end]. }
    destruct (Ascii.eqb_spec c chBackslash) as [->|Hb].
    + destruct s as [|d s']; [left; apply open_backslash|]. simpl in Hlen.
      destruct (IH s' ltac:(lia)) as [Ho | (body & rest & -> & Hc)].
      * left. apply open_escape. assumption.
      * right. exists (String chBackslash (String d body)), rest.
        split; [reflexivity|]. apply closed_escape. assumption.
    + destruct (IH s ltac:(lia)) as [Ho | (body & rest & -> & Hc)].
      * left. apply open_char; assumption.
      * right. exists (String c body), rest.
        split; [reflexivity|]. apply closed_char; assumption.
Qed.

(** Every tag is well-formed pairs for other keys, followed by only spaces,
    by a pair for the wanted key, or by a malformed pair. *)
Lemma tag_shape (name : string) (n : nat) :
  forall tag, String.length tag <= n ->
    exists ps r, wellFormedUpTo tag ps r /\ (name ∉ ps.*1)
      /\ (isSpaces r \/ (exists body, startsWithPair r name body) \/ malformedPair r).
Proof.
  induction n as [|n IH]; intros tag Hlen.
  { destruct tag; [|simpl in Hlen; lia].
    exists [], EmptyString. split; [constructor|]. split; [apply not_elem_of_nil|].
    left. exact I. }
  destruct (skipSpaces_split tag) as (sp & Hsp & Htag & Hrest).
  destruct Hrest as [Hempty | (c0 & t0 & Hskip & Hc0)].
  { exists [], tag. split; [constructor|]. split; [apply not_elem_of_nil|].
    left. rewrite Htag, Hempty. apply isSpaces_app; [assumption|exact I]. }
  destruct (scanName_split (skipSpaces tag)) as (k & t & Hkt & Hk & _ & Ht).
  assert (Htag' : tag = sp ++ k ++ t) by (rewrite Hkt in Htag; exact Htag).
  assert (Hhead : k ++ t = String c0 t0) by (rewrite <- Hkt; exact Hskip).
  clear Htag Hkt Hskip. subst tag.
  assert (Hbad : malformedPair (sp ++ k ++ t) ->
            exists ps r, wellFormedUpTo (sp ++ k ++ t) ps r /\ (name ∉ ps.*1)
              /\ (isSpaces r \/ (exists body, startsWithPair r name body)
                  \/ malformedPair r)).
  { intros Hm. exists [], (sp ++ k ++ t). split; [constructor|].
    split; [apply not_elem_of_nil|]. right; right. assumption. }
  destruct Ht as [-> | (c & t' & -> & Hc)].
  { apply Hbad. rewrite append_empty_r. apply missing_colon_end; [assumption..|].
    intros ->. discriminate Hhead. }
  destruct Hc as [-> | [-> | ->]].
  { apply Hbad. apply missing_colon; [assumption|assumption|left; reflexivity|].
    left. intros ->. change (String chSpace t' = String c0 t0) in Hhead. congruence. }
  2: { apply Hbad. apply missing_colon; [assumption|assumption|right; reflexivity|].
       right. reflexivity. }
  destruct t' as [|c' t''].
  { apply Hbad. apply missing_quote_end; assumption. }
  destruct (Ascii.eqb_spec c' chQuote) as [->|Hq].
  2: { apply Hbad. apply missing_quote; assumption. }
  destruct (body_split (String.length t'') t'' (le_n _)) as [Ho | (body & rest & -> & Hb)].
  { apply Hbad. apply unterminated_quote; assumption. }
  destruct (String.eqb_spec k name) as [->|Hne].
  { exists [], (sp ++ name ++ String chColon (String chQuote (body ++ rest))).
    split; [constructor|]. split; [apply not_elem_of_nil|].
    right; left. exists body, sp, rest. auto. }
  destruct (IH rest) as (ps & r & Hwf & Hnotin & Hcases).
  { rewrite !length_append in Hlen. simpl in Hlen. rewrite length_append in Hlen. lia. }
  exists ((k, String chQuote body) :: ps), r.
  split; [constructor; assumption|].
  split; [|assumption].
  simpl. apply not_elem_of_cons. split; [congruence|assumption].
Qed.

(** What [Extract] returns in each of the three cases. *)
Lemma Extract_rest_spaces (name tag r : string) (ps : list (string * string)) :
  wellFormedUpTo tag ps r -> name ∉ ps.*1 -> isSpaces r ->
  Extract name tag = (false, EmptyString, None).
Proof.
  intros Hwf Hnotin Hsp.
  destruct (Extract_prefix name tag r ps Hwf Hnotin) as (fuel & Hfuel & ->).
  apply ExtractLoop_spaces. assumption.
Qed.

Lemma Extract_rest_pair (name tag r body : string) (ps : list (string * string)) :
  wellFormedUpTo tag ps r -> name ∉ ps.*1 -> startsWithPair r name body ->
  Extract name tag =
    match strconv.Unquote (String chQuote body) with
    | Some value => (true, value, None)
    | None => (false, EmptyString, Some ErrSyntax)
    end.
Proof.
  intros Hwf Hnotin (sp & rest & -> & Hsp & Hk & Hb).
  destruct (Extract_prefix name tag _ ps Hwf Hnotin) as (fuel & Hfuel & ->).
  destruct fuel as [|fuel].
  { rewrite !length_append in Hfuel. simpl in Hfuel. lia. }
  rewrite ExtractLoop_pair by auto. rewrite String.eqb_refl. reflexivity.
Qed.

Lemma Extract_rest_malformed (name tag r : string) (ps : list (string * string)) :
  wellFormedUpTo tag ps r -> name ∉ ps.*1 -> malformedPair r ->
  Extract name tag = (false, EmptyString, Some errInvalidTag).
Proof.
  intros Hwf Hnotin Hbad.
  destruct (Extract_prefix name tag r ps Hwf Hnotin) as (fuel & Hfuel & ->).
  pose proof (malformedPair_nonempty r Hbad).
  destruct fuel as [|fuel]; [lia|].
  apply ExtractLoop_malformed. assumption.
Qed.

(** The case analysis of [tag_shape] with what [Extract] returns in each
    case. *)
Lemma Extract_cases (name tag : string) :
  exists ps r, wellFormedUpTo tag ps r /\ (name ∉ ps.*1)
    /\ ((isSpaces r /\ Extract name tag = (false, EmptyString, None))
        \/ (exists body, startsWithPair r name body
              /\ Extract name tag =
                   match strconv.Unquote (String chQuote body) with
                   | Some value => (true, value, None)
                   | None => (false, EmptyString, Some ErrSyntax)
                   end)
        \/ (malformedPair r
            /\ Extract name tag = (false, EmptyString, Some errInvalidTag))).
Proof.
  destruct (tag_shape name (String.length tag) tag (le_n _))
    as (ps & r & Hwf & Hnotin & [Hsp | [(body & Hp) | Hbad]]);
    exists ps, r; (split; [assumption|]); (split; [assumption|]).
  - left. split; [assumption|]. eapply Extract_rest_spaces; eassumption.
  - right; left. exists body. split; [assumption|].
    eapply Extract_rest_pair; eassumption.
  - right; right. split; [assumption|]. eapply Extract_rest_malformed; eassumption.
Qed.

(** X1: [Extract] answers found=false with no error exactly for the tags
    that are, to their end, well-formed pairs for other keys and spaces: it
    has then read the whole tag. *)
Theorem Extract_not_found_iff (name tag : string) :
  Extract name tag = (false, EmptyString, None)
  <-> exists ps r, wellFormedUpTo tag ps r /\ (name ∉ ps.*1) /\ isSpaces r.
Proof.
  split.
  - intros HE.
    destruct (Extract_cases name tag)
      as (ps & r & Hwf & Hnotin & [(Hsp & _) | [(body & _ & HE') | (_ & HE')]]).
    + exists ps, r. auto.
    + rewrite HE in HE'. destruct (strconv.Unquote _); discriminate.
    + rewrite HE in HE'. discriminate.
  - intros (ps & r & Hwf & Hnotin & Hsp). eapply Extract_rest_spaces; eassumption.
Qed.

Lemma Extract_not_found_iff_witness :
  exists ps r, wellFormedUpTo ("json:" ++ quoted "id" ++ " ") ps r
               /\ ("inject" ∉ ps.*1) /\ isSpaces r.
Proof.
  exact (proj1 (Extract_not_found_iff "inject" ("json:" ++ quoted "id" ++ " ")) eq_refl).
Defined.

(** X2: [Extract] returns the invalid-tag error exactly when, after
    well-formed pairs for other keys, the next pair is malformed: a key with
    no colon, no opening quote after the colon, or no closing quote. *)
Theorem Extract_invalid_tag_iff (name tag : string) :
  snd (Extract name tag) = Some errInvalidTag
  <-> exists ps r, wellFormedUpTo tag ps r /\ (name ∉ ps.*1) /\ malformedPair r.
Proof.
  split.
  - intros HE.
    destruct (Extract_cases name tag)
      as (ps & r & Hwf & Hnotin & [(_ & HE') | [(body & _ & HE') | (Hbad & _)]]).
    + rewrite HE' in HE. discriminate.
    + rewrite HE' in HE. destruct (strconv.Unquote _); discriminate.
    + exists ps, r. auto.
  - intros (ps & r & Hwf & Hnotin & Hbad).
    erewrite Extract_rest_malformed by eassumption. reflexivity.
Qed.

Lemma Extract_invalid_tag_iff_witness :
  exists ps r, wellFormedUpTo ("json:" ++ quoted "id" ++ " inject") ps r
               /\ ("inject" ∉ ps.*1) /\ malformedPair r.
Proof.
  exact (proj1 (Extract_invalid_tag_iff "inject" ("json:" ++ quoted "id" ++ " inject"))
           eq_refl).
Defined.

(** X3: [Extract] answers found=true with the value [v] exactly when the
    first pair for the wanted key follows well-formed pairs for other keys
    and its quoted value unquotes to [v]; it returns the syntax error of
    [strconv.Unquote] exactly when that value does not unquote. *)
Theorem Extract_found_iff (name tag : string) :
  (forall v, Extract name tag = (true, v, None)
     <-> exists ps r body, wellFormedUpTo tag ps r /\ (name ∉ ps.*1)
           /\ startsWithPair r name body
           /\ strconv.Unquote (String chQuote body) = Some v)
  /\ (snd (Extract name tag) = Some ErrSyntax
      <-> exists ps r body, wellFormedUpTo tag ps r /\ (name ∉ ps.*1)
            /\ startsWithPair r name body
            /\ strconv.Unquote (String chQuote body) = None).
Proof.
  split; [intros v|]; split.
  - intros HE.
    destruct (Extract_cases name tag)
      as (ps & r & Hwf & Hnotin & [(_ & HE') | [(body & Hp & HE') | (_ & HE')]]).
    + rewrite HE in HE'. discriminate.
    + exists ps, r, body. repeat (split; [assumption|]).
      rewrite HE in HE'. destruct (strconv.Unquote _); congruence.
    + rewrite HE in HE'. discriminate.
  - intros (ps & r & body & Hwf & Hnotin & Hp & Hu).
    erewrite Extract_rest_pair by eassumption. rewrite Hu. reflexivity.
  - intros HE.
    destruct (Extract_cases name tag)
      as (ps & r & Hwf & Hnotin & [(_ & HE') | [(body & Hp & HE') | (_ & HE')]]).
    + rewrite HE' in HE. discriminate.
    + exists ps, r, body. repeat (split; [assumption|]).
      rewrite HE' in HE. destruct (strconv.Unquote _); [discriminate|reflexivity].
    + rewrite HE' in HE. discriminate.
  - intros (ps & r & body & Hwf & Hnotin & Hp & Hu).
    erewrite Extract_rest_pair by eassumption. rewrite Hu. reflexivity.
Qed.

Lemma Extract_found_iff_witness :
  exists ps r body,
    wellFormedUpTo ("json:" ++ quoted "id" ++ " inject:" ++ quoted "db") ps r
    /\ ("inject" ∉ ps.*1) /\ startsWithPair r "inject" body
    /\ strconv.Unquote (String chQuote body) = Some "db".
Proof.
  exact (proj1 (proj1 (Extract_found_iff "inject"
                         ("json:" ++ quoted "id" ++ " inject:" ++ quoted "db")) "db")
           eq_refl).
Defined.

(** X4: Whatever the tag, [Extract] never reports a value together with an
    error, and the value is the empty string unless found is true. *)
Theorem Extract_result_shape (name tag : string) :
  (snd (Extract name tag) <> None -> fst (fst (Extract name tag)) = false)
  /\ (fst (fst (Extract name tag)) = false -> snd (fst (Extract name tag)) = EmptyString).
Proof.
  destruct (Extract_cases name tag)
    as (ps & r & _ & _ & [(_ & ->) | [(body & _ & ->) | (_ & ->)]]);
    try destruct (strconv.Unquote _); simpl; split; congruence.
Qed.

(** ** Values written with escapes *)

Lemma unquoteEscape_quote (rest : string) :
  strconv.unquoteEscape chQuote rest = Some (String chQuote EmptyString, rest).
Proof. reflexivity. Qed.

Lemma unquoteEscape_backslash (rest : string) :
  strconv.unquoteEscape chBackslash rest = Some (String chBackslash EmptyString, rest).
Proof. reflexivity. Qed.

Lemma unquoteBody_escape (v : string) :
  isPlain v ->
  forall fuel, String.length (escape v) < fuel ->
    strconv.unquoteBody fuel (escape v ++ String chQuote EmptyString) = Some v.
Proof.
  induction v as [|c v IH]; intros Hplain fuel Hfuel.
  - destruct fuel; [simpl in Hfuel; lia|]. reflexivity.
  - destruct Hplain as [[Hascii Hnl] Hplain].
    cbn [escape] in *.
    destruct (Ascii.eqb_spec c chQuote) as [->|Hq]; cbn [orb] in *.
    { destruct fuel as [|fuel]; [simpl in Hfuel; lia|]. simpl in Hfuel.
      rewrite !append_cons. cbn [strconv.unquoteBody].
      change (Ascii.eqb chBackslash chQuote) with false.
      change (Ascii.eqb chBackslash chNewline) with false.
      change (Ascii.eqb chBackslash chBackslash) with true. cbv iota.
      rewrite unquoteEscape_quote, IH by (auto; lia). reflexivity. }
    destruct (Ascii.eqb_spec c chBackslash) as [->|Hb].
    { destruct fuel as [|fuel]; [simpl in Hfuel; lia|]. simpl in Hfuel.
      rewrite !append_cons. cbn [strconv.unquoteBody].
      change (Ascii.eqb chBackslash chQuote) with false.
      change (Ascii.eqb chBackslash chNewline) with false.
      change (Ascii.eqb chBackslash chBackslash) with true. cbv iota.
      rewrite unquoteEscape_backslash, IH by (auto; lia). reflexivity. }
    destruct fuel as [|fuel]; [simpl in Hfuel; lia|]. simpl in Hfuel.
    rewrite append_cons. cbn [strconv.unquoteBody].
    rewrite !ascii_eqb_false by assumption.
    replace (strconv.byteZ c <? 128)%Z with true by (symmetry; apply Z.ltb_lt; assumption).
    rewrite IH by (auto; lia). reflexivity.
Qed.

Lemma closedBody_escape (v : string) :
  closedBody (escape v ++ String chQuote EmptyString).
Proof.
  induction v as [|c v IH]; [apply closed_end|].
  cbn [escape].
  destruct (Ascii.eqb_spec c chQuote) as [->|Hq]; cbn [orb].
  { rewrite !append_cons. apply closed_escape. assumption. }
  destruct (Ascii.eqb_spec c chBackslash) as [->|Hb].
  { rewrite !append_cons. apply closed_escape. assumption. }
  rewrite append_cons. apply closed_char; assumption.
Qed.

Lemma Unquote_escape (v : string) :
  isPlain v -> strconv.Unquote (quoted (escape v)) = Some v.
Proof.
  intros Hplain. unfold quoted, strconv.Unquote.
  change (Ascii.eqb chQuote chQuote) with true. cbv iota.
  apply unquoteBody_escape; [assumption|].
  cbn [String.length]. rewrite length_append. simpl. lia.
Qed.

Lemma startsWithPair_escape (sp name v rest : string) :
  isSpaces sp -> isKey name ->
  startsWithPair (sp ++ name ++ String chColon (quoted (escape v) ++ rest)) name
    (escape v ++ String chQuote EmptyString).
Proof.
  intros Hsp Hk. exists sp, rest. split; [|split; [assumption|split; [assumption|]]].
  - unfold quoted. rewrite append_cons. reflexivity.
  - apply closedBody_escape.
Qed.

(** X5: Writing and reading a value: when the first pair for the wanted key
    holds the value [v] between quotes, with a backslash before each quote and
    backslash of [v], [Extract] returns found=true and [v] itself, whatever
    follows the pair; [v] is any ASCII text without a newline. *)
Theorem Extract_round_trip (name tag r sp v rest : string) (ps : list (string * string)) :
  wellFormedUpTo tag ps r -> name ∉ ps.*1 ->
  r = sp ++ name ++ String chColon (quoted (escape v) ++ rest) ->
  isSpaces sp -> isKey name -> isPlain v ->
  Extract name tag = (true, v, None).
Proof.
  intros Hwf Hnotin -> Hsp Hk Hplain.
  erewrite Extract_rest_pair;
    [|eassumption|assumption|apply startsWithPair_escape; assumption].
  change (String chQuote (escape v ++ String chQuote EmptyString)) with (quoted (escape v)).
  rewrite Unquote_escape by assumption. reflexivity.
Qed.

Lemma isKey_letters (k : string) :
  forallb (fun c => negb (Ascii.eqb c chSpace || Ascii.eqb c chColon || Ascii.eqb c chQuote))
    (list_ascii_of_string k) = true ->
  isKey k.
Proof.
  induction k as [|c k IH]; simpl; [intros _; exact I|].
  intros H. apply andb_prop in H as [Hc Hk]. split; [|apply IH; assumption].
  apply negb_true_iff in Hc. apply orb_false_elim in Hc as [Hc H3].
  apply orb_false_elim in Hc as [H1 H2].
  repeat split; apply Ascii.eqb_neq; assumption.
Qed.

Lemma isPlain_bytes (v : string) :
  forallb (fun c => (strconv.byteZ c <? 128)%Z && negb (Ascii.eqb c chNewline))
    (list_ascii_of_string v) = true ->
  isPlain v.
Proof.
  induction v as [|c v IH]; simpl; [intros _; exact I|].
  intros H. apply andb_prop in H as [Hc Hv]. split; [|apply IH; assumption].
  apply andb_prop in Hc as [H1 H2]. split.
  - apply Z.ltb_lt. assumption.
  - apply Ascii.eqb_neq. apply negb_true_iff. assumption.
Qed.

Lemma Extract_round_trip_witness :
  Extract "path" ("json:" ++ quoted "id" ++ " path:" ++ quoted (escape "C:\dir") ++ " x")
  = (true, "C:\dir", None).
Proof.
  apply (Extract_round_trip "path" _ (" path:" ++ quoted (escape "C:\dir") ++ " x")
           " " "C:\dir" " x" [("json", quoted "id")]).
  - apply (upto_cons "" "json" (String.append "id" (String chQuote EmptyString)) _ _ []).
    + exact I.
    + apply isKey_letters. reflexivity.
    + repeat (apply closed_char; [discriminate|discriminate|]). apply closed_end.
    + apply upto_nil.
  - simpl. intros H. apply list_elem_of_singleton in H. discriminate.
  - reflexivity.
  - simpl. repeat split.
  - apply isKey_letters. reflexivity.
  - apply isPlain_bytes. reflexivity.
Defined.

(** ** parseTag *)

(** X6: The directive of a field is read from the first pair for the key
    inject: its value inline asks for an inline struct, private for a private
    instance, the empty value is the bare directive, and any other value is
    the name of a named object; the two words are never taken as names. *)
Theorem parseTag_directive (tag r sp v rest : string) (ps : list (string * string)) :
  wellFormedUpTo tag ps r -> "inject" ∉ ps.*1 ->
  r = sp ++ "inject:" ++ quoted (escape v) ++ rest ->
  isSpaces sp -> isPlain v ->
  exists tg, parseTag tag = (Some tg, None)
    /\ tag.Inline tg = String.eqb v "inline"
    /\ tag.Private tg = String.eqb v "private"
    /\ tag.Name tg = (if String.eqb v "inline" || String.eqb v "private"
                      then EmptyString else v).
Proof.
  intros Hwf Hnotin Hr Hsp Hplain.
  assert (HE : Extract "inject" tag = (true, v, None)).
  { erewrite Extract_rest_pair; [|eassumption|assumption|].
    2: { rewrite Hr. apply (startsWithPair_escape sp "inject" v rest); [assumption|].
         apply isKey_letters. reflexivity. }
    change (String chQuote (escape v ++ String chQuote EmptyString))
      with (quoted (escape v)).
    rewrite Unquote_escape by assumption. reflexivity. }
  unfold parseTag. rewrite HE.
  destruct (String.eqb_spec v EmptyString) as [->|H0].
  { exists injectOnly. repeat split. }
  destruct (String.eqb_spec v "inline") as [->|H1].
  { exists injectInline. repeat split. }
  destruct (String.eqb_spec v "private") as [->|H2].
  { exists injectPrivate. repeat split. }
  exists (tag.mk v false false). repeat split.
Qed.

Lemma parseTag_directive_witness :
  exists tg, parseTag ("json:" ++ quoted "db" ++ " inject:" ++ quoted "primary") = (Some tg, None)
    /\ tag.Inline tg = false /\ tag.Private tg = false /\ tag.Name tg = "primary".
Proof.
  refine (parseTag_directive _ (" inject:" ++ quoted (escape "primary") ++ "")
            " " "primary" "" [("json", quoted "db")] _ _ eq_refl _ _).
  - apply (upto_cons "" "json" (String.append "db" (String chQuote EmptyString)) _ _ []).
    + exact I.
    + apply isKey_letters. reflexivity.
    + repeat (apply closed_char; [discriminate|discriminate|]). apply closed_end.
    + apply upto_nil.
  - simpl. intros H. apply list_elem_of_singleton in H. discriminate.
  - simpl. repeat split.
  - apply isPlain_bytes. reflexivity.
Defined.

Lemma parseTag_shape (t : string) (tg : tag.t) (err : option tagError) :
  parseTag t = (Some tg, err) ->
  err = None
  /\ tag.Inline tg && tag.Private tg = false
  /\ (tag.Name tg <> EmptyString -> tag.Inline tg = false /\ tag.Private tg = false)
  /\ tag.Name tg <> "inline" /\ tag.Name tg <> "private".
Proof.
  unfold parseTag. destruct (Extract "inject" t) as [[found value] e].
  destruct found, e; try solve [intros [=]].
  destruct (String.eqb_spec value EmptyString) as [->|H0].
  { intros [= <- <-]. simpl. intuition congruence. }
  destruct (String.eqb_spec value "inline") as [->|H1].
  { intros [= <- <-]. simpl. intuition congruence. }
  destruct (String.eqb_spec value "private") as [->|H2].
  { intros [= <- <-]. simpl. intuition congruence. }
  intros [= <- <-]. repeat split; assumption.
Qed.

(** X7: A tag that [parseTag] returns comes without an error and asks for
    one thing only: it is never both inline and private, a named tag is
    neither, and its name is neither of the two words. *)
Theorem parseTag_result_shape (t : string) (tg : tag.t) (err : option tagError) :
  parseTag t = (Some tg, err) ->
  err = None
  /\ tag.Inline tg && tag.Private tg = false
  /\ (tag.Name tg <> EmptyString -> tag.Inline tg = false /\ tag.Private tg = false)
  /\ tag.Name tg <> "inline" /\ tag.Name tg <> "private".
Proof. exact (parseTag_shape t tg err). Qed.

Lemma parseTag_result_shape_witness :
  parseTag privateTag = (Some injectPrivate, None)
  /\ tag.Inline injectPrivate && tag.Private injectPrivate = false
  /\ tag.Name injectPrivate <> "private".
Proof.
  assert (H : parseTag privateTag = (Some injectPrivate, None)) by reflexivity.
  split; [exact H|].
  destruct (parseTag_result_shape privateTag injectPrivate None H) as (_ & H1 & _ & _ & H2).
  split; assumption.
Defined.

(** X8: A field is passed over as untagged exactly when its tag is, to its
    end, well-formed pairs none of which has the key inject; [parseTag]
    returns an error exactly when a malformed pair comes before any pair for
    inject, or the value of the first pair for inject does not unquote. A
    malformed pair therefore is an error also in a tag without the key. *)
Theorem parseTag_untagged_iff (t : string) :
  (parseTag t = (None, None)
   <-> exists ps r, wellFormedUpTo t ps r /\ ("inject" ∉ ps.*1) /\ isSpaces r)
  /\ ((exists e, snd (parseTag t) = Some e)
      <-> exists ps r, wellFormedUpTo t ps r /\ ("inject" ∉ ps.*1)
            /\ (malformedPair r
                \/ exists body, startsWithPair r "inject" body
                     /\ strconv.Unquote (String chQuote body) = None)).
Proof.
  unfold parseTag.
  destruct (Extract_cases "inject" t)
    as (ps & r & Hwf & Hnotin & [(Hsp & HE) | [(body & Hp & HE) | (Hbad & HE)]]).
  - rewrite HE. split; split.
    + intros _. exists ps, r. auto.
    + reflexivity.
    + intros [e He]. discriminate.
    + intros (ps' & r' & Hwf' & Hnotin' & [Hbad | (body & Hp & Hu)]).
      * erewrite Extract_rest_malformed in HE by eassumption. discriminate.
      * erewrite Extract_rest_pair in HE by eassumption. rewrite Hu in HE. discriminate.
  - rewrite HE. destruct (strconv.Unquote (String chQuote body)) as [value|] eqn:Hu.
    + assert (Hsome : forall x : option tag.t * option tagError,
                x = (if String.eqb value EmptyString then (Some injectOnly, None)
                     else if String.eqb value "inline" then (Some injectInline, None)
                     else if String.eqb value "private" then (Some injectPrivate, None)
                     else (Some (tag.mk value false false), None)) ->
                fst x <> None /\ snd x = None).
      { intros x ->. repeat destruct (String.eqb _ _); split; simpl; congruence. }
      destruct (Hsome _ eq_refl) as [Hfst Hsnd]. split; split.
      * intros Heq. rewrite Heq in Hfst. contradiction Hfst. reflexivity.
      * intros (ps' & r' & Hwf' & Hnotin' & Hsp).
        erewrite Extract_rest_spaces in HE by eassumption. discriminate.
      * intros [e He]. rewrite Hsnd in He. discriminate.
      * intros (ps' & r' & Hwf' & Hnotin' & [Hbad | (body' & Hp' & Hu')]).
        -- erewrite Extract_rest_malformed in HE by eassumption. discriminate.
        -- erewrite Extract_rest_pair in HE by eassumption. rewrite Hu' in HE. discriminate.
    + split; split.
      * discriminate.
      * intros (ps' & r' & Hwf' & Hnotin' & Hsp).
        erewrite Extract_rest_spaces in HE by eassumption. discriminate.
      * intros _. exists ps, r. split; [assumption|]. split; [assumption|].
        right. exists body. auto.
      * intros _. exists ErrSyntax. reflexivity.
  - rewrite HE. split; split.
    + discriminate.
    + intros (ps' & r' & Hwf' & Hnotin' & Hsp).
      erewrite Extract_rest_spaces in HE by eassumption. discriminate.
    + intros _. exists ps, r. auto.
    + intros _. exists errInvalidTag. reflexivity.
Qed.

Lemma parseTag_untagged_iff_witness :
  exists ps r, wellFormedUpTo ("json:" ++ quoted "id") ps r
               /\ ("inject" ∉ ps.*1) /\ isSpaces r.
Proof.
  exact (proj1 (proj1 (parseTag_untagged_iff ("json:" ++ quoted "id"))) eq_refl).
Defined.

(** * Registration: what [Provide] keeps, the container, [Objects] *)

Lemma withReflect_idem (o : Object) : withReflect (withReflect o) = withReflect o.
Proof. reflexivity. Qed.

Lemma sameOrReflected_trans (o1 o2 o3 : Object) :
  sameOrReflected o1 o2 -> sameOrReflected o2 o3 -> sameOrReflected o1 o3.
Proof.
  intros [->| ->] [->| ->]; unfold sameOrReflected; auto.
Qed.

(** What a call of the loop body of [Provide] leaves as it is. *)
Lemma provideOne_frame (oid : nat) (st : state) :
  heap (fst (provideOne oid st)) = heap st
  /\ (forall i o, objects st !! i = Some o ->
        exists o', objects (fst (provideOne oid st)) !! i = Some o'
                   /\ sameOrReflected o o' /\ Fields o' = Fields o)
  /\ unnamed (graph st) `prefix_of` unnamed (graph (fst (provideOne oid st)))
  /\ unnamedType (graph st) `suffix_of` unnamedType (graph (fst (provideOne oid st)))
  /\ named (graph st) ⊆ named (graph (fst (provideOne oid st))).
Proof.
  unfold provideOne. destruct (objects st !! oid) as [o|] eqn:Ho.
  2: { simpl. repeat split; try reflexivity.
       intros i o Hi. exists o. unfold sameOrReflected. auto. }
  assert (Hobj : forall i o1, objects st !! i = Some o1 ->
            exists o', <[oid := withReflect o]> (objects st) !! i = Some o'
                       /\ sameOrReflected o1 o' /\ Fields o' = Fields o1).
  { intros i o1 Hi. destruct (decide (i = oid)) as [->|Hne].
    - rewrite list_lookup_insert_eq by (eapply lookup_lt_Some; eauto).
      rewrite Ho in Hi. injection Hi as ->.
      exists (withReflect o1). unfold sameOrReflected. auto.
    - rewrite list_lookup_insert_ne by auto.
      exists o1. unfold sameOrReflected. auto. }
  assert (Hsame :
            let st' := setObject st oid (withReflect o) in
            heap st' = heap st
            /\ (forall i o1, objects st !! i = Some o1 ->
                  exists o', objects st' !! i = Some o'
                             /\ sameOrReflected o1 o' /\ Fields o' = Fields o1)
            /\ unnamed (graph st) `prefix_of` unnamed (graph st')
            /\ unnamedType (graph st) `suffix_of` unnamedType (graph st')
            /\ named (graph st) ⊆ named (graph st')).
  { simpl. repeat split; try reflexivity. exact Hobj. }
  cbn [Fields withReflect Name reflectType private].
  destruct (Fields o); [exact Hsame|].
  destruct (String.eqb (Name o) EmptyString).
  - destruct (Value o) as [[t v]|]; cbn [fmap option_fmap option_map fst];
      [|exact Hsame].
    destruct (negb (isStructPtr t)); [exact Hsame|].
    destruct (negb (private o)).
    + destruct (typeTaken _ t); [exact Hsame|].
      simpl. repeat split; try reflexivity; [exact Hobj| |].
      * apply prefix_app_r. reflexivity.
      * apply suffix_cons_r. reflexivity.
    + simpl. repeat split; try reflexivity; [exact Hobj|].
      apply prefix_app_r. reflexivity.
  - destruct (named (graph (setObject st oid (withReflect o))) !! Name o) eqn:Hn;
      [exact Hsame|].
    simpl. repeat split; try reflexivity; [exact Hobj|].
    apply insert_subseteq. exact Hn.
Qed.

Lemma Provide_frame (oids : list nat) (st : state) :
  heap (fst (Provide oids st)) = heap st
  /\ (forall i o, objects st !! i = Some o ->
        exists o', objects (fst (Provide oids st)) !! i = Some o'
                   /\ sameOrReflected o o' /\ Fields o' = Fields o)
  /\ unnamed (graph st) `prefix_of` unnamed (graph (fst (Provide oids st)))
  /\ (forall name oid, named (graph st) !! name = Some oid ->
        named (graph (fst (Provide oids st))) !! name = Some oid).
Proof.
  revert st. induction oids as [|oid oids IH]; intros st.
  { simpl. repeat split; auto.
    intros i o Hi. exists o. unfold sameOrReflected. auto. }
  destruct (provideOne_frame oid st) as (Hh & Ho & Hu & _ & Hn).
  assert (Hone : heap (fst (provideOne oid st)) = heap st
            /\ (forall i o, objects st !! i = Some o ->
                  exists o', objects (fst (provideOne oid st)) !! i = Some o'
                             /\ sameOrReflected o o' /\ Fields o' = Fields o)
            /\ unnamed (graph st) `prefix_of` unnamed (graph (fst (provideOne oid st)))
            /\ (forall name k, named (graph st) !! name = Some k ->
                  named (graph (fst (provideOne oid st))) !! name = Some k)).
  { repeat split; auto. intros name k Hk.
    eapply lookup_weaken; eassumption. }
  simpl. destruct (provideOne oid st) as [st' r] eqn:Hp. simpl in *.
  destruct r; try exact Hone.
  destruct (IH st') as (Hh' & Ho' & Hu' & Hn').
  destruct Hone as (Hh1 & Ho1 & Hu1 & Hn1).
  repeat split.
  - congruence.
  - intros i o Hi. destruct (Ho1 i o Hi) as (o1 & Hi1 & Hs1 & Hf1).
    destruct (Ho' i o1 Hi1) as (o2 & Hi2 & Hs2 & Hf2).
    exists o2. split; [assumption|]. split; [|congruence].
    eapply sameOrReflected_trans; eassumption.
  - etransitivity; eassumption.
  - auto.
Qed.

Lemma provideOne_registers (oid : nat) (st st' : state) :
  provideOne oid st = (st', Done) -> isRegistered st' oid.
Proof.
  intros H. destruct (provideOne_Done_inv oid st st' H)
    as (o & Ho & Hf & Hh & Hobj & [(Hn & t & v & Hv & Hsp & Hu & _) | (Hn & _ & _ & _ & Hnamed)]).
  - left. rewrite Hu. apply elem_of_app. right. left.
  - right. exists (Name o). rewrite Hnamed. apply lookup_insert_eq.
Qed.

Lemma isRegistered_kept (oids : list nat) (st : state) (oid : nat) :
  isRegistered st oid -> isRegistered (fst (Provide oids st)) oid.
Proof.
  destruct (Provide_frame oids st) as (_ & _ & Hu & Hn).
  intros [Hin | (name & Hname)].
  - left. destruct Hu as [k ->]. apply elem_of_app. left. assumption.
  - right. exists name. auto.
Qed.

Lemma Provide_registers (oids : list nat) :
  forall st st', Provide oids st = (st', Done) ->
    forall oid, oid ∈ oids -> isRegistered st' oid.
Proof.
  induction oids as [|o oids IH]; intros st st' H oid Hin; [inversion Hin|].
  simpl in H. destruct (provideOne o st) as [st1 r] eqn:Hone.
  destruct r; try discriminate.
  apply elem_of_cons in Hin as [->|Hin].
  - pose proof (isRegistered_kept oids st1 o (provideOne_registers _ _ _ Hone)) as Hk.
    rewrite H in Hk. exact Hk.
  - eapply IH; eassumption.
Qed.

Lemma provideOne_failed_graph (oid : nat) (st st' : state) (r : outcome) :
  provideOne oid st = (st', r) -> r <> Done -> graph st' = graph st.
Proof.
  unfold provideOne. intros H Hr.
  repeat case_match; simplify_eq; try reflexivity; contradiction Hr; reflexivity.
Qed.

(** X9: [Provide] only adds to the graph, whether it succeeds or fails: it
    writes nothing to memory, keeps every record (at most setting its
    reflected type and value, never its dependency map), keeps the unnamed
    sequence as a prefix of the new one, and keeps every name bound to the
    object it was bound to. *)
Theorem Provide_only_adds (oids : list nat) (st : state) :
  heap (fst (Provide oids st)) = heap st
  /\ (forall i o, objects st !! i = Some o ->
        exists o', objects (fst (Provide oids st)) !! i = Some o'
                   /\ sameOrReflected o o' /\ Fields o' = Fields o)
  /\ unnamed (graph st) `prefix_of` unnamed (graph (fst (Provide oids st)))
  /\ (forall name oid, named (graph st) !! name = Some oid ->
        named (graph (fst (Provide oids st))) !! name = Some oid).
Proof. exact (Provide_frame oids st). Qed.

(** X10: [Provide] does not undo anything when one of its objects is refused:
    the call returns the error of the first refused object, the objects
    before it stay registered, and the refused one leaves the graph as it
    was before it. *)
Theorem Provide_keeps_earlier_objects (l1 : list nat) (oid : nat) (l2 : list nat)
    (st st1 st2 : state) (e : error) :
  Provide l1 st = (st1, Done) ->
  provideOne oid st1 = (st2, Failed e) ->
  Provide (l1 ++ oid :: l2)%list st = (st2, Failed e)
  /\ graph st2 = graph st1
  /\ forall i, i ∈ l1 -> isRegistered st2 i.
Proof.
  intros H1 H2. split; [eapply Provide_failure; eassumption|].
  assert (Hg : graph st2 = graph st1).
  { eapply provideOne_failed_graph; [eassumption|discriminate]. }
  split; [exact Hg|].
  intros i Hi. pose proof (Provide_registers l1 st st1 H1 i Hi) as [Hu | (name & Hn)].
  - left. rewrite Hg. exact Hu.
  - right. exists name. rewrite Hg. exact Hn.
Qed.

Lemma Provide_keeps_earlier_objects_witness :
  Provide [0; 1; 0] (twinState false false)
    = (fst (Provide [0; 1] (twinState false false)), Failed (ErrTwoUnnamed (TPtr (TStruct "T"))))
  /\ isRegistered (fst (Provide [0; 1] (twinState false false))) 0.
Proof.
  destruct (Provide_keeps_earlier_objects [0] 1 [0] (twinState false false)
              (fst (Provide [0] (twinState false false)))
              (fst (Provide [0; 1] (twinState false false)))
              (ErrTwoUnnamed (TPtr (TStruct "T"))) eq_refl eq_refl) as (H1 & _ & H2).
  split; [exact H1|]. apply H2. left.
Defined.

(** ** The container *)

Lemma lookup_appended (objs : list Object) (o : Object) :
  (objs ++ [o])%list !! length objs = Some o.
Proof. rewrite lookup_app_r by lia. rewrite Nat.sub_diag. reflexivity. Qed.

Lemma insert_appended (objs : list Object) (o o' : Object) :
  <[length objs := o']> (objs ++ [o])%list = (objs ++ [o'])%list.
Proof.
  replace (length objs) with (length objs + 0) at 1 by lia.
  rewrite insert_app_r. reflexivity.
Qed.

Lemma Provides_cons_some (v : type * value) (rest : list iface) (st : state) :
  Container.Provides (Some v :: rest) st =
    if isStructPtr (fst v) then
      if typeTaken (graph st) (fst v)
      then (refused (objectLit (Some v) false false false) st, Failed (ErrTwoUnnamed (fst v)))
      else Container.Provides rest
             (registered (objectLit (Some v) false false false) (fst v) st)
    else (refused (objectLit (Some v) false false false) st,
          Failed (ErrNotStructPtr (fst v) (Some v))).
Proof.
  change (Container.Provides (Some v :: rest) st) with
    (match Provide [length (objects st)]
             (snd (newObject (objectLit (Some v) false false false) st)) with
     | (st2, Done) => Container.Provides rest st2
     | r => r
     end).
  rewrite provideFresh_spec.
  destruct (isStructPtr (fst v)); [|reflexivity].
  destruct (typeTaken (graph st) (fst v)); reflexivity.
Qed.

Lemma Provides_cons_nil (rest : list iface) (st : state) :
  snd (Container.Provides (None :: rest) st) = Panicked.
Proof.
  cbn [Container.Provides newObject]. rewrite Provide_single. unfold provideOne.
  cbn [objects]. rewrite lookup_appended. reflexivity.
Qed.

Lemma typeTaken_registered (lit : Object) (t t' : type) (st : state) :
  private lit = false ->
  typeTaken (graph (registered lit t st)) t' = type_eqb t' t || typeTaken (graph st) t'.
Proof. intros Hp. unfold typeTaken, registered. simpl. rewrite Hp. reflexivity. Qed.

(** What a successful [Provides] leaves. *)
Lemma Provides_state (tvs : list (type * value)) :
  forall st st', Container.Provides (Some <$> tvs) st = (st', Done) ->
    heap st' = heap st
    /\ objects st' =
         (objects st
          ++ ((fun tv => withReflect (objectLit (Some tv) false false false)) <$> tvs))%list
    /\ unnamed (graph st') = (unnamed (graph st) ++ seq (length (objects st)) (length tvs))%list
    /\ named (graph st') = named (graph st).
Proof.
  induction tvs as [|tv tvs IH]; intros st st' H.
  - injection H as <-. simpl. rewrite !app_nil_r. auto.
  - change (Some <$> tv :: tvs) with (Some tv :: (Some <$> tvs)) in H.
    rewrite Provides_cons_some in H.
    destruct (isStructPtr (fst tv)); [|discriminate].
    destruct (typeTaken (graph st) (fst tv)); [discriminate|].
    destruct (IH _ _ H) as (Hh & Ho & Hu & Hn).
    split; [exact Hh|]. cbn [registered objects graph unnamed named] in Ho, Hu, Hn.
    split; [|split; [|exact Hn]].
    + rewrite Ho, <- app_assoc. reflexivity.
    + rewrite Hu, <- app_assoc, length_app. simpl. rewrite Nat.add_1_r. reflexivity.
Qed.

(** X11: [Provides] registers all of its beans exactly when each is a pointer
    to a struct and their types are pairwise different and not taken in the
    graph yet (a nil bean makes it panic); the beans are then appended to the
    unnamed sequence in the order given, one new record each, and neither
    memory nor the named objects change. *)
Theorem Provides_succeeds_iff (beans : list iface) (st : state) :
  (snd (Container.Provides beans st) = Done
   <-> exists tvs : list (type * value),
         beans = Some <$> tvs
         /\ Forall (fun tv => isStructPtr (fst tv) = true) tvs
         /\ NoDup (fst <$> tvs)
         /\ Forall (fun tv => typeTaken (graph st) (fst tv) = false) tvs)
  /\ (forall st', Container.Provides beans st = (st', Done) ->
        heap st' = heap st
        /\ length (objects st') = length (objects st) + length beans
        /\ unnamed (graph st')
           = (unnamed (graph st) ++ seq (length (objects st)) (length beans))%list
        /\ named (graph st') = named (graph st)
        /\ forall i bean, beans !! i = Some bean ->
             exists o, objects st' !! (length (objects st) + i) = Some o
                       /\ Value o = bean /\ private o = false /\ created o = false).
Proof.
  assert (Hiff : forall beans st,
            snd (Container.Provides beans st) = Done
            <-> exists tvs : list (type * value),
                  beans = Some <$> tvs
                  /\ Forall (fun tv => isStructPtr (fst tv) = true) tvs
                  /\ NoDup (fst <$> tvs)
                  /\ Forall (fun tv => typeTaken (graph st) (fst tv) = false) tvs).
  { clear. induction beans as [|bean beans IH]; intros st.
    { split; [|reflexivity]. intros _. exists []. repeat split; constructor. }
    destruct bean as [v|].
    2: { rewrite Provides_cons_nil. split; [discriminate|].
         intros (tvs & Heq & _). destruct tvs; discriminate. }
    rewrite Provides_cons_some. split.
    - destruct (isStructPtr (fst v)) eqn:Hsp; [|discriminate].
      destruct (typeTaken (graph st) (fst v)) eqn:Htk; [discriminate|].
      intros H. apply IH in H as (tvs & -> & Hptr & Hnd & Hfree).
      assert (Hfree' : Forall (fun tv => type_eqb (fst tv) (fst v) = false
                                         /\ typeTaken (graph st) (fst tv) = false) tvs).
      { eapply Forall_impl; [exact Hfree|]. intros tv Htv. cbv beta in Htv.
        rewrite typeTaken_registered in Htv by reflexivity.
        apply orb_false_elim in Htv. exact Htv. }
      exists (v :: tvs). split; [reflexivity|]. split; [constructor; assumption|].
      split.
      + simpl. constructor; [|exact Hnd].
        intros Hin. apply list_elem_of_fmap in Hin as (tv & Heq & Hin).
        rewrite Forall_forall in Hfree'. destruct (Hfree' tv Hin) as [Hne _].
        rewrite <- Heq, type_eqb_refl in Hne. discriminate.
      + constructor; [exact Htk|].
        eapply Forall_impl; [exact Hfree'|]. intros tv [_ H]. exact H.
    - intros (tvs & Heq & Hptr & Hnd & Hfree).
      destruct tvs as [|tv tvs]; [discriminate|]. injection Heq as -> ->.
      apply Forall_cons in Hptr as [Hsp Hptr]. apply Forall_cons in Hfree as [Htk Hfree].
      simpl in Hnd. apply NoDup_cons in Hnd as [Hnotin Hnd].
      rewrite Hsp, Htk. apply IH. exists tvs. split; [reflexivity|].
      split; [exact Hptr|]. split; [exact Hnd|].
      rewrite Forall_forall in Hfree. apply Forall_forall. intros tv' Hin.
      rewrite typeTaken_registered by reflexivity.
      rewrite (Hfree tv' Hin), orb_false_r.
      destruct (type_eqb (fst tv') (fst tv)) eqn:Heq; [|reflexivity].
      apply type_eqb_eq in Heq. contradiction Hnotin.
      apply list_elem_of_fmap. exists tv'. auto. }
  split; [apply Hiff|].
  intros st' Hrun.
  destruct (proj1 (Hiff beans st)) as (tvs & -> & _); [rewrite Hrun; reflexivity|].
  destruct (Provides_state tvs st st' Hrun) as (Hh & Ho & Hu & Hn).
  rewrite length_fmap. split; [exact Hh|].
  split; [rewrite Ho, length_app, length_fmap; reflexivity|].
  split; [exact Hu|]. split; [exact Hn|].
  intros i bean Hi. rewrite list_lookup_fmap in Hi.
  destruct (tvs !! i) as [tv|] eqn:Htv; [|discriminate]. injection Hi as <-.
  exists (withReflect (objectLit (Some tv) false false false)).
  split; [|auto].
  rewrite Ho, lookup_app_r by lia.
  replace (length (objects st) + i - length (objects st)) with i by lia.
  rewrite list_lookup_fmap, Htv. reflexivity.
Qed.

Lemma Provides_succeeds_iff_witness :
  snd (Container.Provides [Some (TPtr (TStruct "T"), VPtr (0, []));
                           Some (TPtr (TStruct "U"), VPtr (1, []))]
         (Container.NewContainer [VStruct []; VStruct []])) = Done
  /\ snd (Container.Provides [Some (TPtr (TStruct "T"), VPtr (0, []));
                              Some (TPtr (TStruct "T"), VPtr (1, []))]
            (Container.NewContainer [VStruct []; VStruct []])) <> Done.
Proof.
  split.
  - apply (proj2 (proj1 (Provides_succeeds_iff _ _))).
    exists [(TPtr (TStruct "T"), VPtr (0, [])); (TPtr (TStruct "U"), VPtr (1, []))].
    split; [reflexivity|].
    split; [repeat constructor|].
    split; [|repeat constructor].
    apply NoDup_cons. split; [|apply NoDup_singleton].
    intros H. apply list_elem_of_singleton in H. discriminate.
  - intros H.
    destruct (proj1 (proj1 (Provides_succeeds_iff _ _)) H) as (tvs & Hb & _ & Hnd & _).
    clear H. destruct tvs as [|[t1 v1] [|[t2 v2] [|? ?]]]; try discriminate.
    injection Hb as <- <- <- <-.
    apply NoDup_cons in Hnd. destruct Hnd as [Hnd _]. apply Hnd. left.
Defined.

(** X12: [ProvideWithName] with a name that is not empty binds the name to a
    new record for the bean, whatever the bean is (any type, also one an
    unnamed object has, also nil), and touches neither the unnamed sequence
    nor the taken types; when the name is bound already it returns the
    duplicate-name error and leaves the graph as it is. With the empty name
    it is [Provides] of the one bean. *)
Theorem ProvideWithName_binds_name (name : string) (bean : iface) (st : state) :
  let o := mkObject bean name false None None None false false false in
  (name <> EmptyString ->
   Container.ProvideWithName name bean st =
     match named (graph st) !! name with
     | None =>
         (mkState (heap st) (objects st ++ [withReflect o])%list
            (mkGraph (unnamed (graph st)) (unnamedType (graph st))
               (<[name := length (objects st)]> (named (graph st)))),
          Done)
     | Some _ =>
         (mkState (heap st) (objects st ++ [withReflect o])%list (graph st),
          Failed (ErrTwoNamed name))
     end)
  /\ Container.ProvideWithName EmptyString bean st = Container.Provides [bean] st.
Proof.
  intros o. split.
  - intros Hne. unfold Container.ProvideWithName. cbn [newObject].
    rewrite Provide_single. unfold provideOne. cbn [objects].
    rewrite lookup_appended. subst o.
    cbn [Fields withReflect Name]. unfold setObject, setGraph.
    cbn [objects graph heap unnamed unnamedType named].
    rewrite insert_appended.
    rewrite nonempty_eqb by assumption.
    destruct (named (graph st) !! name); reflexivity.
  - unfold Container.ProvideWithName, Container.Provides, objectLit.
    destruct (newObject _ st) as [k st1].
    destruct (Provide [k] st1) as [st2 []]; reflexivity.
Qed.

Lemma ProvideWithName_binds_name_witness :
  Container.ProvideWithName "answer" (Some (TBasic "int", VScalar 42))
    (Container.NewContainer [])
  = (namedIntState, Done).
Proof.
  apply (proj1 (ProvideWithName_binds_name "answer" (Some (TBasic "int", VScalar 42))
                  (Container.NewContainer []))).
  discriminate.
Defined.

(** ** Dependency maps *)

(** X13: [addDep] records the edge for the field, allocating the dependency
    map when the record has none and replacing an earlier edge of the same
    field; the edges of other fields, the other records, memory and the graph
    stay as they are. A record that has received an edge is refused by
    [Provide] from then on. *)
Theorem addDep_records_edge (oid : nat) (field : string) (dep : nat) (st : state)
    (o : Object) :
  objects st !! oid = Some o ->
  dependency (addDep oid field dep st) oid field = Some dep
  /\ (forall f, f <> field ->
        dependency (addDep oid field dep st) oid f = dependency st oid f)
  /\ (forall k, k <> oid -> objects (addDep oid field dep st) !! k = objects st !! k)
  /\ heap (addDep oid field dep st) = heap st
  /\ graph (addDep oid field dep st) = graph st
  /\ snd (Provide [oid] (addDep oid field dep st)) = Failed (ErrFieldsSpecified oid).
Proof.
  intros Ho.
  assert (Hlt : oid < length (objects st)) by (eapply lookup_lt_Some; eassumption).
  assert (Hnew : objects (addDep oid field dep st) !! oid
                 = Some (withFields o (<[field := dep]> (default ∅ (Fields o))))).
  { unfold addDep. rewrite Ho. simpl. apply list_lookup_insert_eq. exact Hlt. }
  split; [|split; [|split; [|split; [|split]]]].
  - unfold dependency. rewrite Hnew. simpl. apply lookup_insert_eq.
  - intros f Hf. unfold dependency. rewrite Hnew, Ho. simpl.
    rewrite lookup_insert_ne by congruence.
    destruct (Fields o); [reflexivity|apply lookup_empty].
  - intros k Hk. unfold addDep. rewrite Ho. simpl.
    apply list_lookup_insert_ne. congruence.
  - apply addDep_heap.
  - apply addDep_graph.
  - rewrite Provide_single.
    erewrite provideOne_fields_specified; [reflexivity|exact Hnew|reflexivity].
Qed.

Lemma addDep_records_edge_witness :
  dependency (addDep 1 "A" 0 reuseProvided) 1 "A" = Some 0
  /\ snd (Provide [1] (addDep 1 "A" 0 reuseProvided)) = Failed (ErrFieldsSpecified 1).
Proof.
  destruct (addDep_records_edge 1 "A" 0 reuseProvided
              (withReflect (objectFor tServiceB 1)) eq_refl) as (H1 & _ & _ & _ & _ & H2).
  split; assumption.
Defined.

(** ** Objects *)

Lemma appendVisible_spec (objs : list Object) (l : list nat) :
  (forall oid, oid ∈ l -> is_Some (objs !! oid)) ->
  forall acc, appendVisible objs l acc = Some (acc ++ List.filter (notEmbedded objs) l)%list.
Proof.
  induction l as [|oid l IH]; intros Hvalid acc; simpl.
  - rewrite app_nil_r. reflexivity.
  - destruct (Hvalid oid) as [o Ho]; [left|].
    unfold notEmbedded at 1. rewrite Ho.
    rewrite IH by (intros k Hk; apply Hvalid; right; exact Hk).
    destruct (embedded o); simpl; [reflexivity|].
    rewrite <- app_assoc. reflexivity.
Qed.

Lemma swap_Permutation (i j : nat) (l : list nat) :
  i < length l -> j < length l ->
  exists l', swap i j l = Some l' /\ l' ≡ₚ l /\ length l' = length l.
Proof.
  intros Hi Hj. unfold swap.
  destruct (lookup_lt_is_Some_2 l i Hi) as [x Hx].
  destruct (lookup_lt_is_Some_2 l j Hj) as [y Hy].
  rewrite Hx, Hy. eexists. split; [reflexivity|]. split.
  - apply Permutation_insert_swap; assumption.
  - rewrite !length_insert. reflexivity.
Qed.

Lemma shuffleFrom_Permutation (Intn : nat -> nat -> nat) :
  (forall k n, 0 < n -> Intn k n < n) ->
  forall rounds i l, i + rounds = length l ->
    exists l', shuffleFrom Intn rounds i l = Some l' /\ l' ≡ₚ l.
Proof.
  intros Hrand. induction rounds as [|rounds IH]; intros i l Hlen; simpl.
  - exists l. split; reflexivity.
  - pose proof (Hrand i (i + 1) ltac:(lia)) as Hj.
    destruct (swap_Permutation i (Intn i (i + 1)) l) as (l1 & -> & Hp & Hl); [lia..|].
    destruct (IH (S i) l1) as (l' & -> & Hp'); [lia|].
    exists l'. split; [reflexivity|]. etransitivity; eassumption.
Qed.

Lemma elem_of_filter_bool {A : Type} (p : A -> bool) (l : list A) (x : A) :
  x ∈ List.filter p l <-> x ∈ l /\ p x = true.
Proof. rewrite !list_elem_of_In. apply filter_In. Qed.

Lemma elem_of_namedIn (g : Graph) (ks : list string) (oid : nat) :
  oid ∈ namedIn g ks <-> exists k, k ∈ ks /\ named g !! k = Some oid.
Proof. unfold namedIn. apply list_elem_of_omap. Qed.

(** X14: [Objects] returns, in an order that depends on the random numbers
    only, exactly the registered objects that are not embedded: the unnamed
    ones and those under the names visited, each as often as it is
    registered. No embedded object is returned and none that is not
    registered; an inline struct registered for a field that is not embedded
    is returned like any other object. *)
Theorem Objects_permutation (Intn : nat -> nat -> nat) (ks : list string) (st : state) :
  (forall k n, 0 < n -> Intn k n < n) ->
  (forall oid, oid ∈ unnamed (graph st) -> is_Some (objects st !! oid)) ->
  (forall name oid, named (graph st) !! name = Some oid -> is_Some (objects st !! oid)) ->
  exists l, Objects Intn ks st = Some l
    /\ l ≡ₚ List.filter (notEmbedded (objects st))
              (unnamed (graph st) ++ namedIn (graph st) ks)%list
    /\ (forall oid, oid ∈ l <->
          notEmbedded (objects st) oid = true
          /\ (oid ∈ unnamed (graph st)
              \/ exists k, k ∈ ks /\ named (graph st) !! k = Some oid)).
Proof.
  intros Hrand Hu Hn. unfold Objects.
  rewrite appendVisible_spec by exact Hu.
  rewrite appendVisible_spec.
  2: { intros oid Hin. apply elem_of_namedIn in Hin as (k & _ & Hk). eauto. }
  rewrite app_nil_l, <- List.filter_app.
  destruct (shuffleFrom_Permutation Intn Hrand
              (length (List.filter (notEmbedded (objects st))
                         (unnamed (graph st) ++ namedIn (graph st) ks)%list)) 0
              _ eq_refl) as (l & -> & Hp).
  exists l. split; [reflexivity|]. split; [exact Hp|].
  intros oid. rewrite Hp, elem_of_filter_bool, elem_of_app, elem_of_namedIn. tauto.
Qed.

Lemma Objects_permutation_witness :
  exists l, Objects (fun _ _ => 0) [] reuseProvided = Some l /\ l ≡ₚ [0; 1].
Proof.
  destruct (Objects_permutation (fun _ _ => 0) [] reuseProvided) as (l & Hl & Hp & _).
  - intros k n Hn. exact Hn.
  - intros oid Hin. destruct (proj1 reuseProvided_ok oid Hin) as (e & x & He & _).
    rewrite He. eauto.
  - intros name oid H. discriminate.
  - exists l. split; [exact Hl|]. exact Hp.
Defined.

(** * The passes: what they keep *)

(** ** Properties kept by the loops *)

Section Loops.

Variable P : state -> Prop.

Lemma structLoop_kept (step : nat -> StructField.t -> state -> state * outcome)
    (fs : list StructField.t) :
  (forall i f s, P s -> P (fst (step i f s))) ->
  forall i st, P st -> P (fst (structLoop step i fs st)).
Proof.
  intros Hstep. induction fs as [|f fs IH]; intros i st Hok; simpl; [exact Hok|].
  specialize (Hstep i f st Hok). destruct (step i f st) as [st' []]; simpl in *; auto.
Qed.

Lemma rangeNamed_kept (f : nat -> state -> state * outcome) (ks : list string) :
  (forall oid s o, objects s !! oid = Some o -> Complete o = false ->
     P s -> P (fst (f oid s))) ->
  forall st, P st -> P (fst (rangeNamed f ks st)).
Proof.
  intros Hf. induction ks as [|k ks IH]; intros st Hok; simpl; [exact Hok|].
  destruct (named (graph st) !! k) as [oid|]; [|apply IH; exact Hok].
  destruct (objects st !! oid) as [o|] eqn:Ho; [|exact Hok].
  destruct (Complete o) eqn:Hc; [apply IH; exact Hok|].
  specialize (Hf oid st o Ho Hc Hok). destruct (f oid st) as [st' []]; simpl in *; auto.
Qed.

Lemma rangeUnnamed_kept (f : nat -> state -> state * outcome) (l : list nat) :
  (forall oid s o, objects s !! oid = Some o -> Complete o = false ->
     P s -> P (fst (f oid s))) ->
  forall st, P st -> P (fst (rangeUnnamed f l st)).
Proof.
  intros Hf. induction l as [|oid l IH]; intros st Hok; simpl; [exact Hok|].
  destruct (objects st !! oid) as [o|] eqn:Ho; [|exact Hok].
  destruct (Complete o) eqn:Hc; [apply IH; exact Hok|].
  specialize (Hf oid st o Ho Hc Hok). destruct (f oid st) as [st' []]; simpl in *; auto.
Qed.

Lemma explicitLoop_kept (env : TypeEnv) (fuel rounds : nat) :
  (forall oid s o, objects s !! oid = Some o -> Complete o = false ->
     P s -> P (fst (populateExplicit env fuel oid s))) ->
  forall i st, P st -> P (fst (explicitLoop env fuel rounds i st)).
Proof.
  intros Hf. induction rounds as [|rounds IH]; intros i st Hok; simpl; [exact Hok|].
  destruct (unnamed (graph st) !! i) as [oid|]; [|exact Hok].
  destruct (objects st !! oid) as [o|] eqn:Ho; [|exact Hok].
  destruct (Complete o) eqn:Hc; [apply IH; exact Hok|].
  specialize (Hf oid st o Ho Hc Hok).
  destruct (populateExplicit env fuel oid st) as [st' []]; simpl in *; auto.
Qed.

(** What both passes keep on every object that is not complete, [Populate]
    keeps. *)
Lemma Populate_kept (env : TypeEnv) (fuel : nat) (ks1 ks4 : list string) (st : state) :
  (forall oid s o, objects s !! oid = Some o -> Complete o = false ->
     P s -> P (fst (populateExplicit env fuel oid s))) ->
  (forall oid s o, objects s !! oid = Some o -> Complete o = false ->
     P s -> P (fst (populateUnnamedInterface env oid s))) ->
  P st -> P (fst (Populate env fuel ks1 ks4 st)).
Proof.
  intros He Hi Hok. unfold Populate.
  pose proof (rangeNamed_kept (populateExplicit env fuel) ks1 He st Hok) as H1.
  destruct (rangeNamed (populateExplicit env fuel) ks1 st) as [st1 r1]. simpl in H1.
  destruct r1; simpl; auto.
  pose proof (explicitLoop_kept env fuel fuel He 0 st1 H1) as H2.
  destruct (explicitLoop env fuel fuel 0 st1) as [st2 r2]. simpl in H2.
  destruct r2; simpl; auto.
  pose proof (rangeUnnamed_kept (populateUnnamedInterface env) (unnamed (graph st2))
                Hi st2 H2) as H3.
  destruct (rangeUnnamed _ _ st2) as [st3 r3]. simpl in H3.
  destruct r3; simpl; auto.
  apply rangeNamed_kept; [exact Hi|exact H3].
Qed.

End Loops.

(** ** Properties of the graph and the records kept by both passes

    A property that does not look at memory nor at the dependency maps, and
    that the registration of a new unnamed record keeps, is kept by
    [Populate]. *)

Section Kept.

Variable P : state -> Prop.

Hypothesis P_frame :
  forall st st', extends st st' ->
    unnamed (graph st') = unnamed (graph st) ->
    unnamedType (graph st') = unnamedType (graph st) ->
    P st -> P st'.

Hypothesis P_registered :
  forall lit t v st,
    Value lit = Some (t, v) -> Name lit = EmptyString -> Fields lit = None ->
    isZero v = false ->
    (private lit = true \/ typeTaken (graph st) t = false) ->
    P st -> P (registered lit t st).

Lemma kept_setField_addDep (fa : addr) (x : value) (oid : nat) (field : string) (dep : nat)
    (st st1 : state) :
  setField fa x st = Some st1 -> P st -> P (addDep oid field dep st1).
Proof.
  intros Hset Hok. destruct (setField_objects _ _ _ _ Hset) as [_ Hg].
  eapply P_frame; [| | |exact Hok].
  - eapply extends_trans; [eapply extends_setField; eauto|apply extends_addDep].
  - rewrite addDep_graph, Hg. reflexivity.
  - rewrite addDep_graph, Hg. reflexivity.
Qed.

Lemma explicitStep_kept (env : TypeEnv) (rec : nat -> state -> state * outcome)
    (oid : nat) (a : addr) (i : nat) (f : StructField.t) (st : state)
    (res : state * outcome) :
  (forall id s, P s -> P (fst (rec id s))) ->
  explicitStep env rec oid a i f st res ->
  P st -> P (fst res).
Proof.
  intros Hrec Hstep Hok. step_cases Hstep; simpl.
  - exact Hok.
  - eapply P_frame; [apply extends_refused| | |exact Hok]; reflexivity.
  - apply Hrec.
    eapply P_registered; try reflexivity; [exact Hzero|right; exact Htaken|exact Hok].
  - eapply kept_setField_addDep; eassumption.
  - eapply P_registered; try reflexivity; [left; reflexivity|exact Hok].
  - destruct (setField_objects _ _ _ _ Hset) as [_ Hg].
    eapply P_frame; [eapply extends_setField; eauto| | |exact Hok];
      rewrite Hg; reflexivity.
  - eapply P_frame; [| | |exact Hok]; try reflexivity.
    eapply extends_trans; [apply extends_setHeap|apply extends_refused].
  - assert (Hok4 : P st4).
    { match type of Hrec' with
      | rec ?id ?s = _ => pose proof (Hrec id s) as Hs; rewrite Hrec' in Hs
      end.
      apply Hs. eapply P_registered; try reflexivity; [exact Hfree|].
      eapply P_frame; [apply extends_setHeap| | |exact Hok]; reflexivity. }
    destruct r; simpl; auto.
    destruct (setField _ _ st4) as [st5|] eqn:Hset5; simpl; auto.
    eapply kept_setField_addDep; eassumption.
Qed.

Lemma populateExplicit_kept (env : TypeEnv) (fuel : nat) :
  forall oid st, P st -> P (fst (populateExplicit env fuel oid st)).
Proof.
  induction fuel as [|fuel IH]; intros oid st Hok; simpl; [exact Hok|].
  destruct (objects st !! oid) as [o|]; [|exact Hok].
  destruct (walkTarget env o); try exact Hok.
  apply structLoop_kept; [|exact Hok]. intros i f s Hs.
  eapply explicitStep_kept; [exact IH|apply explicitField_cases|exact Hs].
Qed.

Lemma interfaceScan_kept (env : TypeEnv) (oid : nat) (ot : option type) (fa : addr)
    (ft : type) (name : string) (l : list nat) :
  forall found st, P st -> P (fst (interfaceScan env oid ot fa ft name l found st)).
Proof.
  induction l as [|eid l IH]; intros found st Hok; simpl.
  - destruct found; exact Hok.
  - destruct (objects st !! eid) as [e|]; [|exact Hok].
    destruct (private e); [apply IH; exact Hok|].
    destruct (reflectType e) as [et|]; [|exact Hok].
    destruct (AssignableTo env et ft); [|apply IH; exact Hok].
    destruct found as [fid|].
    + destruct (objects st !! fid); exact Hok.
    + destruct (Value e) as [x|]; [|exact Hok].
      destruct (setField fa (boxFor ft x) st) as [st1|] eqn:Hset; [|exact Hok].
      apply IH. eapply kept_setField_addDep; eassumption.
Qed.

Lemma populateUnnamedInterface_kept (env : TypeEnv) (oid : nat) (st : state) :
  P st -> P (fst (populateUnnamedInterface env oid st)).
Proof.
  intros Hok. unfold populateUnnamedInterface.
  destruct (objects st !! oid) as [o|]; [|exact Hok].
  destruct (walkTarget env o); try exact Hok.
  apply structLoop_kept; [|exact Hok]. intros i f s Hs. unfold interfaceField.
  repeat case_match; simpl; try exact Hs. apply interfaceScan_kept. exact Hs.
Qed.

Lemma Populate_kept_graph (env : TypeEnv) (fuel : nat) (ks1 ks4 : list string)
    (st : state) :
  P st -> P (fst (Populate env fuel ks1 ks4 st)).
Proof.
  apply Populate_kept.
  - intros oid s o _ _. apply populateExplicit_kept.
  - intros oid s o _ _. apply populateUnnamedInterface_kept.
Qed.

End Kept.

(** ** The graph stays consistent *)

Lemma publicTypesOf_ext (objs objs' : list Object) (l : list nat) :
  (forall eid e, eid ∈ l -> objs !! eid = Some e ->
     exists e', objs' !! eid = Some e'
                /\ private e' = private e /\ reflectType e' = reflectType e) ->
  (forall eid, eid ∈ l -> is_Some (objs !! eid)) ->
  publicTypesOf objs' l = publicTypesOf objs l.
Proof.
  induction l as [|eid l IH]; intros Hsame Hvalid; [reflexivity|].
  unfold publicTypesOf in *. cbn [omap list_omap].
  destruct (Hvalid eid) as [e He]; [left|].
  destruct (Hsame eid e) as (e' & He' & Hp & Ht); [left|exact He|].
  rewrite He, He', Hp, Ht.
  rewrite IH; [reflexivity| |].
  - intros k e0 Hk. apply Hsame. right. exact Hk.
  - intros k Hk. apply Hvalid. right. exact Hk.
Qed.

Lemma typedUnnamed_valid (st : state) :
  typedUnnamed st -> forall eid, eid ∈ unnamed (graph st) -> is_Some (objects st !! eid).
Proof. intros Hty eid Hin. destruct (Hty eid Hin) as (e & x & He & _). eauto. Qed.

Lemma publicTypes_frame (st st' : state) :
  extends st st' ->
  unnamed (graph st') = unnamed (graph st) ->
  typedUnnamed st ->
  publicTypes st' = publicTypes st.
Proof.
  intros Hext Hu Hty. unfold publicTypes. rewrite Hu.
  apply publicTypesOf_ext; [|apply typedUnnamed_valid; exact Hty].
  intros eid e _ He.
  destruct (ext_objects _ _ Hext eid e He) as (e' & He' & _ & _ & _ & T & _ & Pr & _).
  exists e'. auto.
Qed.

Lemma graphConsistent_frame (st st' : state) :
  extends st st' ->
  unnamed (graph st') = unnamed (graph st) ->
  unnamedType (graph st') = unnamedType (graph st) ->
  graphConsistent st -> graphConsistent st'.
Proof.
  intros Hext Hu Ht (Hty & Hb & Hi & Hone).
  destruct (graph_ok_frame st st' Hext Hu Ht (conj Hty Hb)) as [Hty' Hb'].
  pose proof (publicTypes_frame st st' Hext Hu Hty) as Hpub.
  split; [exact Hty'|]. split; [exact Hb'|]. split.
  - intros t Hin. rewrite Hpub in Hin. unfold typeTaken. rewrite Ht. apply Hi. exact Hin.
  - unfold oneInstancePerType. rewrite Hpub. exact Hone.
Qed.

(** Appending a public type that is not taken, or nothing, keeps the index
    and the uniqueness. *)
Lemma index_unique_snoc (pub pub' : list type) (taken taken' : list type)
    (p : bool) (t : type) :
  pub' = (pub ++ (if p then [] else [t]))%list ->
  taken' = (if p then taken else t :: taken) ->
  (p = true \/ existsb (type_eqb t) taken = false) ->
  (forall t', t' ∈ pub -> existsb (type_eqb t') taken = true) ->
  NoDup pub ->
  (forall t', t' ∈ pub' -> existsb (type_eqb t') taken' = true) /\ NoDup pub'.
Proof.
  intros -> -> Hfree Hi Hone. destruct p.
  { rewrite app_nil_r. auto. }
  destruct Hfree as [?|Hfree]; [discriminate|]. split.
  - intros t' Hin. simpl. apply elem_of_app in Hin as [Hin|Hin].
    + rewrite (Hi t' Hin). apply orb_true_r.
    + apply list_elem_of_singleton in Hin as ->. rewrite type_eqb_refl. reflexivity.
  - apply NoDup_app. split; [exact Hone|]. split; [|apply NoDup_singleton].
    intros t' Hin Hin'. apply list_elem_of_singleton in Hin' as ->.
    rewrite (Hi t Hin) in Hfree. discriminate.
Qed.

Lemma publicTypes_registered (lit : Object) (t : type) (v : value) (st : state) :
  Value lit = Some (t, v) ->
  typedUnnamed st ->
  publicTypes (registered lit t st)
  = (publicTypes st ++ (if private lit then [] else [t]))%list.
Proof.
  intros Hv Hty. unfold publicTypes, registered. cbn [objects graph unnamed].
  unfold publicTypesOf at 1. rewrite omap_app. f_equal.
  - apply publicTypesOf_ext; [|apply typedUnnamed_valid; exact Hty].
    intros eid e _ He. exists e. split; [apply lookup_app_l_Some; exact He|auto].
  - cbn [omap list_omap]. rewrite lookup_appended. simpl. rewrite Hv.
    destruct (private lit); reflexivity.
Qed.

Lemma graphConsistent_registered (lit : Object) (t : type) (v : value) (st : state) :
  Value lit = Some (t, v) -> Name lit = EmptyString -> Fields lit = None ->
  isZero v = false ->
  (private lit = true \/ typeTaken (graph st) t = false) ->
  graphConsistent st -> graphConsistent (registered lit t st).
Proof.
  intros Hv _ _ _ Hfree (Hty & Hb & Hi & Hone).
  destruct (graph_ok_registered lit t v st Hv (conj Hty Hb)) as [Hty' Hb'].
  split; [exact Hty'|]. split; [exact Hb'|].
  apply (index_unique_snoc (publicTypes st) _ (unnamedType (graph st)) _ (private lit) t).
  - apply (publicTypes_registered lit t v); assumption.
  - reflexivity.
  - exact Hfree.
  - exact Hi.
  - exact Hone.
Qed.

Lemma publicTypes_setObject (oid : nat) (o : Object) (st : state) :
  typedUnnamed st -> objects st !! oid = Some o ->
  publicTypesOf (<[oid := withReflect o]> (objects st)) (unnamed (graph st))
  = publicTypes st.
Proof.
  intros Hty Ho. apply publicTypesOf_ext; [|apply typedUnnamed_valid; exact Hty].
  intros eid e Hin He. destruct (decide (eid = oid)) as [->|Hne].
  - rewrite list_lookup_insert_eq by (eapply lookup_lt_Some; eauto).
    destruct (Hty oid Hin) as (e' & x & He' & Hv & Hrt & Hrv).
    rewrite Ho in He, He'. injection He as ->. injection He' as <-.
    rewrite (withReflect_typed e x) by auto. eauto.
  - rewrite list_lookup_insert_ne by auto. eauto.
Qed.

Lemma provideOne_index_unique (oid : nat) (st : state) :
  typedUnnamed st -> typesIndexed st -> oneInstancePerType st ->
  typesIndexed (fst (provideOne oid st)) /\ oneInstancePerType (fst (provideOne oid st)).
Proof.
  intros Hty Hi Hone.
  unfold provideOne. destruct (objects st !! oid) as [o|] eqn:Ho; [|split; assumption].
  pose proof (publicTypes_setObject oid o st Hty Ho) as Hpub.
  assert (Hsame : typesIndexed (setObject st oid (withReflect o))
                  /\ oneInstancePerType (setObject st oid (withReflect o))).
  { unfold typesIndexed, oneInstancePerType, publicTypes, setObject.
    cbn [objects graph]. rewrite Hpub. split; assumption. }
  cbn [Fields withReflect Name reflectType private].
  destruct (Fields o); [exact Hsame|].
  destruct (String.eqb (Name o) EmptyString).
  - destruct (Value o) as [[t v]|] eqn:Hv; cbn [fmap option_fmap option_map fst];
      [|exact Hsame].
    destruct (negb (isStructPtr t)); [exact Hsame|].
    assert (Hnew : forall types,
              publicTypes
                (setGraph (setObject st oid (withReflect o))
                   (mkGraph (unnamed (graph st) ++ [oid])%list types (named (graph st))))
              = (publicTypes st ++ (if private o then [] else [t]))%list).
    { intros types. unfold publicTypes, setGraph, setObject. cbn [objects graph unnamed].
      unfold publicTypesOf at 1. rewrite omap_app. f_equal; [exact Hpub|].
      cbn [omap list_omap].
      rewrite list_lookup_insert_eq by (eapply lookup_lt_Some; eauto).
      simpl. rewrite Hv. destruct (private o); reflexivity. }
    destruct (private o) eqn:Hp; cbn [negb].
    + apply (index_unique_snoc (publicTypes st) _ (unnamedType (graph st)) _ true t);
        auto. apply Hnew.
    + destruct (typeTaken (graph (setObject st oid (withReflect o))) t) eqn:Htk;
        [exact Hsame|].
      apply (index_unique_snoc (publicTypes st) _ (unnamedType (graph st)) _ false t);
        auto. apply Hnew.
  - destruct (named (graph (setObject st oid (withReflect o))) !! Name o); exact Hsame.
Qed.

Lemma provideOne_consistent (oid : nat) (st : state) :
  graphConsistent st -> graphConsistent (fst (provideOne oid st)).
Proof.
  intros (Hty & Hb & Hi & Hone).
  destruct (provideOne_index_unique oid st Hty Hi Hone) as [Hi' Hone'].
  split; [apply provideOne_typedUnnamed; exact Hty|].
  split; [apply provideOne_typesBacked; assumption|]. split; assumption.
Qed.

Lemma Provide_consistent (oids : list nat) :
  forall st, graphConsistent st -> graphConsistent (fst (Provide oids st)).
Proof.
  induction oids as [|oid oids IH]; intros st Hok; simpl; [exact Hok|].
  pose proof (provideOne_consistent oid st Hok) as H.
  destruct (provideOne oid st) as [st' []]; simpl in *; auto.
Qed.

Lemma extends_newObject (o : Object) (st : state) : extends st (snd (newObject o st)).
Proof.
  split; simpl; try reflexivity.
  intros i o' Hi. exists o'. split; [apply lookup_app_l_Some; exact Hi|].
  apply sameButFields_refl.
Qed.

Lemma newObject_consistent (o : Object) (st : state) :
  graphConsistent st -> graphConsistent (snd (newObject o st)).
Proof.
  intros Hok. eapply graphConsistent_frame; [apply extends_newObject| | |exact Hok];
    reflexivity.
Qed.

Lemma Provides_consistent (beans : list iface) :
  forall st, graphConsistent st -> graphConsistent (fst (Container.Provides beans st)).
Proof.
  induction beans as [|bean beans IH]; intros st Hok; [exact Hok|].
  cbn [Container.Provides].
  pose proof (Provide_consistent [length (objects st)] _
                (newObject_consistent (objectLit bean false false false) st Hok)) as H.
  destruct (newObject (objectLit bean false false false) st) as [k st1] eqn:Hn.
  injection Hn as <- <-.
  destruct (Provide _ _) as [st2 []]; simpl in *; auto.
Qed.

(** X15: The graph stays consistent. In a new container, and after every
    call of [Provide], [Provides], [ProvideWithName] and [Populate] on a
    consistent graph, whether the call succeeds or fails: every unnamed
    object has the type and value of its record, the types marked as taken
    are exactly the types of the unnamed objects that are not private, and no
    two of these objects have the same type. *)
Theorem graph_stays_consistent :
  (forall m, graphConsistent (Container.NewContainer m))
  /\ (forall oids st, graphConsistent st -> graphConsistent (fst (Provide oids st)))
  /\ (forall beans st,
        graphConsistent st -> graphConsistent (fst (Container.Provides beans st)))
  /\ (forall name bean st,
        graphConsistent st ->
        graphConsistent (fst (Container.ProvideWithName name bean st)))
  /\ (forall env fuel ks1 ks4 st,
        graphConsistent st -> graphConsistent (fst (Populate env fuel ks1 ks4 st))).
Proof.
  split; [|split; [|split; [|split]]].
  - intros m. destruct (empty_graph_ok m []) as [H1 H2].
    split; [exact H1|]. split; [exact H2|]. split.
    + intros t Hin. inversion Hin.
    + apply NoDup_nil_2.
  - intros oids st. apply Provide_consistent.
  - intros beans st. apply Provides_consistent.
  - intros name bean st Hok. unfold Container.ProvideWithName.
    pose proof (Provide_consistent [length (objects st)] _
                  (newObject_consistent
                     (mkObject bean name false None None None false false false) st Hok))
      as H.
    destruct (newObject _ st) as [k st1] eqn:Hn. injection Hn as <- <-. exact H.
  - intros env fuel ks1 ks4 st.
    apply Populate_kept_graph;
      [exact graphConsistent_frame|exact graphConsistent_registered].
Qed.

Lemma graph_stays_consistent_witness :
  graphConsistent (fst (Populate serviceEnv 4 [] [] mixedProvided))
  /\ publicTypes (fst (Populate serviceEnv 4 [] [] mixedProvided))
     = [tServiceA; tServiceC; tServiceB].
Proof.
  destruct graph_stays_consistent as (Hnew & Hprov & _ & _ & Hpop).
  split; [|reflexivity].
  apply Hpop. apply (Hprov [0; 1] mixedStart).
  destruct (empty_graph_ok (heap mixedStart) (objects mixedStart)) as [H1 H2].
  split; [exact H1|]. split; [exact H2|]. split.
  - intros t Hin. inversion Hin.
  - apply NoDup_nil_2.
Defined.

(** X16: [Populate] only adds, whether it succeeds or fails: every record is
    still there and differs at most in its dependency map (its value, name,
    flags and reflected type are the same), the unnamed sequence has only
    grown at its end, the taken types have only grown, and the named objects
    are the same. *)
Theorem Populate_only_adds (env : TypeEnv) (fuel : nat) (ks1 ks4 : list string)
    (st : state) :
  extends st (fst (Populate env fuel ks1 ks4 st)).
Proof.
  apply (Populate_kept_graph (extends st)).
  - intros s s' Hext _ _ H. eapply extends_trans; eassumption.
  - intros lit t v s _ _ _ _ _ H.
    eapply extends_trans; [exact H|apply extends_registered].
  - apply extends_refl.
Qed.

(** ** Values that are set are never overwritten *)

Lemma isSet_not_zero (w : value) : isSet w = true -> isZero w = false.
Proof.
  destruct w; simpl; try discriminate; try reflexivity.
  intros H. apply negb_true_iff in H. exact H.
Qed.

Lemma writePath_keeps_set (v v' x w : value) (p q : list nat) :
  writePath v p x = Some v' ->
  readPath v q = Some w -> isSet w = true ->
  ~ p `prefix_of` q ->
  readPath v' q = Some w.
Proof.
  revert v v' q. induction p as [|i p IH]; intros v v' q; simpl.
  - intros _ _ _ Hn. exfalso. apply Hn. apply prefix_nil.
  - destruct v as [| | | |fs|]; try discriminate.
    destruct (fs !! i) as [u|] eqn:Hu; [|discriminate].
    destruct (writePath u p x) as [u'|] eqn:Hu'; [|discriminate].
    intros [= <-]. destruct q as [|j q]; simpl.
    { intros [= <-]. discriminate. }
    destruct (decide (j = i)) as [->|Hne].
    + rewrite Hu. rewrite list_lookup_insert_eq by (eapply lookup_lt_Some; eauto).
      intros Hr Hs Hn. eapply IH; eauto.
      intros Hp. apply Hn. apply prefix_cons. exact Hp.
    + rewrite list_lookup_insert_ne by auto. auto.
Qed.

Lemma store_keeps_set (m m' : list value) (fa a : addr) (x w : value) :
  store m fa x = Some m' ->
  load m a = Some w -> isSet w = true ->
  ~ (fst a = fst fa /\ snd fa `prefix_of` snd a) ->
  load m' a = Some w.
Proof.
  unfold store, load.
  destruct (m !! fst fa) as [v|] eqn:Hv; [|discriminate].
  destruct (writePath v (snd fa) x) as [v'|] eqn:Hv'; [|discriminate].
  intros [= <-] Ha Hs Hn.
  destruct (decide (fst a = fst fa)) as [E|Hne].
  - rewrite E in *. rewrite Hv in Ha.
    rewrite list_lookup_insert_eq by (eapply lookup_lt_Some; eauto).
    eapply writePath_keeps_set; eauto.
  - rewrite list_lookup_insert_ne by auto. exact Ha.
Qed.

Lemma readPath_app (p q : list nat) (v : value) :
  readPath v (p ++ q) =
    match readPath v p with Some w => readPath w q | None => None end.
Proof.
  revert v. induction p as [|i p IH]; intros v; simpl; [reflexivity|].
  destruct v; try reflexivity. destruct (fs !! i); [apply IH|reflexivity].
Qed.

Lemma zero_not_above_set (m : list value) (fa a : addr) (field w : value) :
  load m fa = Some field -> isZero field = true ->
  load m a = Some w -> isSet w = true ->
  ~ (fst a = fst fa /\ snd fa `prefix_of` snd a).
Proof.
  unfold load. intros Hf Hz Ha Hs [E [q Hq]]. rewrite E in Ha.
  destruct (m !! fst fa) as [v|]; [|discriminate].
  rewrite Hq, readPath_app, Hf in Ha.
  pose proof (readPath_zero _ _ _ Ha Hz) as Hw.
  rewrite (isSet_not_zero w Hs) in Hw. discriminate.
Qed.

Lemma keepsValues_refl (st : state) : keepsValues st st.
Proof. intros a w H _. exact H. Qed.

Lemma keepsValues_trans (st1 st2 st3 : state) :
  keepsValues st1 st2 -> keepsValues st2 st3 -> keepsValues st1 st3.
Proof. intros H1 H2 a w H Hs. auto. Qed.

Lemma keepsValues_heap (st st' : state) :
  heap st' = heap st -> keepsValues st st'.
Proof. intros E a w H _. rewrite E. exact H. Qed.

Lemma keepsValues_alloc (st : state) (v : value) :
  keepsValues st (setHeap st (heap st ++ [v])%list).
Proof.
  intros a w. unfold load. simpl.
  destruct (heap st !! fst a) as [u|] eqn:Hu; [|discriminate].
  rewrite (lookup_app_l_Some _ _ _ _ Hu). auto.
Qed.

Lemma keepsValues_setField (st0 st st1 : state) (fa : addr) (field x : value) :
  load (heap st0) fa = Some field -> isZero field = true ->
  keepsValues st0 st ->
  setField fa x st = Some st1 ->
  keepsValues st0 st1.
Proof.
  intros Hf Hz Hk Hset a w Ha Hs.
  unfold setField in Hset.
  destruct (store (heap st) fa x) as [m'|] eqn:Hst; [|discriminate].
  injection Hset as <-. simpl.
  eapply store_keeps_set; eauto.
  eapply zero_not_above_set; eauto.
Qed.

Lemma explicitStep_keepsValues (env : TypeEnv) (rec : nat -> state -> state * outcome)
    (oid : nat) (a : addr) (i : nat) (f : StructField.t) (st : state)
    (r : state * outcome) :
  (forall id s, keepsValues s (fst (rec id s))) ->
  explicitStep env rec oid a i f st r ->
  keepsValues st (fst r).
Proof.
  intros Hrec Hstep. step_cases Hstep; simpl.
  - apply keepsValues_refl.
  - apply keepsValues_heap. reflexivity.
  - eapply keepsValues_trans; [|apply Hrec]. apply keepsValues_heap. reflexivity.
  - eapply keepsValues_trans; [|apply keepsValues_heap, addDep_heap].
    eapply keepsValues_setField; eauto using keepsValues_refl.
  - apply keepsValues_heap. reflexivity.
  - eapply keepsValues_setField; eauto using keepsValues_refl.
  - apply keepsValues_alloc.
  - assert (Hst4 : keepsValues st st4).
    { match type of Hrec' with
      | rec ?id ?s = _ => pose proof (Hrec id s) as Hs; rewrite Hrec' in Hs
      end.
      eapply keepsValues_trans; [apply (keepsValues_alloc st (Zero env elem))|].
      eapply keepsValues_trans; [|exact Hs].
      apply keepsValues_heap. reflexivity. }
    destruct r; simpl; auto.
    destruct (setField _ _ st4) as [st5|] eqn:Hset5; simpl; auto.
    eapply keepsValues_trans; [|apply keepsValues_heap, addDep_heap].
    eapply keepsValues_setField; eauto.
Qed.

Lemma populateExplicit_keepsValues (env : TypeEnv) (fuel : nat) (oid : nat) (st : state) :
  keepsValues st (fst (populateExplicit env fuel oid st)).
Proof.
  revert oid st. induction fuel as [|fuel IH]; intros oid st; simpl.
  - apply keepsValues_refl.
  - destruct (objects st !! oid) as [o|]; [|apply keepsValues_refl].
    destruct (walkTarget env o); try apply keepsValues_refl.
    apply (structLoop_kept (keepsValues st)); [|apply keepsValues_refl].
    intros i f s Hs. eapply keepsValues_trans; [exact Hs|].
    eapply explicitStep_keepsValues; [exact IH|apply explicitField_cases].
Qed.

(** Once a candidate is found the scan writes nothing more. *)
Lemma interfaceScan_found_state (env : TypeEnv) (oid : nat) (ot : option type) (fa : addr)
    (ft : type) (name : string) (l : list nat) (fid : nat) (st : state) :
  fst (interfaceScan env oid ot fa ft name l (Some fid) st) = st.
Proof.
  induction l as [|eid l IH]; simpl; [reflexivity|].
  repeat case_match; simpl; auto.
Qed.

(** What the scan for an interface field leaves: the state as it was, or the
    field set to the first candidate and the edge recorded. *)
Lemma interfaceScan_state (env : TypeEnv) (oid : nat) (ot : option type) (fa : addr)
    (ft : type) (name : string) (l : list nat) (st : state) :
  fst (interfaceScan env oid ot fa ft name l None st) = st
  \/ exists eid x st1,
       eid ∈ l /\ setField fa (boxFor ft x) st = Some st1
       /\ fst (interfaceScan env oid ot fa ft name l None st) = addDep oid name eid st1.
Proof.
  induction l as [|eid l IH]; simpl; [left; reflexivity|].
  destruct (objects st !! eid) as [e|]; [|left; reflexivity].
  assert (Hnext : fst (interfaceScan env oid ot fa ft name l None st) = st
            \/ exists eid0 x st1,
                 eid0 ∈ eid :: l /\ setField fa (boxFor ft x) st = Some st1
                 /\ fst (interfaceScan env oid ot fa ft name l None st)
                    = addDep oid name eid0 st1).
  { destruct IH as [IH | (eid0 & x & st1 & Hin & Hset & Heq)]; [left; exact IH|].
    right. exists eid0, x, st1. split; [right; exact Hin|auto]. }
  destruct (private e); [exact Hnext|].
  destruct (reflectType e) as [et|]; [|left; reflexivity].
  destruct (AssignableTo env et ft); [|exact Hnext].
  destruct (Value e) as [x|]; [|left; reflexivity].
  destruct (setField fa (boxFor ft x) st) as [st1|] eqn:Hset; [|left; reflexivity].
  right. exists eid, x, st1. split; [left|]. split; [exact Hset|].
  apply interfaceScan_found_state.
Qed.

Lemma interfaceField_keepsValues (env : TypeEnv) (oid : nat) (ot : option type) (a : addr)
    (i : nat) (f : StructField.t) (st : state) :
  keepsValues st (fst (interfaceField env oid ot a i f st)).
Proof.
  unfold interfaceField.
  destruct (load (heap st) (fieldAddr a i)) as [field|] eqn:Hload;
    [|apply keepsValues_refl].
  destruct (parseTag (StructField.Tag f)) as [[tg|] [err|]]; try apply keepsValues_refl.
  destruct (negb (Kind_eqb _ _)); [apply keepsValues_refl|].
  destruct (tag.Private tg); [apply keepsValues_refl|].
  destruct (negb (StructField.Exported f)); [apply keepsValues_refl|].
  destruct (negb (isNilOrZero field (StructField.Type_ f))) eqn:Hz;
    [apply keepsValues_refl|].
  destruct (negb (String.eqb _ _)); [apply keepsValues_refl|].
  apply negb_false_iff in Hz.
  destruct (interfaceScan_state env oid ot (fieldAddr a i) (StructField.Type_ f)
              (StructField.Name f) (unnamed (graph st)) st)
    as [-> | (eid & x & st1 & _ & Hset & ->)]; [apply keepsValues_refl|].
  eapply keepsValues_trans; [|apply keepsValues_heap, addDep_heap].
  eapply keepsValues_setField; eauto using keepsValues_refl.
Qed.

Lemma populateUnnamedInterface_keepsValues (env : TypeEnv) (oid : nat) (st : state) :
  keepsValues st (fst (populateUnnamedInterface env oid st)).
Proof.
  unfold populateUnnamedInterface.
  destruct (objects st !! oid) as [o|]; [|apply keepsValues_refl].
  destruct (walkTarget env o); try apply keepsValues_refl.
  apply (structLoop_kept (keepsValues st)); [|apply keepsValues_refl].
  intros i f s Hs. eapply keepsValues_trans; [exact Hs|].
  apply interfaceField_keepsValues.
Qed.

Lemma Populate_keepsValues (env : TypeEnv) (fuel : nat) (ks1 ks4 : list string)
    (st : state) :
  keepsValues st (fst (Populate env fuel ks1 ks4 st)).
Proof.
  apply (Populate_kept (keepsValues st)).
  - intros oid s o _ _ Hs. eapply keepsValues_trans; [exact Hs|].
    apply populateExplicit_keepsValues.
  - intros oid s o _ _ Hs. eapply keepsValues_trans; [exact Hs|].
    apply populateUnnamedInterface_keepsValues.
  - apply keepsValues_refl.
Qed.

(** X17: [Populate] never overwrites a value that is set. Whatever is stored
    anywhere in memory before the call and is a pointer, a map, an interface
    value or a scalar other than zero is stored there unchanged after it,
    whether the call succeeds or fails. *)
Theorem Populate_keeps_set_values (env : TypeEnv) (fuel : nat) (ks1 ks4 : list string)
    (st : state) (a : addr) (w : value) :
  load (heap st) a = Some w -> isSet w = true ->
  load (heap (fst (Populate env fuel ks1 ks4 st))) a = Some w.
Proof. apply Populate_keepsValues. Qed.

Lemma Populate_keeps_set_values_witness :
  load (heap (fst (Populate serviceEnv 4 [] [] mixedProvided))) (2, [0])
  = Some (VPtr (1, [])).
Proof.
  apply (Populate_keeps_set_values serviceEnv 4 [] [] mixedProvided (2, [0]) (VPtr (1, [])));
    reflexivity.
Defined.

(** ** Which records a pass touches *)

Lemma extends_length (st st' : state) :
  extends st st' -> length (objects st) <= length (objects st').
Proof.
  intros Hext. destruct (decide (length (objects st) <= length (objects st'))) as [|Hn];
    [assumption|].
  destruct (lookup_lt_is_Some_2 (objects st) (length (objects st')) ltac:(lia)) as [o Ho].
  destruct (ext_objects _ _ Hext _ _ Ho) as (o' & Ho' & _).
  apply lookup_lt_Some in Ho'. lia.
Qed.

Lemma addDep_other (oid : nat) (field : string) (dep : nat) (st : state) (k : nat) :
  k <> oid -> objects (addDep oid field dep st) !! k = objects st !! k.
Proof.
  intros Hk. unfold addDep. destruct (objects st !! oid); [|reflexivity].
  simpl. apply list_lookup_insert_ne. congruence.
Qed.

Lemma touchesOnly_refl (oid : nat) (st : state) : touchesOnly oid st st.
Proof. intros k _ _. reflexivity. Qed.

Lemma touchesOnly_trans (oid : nat) (st1 st2 st3 : state) :
  touchesOnly oid st1 st2 -> length (objects st1) <= length (objects st2) ->
  touchesOnly oid st2 st3 -> touchesOnly oid st1 st3.
Proof.
  intros H1 Hlen H2 k Hk Hne. rewrite H2 by (auto; lia). apply H1; assumption.
Qed.

Lemma touchesOnly_objects (oid : nat) (st st' : state) :
  objects st' = objects st -> touchesOnly oid st st'.
Proof. intros E k _ _. rewrite E. reflexivity. Qed.

Lemma touchesOnly_appended (oid : nat) (st st' : state) (l : list Object) :
  objects st' = (objects st ++ l)%list -> touchesOnly oid st st'.
Proof.
  intros E k Hk _. rewrite E. apply lookup_app_l. exact Hk.
Qed.

Lemma touchesOnly_setField_addDep (oid : nat) (fa : addr) (x : value) (field : string)
    (dep : nat) (st st1 : state) :
  setField fa x st = Some st1 -> touchesOnly oid st (addDep oid field dep st1).
Proof.
  intros Hset k _ Hne. rewrite addDep_other by exact Hne.
  destruct (setField_objects _ _ _ _ Hset) as [-> _]. reflexivity.
Qed.

(** A call on a record that has just been allocated touches none of the
    records that were there before. *)
Lemma touchesOnly_fresh (oid : nat) (st s s' : state) (l : list Object) :
  objects s = (objects st ++ l)%list ->
  touchesOnly (length (objects st)) s s' ->
  touchesOnly oid st s'.
Proof.
  intros E H k Hk _. rewrite H.
  - rewrite E. apply lookup_app_l. exact Hk.
  - rewrite E, length_app. lia.
  - lia.
Qed.

Lemma explicitStep_touches (env : TypeEnv) (rec : nat -> state -> state * outcome)
    (oid : nat) (a : addr) (i : nat) (f : StructField.t) (st : state)
    (res : state * outcome) :
  (forall id s, touchesOnly id s (fst (rec id s))) ->
  (forall id s, extends s (fst (rec id s))) ->
  explicitStep env rec oid a i f st res ->
  touchesOnly oid st (fst res).
Proof.
  intros Hrec Hext Hstep. step_cases Hstep; simpl.
  - apply touchesOnly_refl.
  - eapply touchesOnly_appended. reflexivity.
  - eapply touchesOnly_fresh; [|apply Hrec]. reflexivity.
  - eapply touchesOnly_setField_addDep. eassumption.
  - eapply touchesOnly_appended. reflexivity.
  - apply touchesOnly_objects. destruct (setField_objects _ _ _ _ Hset) as [-> _].
    reflexivity.
  - eapply touchesOnly_appended. reflexivity.
  - assert (H4 : touchesOnly oid st st4 /\ length (objects st) <= length (objects st4)).
    { match type of Hrec' with
      | rec ?id ?s = _ =>
          pose proof (Hrec id s) as Hs; pose proof (Hext id s) as He;
          rewrite Hrec' in Hs, He
      end.
      split.
      - eapply touchesOnly_fresh; [|exact Hs]. reflexivity.
      - apply extends_length in He. simpl in He. rewrite length_app in He. simpl in He. lia. }
    destruct H4 as [H4 Hlen].
    destruct r; simpl; auto.
    destruct (setField _ _ st4) as [st5|] eqn:Hset5; simpl; auto.
    eapply touchesOnly_trans; [exact H4|exact Hlen|].
    eapply touchesOnly_setField_addDep. eassumption.
Qed.

Lemma populateExplicit_touches (env : TypeEnv) (fuel : nat) :
  forall oid st, touchesOnly oid st (fst (populateExplicit env fuel oid st)).
Proof.
  induction fuel as [|fuel IH]; intros oid st; simpl; [apply touchesOnly_refl|].
  destruct (objects st !! oid) as [o|]; [|apply touchesOnly_refl].
  destruct (walkTarget env o); try apply touchesOnly_refl.
  apply (structLoop_kept
           (fun s => touchesOnly oid st s /\ length (objects st) <= length (objects s)));
    [|split; [apply touchesOnly_refl|lia]].
  intros i f s [Hs Hlen].
  pose proof (explicitField_cases env (populateExplicit env fuel) oid (reflectType o) a i f s)
    as Hstep.
  pose proof (explicitStep_touches _ _ _ _ _ _ _ _ IH
                (populateExplicit_extends env fuel) Hstep) as Ht.
  pose proof (explicitStep_extends _ _ _ _ _ _ _ _
                (populateExplicit_extends env fuel) Hstep) as He.
  apply extends_length in He. split; [|lia].
  eapply touchesOnly_trans; eassumption.
Qed.

Lemma setField_length (fa : addr) (x : value) (st st1 : state) :
  setField fa x st = Some st1 -> length (heap st1) = length (heap st).
Proof.
  unfold setField, store. destruct (heap st !! fst fa); [|discriminate].
  destruct (writePath _ _ _); [|discriminate].
  intros [= <-]. simpl. apply length_insert.
Qed.

Lemma addDep_length (oid : nat) (field : string) (dep : nat) (st : state) :
  length (objects (addDep oid field dep st)) = length (objects st).
Proof.
  unfold addDep. destruct (objects st !! oid); [|reflexivity]. simpl. apply length_insert.
Qed.

Lemma interfaceField_frame (env : TypeEnv) (oid : nat) (ot : option type) (a : addr)
    (i : nat) (f : StructField.t) (st s : state) :
  interfaceFrame oid st s ->
  interfaceFrame oid st (fst (interfaceField env oid ot a i f s)).
Proof.
  intros Hs. unfold interfaceField.
  repeat case_match; simpl; try exact Hs.
  destruct (interfaceScan_state env oid ot (fieldAddr a i) (StructField.Type_ f)
              (StructField.Name f) (unnamed (graph s)) s)
    as [-> | (eid & x & st1 & _ & Hset & ->)]; [exact Hs|].
  destruct Hs as (Hg & Hlo & Hlh & Hk).
  destruct (setField_objects _ _ _ _ Hset) as [Ho1 Hg1].
  split; [rewrite addDep_graph; congruence|].
  split; [rewrite addDep_length; congruence|].
  split; [rewrite addDep_heap, (setField_length _ _ _ _ Hset); exact Hlh|].
  intros k Hne. rewrite addDep_other by exact Hne. rewrite Ho1. apply Hk. exact Hne.
Qed.

Lemma populateUnnamedInterface_frame (env : TypeEnv) (oid : nat) (st : state) :
  interfaceFrame oid st (fst (populateUnnamedInterface env oid st)).
Proof.
  assert (Hrefl : interfaceFrame oid st st) by (repeat split; reflexivity).
  unfold populateUnnamedInterface.
  destruct (objects st !! oid) as [o|]; [|exact Hrefl].
  destruct (walkTarget env o); try exact Hrefl.
  apply (structLoop_kept (interfaceFrame oid st)); [|exact Hrefl].
  intros i f s Hs. apply interfaceField_frame. exact Hs.
Qed.

(** X18: The interface pass registers and allocates nothing: a call of
    [populateUnnamedInterface] leaves the graph as it is (no object is added
    to the unnamed sequence, no type is taken, no name is bound), creates no
    record and no memory, and changes no record but the one it is called
    on. *)
Theorem interface_pass_registers_nothing (env : TypeEnv) (oid : nat) (st : state) :
  graph (fst (populateUnnamedInterface env oid st)) = graph st
  /\ length (objects (fst (populateUnnamedInterface env oid st))) = length (objects st)
  /\ length (heap (fst (populateUnnamedInterface env oid st))) = length (heap st)
  /\ forall k, k <> oid ->
       objects (fst (populateUnnamedInterface env oid st)) !! k = objects st !! k.
Proof. exact (populateUnnamedInterface_frame env oid st). Qed.

(** X19: The record of an object marked complete is never changed by
    [Populate]: the passes skip it, and no edge is recorded in its
    dependency map when other objects are resolved. *)
Theorem Populate_leaves_complete_records (env : TypeEnv) (fuel : nat)
    (ks1 ks4 : list string) (st : state) (c : nat) (o : Object) :
  objects st !! c = Some o -> Complete o = true ->
  objects (fst (Populate env fuel ks1 ks4 st)) !! c = Some o.
Proof.
  intros Ho Hc.
  apply (Populate_kept (fun s => objects s !! c = Some o)); [| |exact Ho].
  - intros oid s o' Ho' Hc' Hs.
    assert (Hne : c <> oid) by (intros ->; congruence).
    rewrite (populateExplicit_touches env fuel oid s c); [exact Hs| |exact Hne].
    eapply lookup_lt_Some. exact Hs.
  - intros oid s o' Ho' Hc' Hs.
    assert (Hne : c <> oid) by (intros ->; congruence).
    destruct (populateUnnamedInterface_frame env oid s) as (_ & _ & _ & Hk).
    rewrite Hk by exact Hne. exact Hs.
Qed.

Lemma Populate_leaves_complete_records_witness :
  objects (fst (Populate serviceEnv 4 [] [] completeProvided)) !! 1
  = objects completeProvided !! 1
  /\ load (heap (fst (Populate serviceEnv 4 [] [] completeProvided))) (1, [0]) = Some VNil.
Proof.
  split; [|reflexivity].
  apply (Populate_leaves_complete_records serviceEnv 4 [] [] completeProvided 1);
    reflexivity.
Defined.

(** ** Single fields in the explicit pass *)

(** X20: A field with a named directive is resolved from the named objects
    only: when the field is nil or zero, the explicit pass fails if no object
    has the name or if the type of the named object is not assignable to the
    field; otherwise it stores the value of the named object in the field and
    records the edge. The graph is the same afterwards: nothing is created
    or registered for a named field, whatever the kind of the field. *)
Theorem named_field_injection (env : TypeEnv) (rec : nat -> state -> state * outcome)
    (oid : nat) (ot : option type) (a : addr) (i : nat) (f : StructField.t)
    (st : state) (o : Object) (field : value) (tg : tag.t) :
  objects st !! oid = Some o ->
  load (heap st) (fieldAddr a i) = Some field ->
  isNilOrZero field (StructField.Type_ f) = true ->
  parseTag (StructField.Tag f) = (Some tg, None) ->
  StructField.Exported f = true ->
  tag.Name tg <> EmptyString ->
  let run := explicitField env rec oid ot a i f st in
  (named (graph st) !! tag.Name tg = None ->
   run = (st, Failed (ErrNamedNotFound (tag.Name tg) (StructField.Name f) ot)))
  /\ (forall eid e t x,
        named (graph st) !! tag.Name tg = Some eid ->
        objects st !! eid = Some e -> reflectType e = Some t -> Value e = Some x ->
        (AssignableTo env t (StructField.Type_ f) = false ->
         run = (st, Failed (ErrNotAssignable (tag.Name tg) (StructField.Type_ f)
                              (StructField.Name f) t ot)))
        /\ (AssignableTo env t (StructField.Type_ f) = true ->
            snd run = Done
            /\ load (heap (fst run)) (fieldAddr a i) = Some (boxFor (StructField.Type_ f) x)
            /\ dependency (fst run) oid (StructField.Name f) = Some eid
            /\ graph (fst run) = graph st
            /\ length (objects (fst run)) = length (objects st)
            /\ length (heap (fst run)) = length (heap st))).
Proof.
  intros Ho Hload Hzero Htag Hexp Hname run.
  destruct (parseTag_shape _ _ _ Htag) as (_ & _ & Hflags & _).
  destruct (Hflags Hname) as [Hinl Hpriv].
  assert (Hrun : run =
            match named (graph st) !! tag.Name tg with
            | None => (st, Failed (ErrNamedNotFound (tag.Name tg) (StructField.Name f) ot))
            | Some eid =>
                match objects st !! eid with
                | None => (st, Panicked)
                | Some existing =>
                    match reflectType existing with
                    | None => (st, Panicked)
                    | Some et =>
                        if negb (AssignableTo env et (StructField.Type_ f)) then
                          (st, Failed (ErrNotAssignable (tag.Name tg) (StructField.Type_ f)
                                         (StructField.Name f) et ot))
                        else
                          match Value existing with
                          | None => (st, Panicked)
                          | Some x =>
                              match setField (fieldAddr a i)
                                      (boxFor (StructField.Type_ f) x) st with
                              | None => (st, Panicked)
                              | Some st1 =>
                                  (addDep oid (StructField.Name f) eid st1, Done)
                              end
                          end
                    end
                end
            end).
  { unfold run, explicitField. rewrite Hload, Htag, Hexp, Hinl, Hzero.
    cbn [negb andb]. rewrite nonempty_eqb by exact Hname. reflexivity. }
  split.
  - intros Hnone. rewrite Hrun, Hnone. reflexivity.
  - intros eid e t x Heid He Ht Hx. rewrite Hrun, Heid, He, Ht. split.
    + intros Hna. rewrite Hna. reflexivity.
    + intros Has. rewrite Has, Hx. cbn [negb].
      destruct (load_setField (fieldAddr a i) (boxFor (StructField.Type_ f) x) field st Hload)
        as [st1 Hset].
      rewrite Hset. cbn [fst snd].
      destruct (setField_objects _ _ _ _ Hset) as [Hobj Hg].
      split; [reflexivity|]. split.
      { rewrite addDep_heap. eapply setField_load. exact Hset. }
      split.
      { eapply addDep_dependency. rewrite Hobj. exact Ho. }
      split; [rewrite addDep_graph; exact Hg|]. split.
      { rewrite addDep_length, Hobj. reflexivity. }
      rewrite addDep_heap. eapply setField_length. exact Hset.
Qed.

Lemma named_field_injection_witness :
  (snd (explicitField repoEnv (populateExplicit repoEnv 1) 1 (Some tRepo) (1, []) 0 fieldDB
          repoProvided) = Done
   /\ load (heap (fst (explicitField repoEnv (populateExplicit repoEnv 1) 1 (Some tRepo)
                         (1, []) 0 fieldDB repoProvided))) (1, [0])
      = Some (VPtr (0, []))
   /\ dependency (fst (explicitField repoEnv (populateExplicit repoEnv 1) 1 (Some tRepo)
                         (1, []) 0 fieldDB repoProvided)) 1 "DB" = Some 0)
  /\ (snd (explicitField rosterEnv (populateExplicit rosterEnv 1) 1 (Some tRoster) (0, []) 0
             fieldWho rosterProvided) = Done
      /\ load (heap (fst (explicitField rosterEnv (populateExplicit rosterEnv 1) 1
                            (Some tRoster) (0, []) 0 fieldWho rosterProvided))) (0, [0])
         = Some (VScalar 3)).
Proof.
  split.
  - destruct (named_field_injection repoEnv (populateExplicit repoEnv 1) 1 (Some tRepo)
                (1, []) 0 fieldDB repoProvided (withReflect (objectFor tRepo 1)) VNil
                (tag.mk "primary" false false)
                eq_refl eq_refl eq_refl eq_refl eq_refl ltac:(discriminate)) as [_ H].
    destruct (H 0 _ tDatabase (tDatabase, VPtr (0, [])) eq_refl eq_refl eq_refl eq_refl)
      as [_ H'].
    destruct (H' eq_refl) as (H1 & H2 & H3 & _).
    split; [exact H1|]. split; [exact H2|exact H3].
  - destruct (named_field_injection rosterEnv (populateExplicit rosterEnv 1) 1
                (Some tRoster) (0, []) 0 fieldWho rosterProvided
                (withReflect (objectFor tRoster 0)) (VScalar 0)
                (tag.mk "who" false false)
                eq_refl eq_refl eq_refl eq_refl eq_refl ltac:(discriminate)) as [_ H].
    destruct (H 0 _ tStrings (tStrings, VScalar 3) eq_refl eq_refl eq_refl eq_refl)
      as [_ H'].
    destruct (H' eq_refl) as (H1 & H2 & _).
    split; [exact H1|exact H2].
Defined.

(** X21: A map field gets a new empty map when it is nil and its directive
    is private, and nothing else changes: no record is created and the graph
    is the same. With the bare directive the field is an error. *)
Theorem map_field_injection (env : TypeEnv) (rec : nat -> state -> state * outcome)
    (oid : nat) (ot : option type) (a : addr) (i : nat) (f : StructField.t)
    (st : state) (field : value) (tg : tag.t) :
  load (heap st) (fieldAddr a i) = Some field ->
  isNilOrZero field (StructField.Type_ f) = true ->
  parseTag (StructField.Tag f) = (Some tg, None) ->
  StructField.Exported f = true ->
  kindOf (StructField.Type_ f) = Map ->
  tag.Name tg = EmptyString -> tag.Inline tg = false ->
  let run := explicitField env rec oid ot a i f st in
  (tag.Private tg = true ->
   snd run = Done
   /\ load (heap (fst run)) (fieldAddr a i) = Some VMap
   /\ objects (fst run) = objects st /\ graph (fst run) = graph st)
  /\ (tag.Private tg = false ->
      run = (st, Failed (ErrMapNotPrivate (StructField.Name f) ot))).
Proof.
  intros Hload Hzero Htag Hexp Hkind Hname Hinl run.
  assert (Hrun : run =
            if negb (tag.Private tg) then
              (st, Failed (ErrMapNotPrivate (StructField.Name f) ot))
            else
              match setField (fieldAddr a i) VMap st with
              | None => (st, Panicked)
              | Some st1 => (st1, Done)
              end).
  { unfold run, explicitField. rewrite Hload, Htag, Hexp, Hinl, Hzero, Hname, Hkind.
    reflexivity. }
  split.
  - intros Hp. rewrite Hrun, Hp. cbn [negb].
    destruct (load_setField (fieldAddr a i) VMap field st Hload) as [st1 Hset].
    rewrite Hset. cbn [fst snd].
    destruct (setField_objects _ _ _ _ Hset) as [Hobj Hg].
    split; [reflexivity|]. split; [eapply setField_load; exact Hset|]. auto.
  - intros Hp. rewrite Hrun, Hp. reflexivity.
Qed.

Lemma map_field_injection_witness :
  snd (explicitField repoEnv (populateExplicit repoEnv 1) 1 (Some tRepo) (1, []) 1 fieldCache
         repoProvided) = Done
  /\ load (heap (fst (explicitField repoEnv (populateExplicit repoEnv 1) 1 (Some tRepo)
                        (1, []) 1 fieldCache repoProvided))) (1, [1])
     = Some VMap.
Proof.
  destruct (map_field_injection repoEnv (populateExplicit repoEnv 1) 1 (Some tRepo)
              (1, []) 1 fieldCache repoProvided VNil injectPrivate
              eq_refl eq_refl eq_refl eq_refl eq_refl eq_refl eq_refl) as [H _].
  destruct (H eq_refl) as (H1 & H2 & _).
  split; [exact H1|exact H2].
Defined.

(** X22: A struct held by value is resolved in place. When the field is
    zero and its directive is inline, the explicit pass registers a record
    for the address of the field itself: private, so that it is assigned to
    no other field and takes no type, and embedded exactly when the field is
    an embedded one; memory is not touched. The fields the second loop then
    walks for this record are the fields of the struct inside its parent. A
    private directive on such a field, or a bare one, is an error. *)
Theorem inline_struct_field (env : TypeEnv) (rec : nat -> state -> state * outcome)
    (oid : nat) (ot : option type) (a : addr) (i : nat) (f : StructField.t)
    (st : state) (field : value) (tg : tag.t) :
  load (heap st) (fieldAddr a i) = Some field ->
  isNilOrZero field (StructField.Type_ f) = true ->
  parseTag (StructField.Tag f) = (Some tg, None) ->
  StructField.Exported f = true ->
  kindOf (StructField.Type_ f) = Struct ->
  tag.Name tg = EmptyString ->
  let run := explicitField env rec oid ot a i f st in
  let lit :=
    objectLit (Some (TPtr (StructField.Type_ f), VPtr (fieldAddr a i))) true false
      (StructField.Anonymous f) in
  (tag.Private tg = true ->
   run = (st, Failed (ErrPrivateInline (StructField.Name f) ot)))
  /\ (tag.Private tg = false -> tag.Inline tg = false ->
      run = (st, Failed (ErrInlineNeedsTag (StructField.Name f) ot)))
  /\ (tag.Inline tg = true ->
      run = (registered lit (TPtr (StructField.Type_ f)) st, Done)
      /\ objects (fst run) !! length (objects st) = Some (withReflect lit)
      /\ private lit = true /\ embedded lit = StructField.Anonymous f
      /\ unnamed (graph (fst run)) = (unnamed (graph st) ++ [length (objects st)])%list
      /\ unnamedType (graph (fst run)) = unnamedType (graph st)
      /\ heap (fst run) = heap st
      /\ forall n fs,
           StructField.Type_ f = TStruct n -> lookupStruct env n = Some fs ->
           walkTarget env (withReflect lit) = Walk (fieldAddr a i) fs).
Proof.
  intros Hload Hzero Htag Hexp Hkind Hname run lit.
  destruct (parseTag_shape _ _ _ Htag) as (_ & Hboth & _).
  assert (Hrun : run =
            if tag.Private tg then (st, Failed (ErrPrivateInline (StructField.Name f) ot))
            else if negb (tag.Inline tg) then
              (st, Failed (ErrInlineNeedsTag (StructField.Name f) ot))
            else Provide [length (objects st)] (snd (newObject lit st))).
  { unfold run, explicitField. rewrite Hload, Htag, Hexp, Hzero, Hname, Hkind.
    cbn [Kind_eqb negb andb]. rewrite andb_false_r. reflexivity. }
  split; [|split].
  - intros Hp. rewrite Hrun, Hp. reflexivity.
  - intros Hp Hi. rewrite Hrun, Hp, Hi. reflexivity.
  - intros Hi. rewrite Hi in Hboth. simpl in Hboth.
    assert (Hreg : run = (registered lit (TPtr (StructField.Type_ f)) st, Done)).
    { rewrite Hrun, Hboth, Hi. cbn [negb]. unfold lit. rewrite provideFresh_spec.
      cbn [fst isStructPtr]. rewrite Hkind. reflexivity. }
    rewrite Hreg. cbn [fst]. split; [reflexivity|].
    split; [simpl; apply lookup_appended|].
    split; [reflexivity|]. split; [reflexivity|]. split; [reflexivity|].
    split; [reflexivity|]. split; [reflexivity|].
    intros n fs Hty Hfs. unfold walkTarget. simpl. rewrite Hty, Hfs. reflexivity.
Qed.

Lemma inline_struct_field_witness :
  explicitField inlineEnv (populateExplicit inlineEnv 1) 1 (Some tOuter) (1, []) 0 fieldInner
    inlineProvided
  = (registered (objectLit (Some (TPtr (TStruct "Inner"), VPtr (1, [0]))) true false false)
       (TPtr (TStruct "Inner")) inlineProvided, Done)
  /\ snd (Populate inlineEnv 4 [] [] inlineProvided) = Done
  /\ load (heap (fst (Populate inlineEnv 4 [] [] inlineProvided))) (1, [0; 0])
     = Some (VPtr (0, [])).
Proof.
  split; [|split; reflexivity].
  destruct (inline_struct_field inlineEnv (populateExplicit inlineEnv 1) 1 (Some tOuter)
              (1, []) 0 fieldInner inlineProvided (VStruct [VNil]) injectInline
              eq_refl eq_refl eq_refl eq_refl eq_refl eq_refl) as (_ & _ & H).
  destruct (H eq_refl) as [H1 _]. exact H1.
Defined.

(** X23: A tagged field that already holds a value is left alone. When the
    field is not nil or zero and is not a pointer to a struct taken without
    the private directive, the explicit pass goes on to the next field with
    the state unchanged and no error: a named object that is missing is not
    looked up, a field of a kind that cannot be injected is not refused, and
    an inline struct with one of its fields set is not walked. The interface
    pass likewise skips an exported interface field that is not nil; on one
    that is not exported it panics, having no test of its own for that. *)
Theorem field_with_value_is_left_alone (env : TypeEnv)
    (rec : nat -> state -> state * outcome)
    (oid : nat) (ot : option type) (a : addr) (i : nat) (f : StructField.t)
    (st : state) (field : value) (tg : tag.t) :
  load (heap st) (fieldAddr a i) = Some field ->
  isNilOrZero field (StructField.Type_ f) = false ->
  parseTag (StructField.Tag f) = (Some tg, None) ->
  (StructField.Exported f = true ->
   (tag.Inline tg = true -> kindOf (StructField.Type_ f) = Struct) ->
   (isStructPtr (StructField.Type_ f) = false \/ tag.Private tg = true) ->
   explicitField env rec oid ot a i f st = (st, Done))
  /\ (kindOf (StructField.Type_ f) <> Interface
      \/ (tag.Private tg = false /\ StructField.Exported f = true) ->
      interfaceField env oid ot a i f st = (st, Done))
  /\ (kindOf (StructField.Type_ f) = Interface -> tag.Private tg = false ->
      StructField.Exported f = false ->
      interfaceField env oid ot a i f st = (st, Panicked)).
Proof.
  intros Hload Hzero Htag. split; [|split].
  - intros Hexp Hinl Hsp. unfold explicitField. rewrite Hload, Htag, Hexp, Hzero.
    cbn [negb].
    assert (Hcheck : tag.Inline tg
                     && negb (Kind_eqb (kindOf (StructField.Type_ f)) Struct) = false).
    { destruct (tag.Inline tg); [|reflexivity]. rewrite (Hinl eq_refl). reflexivity. }
    rewrite Hcheck.
    destruct Hsp as [-> | ->]; [reflexivity|].
    rewrite andb_false_r. reflexivity.
  - intros Hp. unfold interfaceField. rewrite Hload, Htag, Hzero.
    destruct (Kind_eqb (kindOf (StructField.Type_ f)) Interface) eqn:Hk; [|reflexivity].
    cbn [negb]. destruct Hp as [Hne | [-> ->]]; [|reflexivity].
    contradiction Hne. destruct (kindOf (StructField.Type_ f)); try discriminate.
    reflexivity.
  - intros Hk Hp Hexp. unfold interfaceField.
    rewrite Hload, Htag, Hk, Hp, Hexp. reflexivity.
Qed.

Lemma field_with_value_is_left_alone_witness :
  explicitField repoEnv (populateExplicit repoEnv 1) 1 (Some tRepo) (1, []) 2 fieldCount
    repoProvided
  = (repoProvided, Done).
Proof.
  apply (proj1 (field_with_value_is_left_alone repoEnv (populateExplicit repoEnv 1) 1
                  (Some tRepo) (1, []) 2 fieldCount repoProvided (VScalar 5) injectOnly
                  eq_refl eq_refl eq_refl)).
  - reflexivity.
  - discriminate.
  - left. reflexivity.
Defined.

(** X24: The checks that come before the look at the value of the field. A
    tag with a malformed pair before any pair for inject makes both passes
    fail with the tag format error, also on a field that asks for nothing,
    is not exported or holds a value. A directive on a field that is not
    exported, and an inline directive on a field that is not a struct, make
    the explicit pass fail also when the field holds a value. *)
Theorem checks_precede_existing_value (env : TypeEnv)
    (rec : nat -> state -> state * outcome)
    (oid : nat) (ot : option type) (a : addr) (i : nat) (f : StructField.t)
    (st : state) (field : value) :
  load (heap st) (fieldAddr a i) = Some field ->
  (forall ps r,
      wellFormedUpTo (StructField.Tag f) ps r -> "inject" ∉ ps.*1 -> malformedPair r ->
      explicitField env rec oid ot a i f st
        = (st, Failed (ErrTagFormat (StructField.Tag f) (StructField.Name f) ot))
      /\ interfaceField env oid ot a i f st
         = (st, Failed (ErrTagFormat (StructField.Tag f) (StructField.Name f) ot)))
  /\ (forall tg,
        parseTag (StructField.Tag f) = (Some tg, None) ->
        (StructField.Exported f = false ->
         explicitField env rec oid ot a i f st
           = (st, Failed (ErrUnexported (StructField.Name f) ot)))
        /\ (StructField.Exported f = true -> tag.Inline tg = true ->
            kindOf (StructField.Type_ f) <> Struct ->
            explicitField env rec oid ot a i f st
              = (st, Failed (ErrInlineNonStruct (StructField.Name f) ot)))).
Proof.
  intros Hload. split.
  - intros ps r Hwf Hnotin Hbad.
    assert (Htag : parseTag (StructField.Tag f) = (None, Some errInvalidTag)).
    { unfold parseTag. erewrite Extract_rest_malformed by eassumption. reflexivity. }
    unfold explicitField, interfaceField. rewrite Hload, Htag. split; reflexivity.
  - intros tg Htag. split.
    + intros Hexp. unfold explicitField. rewrite Hload, Htag, Hexp. reflexivity.
    + intros Hexp Hinl Hk. unfold explicitField. rewrite Hload, Htag, Hexp, Hinl.
      destruct (kindOf (StructField.Type_ f)); try reflexivity.
      contradiction Hk. reflexivity.
Qed.

Lemma checks_precede_existing_value_witness :
  explicitField repoEnv (populateExplicit repoEnv 1) 1 (Some tRepo) (1, []) 2 fieldBroken
    repoProvided
  = (repoProvided, Failed (ErrTagFormat ("json:" ++ quoted "id" ++ " xml") "id" (Some tRepo))).
Proof.
  refine (proj1 (proj1 (checks_precede_existing_value repoEnv (populateExplicit repoEnv 1) 1
                          (Some tRepo) (1, []) 2 fieldBroken repoProvided (VScalar 5)
                          eq_refl)
                   [("json", quoted "id")] " xml" _ _ _)).
  - apply (upto_cons "" "json" (String.append "id" (String chQuote EmptyString)) _ _ []).
    + exact I.
    + apply isKey_letters. reflexivity.
    + repeat (apply closed_char; [discriminate|discriminate|]). apply closed_end.
    + apply upto_nil.
  - simpl. intros H. apply list_elem_of_singleton in H. discriminate.
  - apply (missing_colon_end " " "xml").
    + simpl. repeat split.
    + apply isKey_letters. reflexivity.
    + discriminate.
Defined.

(** ** The package-level [Populate] *)

Lemma Provides_frame (beans : list iface) :
  forall st, heap (fst (Container.Provides beans st)) = heap st
             /\ named (graph (fst (Container.Provides beans st))) = named (graph st).
Proof.
  induction beans as [|bean beans IH]; intros st; [split; reflexivity|].
  destruct bean as [v|].
  - rewrite Provides_cons_some.
    destruct (isStructPtr (fst v)); [|split; reflexivity].
    destruct (typeTaken (graph st) (fst v)); [split; reflexivity|].
    destruct (IH (registered (objectLit (Some v) false false false) (fst v) st)) as [H1 H2].
    split; [rewrite H1|rewrite H2]; reflexivity.
  - cbn [Container.Provides newObject]. rewrite Provide_single. unfold provideOne.
    cbn [objects]. rewrite lookup_appended. split; reflexivity.
Qed.

Lemma rangeNamed_no_names (f : nat -> state -> state * outcome) (ks : list string)
    (st : state) :
  named (graph st) = ∅ -> rangeNamed f ks st = (st, Done).
Proof.
  intros Hn. induction ks as [|k ks IH]; simpl; [reflexivity|].
  rewrite Hn, lookup_empty. exact IH.
Qed.

Lemma Populate_no_names (env : TypeEnv) (fuel : nat) (ks1 ks4 : list string) (st : state) :
  named (graph st) = ∅ ->
  Populate env fuel ks1 ks4 st = Populate env fuel [] [] st.
Proof.
  intros Hn. unfold Populate. rewrite rangeNamed_no_names by exact Hn. cbn [rangeNamed].
  assert (He : forall oid s (o : Object), objects s !! oid = Some o -> Complete o = false ->
            named (graph s) = ∅ ->
            named (graph (fst (populateExplicit env fuel oid s))) = ∅).
  { intros oid s o _ _ Hs.
    rewrite (ext_named _ _ (populateExplicit_extends env fuel oid s)). exact Hs. }
  assert (Hi : forall oid s (o : Object), objects s !! oid = Some o -> Complete o = false ->
            named (graph s) = ∅ ->
            named (graph (fst (populateUnnamedInterface env oid s))) = ∅).
  { intros oid s o _ _ Hs.
    destruct (populateUnnamedInterface_frame env oid s) as (-> & _). exact Hs. }
  pose proof (explicitLoop_kept (fun s => named (graph s) = ∅) env fuel fuel He 0 st Hn) as H2.
  destruct (explicitLoop env fuel fuel 0 st) as [st2 r2]. simpl in H2.
  destruct r2; try reflexivity.
  pose proof (rangeUnnamed_kept (fun s => named (graph s) = ∅)
                (populateUnnamedInterface env) (unnamed (graph st2)) Hi st2 H2) as H3.
  destruct (rangeUnnamed _ _ st2) as [st3 r3]. simpl in H3.
  destruct r3; try reflexivity.
  apply rangeNamed_no_names. exact H3.
Qed.

(** X25: The package-level [Populate] does not depend on the order in which
    Go walks a map: its graph has no named object, so the two loops over the
    named objects do nothing. When one of the values is refused, the error
    of [Provide] is returned and no field of any value has been written. *)
Theorem package_Populate_order_free (env : TypeEnv) (fuel : nat) (ks1 ks4 : list string)
    (values : list iface) (m : list value) :
  inject.Populate env fuel ks1 ks4 values m = inject.Populate env fuel [] [] values m
  /\ (snd (Container.Provides values (Container.NewContainer m)) <> Done ->
      inject.Populate env fuel ks1 ks4 values m
        = Container.Provides values (Container.NewContainer m)
      /\ heap (fst (inject.Populate env fuel ks1 ks4 values m)) = m).
Proof.
  unfold inject.Populate.
  change (mkState m [] (mkGraph [] [] ∅)) with (Container.NewContainer m).
  destruct (Provides_frame values (Container.NewContainer m)) as [Hh Hn].
  destruct (Container.Provides values (Container.NewContainer m)) as [st r].
  simpl in Hh, Hn. split.
  - destruct r; try reflexivity. apply Populate_no_names. exact Hn.
  - intros Hr. destruct r; try (split; [reflexivity|exact Hh]).
    contradiction Hr. reflexivity.
Qed.

Lemma package_Populate_order_free_witness :
  inject.Populate serviceEnv 4 ["a"] ["b"]
    [Some (tServiceA, VPtr (0, [])); Some (tServiceA, VPtr (0, []))] [VStruct [VScalar 1]]
  = Container.Provides [Some (tServiceA, VPtr (0, [])); Some (tServiceA, VPtr (0, []))]
      (Container.NewContainer [VStruct [VScalar 1]]).
Proof.
  apply (proj2 (package_Populate_order_free serviceEnv 4 ["a"] ["b"]
                  [Some (tServiceA, VPtr (0, [])); Some (tServiceA, VPtr (0, []))]
                  [VStruct [VScalar 1]])).
  discriminate.
Defined.

(** ** What a pass that returns without error has set *)

Lemma value_ind_nested (P : value -> Prop) :
  P VNil -> (forall a, P (VPtr a)) -> P VMap -> (forall z, P (VScalar z)) ->
  (forall fs, Forall P fs -> P (VStruct fs)) ->
  (forall t v, P v -> P (VIface t v)) ->
  forall v, P v.
Proof.
  intros Hnil Hptr Hmap Hsc Hst Hif.
  fix IH 1. intros [|a| |z|fs|t v].
  - exact Hnil.
  - apply Hptr.
  - exact Hmap.
  - apply Hsc.
  - apply Hst. revert fs. fix IHfs 1. intros [|w fs].
    + apply Forall_nil_2.
    + apply Forall_cons_2; [apply IH|apply IHfs].
  - apply Hif. apply IH.
Qed.

Lemma nonzero_set_leaf (w : value) :
  isZero w = false -> exists q u, readPath w q = Some u /\ isSet u = true.
Proof.
  induction w as [|a| |z|fs IH|t v IH] using value_ind_nested; simpl; intros Hz.
  - discriminate.
  - exists [], (VPtr a). split; reflexivity.
  - exists [], VMap. split; reflexivity.
  - exists [], (VScalar z). split; [reflexivity|]. simpl. rewrite Hz. reflexivity.
  - assert (Hex : exists j w, fs !! j = Some w /\ isZero w = false).
    { clear IH. induction fs as [|w fs IHfs]; simpl in Hz; [discriminate|].
      destruct (isZero w) eqn:Hw.
      - destruct (IHfs Hz) as (j & w' & Hj & Hw'). exists (S j), w'. auto.
      - exists 0, w. auto. }
    destruct Hex as (j & w & Hj & Hw).
    rewrite Forall_forall in IH.
    destruct (IH w (list_elem_of_lookup_2 _ _ _ Hj) Hw) as (q & u & Hq & Hu).
    exists (j :: q), u. simpl. rewrite Hj. auto.
  - exists [], (VIface t v). split; reflexivity.
Qed.

Lemma load_app (m : list value) (fa : addr) (q : list nat) :
  load m (fst fa, (snd fa ++ q)%list) =
    match load m fa with Some w => readPath w q | None => None end.
Proof.
  unfold load. simpl. destruct (m !! fst fa); [|reflexivity]. apply readPath_app.
Qed.

Lemma setBelow_of_nonzero (s : state) (fa : addr) (w : value) :
  load (heap s) fa = Some w -> isZero w = false -> setBelow s fa.
Proof.
  intros Hl Hz. destruct (nonzero_set_leaf w Hz) as (q & u & Hq & Hu).
  exists q, u. rewrite load_app, Hl. auto.
Qed.

Lemma setBelow_nonzero (s : state) (fa : addr) (w : value) :
  setBelow s fa -> load (heap s) fa = Some w -> isZero w = false.
Proof.
  intros (q & u & Hq & Hu) Hl. rewrite load_app, Hl in Hq.
  destruct (isZero w) eqn:Hz; [|reflexivity].
  pose proof (readPath_zero _ _ _ Hq Hz) as Hzu.
  rewrite (isSet_not_zero u Hu) in Hzu. discriminate.
Qed.

Lemma setBelow_load (s : state) (fa : addr) :
  setBelow s fa -> exists w, load (heap s) fa = Some w /\ isZero w = false.
Proof.
  intros Hs. pose proof Hs as (q & u & Hq & Hu). rewrite load_app in Hq.
  destruct (load (heap s) fa) as [w|] eqn:Hl; [|discriminate].
  exists w. split; [reflexivity|]. eapply setBelow_nonzero; eassumption.
Qed.

Lemma setBelow_kept (s s' : state) (fa : addr) :
  keepsValues s s' -> setBelow s fa -> setBelow s' fa.
Proof. intros Hk (q & u & Hq & Hu). exists q, u. auto. Qed.

Lemma walkTarget_same (env : TypeEnv) (o o' : Object) :
  sameButFields o o' -> walkTarget env o' = walkTarget env o.
Proof.
  intros (_ & Hn & _ & Ht & Hv & _). unfold walkTarget. rewrite Hn, Ht, Hv. reflexivity.
Qed.

(** A loop over the fields that returns without error has set every field
    of the class that each of its rounds sets. *)
Lemma structLoop_sets (target : StructField.t -> Prop) (I : state -> Prop) (a : addr)
    (step : nat -> StructField.t -> state -> state * outcome) :
  (forall i f s, keepsValues s (fst (step i f s))) ->
  (forall i f s, I s -> I (fst (step i f s))) ->
  (forall i f st st', I st -> target f -> step i f st = (st', Done) ->
     setBelow st' (fieldAddr a i)) ->
  forall fs j st st',
    I st -> structLoop step j fs st = (st', Done) ->
    forall i f, fs !! i = Some f -> target f -> setBelow st' (fieldAddr a (j + i)).
Proof.
  intros Hkeep HI Hsets.
  induction fs as [|f0 fs IH]; intros j st st' Hst Hrun i f Hi Hf; [discriminate|].
  simpl in Hrun.
  pose proof (HI j f0 st Hst) as Hst1.
  destruct (step j f0 st) as [st1 r1] eqn:Hstep. simpl in Hst1.
  destruct r1; try discriminate.
  destruct i as [|i].
  - rewrite Nat.add_0_r.
    apply (setBelow_kept st1).
    + pose proof (structLoop_kept (keepsValues st1) step fs
                    (fun i' f' s Hs => keepsValues_trans _ _ _ Hs (Hkeep i' f' s))
                    (S j) st1 (keepsValues_refl st1)) as Hk.
      rewrite Hrun in Hk. exact Hk.
    + simpl in Hi. injection Hi as ->. exact (Hsets j f st st1 Hst Hf Hstep).
  - replace (j + S i) with (S j + i) by lia.
    eapply IH; eassumption.
Qed.

(** The fields stay set in every later state. *)
Lemma fieldsSet_kept (env : TypeEnv) (target : StructField.t -> Prop) (oid : nat)
    (s s' : state) (o : Object) :
  extends s s' -> keepsValues s s' ->
  objects s !! oid = Some o ->
  fieldsSet env target oid s -> fieldsSet env target oid s'.
Proof.
  intros Hext Hk Ho Hs o' a fs i f Ho' Hw Hi Hf.
  destruct (ext_objects _ _ Hext oid o Ho) as (o1 & Ho1 & Hsame).
  rewrite Ho1 in Ho'. injection Ho' as <-.
  rewrite (walkTarget_same env o o1 Hsame) in Hw.
  eapply setBelow_kept; [exact Hk|]. eapply Hs; eassumption.
Qed.

Lemma walkedRecord_kept (env : TypeEnv) (target : StructField.t -> Prop) (oid : nat)
    (s s' : state) :
  extends s s' -> keepsValues s s' ->
  walkedRecord env target s oid -> walkedRecord env target s' oid.
Proof.
  intros Hext Hk (o & Ho & Hset).
  destruct (ext_objects _ _ Hext oid o Ho) as (o1 & Ho1 & Hsame).
  exists o1. split; [exact Ho1|]. intros Hc.
  eapply fieldsSet_kept; try eassumption. apply Hset.
  destruct Hsame as (_ & _ & <- & _). exact Hc.
Qed.

Section WalkLoops.

Variable env : TypeEnv.
Variable target : StructField.t -> Prop.
Variable I : state -> Prop.
Variable pass : nat -> state -> state * outcome.

Hypothesis pass_relations :
  forall oid s, extends s (fst (pass oid s)) /\ keepsValues s (fst (pass oid s)).

Hypothesis pass_keeps : forall oid s, I s -> I (fst (pass oid s)).

Hypothesis pass_walks :
  forall oid s s' o,
    I s -> objects s !! oid = Some o -> pass oid s = (s', Done) ->
    walkedRecord env target s' oid.

Lemma skipped_record (s : state) (oid : nat) (o : Object) :
  objects s !! oid = Some o -> Complete o = true -> walkedRecord env target s oid.
Proof. intros Ho Hc. exists o. split; [exact Ho|]. intros Hc'. congruence. Qed.

Lemma rangeNamed_walked (ks : list string) :
  forall st st',
    I st -> rangeNamed pass ks st = (st', Done) ->
    (extends st st' /\ keepsValues st st' /\ I st')
    /\ forall k oid, k ∈ ks -> named (graph st') !! k = Some oid ->
         walkedRecord env target st' oid.
Proof.
  induction ks as [|k ks IH]; intros st st' Hst Hrun.
  { injection Hrun as <-.
    split; [split; [apply extends_refl|split; [apply keepsValues_refl|exact Hst]]|].
    intros k oid Hin. inversion Hin. }
  simpl in Hrun.
  destruct (named (graph st) !! k) as [oid|] eqn:Hk.
  2: { destruct (IH st st' Hst Hrun) as [(Hext & Hkeep & Hst') Hw].
       split; [auto|]. intros k' oid' Hin Hk'.
       apply elem_of_cons in Hin as [->|Hin]; [|eauto].
       rewrite (ext_named _ _ Hext), Hk in Hk'. discriminate. }
  destruct (objects st !! oid) as [o|] eqn:Ho; [|discriminate].
  destruct (Complete o) eqn:Hc.
  - destruct (IH st st' Hst Hrun) as [(Hext & Hkeep & Hst') Hw].
    split; [auto|]. intros k' oid' Hin Hk'.
    apply elem_of_cons in Hin as [->|Hin]; [|eauto].
    rewrite (ext_named _ _ Hext), Hk in Hk'. injection Hk' as <-.
    eapply walkedRecord_kept; [exact Hext|exact Hkeep|].
    eapply skipped_record; eassumption.
  - pose proof (pass_keeps oid st Hst) as Hst1.
    destruct (pass_relations oid st) as [Hext1 Hkeep1].
    destruct (pass oid st) as [st1 r1] eqn:Hstep. simpl in Hst1, Hext1, Hkeep1.
    destruct r1; try discriminate.
    destruct (IH st1 st' Hst1 Hrun) as [(Hext & Hkeep & Hst') Hw].
    split.
    { split; [eapply extends_trans; eassumption|].
      split; [eapply keepsValues_trans; eassumption|exact Hst']. }
    intros k' oid' Hin Hk'.
    apply elem_of_cons in Hin as [->|Hin]; [|eauto].
    rewrite (ext_named _ _ Hext), (ext_named _ _ Hext1), Hk in Hk'. injection Hk' as <-.
    eapply walkedRecord_kept; [exact Hext|exact Hkeep|].
    exact (pass_walks oid st st1 o Hst Ho Hstep).
Qed.

Lemma rangeUnnamed_walked (l : list nat) :
  forall st st',
    I st -> rangeUnnamed pass l st = (st', Done) ->
    (extends st st' /\ keepsValues st st' /\ I st')
    /\ forall oid, oid ∈ l -> walkedRecord env target st' oid.
Proof.
  induction l as [|oid l IH]; intros st st' Hst Hrun.
  { injection Hrun as <-.
    split; [split; [apply extends_refl|split; [apply keepsValues_refl|exact Hst]]|].
    intros oid Hin. inversion Hin. }
  simpl in Hrun.
  destruct (objects st !! oid) as [o|] eqn:Ho; [|discriminate].
  destruct (Complete o) eqn:Hc.
  - destruct (IH st st' Hst Hrun) as [(Hext & Hkeep & Hst') Hw].
    split; [auto|]. intros oid' Hin.
    apply elem_of_cons in Hin as [->|Hin]; [|eauto].
    eapply walkedRecord_kept; [exact Hext|exact Hkeep|].
    eapply skipped_record; eassumption.
  - pose proof (pass_keeps oid st Hst) as Hst1.
    destruct (pass_relations oid st) as [Hext1 Hkeep1].
    destruct (pass oid st) as [st1 r1] eqn:Hstep. simpl in Hst1, Hext1, Hkeep1.
    destruct r1; try discriminate.
    destruct (IH st1 st' Hst1 Hrun) as [(Hext & Hkeep & Hst') Hw].
    split.
    { split; [eapply extends_trans; eassumption|].
      split; [eapply keepsValues_trans; eassumption|exact Hst']. }
    intros oid' Hin.
    apply elem_of_cons in Hin as [->|Hin]; [|eauto].
    eapply walkedRecord_kept; [exact Hext|exact Hkeep|].
    exact (pass_walks oid st st1 o Hst Ho Hstep).
Qed.

(** The second loop of [Populate]: at index [i] every unnamed object before
    [i] has been walked. *)
Lemma explicitLoop_walked (fuel rounds : nat) :
  (forall oid s, populateExplicit env fuel oid s = pass oid s) ->
  forall i st st',
    I st -> explicitLoop env fuel rounds i st = (st', Done) ->
    (forall j oid, j < i -> unnamed (graph st) !! j = Some oid ->
       walkedRecord env target st oid) ->
    (extends st st' /\ keepsValues st st' /\ I st')
    /\ forall oid, oid ∈ unnamed (graph st') -> walkedRecord env target st' oid.
Proof.
  intros Hpass.
  induction rounds as [|rounds IH]; intros i st st' Hst Hrun Hinv; [discriminate|].
  simpl in Hrun.
  destruct (unnamed (graph st) !! i) as [oid|] eqn:Hi.
  2: { injection Hrun as <-.
       split; [split; [apply extends_refl|split; [apply keepsValues_refl|exact Hst]]|].
       intros oid Hin. apply list_elem_of_lookup in Hin as [j Hj].
       apply (Hinv j oid); [|exact Hj].
       apply lookup_ge_None in Hi. apply lookup_lt_Some in Hj. lia. }
  destruct (objects st !! oid) as [o|] eqn:Ho; [|discriminate].
  destruct (Complete o) eqn:Hc.
  - apply (IH (S i) st st' Hst Hrun). intros j oid' Hj Hlook.
    destruct (decide (j = i)) as [->|Hne]; [|apply (Hinv j oid'); [lia|exact Hlook]].
    rewrite Hi in Hlook. injection Hlook as <-.
    eapply skipped_record; eassumption.
  - rewrite Hpass in Hrun.
    pose proof (pass_keeps oid st Hst) as Hst1.
    destruct (pass_relations oid st) as [Hext1 Hkeep1].
    destruct (pass oid st) as [st1 r1] eqn:Hstep. simpl in Hst1, Hext1, Hkeep1.
    destruct r1; try discriminate.
    destruct (IH (S i) st1 st' Hst1 Hrun) as [(Hext & Hkeep & Hst') Hw].
    { intros j oid' Hj Hlook.
      assert (Hold : unnamed (graph st) !! j = Some oid').
      { destruct (ext_unnamed _ _ Hext1) as [l Hl]. rewrite Hl in Hlook.
        rewrite lookup_app_l in Hlook; [exact Hlook|].
        apply lookup_lt_Some in Hi. lia. }
      destruct (decide (j = i)) as [->|Hne].
      - rewrite Hi in Hold. injection Hold as <-.
        exact (pass_walks oid st st1 o Hst Ho Hstep).
      - eapply walkedRecord_kept; [exact Hext1|exact Hkeep1|].
        apply (Hinv j oid'); [lia|exact Hold]. }
    split; [|exact Hw].
    split; [eapply extends_trans; eassumption|].
    split; [eapply keepsValues_trans; eassumption|exact Hst'].
Qed.

End WalkLoops.

(** ** The explicit pass *)

Lemma explicit_step_relations (env : TypeEnv) (fuel : nat) (oid : nat) (s : state) :
  extends s (fst (populateExplicit env fuel oid s))
  /\ keepsValues s (fst (populateExplicit env fuel oid s)).
Proof.
  split; [apply populateExplicit_extends|apply populateExplicit_keepsValues].
Qed.

Lemma explicitField_keepsValues (env : TypeEnv) (fuel : nat) (oid : nat) (ot : option type)
    (a : addr) (i : nat) (f : StructField.t) (s : state) :
  keepsValues s (fst (explicitField env (populateExplicit env fuel) oid ot a i f s)).
Proof.
  eapply explicitStep_keepsValues; [|apply explicitField_cases].
  apply populateExplicit_keepsValues.
Qed.

(** A call of the explicit pass that returns without error has set every
    field of the class that its rounds set. *)
Lemma populateExplicit_walks (env : TypeEnv) (target : StructField.t -> Prop)
    (I : state -> Prop) :
  (forall fuel oid ot a i f s,
     I s -> I (fst (explicitField env (populateExplicit env fuel) oid ot a i f s))) ->
  (forall fuel oid ot a i f st st',
     I st -> target f ->
     explicitField env (populateExplicit env fuel) oid ot a i f st = (st', Done) ->
     setBelow st' (fieldAddr a i)) ->
  forall fuel oid s s' o,
    I s -> objects s !! oid = Some o -> populateExplicit env fuel oid s = (s', Done) ->
    walkedRecord env target s' oid.
Proof.
  intros HI Hsets fuel oid s s' o Hs Ho Hrun.
  pose proof (populateExplicit_extends env fuel oid s) as Hext. rewrite Hrun in Hext.
  destruct (ext_objects _ _ Hext oid o Ho) as (o1 & Ho1 & Hsame). simpl in Ho1.
  exists o1. split; [exact Ho1|]. intros _ o' a fs i f Ho' Hw Hi Hf.
  rewrite Ho1 in Ho'. injection Ho' as <-.
  rewrite (walkTarget_same env o o1 Hsame) in Hw.
  destruct fuel as [|fuel]; [discriminate|]. simpl in Hrun.
  rewrite Ho, Hw in Hrun.
  apply (structLoop_sets target I a
           (explicitField env (populateExplicit env fuel) oid (reflectType o) a)
           (explicitField_keepsValues env fuel oid (reflectType o) a)
           (HI fuel oid (reflectType o) a)
           (Hsets fuel oid (reflectType o) a)
           fs 0 s s' Hs Hrun i f Hi Hf).
Qed.

(** A round of the explicit pass that goes on after a field of interface
    type with a named directive leaves the field set. *)
Lemma explicitField_named_set (env : TypeEnv) (rec : nat -> state -> state * outcome)
    (oid : nat) (ot : option type) (a : addr) (i : nat) (f : StructField.t)
    (st st' : state) :
  namedInterfaceField f ->
  explicitField env rec oid ot a i f st = (st', Done) ->
  setBelow st' (fieldAddr a i).
Proof.
  intros (tg & Htag & Hname & Hkind) Hrun.
  destruct (parseTag_shape _ _ _ Htag) as (_ & _ & Hflags & _).
  destruct (Hflags Hname) as [Hinl Hpriv].
  assert (Hsp : isStructPtr (StructField.Type_ f) = false).
  { destruct (StructField.Type_ f); try discriminate; reflexivity. }
  unfold explicitField in Hrun.
  destruct (load (heap st) (fieldAddr a i)) as [field|] eqn:Hload; [|discriminate].
  rewrite Htag, Hinl, Hsp in Hrun.
  destruct (negb (StructField.Exported f)); [discriminate|].
  cbn [andb] in Hrun.
  destruct (isNilOrZero field (StructField.Type_ f)) eqn:Hz; cbn [negb] in Hrun.
  - rewrite nonempty_eqb in Hrun by exact Hname. cbn [negb] in Hrun.
    destruct (named (graph st) !! tag.Name tg) as [eid|]; [|discriminate].
    destruct (objects st !! eid) as [e|]; [|discriminate].
    destruct (reflectType e) as [et|]; [|discriminate].
    destruct (negb (AssignableTo env et (StructField.Type_ f))); [discriminate|].
    destruct (Value e) as [x|]; [|discriminate].
    destruct (setField _ _ st) as [st1|] eqn:Hset; [|discriminate].
    injection Hrun as <-.
    apply (setBelow_of_nonzero _ _ (boxFor (StructField.Type_ f) x)).
    + rewrite addDep_heap. eapply setField_load. exact Hset.
    + unfold boxFor. rewrite Hkind. reflexivity.
  - injection Hrun as <-. eapply setBelow_of_nonzero; eassumption.
Qed.

(** ** The values that can be assigned stay not nil *)

Lemma valuesNonZero_frame (st st' : state) :
  extends st st' ->
  unnamed (graph st') = unnamed (graph st) ->
  unnamedType (graph st') = unnamedType (graph st) ->
  valuesNonZero st -> valuesNonZero st'.
Proof.
  intros Hext Hu _ [Hun Hn]. split.
  - intros eid Hin. rewrite Hu in Hin. destruct (Hun eid Hin) as (e & He & Hnz).
    destruct (ext_objects _ _ Hext eid e He) as (e' & He' & V & _ & _ & _ & _ & Pr & _).
    exists e'. split; [exact He'|]. rewrite V, Pr. exact Hnz.
  - intros k eid Hk. rewrite (ext_named _ _ Hext) in Hk.
    destruct (Hn k eid Hk) as (e & He & Hnz).
    destruct (ext_objects _ _ Hext eid e He) as (e' & He' & V & _).
    exists e'. split; [exact He'|]. rewrite V. exact Hnz.
Qed.

Lemma valuesNonZero_registered (lit : Object) (t : type) (v : value) (st : state) :
  Value lit = Some (t, v) -> Name lit = EmptyString -> Fields lit = None ->
  isZero v = false ->
  (private lit = true \/ typeTaken (graph st) t = false) ->
  valuesNonZero st -> valuesNonZero (registered lit t st).
Proof.
  intros Hv _ _ Hz _ [Hun Hn]. split.
  - intros eid Hin. simpl in Hin. apply elem_of_app in Hin as [Hin|Hin].
    + destruct (Hun eid Hin) as (e & He & Hnz). exists e.
      split; [simpl; apply lookup_app_l_Some; exact He|exact Hnz].
    + apply list_elem_of_singleton in Hin as ->.
      exists (withReflect lit). split; [simpl; apply lookup_appended|].
      simpl. intros _ x Hx. rewrite Hv in Hx. injection Hx as <-. exact Hz.
  - intros k eid Hk. simpl in Hk. destruct (Hn k eid Hk) as (e & He & Hnz).
    exists e. split; [simpl; apply lookup_app_l_Some; exact He|exact Hnz].
Qed.

Lemma explicitField_valuesNonZero (env : TypeEnv) (fuel : nat) (oid : nat)
    (ot : option type) (a : addr) (i : nat) (f : StructField.t) (s : state) :
  valuesNonZero s ->
  valuesNonZero (fst (explicitField env (populateExplicit env fuel) oid ot a i f s)).
Proof.
  intros Hs.
  eapply (explicitStep_kept valuesNonZero valuesNonZero_frame valuesNonZero_registered);
    [|apply explicitField_cases|exact Hs].
  intros id s0. apply populateExplicit_kept;
    [exact valuesNonZero_frame|exact valuesNonZero_registered].
Qed.

Lemma findAssignable_Found (env : TypeEnv) (objs : list Object) (ft : type) (l : list nat)
    (eid : nat) (x : type * value) :
  findAssignable env objs ft l = Found eid x ->
  eid ∈ l /\ exists e, objs !! eid = Some e /\ private e = false /\ Value e = Some x.
Proof.
  induction l as [|k l IH]; simpl; [discriminate|].
  destruct (objs !! k) as [e|] eqn:He; [|discriminate].
  destruct (private e) eqn:Hp.
  { intros H. destruct (IH H) as [Hin Hex]. split; [right; exact Hin|exact Hex]. }
  destruct (reflectType e) as [et|]; [|discriminate].
  destruct (AssignableTo env et ft).
  - destruct (Value e) as [y|] eqn:Hy; [|discriminate].
    intros [= <- <-]. split; [left|]. exists e. auto.
  - intros H. destruct (IH H) as [Hin Hex]. split; [right; exact Hin|exact Hex].
Qed.

Lemma isStructPtr_shape (t : type) :
  isStructPtr t = true -> exists n, t = TPtr (TStruct n).
Proof.
  destruct t as [| |e| |]; try discriminate.
  destruct e; try discriminate. eauto.
Qed.

(** A round of the explicit pass that goes on after a field with a directive
    that is neither a struct held by value nor of interface type leaves the
    field set, when the values that can be assigned are not nil. *)
Lemma explicitField_sets (env : TypeEnv) (fuel : nat) (oid : nat) (ot : option type)
    (a : addr) (i : nat) (f : StructField.t) (st st' : state) :
  valuesNonZero st -> explicitTarget f ->
  explicitField env (populateExplicit env fuel) oid ot a i f st = (st', Done) ->
  setBelow st' (fieldAddr a i).
Proof.
  intros [Hun Hn] (tg & Htag & Hnotstruct & Hnotiface) Hrun.
  pose proof (explicitField_keepsValues env fuel oid ot a i f st) as Hkeep.
  rewrite Hrun in Hkeep. simpl in Hkeep.
  pose proof Hrun as Hrun0.
  unfold explicitField in Hrun.
  destruct (load (heap st) (fieldAddr a i)) as [field|] eqn:Hload; [|discriminate].
  rewrite Htag in Hrun.
  destruct (StructField.Exported f) eqn:Hexp; [|discriminate]. cbn [negb] in Hrun.
  assert (Hks : Kind_eqb (kindOf (StructField.Type_ f)) Struct = false).
  { destruct (kindOf (StructField.Type_ f)); try reflexivity.
    contradiction Hnotstruct. reflexivity. }
  assert (Hki : Kind_eqb (kindOf (StructField.Type_ f)) Interface = false).
  { destruct (kindOf (StructField.Type_ f)); try reflexivity.
    contradiction Hnotiface. reflexivity. }
  rewrite Hks in Hrun. cbn [negb] in Hrun. rewrite andb_true_r in Hrun.
  destruct (tag.Inline tg) eqn:Hinl; [discriminate|].
  destruct (isNilOrZero field (StructField.Type_ f)) eqn:Hz.
  2: { apply (setBelow_kept st); [exact Hkeep|].
       eapply setBelow_of_nonzero; eassumption. }
  cbn [negb] in Hrun.
  destruct (String.eqb (tag.Name tg) EmptyString) eqn:Hname; cbn [negb] in Hrun.
  2: { destruct (named (graph st) !! tag.Name tg) as [eid|] eqn:Hnamed; [|discriminate].
       destruct (objects st !! eid) as [e|] eqn:He; [|discriminate].
       destruct (reflectType e) as [et|]; [|discriminate].
       destruct (negb (AssignableTo env et (StructField.Type_ f))); [discriminate|].
       destruct (Value e) as [x|] eqn:Hx; [|discriminate].
       destruct (setField _ _ st) as [st1|] eqn:Hset; [|discriminate].
       injection Hrun as <-.
       apply (setBelow_of_nonzero _ _ (boxFor (StructField.Type_ f) x)).
       - rewrite addDep_heap. eapply setField_load. exact Hset.
       - destruct (Hn _ _ Hnamed) as (e' & He' & Hnz).
         rewrite He in He'. injection He' as <-.
         unfold boxFor. destruct (kindOf (StructField.Type_ f)); try (apply Hnz; exact Hx).
         reflexivity. }
  rewrite Hki in Hrun.
  destruct (Kind_eqb (kindOf (StructField.Type_ f)) Map) eqn:Hkm.
  { destruct (negb (tag.Private tg)); [discriminate|].
    destruct (setField _ _ st) as [st1|] eqn:Hset; [|discriminate].
    injection Hrun as <-.
    apply (setBelow_of_nonzero _ _ VMap); [|reflexivity].
    eapply setField_load. exact Hset. }
  destruct (isStructPtr (StructField.Type_ f)) eqn:Hsp; [|discriminate].
  clear Hrun. destruct (isStructPtr_shape _ Hsp) as [n Hty].
  apply String.eqb_eq in Hname.
  rewrite (explicitField_pointer env (populateExplicit env fuel) oid ot a i f st field tg n
             Hload Hz Htag Hexp Hinl Hname Hty) in Hrun0.
  assert (Hcreate :
            (if tag.Private tg || negb (typeTaken (graph st) (TPtr (TStruct n))) then
               match populateExplicit env fuel (length (objects st))
                       (registered
                          (objectLit (Some (TPtr (TStruct n), VPtr (length (heap st), [])))
                             (tag.Private tg) true false)
                          (TPtr (TStruct n))
                          (setHeap st (heap st ++ [Zero env (TStruct n)])%list)) with
               | (st4, Done) =>
                   match setField (fieldAddr a i) (VPtr (length (heap st), [])) st4 with
                   | Some st5 =>
                       (addDep oid (StructField.Name f) (length (objects st)) st5, Done)
                   | None => (st4, Panicked)
                   end
               | r => r
               end
             else
               (refused
                  (objectLit (Some (TPtr (TStruct n), VPtr (length (heap st), [])))
                     (tag.Private tg) true false)
                  (setHeap st (heap st ++ [Zero env (TStruct n)])%list),
                Failed (ErrTwoUnnamed (TPtr (TStruct n)))))
            = (st', Done) ->
            setBelow st' (fieldAddr a i)).
  { intros H. destruct (_ || _); [|discriminate].
    destruct (populateExplicit env fuel _ _) as [st4 r4]. destruct r4; try discriminate.
    destruct (setField _ _ st4) as [st5|] eqn:Hset; [|discriminate].
    injection H as <-.
    apply (setBelow_of_nonzero _ _ (VPtr (length (heap st), []))); [|reflexivity].
    rewrite addDep_heap. eapply setField_load. exact Hset. }
  cbv zeta in Hrun0.
  destruct (tag.Private tg); [apply Hcreate; exact Hrun0|].
  destruct (findAssignable env (objects st) (TPtr (TStruct n)) (unnamed (graph st)))
    as [eid x| |] eqn:Hfind; [| apply Hcreate; exact Hrun0 | discriminate].
  destruct (setField _ _ st) as [st1|] eqn:Hset; [|discriminate].
  injection Hrun0 as <-.
  destruct (findAssignable_Found _ _ _ _ _ _ Hfind) as (Hin & e & He & Hp & Hx).
  destruct (Hun eid Hin) as (e' & He' & Hnz). rewrite He in He'. injection He' as <-.
  apply (setBelow_of_nonzero _ _ (boxFor (TPtr (TStruct n)) x)).
  - rewrite addDep_heap. eapply setField_load. exact Hset.
  - unfold boxFor. simpl. apply (Hnz Hp x Hx).
Qed.

(** ** The interface pass *)

Lemma interfaceScan_done (env : TypeEnv) (oid : nat) (ot : option type) (fa : addr)
    (ft : type) (name : string) (l : list nat) (st st' : state) :
  interfaceScan env oid ot fa ft name l None st = (st', Done) ->
  exists eid x st1,
    setField fa (boxFor ft x) st = Some st1 /\ st' = addDep oid name eid st1.
Proof.
  induction l as [|eid l IH]; simpl; [discriminate|].
  destruct (objects st !! eid) as [e|]; [|discriminate].
  destruct (private e); [exact IH|].
  destruct (reflectType e) as [et|]; [|discriminate].
  destruct (AssignableTo env et ft); [|exact IH].
  destruct (Value e) as [x|]; [|discriminate].
  destruct (setField fa (boxFor ft x) st) as [st1|] eqn:Hset; [|discriminate].
  intros H. exists eid, x, st1. split; [exact Hset|].
  pose proof (interfaceScan_found_state env oid ot fa ft name l eid
                (addDep oid name eid st1)) as Hs.
  rewrite H in Hs. exact Hs.
Qed.

Lemma interfaceField_sets (env : TypeEnv) (oid : nat) (ot : option type) (a : addr)
    (i : nat) (f : StructField.t) (st st' : state) :
  interfaceTarget f ->
  interfaceField env oid ot a i f st = (st', Done) ->
  setBelow st' (fieldAddr a i).
Proof.
  intros (tg & Htag & Hkind) Hrun. unfold interfaceField in Hrun.
  destruct (load (heap st) (fieldAddr a i)) as [field|] eqn:Hload; [|discriminate].
  rewrite Htag, Hkind in Hrun. cbn [Kind_eqb negb] in Hrun.
  destruct (tag.Private tg); [discriminate|].
  destruct (negb (StructField.Exported f)); [discriminate|].
  destruct (isNilOrZero field (StructField.Type_ f)) eqn:Hz; cbn [negb] in Hrun.
  2: { injection Hrun as <-. eapply setBelow_of_nonzero; eassumption. }
  destruct (negb (String.eqb (tag.Name tg) EmptyString)); [discriminate|].
  destruct (interfaceScan_done _ _ _ _ _ _ _ _ _ Hrun) as (eid & x & st1 & Hset & ->).
  apply (setBelow_of_nonzero _ _ (boxFor (StructField.Type_ f) x)).
  - rewrite addDep_heap. eapply setField_load. exact Hset.
  - unfold boxFor. rewrite Hkind. reflexivity.
Qed.

Lemma interface_step_relations (env : TypeEnv) (oid : nat) (s : state) :
  extends s (fst (populateUnnamedInterface env oid s))
  /\ keepsValues s (fst (populateUnnamedInterface env oid s)).
Proof.
  split; [|apply populateUnnamedInterface_keepsValues].
  apply (populateUnnamedInterface_kept (extends s)).
  - intros s1 s2 Hext _ _ H. eapply extends_trans; eassumption.
  - apply extends_refl.
Qed.

Lemma populateUnnamedInterface_walks (env : TypeEnv) (oid : nat) (s s' : state)
    (o : Object) :
  True -> objects s !! oid = Some o ->
  populateUnnamedInterface env oid s = (s', Done) ->
  walkedRecord env interfaceTarget s' oid.
Proof.
  intros _ Ho Hrun.
  destruct (interface_step_relations env oid s) as [Hext _]. rewrite Hrun in Hext.
  destruct (ext_objects _ _ Hext oid o Ho) as (o1 & Ho1 & Hsame). simpl in Ho1.
  exists o1. split; [exact Ho1|]. intros _ o' a fs i f Ho' Hw Hi Hf.
  rewrite Ho1 in Ho'. injection Ho' as <-.
  rewrite (walkTarget_same env o o1 Hsame) in Hw.
  unfold populateUnnamedInterface in Hrun. rewrite Ho, Hw in Hrun.
  apply (structLoop_sets interfaceTarget (fun _ => True) a
           (interfaceField env oid (reflectType o) a)
           (interfaceField_keepsValues env oid (reflectType o) a)
           (fun _ _ _ _ => Logic.I)
           (fun i0 f0 st0 st0' _ Hf0 H0 =>
              interfaceField_sets env oid (reflectType o) a i0 f0 st0 st0' Hf0 H0)
           fs 0 s s' Logic.I Hrun i f Hi Hf).
Qed.

(** ** The named-instance panic of the interface pass *)

Lemma namedPanic_setBelow (a : addr) (i : nat) (f : StructField.t) (s : state) :
  setBelow s (fieldAddr a i) -> namedPanic a i f s = false.
Proof.
  intros Hs. unfold namedPanic.
  destruct (load (heap s) (fieldAddr a i)) as [field|] eqn:Hl; [|reflexivity].
  destruct (parseTag (StructField.Tag f)) as [[tg|] [e|]]; try reflexivity.
  unfold isNilOrZero. rewrite (setBelow_nonzero s _ field Hs Hl).
  rewrite andb_false_r. reflexivity.
Qed.

Lemma namedPanic_field (a : addr) (i : nat) (f : StructField.t) (s : state) :
  namedPanic a i f s = true -> namedInterfaceField f.
Proof.
  unfold namedPanic.
  destruct (load (heap s) (fieldAddr a i)) as [field|]; [|discriminate].
  destruct (parseTag (StructField.Tag f)) as [[tg|] [e|]] eqn:Htag; try discriminate.
  intros H. apply andb_prop in H as [H Hname]. apply andb_prop in H as [H _].
  apply andb_prop in H as [Hk _].
  exists tg. split; [exact Htag|]. split.
  - intros E. rewrite E in Hname. discriminate.
  - destruct (kindOf (StructField.Type_ f)); try discriminate. reflexivity.
Qed.

(** The branch of the interface pass that panics. *)
Lemma namedPanic_branch (env : TypeEnv) (oid : nat) (ot : option type) (a : addr)
    (i : nat) (f : StructField.t) (s : state) :
  namedPanic a i f s = true -> interfaceField env oid ot a i f s = (s, Panicked).
Proof.
  unfold namedPanic, interfaceField.
  destruct (load (heap s) (fieldAddr a i)) as [field|]; [|discriminate].
  destruct (parseTag (StructField.Tag f)) as [[tg|] [e|]]; try discriminate.
  intros H. apply andb_prop in H as [H Hname]. apply andb_prop in H as [H Hz].
  apply andb_prop in H as [Hk Hp].
  rewrite Hk, Hz, Hname. apply negb_true_iff in Hp. rewrite Hp.
  destruct (negb (StructField.Exported f)); reflexivity.
Qed.

Lemma populateExplicit_walks_named (env : TypeEnv) (fuel : nat) (oid : nat)
    (s s' : state) (o : Object) :
  True -> objects s !! oid = Some o -> populateExplicit env fuel oid s = (s', Done) ->
  walkedRecord env namedInterfaceField s' oid.
Proof.
  apply (populateExplicit_walks env namedInterfaceField (fun _ => True)).
  - intros; exact Logic.I.
  - intros fuel0 oid0 ot a i f st st' _ Hf Hrun.
    eapply explicitField_named_set; eassumption.
Qed.

(** X26: The panic of the interface pass for a named directive is never
    reached. Once the two loops of the explicit pass have returned without
    error, every field of interface type with a named directive, in every
    record that the interface pass walks (the unnamed objects and the named
    objects that the first loop has visited, unless complete), holds a value:
    the explicit pass has set it or has failed. This stays so in every state
    that the interface pass goes through, since each of its calls only adds
    to the state and keeps the values that are set. So the condition of the
    panic, which is what [namedPanic] computes, is false there. *)
Theorem named_panic_unreachable (env : TypeEnv) (fuel : nat) (ks1 : list string)
    (st st1 st2 : state) :
  rangeNamed (populateExplicit env fuel) ks1 st = (st1, Done) ->
  explicitLoop env fuel fuel 0 st1 = (st2, Done) ->
  (forall oid ot a i f s,
      namedPanic a i f s = true -> interfaceField env oid ot a i f s = (s, Panicked))
  /\ (forall oid s,
        extends st2 s /\ keepsValues st2 s ->
        extends st2 (fst (populateUnnamedInterface env oid s))
        /\ keepsValues st2 (fst (populateUnnamedInterface env oid s)))
  /\ (forall s oid o a fs i f,
        extends st2 s -> keepsValues st2 s ->
        (oid ∈ unnamed (graph st2)
         \/ exists k, k ∈ ks1 /\ named (graph st2) !! k = Some oid) ->
        objects s !! oid = Some o -> Complete o = false ->
        walkTarget env o = Walk a fs -> fs !! i = Some f ->
        namedPanic a i f s = false).
Proof.
  intros Hrun1 Hrun2.
  destruct (rangeNamed_walked env namedInterfaceField (fun _ => True)
              (populateExplicit env fuel) (explicit_step_relations env fuel)
              (fun _ _ _ => Logic.I) (populateExplicit_walks_named env fuel)
              ks1 st st1 Logic.I Hrun1) as [_ Hnamed].
  destruct (explicitLoop_walked env namedInterfaceField (fun _ => True)
              (populateExplicit env fuel) (explicit_step_relations env fuel)
              (fun _ _ _ => Logic.I) (populateExplicit_walks_named env fuel)
              fuel fuel (fun _ _ => eq_refl) 0 st1 st2 Logic.I Hrun2)
    as [(Hext2 & Hkeep2 & _) Hunnamed].
  { intros j oid Hj. lia. }
  split; [|split].
  - intros oid ot a i f s. apply namedPanic_branch.
  - intros oid s [He Hk]. destruct (interface_step_relations env oid s) as [He' Hk'].
    split; [eapply extends_trans|eapply keepsValues_trans]; eassumption.
  - intros s oid o a fs i f Hext Hkeep Hwalked Ho Hc Hw Hi.
    assert (Hrec : walkedRecord env namedInterfaceField st2 oid).
    { destruct Hwalked as [Hin | (k & Hin & Hk)]; [apply Hunnamed; exact Hin|].
      eapply walkedRecord_kept; [exact Hext2|exact Hkeep2|].
      apply (Hnamed k oid Hin). rewrite <- (ext_named _ _ Hext2). exact Hk. }
    destruct (walkedRecord_kept env _ oid st2 s Hext Hkeep Hrec) as (o' & Ho' & Hset).
    rewrite Ho in Ho'. injection Ho' as <-.
    destruct (namedPanic a i f s) eqn:Hp; [|reflexivity].
    rewrite <- Hp. apply namedPanic_setBelow.
    apply (Hset Hc o a fs i f Ho Hw Hi). eapply namedPanic_field. exact Hp.
Qed.

Lemma named_panic_unreachable_witness :
  namedPanic (0, []) 0 fieldNamedLog
    (fst (explicitLoop namedLoggerEnv 2 2 0
            (fst (rangeNamed (populateExplicit namedLoggerEnv 2) ["console"]
                    namedLoggerProvided))))
  = false.
Proof.
  pose proof (named_panic_unreachable namedLoggerEnv 2 ["console"] namedLoggerProvided
                _ _ eq_refl eq_refl) as (_ & _ & H).
  refine (H _ 0 _ (0, []) [fieldNamedLog] 0 fieldNamedLog
            (extends_refl _) (keepsValues_refl _) _ eq_refl eq_refl eq_refl eq_refl).
  left. left.
Defined.

(** ** Every tagged field is set *)

Lemma populateExplicit_walks_explicit (env : TypeEnv) (fuel : nat) (oid : nat)
    (s s' : state) (o : Object) :
  valuesNonZero s -> objects s !! oid = Some o ->
  populateExplicit env fuel oid s = (s', Done) ->
  walkedRecord env explicitTarget s' oid.
Proof.
  apply (populateExplicit_walks env explicitTarget valuesNonZero).
  - intros fuel0 oid0 ot a i f s0. apply explicitField_valuesNonZero.
  - intros fuel0 oid0 ot a i f st st'. apply explicitField_sets.
Qed.

Lemma populateExplicit_valuesNonZero (env : TypeEnv) (fuel : nat) (oid : nat) (s : state) :
  valuesNonZero s -> valuesNonZero (fst (populateExplicit env fuel oid s)).
Proof.
  apply populateExplicit_kept;
    [exact valuesNonZero_frame|exact valuesNonZero_registered].
Qed.

Lemma interface_loops_graph (env : TypeEnv) (g : Graph) :
  forall oid s (o : Object), objects s !! oid = Some o -> Complete o = false ->
    graph s = g -> graph (fst (populateUnnamedInterface env oid s)) = g.
Proof.
  intros oid s o _ _ Hs.
  destruct (populateUnnamedInterface_frame env oid s) as (-> & _). exact Hs.
Qed.

(** X27: After a call of [Populate] that returns without error, every field
    with an inject directive, in every record that the passes have walked
    (the unnamed objects and the named objects visited, unless complete), is
    set: it holds a value that is not nil or zero. Structs held by value are
    the exception: their directive is inline and their own fields are
    resolved through a record of their own, which is an unnamed object like
    the others. This holds when the values that may be assigned, those of the
    named objects and of the unnamed objects that are not private, are not
    nil themselves. *)
Theorem Populate_sets_tagged_fields (env : TypeEnv) (fuel : nat) (ks1 ks4 : list string)
    (st st' : state) :
  valuesNonZero st ->
  Populate env fuel ks1 ks4 st = (st', Done) ->
  forall oid o a fs i f tg,
    (oid ∈ unnamed (graph st')
     \/ exists k, k ∈ ks1 /\ k ∈ ks4 /\ named (graph st') !! k = Some oid) ->
    objects st' !! oid = Some o -> Complete o = false ->
    walkTarget env o = Walk a fs -> fs !! i = Some f ->
    parseTag (StructField.Tag f) = (Some tg, None) ->
    kindOf (StructField.Type_ f) <> Struct ->
    exists w, load (heap st') (fieldAddr a i) = Some w
              /\ isNilOrZero w (StructField.Type_ f) = false.
Proof.
  intros Hst Hrun oid o a fs i f tg Hwalked Ho Hc Hw Hi Htag Hkind.
  unfold Populate in Hrun.
  destruct (rangeNamed (populateExplicit env fuel) ks1 st) as [st1 r1] eqn:H1.
  destruct r1; try discriminate.
  destruct (explicitLoop env fuel fuel 0 st1) as [st2 r2] eqn:H2.
  destruct r2; try discriminate.
  destruct (rangeUnnamed (populateUnnamedInterface env) (unnamed (graph st2)) st2)
    as [st3 r3] eqn:H3.
  destruct r3; try discriminate.
  destruct (rangeNamed_walked env explicitTarget valuesNonZero
              (populateExplicit env fuel) (explicit_step_relations env fuel)
              (populateExplicit_valuesNonZero env fuel)
              (populateExplicit_walks_explicit env fuel)
              ks1 st st1 Hst H1) as [(Hext1 & Hkeep1 & Hst1) Wn1].
  destruct (explicitLoop_walked env explicitTarget valuesNonZero
              (populateExplicit env fuel) (explicit_step_relations env fuel)
              (populateExplicit_valuesNonZero env fuel)
              (populateExplicit_walks_explicit env fuel)
              fuel fuel (fun _ _ => eq_refl) 0 st1 st2 Hst1 H2)
    as [(Hext2 & Hkeep2 & Hst2) Wu1].
  { intros j oid0 Hj. lia. }
  destruct (rangeUnnamed_walked env interfaceTarget (fun _ => True)
              (populateUnnamedInterface env) (interface_step_relations env)
              (fun _ _ _ => Logic.I) (populateUnnamedInterface_walks env)
              (unnamed (graph st2)) st2 st3 Logic.I H3) as [(Hext3 & Hkeep3 & _) Wu2].
  destruct (rangeNamed_walked env interfaceTarget (fun _ => True)
              (populateUnnamedInterface env) (interface_step_relations env)
              (fun _ _ _ => Logic.I) (populateUnnamedInterface_walks env)
              ks4 st3 st' Logic.I Hrun) as [(Hext4 & Hkeep4 & _) Wn2].
  assert (Hg3 : graph st3 = graph st2).
  { pose proof (rangeUnnamed_kept (fun s => graph s = graph st2)
                  (populateUnnamedInterface env) (unnamed (graph st2))
                  (interface_loops_graph env (graph st2)) st2 eq_refl) as H.
    rewrite H3 in H. exact H. }
  assert (Hg4 : graph st' = graph st2).
  { pose proof (rangeNamed_kept (fun s => graph s = graph st2)
                  (populateUnnamedInterface env) ks4
                  (interface_loops_graph env (graph st2)) st3 Hg3) as H.
    rewrite Hrun in H. exact H. }
  assert (Hset : setBelow st' (fieldAddr a i)).
  { assert (Hdec : kindOf (StructField.Type_ f) = Interface
                   \/ kindOf (StructField.Type_ f) <> Interface).
    { destruct (kindOf (StructField.Type_ f));
        solve [left; reflexivity | right; discriminate]. }
    destruct Hdec as [Hki|Hki].
    - assert (Hrec : walkedRecord env interfaceTarget st' oid).
      { destruct Hwalked as [Hin | (k & _ & Hin & Hk)].
        - eapply walkedRecord_kept; [exact Hext4|exact Hkeep4|].
          apply Wu2. rewrite <- Hg4. exact Hin.
        - apply (Wn2 k oid Hin Hk). }
      destruct Hrec as (o' & Ho' & Hfs). rewrite Ho in Ho'. injection Ho' as <-.
      apply (Hfs Hc o a fs i f Ho Hw Hi). exists tg. auto.
    - assert (Hrec : walkedRecord env explicitTarget st' oid).
      { eapply walkedRecord_kept; [exact Hext4|exact Hkeep4|].
        eapply walkedRecord_kept; [exact Hext3|exact Hkeep3|].
        destruct Hwalked as [Hin | (k & Hin & _ & Hk)].
        - apply Wu1. rewrite <- Hg4. exact Hin.
        - eapply walkedRecord_kept; [exact Hext2|exact Hkeep2|].
          apply (Wn1 k oid Hin).
          rewrite <- (ext_named _ _ Hext2), <- Hg4. exact Hk. }
      destruct Hrec as (o' & Ho' & Hfs). rewrite Ho in Ho'. injection Ho' as <-.
      apply (Hfs Hc o a fs i f Ho Hw Hi). exists tg. auto. }
  destruct (setBelow_load _ _ Hset) as (w & Hl & Hz). exists w. auto.
Qed.

Lemma reuseProvided_nonzero : valuesNonZero reuseProvided.
Proof.
  split.
  - intros eid Hin. simpl in Hin.
    apply elem_of_cons in Hin as [->|Hin];
      [|apply list_elem_of_singleton in Hin as ->].
    + eexists. split; [reflexivity|]. intros _ x [= <-]. reflexivity.
    + eexists. split; [reflexivity|]. intros _ x [= <-]. reflexivity.
  - intros k eid Hk. discriminate.
Qed.

Lemma Populate_sets_tagged_fields_witness :
  exists w, load (heap (fst (Populate serviceEnv 4 [] [] reuseProvided))) (1, [0]) = Some w
            /\ isNilOrZero w tServiceA = false.
Proof.
  refine (Populate_sets_tagged_fields serviceEnv 4 [] [] reuseProvided _
            reuseProvided_nonzero eq_refl 1 _ (1, []) [fieldA] 0 fieldA injectOnly
            _ eq_refl eq_refl eq_refl eq_refl eq_refl _).
  - left. right. left.
  - discriminate.
Defined.
(** * A call on a record for a new struct *)

Lemma isZero_zeroValue (env : TypeEnv) (d : nat) :
  forall t, isZero (zeroValue env d t) = true.
Proof.
  induction d as [|d IH]; intros [|n| | |]; simpl; try reflexivity.
  destruct (lookupStruct env n) as [fs|]; [|reflexivity]. simpl.
  apply forallb_forall. intros w Hin. apply in_map_iff in Hin as (f & <- & _). apply IH.
Qed.

Lemma isZero_Zero (env : TypeEnv) (t : type) : isZero (Zero env t) = true.
Proof. apply isZero_zeroValue. Qed.

Lemma lookup_map {A B : Type} (g : A -> B) (l : list A) (j : nat) :
  List.map g l !! j = g <$> l !! j.
Proof.
  revert j. induction l as [|x l IH]; intros [|j]; simpl; try reflexivity. apply IH.
Qed.

(** The new struct has one field per declared field, each nil or zero. *)
Lemma Zero_fields (env : TypeEnv) (n : string) (fs : list StructField.t) (j : nat)
    (fj : StructField.t) :
  lookupStruct env n = Some fs -> fs !! j = Some fj ->
  exists w, readPath (Zero env (TStruct n)) [j] = Some w /\ isZero w = true.
Proof.
  intros Hl Hj. unfold Zero. simpl. rewrite Hl. simpl.
  rewrite lookup_map, Hj. simpl. eexists. split; [reflexivity|]. apply isZero_zeroValue.
Qed.

Lemma zero_struct_fields (v w : value) (j : nat) :
  isZero v = true -> readPath v [j] = Some w -> isZero w = true.
Proof.
  destruct v as [| | | |vs|]; simpl; try discriminate.
  intros Hz. destruct (vs !! j) as [u|] eqn:Hu; [|discriminate].
  intros [= <-]. rewrite forallb_forall in Hz. apply Hz.
  apply list_elem_of_In. eapply list_elem_of_lookup_2. exact Hu.
Qed.

Lemma store_other (m m' : list value) (fa : addr) (x : value) (b : nat) :
  store m fa x = Some m' -> b <> fst fa -> m' !! b = m !! b.
Proof.
  unfold store. destruct (m !! fst fa) as [v|]; [|discriminate].
  destruct (writePath v (snd fa) x) as [v'|]; [|discriminate].
  intros [= <-] Hne. apply list_lookup_insert_ne. auto.
Qed.

Lemma store_length (m m' : list value) (fa : addr) (x : value) :
  store m fa x = Some m' -> length m' = length m.
Proof.
  unfold store. destruct (m !! fst fa) as [v|]; [|discriminate].
  destruct (writePath v (snd fa) x) as [v'|]; [|discriminate].
  intros [= <-]. apply length_insert.
Qed.

Lemma store_sibling (m m' : list value) (b i j : nat) (x : value) :
  store m (b, [i]) x = Some m' -> j <> i -> load m' (b, [j]) = load m (b, [j]).
Proof.
  unfold store, load. simpl. destruct (m !! b) as [v|] eqn:Hv; [|discriminate].
  destruct v as [| | | |vs|]; try discriminate.
  destruct (vs !! i) as [u|] eqn:Hu; [|discriminate].
  intros [= <-] Hne.
  rewrite list_lookup_insert_eq by (eapply lookup_lt_Some; eauto). simpl.
  rewrite list_lookup_insert_ne by auto. reflexivity.
Qed.

Lemma othersKept_refl (b : nat) (st : state) : othersKept b st st.
Proof. split; auto. Qed.

Lemma othersKept_trans (b : nat) (s1 s2 s3 : state) :
  othersKept b s1 s2 -> othersKept b s2 s3 -> othersKept b s1 s3.
Proof.
  intros [L1 H1] [L2 H2]. split; [lia|].
  intros b' Hne Hlt. rewrite H2 by (auto; lia). apply H1; auto.
Qed.

Lemma othersKept_setField (b i : nat) (x : value) (st st1 : state) :
  setField (b, [i]) x st = Some st1 -> othersKept b st st1.
Proof.
  unfold setField. destruct (store (heap st) (b, [i]) x) as [m'|] eqn:Hs; [|discriminate].
  intros [= <-]. split; simpl.
  - rewrite (store_length _ _ _ _ Hs). lia.
  - intros b' Hne _. apply (store_other _ _ _ _ _ Hs). exact Hne.
Qed.

Lemma zeroFrom_setField (b i : nat) (x : value) (st st1 : state) :
  setField (b, [i]) x st = Some st1 -> zeroFrom st b i -> zeroFrom st1 b (S i).
Proof.
  unfold setField. destruct (store (heap st) (b, [i]) x) as [m'|] eqn:Hs; [|discriminate].
  intros [= <-] Hz j' w Hj Hload. simpl in Hload.
  rewrite (store_sibling _ _ _ _ _ _ Hs) in Hload by lia.
  apply (Hz j' w); [lia|exact Hload].
Qed.

Lemma zeroFrom_heap (b j : nat) (st st' : state) :
  heap st' !! b = heap st !! b -> zeroFrom st b j -> zeroFrom st' b j.
Proof.
  intros E Hz j' w Hj Hload. apply (Hz j' w Hj).
  unfold load in *. simpl in *. rewrite <- E. exact Hload.
Qed.

Lemma zeroFrom_S (b j : nat) (st : state) : zeroFrom st b j -> zeroFrom st b (S j).
Proof. intros Hz j' w Hj. apply Hz. lia. Qed.

Lemma load_allocated (st : state) (b : nat) (p : list nat) (w : value) :
  load (heap st) (b, p) = Some w -> b < length (heap st).
Proof.
  unfold load. simpl. destruct (heap st !! b) eqn:E; [|discriminate].
  intros _. eapply lookup_lt_Some. exact E.
Qed.

Section Fresh.

Variable env : TypeEnv.
Variable rec : nat -> state -> state * outcome.

(** What is assumed of the nested calls: a call on a record for a zero
    struct at the top of its allocation changes that allocation at most. *)
Hypothesis rec_fresh :
  forall id s o b,
    objects s !! id = Some o -> reflectValue o = Some (VPtr (b, [])) ->
    (exists v, heap s !! b = Some v /\ isZero v = true) ->
    othersKept b s (fst (rec id s)).

Lemma fresh_round (oid : nat) (ot : option type) (b i : nat) (f : StructField.t)
    (s : state) :
  zeroFrom s b i ->
  othersKept b s (fst (explicitField env rec oid ot (b, []) i f s))
  /\ (snd (explicitField env rec oid ot (b, []) i f s) = Done ->
      zeroFrom (fst (explicitField env rec oid ot (b, []) i f s)) b (S i)).
Proof.
  intros Hz.
  pose proof (explicitField_cases env rec oid ot (b, []) i f s) as Hstep.
  change (fieldAddr (b, []) i) with (b, [i]) in *.
  assert (Hnz : forall field, load (heap s) (b, [i]) = Some field -> isZero field = false ->
                              False).
  { intros field Hl Hf. rewrite (Hz i field (Nat.le_refl i) Hl) in Hf. discriminate. }
  step_cases Hstep; change (fieldAddr (b, []) i) with (b, [i]) in *.
  - split; [apply othersKept_refl|]. intros _. apply zeroFrom_S. exact Hz.
  - exfalso. eauto.
  - exfalso. eauto.
  - cbn [fst snd]. split.
    + destruct (othersKept_setField _ _ _ _ _ Hset) as [L H]. split.
      * rewrite addDep_heap. exact L.
      * intros b' Hne Hlt. rewrite addDep_heap. apply H; auto.
    + intros _. apply (zeroFrom_heap b (S i) st1); [rewrite addDep_heap; reflexivity|].
      eapply zeroFrom_setField; eauto.
  - cbn [fst snd]. split; [split; [reflexivity|reflexivity]|]. intros _.
    apply (zeroFrom_heap b (S i) s); [reflexivity|]. apply zeroFrom_S. exact Hz.
  - cbn [fst snd]. split; [eapply othersKept_setField; eauto|].
    intros _. eapply zeroFrom_setField; eauto.
  - cbn [fst snd]. split; [|discriminate]. split; simpl.
    + rewrite length_app. lia.
    + intros b' _ Hlt. apply lookup_app_l. exact Hlt.
  - pose proof (load_allocated s b [i] field Hload) as Hb.
    set (reg := registered
                  (objectLit (Some (TPtr elem, VPtr (length (heap s), [])))
                     (tag.Private tg) true false)
                  (TPtr elem) (setHeap s (heap s ++ [Zero env elem])%list)) in *.
    assert (Hold : oldKept s st4 /\ length (heap s) <= length (heap st4)).
    { destruct (rec_fresh (length (objects s)) reg
                  (withReflect (objectLit (Some (TPtr elem, VPtr (length (heap s), [])))
                                  (tag.Private tg) true false))
                  (length (heap s))) as [L H].
      - unfold reg. simpl. apply lookup_appended.
      - reflexivity.
      - exists (Zero env elem). split; [|apply isZero_Zero].
        unfold reg. simpl. rewrite lookup_app_r by lia. rewrite Nat.sub_diag. reflexivity.
      - rewrite Hrec' in L, H. simpl in L, H. unfold reg in L, H. simpl in L, H.
        rewrite length_app in L, H. simpl in L, H. split; [|lia].
        intros b' Hlt. rewrite H by lia. apply lookup_app_l. exact Hlt. }
    destruct Hold as [Hold Hlen].
    assert (Hk4 : othersKept b s st4).
    { split; [exact Hlen|]. intros b' _ Hlt. apply Hold. exact Hlt. }
    assert (Hz4 : zeroFrom st4 b i).
    { apply (zeroFrom_heap b i s); [apply Hold; exact Hb|exact Hz]. }
    destruct r; cbn [fst snd]; try (split; [exact Hk4|discriminate]).
    destruct (setField (b, [i]) (VPtr (length (heap s), [])) st4) as [st5|] eqn:Hset5;
      cbn [fst snd]; [|split; [exact Hk4|discriminate]].
    split.
    + eapply othersKept_trans; [exact Hk4|].
      destruct (othersKept_setField _ _ _ _ _ Hset5) as [L H]. split.
      * rewrite addDep_heap. exact L.
      * intros b' Hne Hlt. rewrite addDep_heap. apply H; auto.
    + intros _. apply (zeroFrom_heap b (S i) st5); [rewrite addDep_heap; reflexivity|].
      eapply zeroFrom_setField; eauto.
Qed.

Lemma fresh_loop (oid : nat) (ot : option type) (b : nat) (fs : list StructField.t) :
  forall i s, zeroFrom s b i ->
    othersKept b s (fst (structLoop (explicitField env rec oid ot (b, [])) i fs s)).
Proof.
  induction fs as [|f fs IH]; intros i s Hz; simpl; [apply othersKept_refl|].
  destruct (fresh_round oid ot b i f s Hz) as [Hk Hnext].
  destruct (explicitField env rec oid ot (b, []) i f s) as [s1 r1]. simpl in Hk, Hnext.
  destruct r1; try exact Hk.
  eapply othersKept_trans; [exact Hk|]. apply IH. apply Hnext. reflexivity.
Qed.

End Fresh.

Lemma walkTarget_addr (env : TypeEnv) (o : Object) (a : addr) (fs : list StructField.t) :
  walkTarget env o = Walk a fs -> reflectValue o = Some (VPtr a).
Proof.
  unfold walkTarget. intros H.
  assert (Helem : match reflectType o, reflectValue o with
                  | Some (TPtr (TStruct n)), Some (VPtr a0) =>
                      match lookupStruct env n with
                      | Some fs0 => Walk a0 fs0
                      | None => Bad
                      end
                  | _, _ => Bad
                  end = Walk a fs).
  { destruct (negb (String.eqb (Name o) EmptyString)); [|exact H].
    destruct (reflectType o) as [t|]; [|discriminate].
    destruct (negb (isStructPtr t)); [discriminate|exact H]. }
  destruct (reflectType o) as [[| |[|n| | |]| |]|]; try discriminate.
  destruct (reflectValue o) as [[|a0| | | |]|]; try discriminate.
  destruct (lookupStruct env n); [|discriminate].
  injection Helem as -> _. reflexivity.
Qed.

(** A call of the explicit pass on a record for a zero struct writes into
    that struct and into what it allocates, and nowhere else. *)
Lemma populateExplicit_fresh (env : TypeEnv) (fuel : nat) :
  forall id s o b,
    objects s !! id = Some o -> reflectValue o = Some (VPtr (b, [])) ->
    (exists v, heap s !! b = Some v /\ isZero v = true) ->
    othersKept b s (fst (populateExplicit env fuel id s)).
Proof.
  induction fuel as [|fuel IH]; intros id s o b Ho Hv (v & Hb & Hz); simpl;
    [apply othersKept_refl|].
  rewrite Ho. destruct (walkTarget env o) as [|a fs|] eqn:Hw; try apply othersKept_refl.
  pose proof (walkTarget_addr env o a fs Hw) as Ha. rewrite Hv in Ha.
  injection Ha as <-.
  apply (fresh_loop env (populateExplicit env fuel) IH).
  intros j w _ Hload. unfold load in Hload. simpl in Hload. rewrite Hb in Hload.
  eapply zero_struct_fields; eauto.
Qed.
(** * A nil pointer field: an existing instance, or a new one *)

(** C3 (counterexample): the Next of a provided node is nil and asks for a
    private instance; whatever number of nested calls is allowed, the round
    for it does not end with the field assigned. *)
Lemma private_node_is_never_assigned :
  ~ freshInstanceIsAssigned nodeEnv 0 (Some (TPtr (TStruct "Node"))) (0, []) 0 fieldNext
      nodeProvided.
Proof.
  intros H.
  destruct (H VNil injectPrivate "Node" eq_refl eq_refl eq_refl eq_refl eq_refl eq_refl
              eq_refl (or_introl eq_refl)) as (fuel & Hdone & _).
  rewrite (explicitField_pointer nodeEnv (populateExplicit nodeEnv fuel) 0
             (Some (TPtr (TStruct "Node"))) (0, []) 0 fieldNext nodeProvided VNil
             injectPrivate "Node" eq_refl eq_refl eq_refl eq_refl eq_refl eq_refl eq_refl)
    in Hdone.
  cbv zeta in Hdone. simpl tag.Private in Hdone. cbn [orb] in Hdone.
  match type of Hdone with
  | context [populateExplicit nodeEnv fuel ?id ?s] =>
      pose proof (node_never_returns fuel id s
                    (withReflect
                       (objectLit (Some (TPtr (TStruct "Node"), VPtr (1, []))) true true false))
                    1 eq_refl eq_refl eq_refl eq_refl eq_refl) as Hrec;
      destruct (populateExplicit nodeEnv fuel id s) as [st4 r4]
  end.
  simpl in Hrec. subst r4. discriminate.
Qed.

(** C3 (amended): a zero pointer-to-struct field with a bare or private
    directive, in a graph as [Provide] builds it. If the directive is not
    private and some unnamed object is a candidate, the first candidate's
    value is stored in the field and the edge to it is recorded. If no object
    is a candidate, or the directive is private, a zero struct is allocated, a
    record for it is registered with created set and private as the directive
    says, and the explicit pass runs on that record. When no cycle of struct
    types runs through private pointer and inline fields, that call returns,
    having written nothing into the memory there was before. If it returns
    without error, the field then receives the new pointer, the edge is
    recorded, and the fields of the new struct that the explicit pass resolves
    are set; if it returns an error or panics, so does the round, and the
    field is left as it was. *)
Theorem pointer_field_reuse_or_create (env : TypeEnv)
    (oid : nat) (ot : option type) (a : addr) (i : nat) (f : StructField.t)
    (st : state) (o : Object) (field : value) (tg : tag.t) (n : string) :
  objects st !! oid = Some o ->
  load (heap st) (fieldAddr a i) = Some field ->
  isNilOrZero field (StructField.Type_ f) = true ->
  parseTag (StructField.Tag f) = (Some tg, None) ->
  StructField.Exported f = true ->
  tag.Inline tg = false ->
  tag.Name tg = EmptyString ->
  StructField.Type_ f = TPtr (TStruct n) ->
  typedUnnamed st ->
  typesBacked st ->
  let fa := fieldAddr a i in
  let na : addr := (length (heap st), []) in
  let newObj := length (objects st) in
  let lit := objectLit (Some (TPtr (TStruct n), VPtr na)) (tag.Private tg) true false in
  let st3 :=
    registered lit (TPtr (TStruct n)) (setHeap st (heap st ++ [Zero env (TStruct n)])%list) in
  let run := fun fuel => explicitField env (populateExplicit env fuel) oid ot a i f st in
  (tag.Private tg = false ->
   (exists c, c ∈ unnamed (graph st)
              /\ isCandidate env (objects st) (TPtr (TStruct n)) c = true) ->
   exists eid e x,
     List.find (isCandidate env (objects st) (TPtr (TStruct n))) (unnamed (graph st))
       = Some eid
     /\ objects st !! eid = Some e /\ private e = false /\ Value e = Some x
     /\ forall fuel,
          snd (run fuel) = Done
          /\ load (heap (fst (run fuel))) fa = Some (snd x)
          /\ dependency (fst (run fuel)) oid (StructField.Name f) = Some eid
          /\ graph (fst (run fuel)) = graph st)
  /\ (tag.Private tg = true
      \/ (forall c, c ∈ unnamed (graph st) ->
            isCandidate env (objects st) (TPtr (TStruct n)) c = false) ->
      (objects st3 !! newObj = Some (withReflect lit)
       /\ created lit = true /\ private lit = tag.Private tg
       /\ newObj ∈ unnamed (graph st3)
       /\ load (heap st3) na = Some (Zero env (TStruct n))
       /\ isZero (Zero env (TStruct n)) = true
       /\ forall fs j fj, lookupStruct env n = Some fs -> fs !! j = Some fj ->
            exists w, load (heap st3) (fieldAddr na j) = Some w /\ isZero w = true)
      /\ (forall fuel,
            run fuel =
              match populateExplicit env fuel newObj st3 with
              | (st4, Done) =>
                  match setField fa (VPtr na) st4 with
                  | Some st5 => (addDep oid (StructField.Name f) newObj st5, Done)
                  | None => (st4, Panicked)
                  end
              | r => r
              end)
      /\ (forall (rk : string -> nat) (fuel : nat),
            ranked env rk -> callsNeeded env rk st <= fuel ->
            exists st4 r4,
              populateExplicit env fuel newObj st3 = (st4, r4)
              /\ r4 <> OutOfFuel
              /\ oldKept st st4
              /\ (r4 <> Done ->
                  run fuel = (st4, r4) /\ load (heap st4) fa = Some field)
              /\ (r4 = Done ->
                  exists st5,
                    setField fa (VPtr na) st4 = Some st5
                    /\ run fuel = (addDep oid (StructField.Name f) newObj st5, Done)
                    /\ load (heap (fst (run fuel))) fa = Some (VPtr na)
                    /\ dependency (fst (run fuel)) oid (StructField.Name f) = Some newObj
                    /\ newObj ∈ unnamed (graph (fst (run fuel)))
                    /\ (exists o', objects (fst (run fuel)) !! newObj = Some o'
                          /\ Value o' = Some (TPtr (TStruct n), VPtr na)
                          /\ created o' = true /\ private o' = tag.Private tg)
                    /\ (valuesNonZero st ->
                        fieldsSet env explicitTarget newObj (fst (run fuel)))))).
Proof.
  intros Ho Hload Hz Htag Hexp Hinl Hname Hty Htyped Hbacked fa na newObj lit st3 run.
  unfold isNilOrZero in Hz.
  assert (Hrun : forall fuel, run fuel = _) by
    (intros fuel;
     exact (explicitField_pointer env (populateExplicit env fuel) oid ot a i f st
              field tg n Hload Hz Htag Hexp Hinl Hname Hty)).
  cbv zeta in Hrun. fold fa na newObj lit st3 in Hrun.
  assert (Hscan : findAssignable env (objects st) (TPtr (TStruct n)) (unnamed (graph st)) =
    match List.find (isCandidate env (objects st) (TPtr (TStruct n))) (unnamed (graph st)) with
    | Some eid =>
        match objects st !! eid with
        | Some e => match Value e with Some x => Found eid x | None => ScanPanic end
        | None => ScanPanic
        end
    | None => NotFound
    end).
  { apply findAssignable_find. intros eid Hin.
    destruct (Htyped eid Hin) as (e & x & He & Hv & Ht & _). eauto. }
  split.
  - intros Hpriv (c & Hc & Hcand).
    destruct (List.find _ (unnamed (graph st))) as [eid|] eqn:Hfind.
    2: { exfalso. apply list_elem_of_In in Hc.
         pose proof (find_none _ _ Hfind c Hc) as Hn. simpl in Hn. congruence. }
    destruct (find_isCandidate _ _ _ _ _ Hfind) as [Hin Hce].
    destruct (Htyped eid Hin) as (e & x & He & Hv & Ht & _).
    exists eid, e, x.
    assert (Hp : private e = false).
    { unfold isCandidate in Hce. rewrite He in Hce.
      destruct (private e); [discriminate|reflexivity]. }
    repeat (split; [assumption || reflexivity|]).
    intros fuel. specialize (Hrun fuel). rewrite Hpriv, Hscan, He, Hv in Hrun.
    destruct (load_setField fa (boxFor (TPtr (TStruct n)) x) field st Hload) as [st1 Hset].
    rewrite Hset in Hrun. rewrite Hrun. simpl.
    destruct (setField_objects _ _ _ _ Hset) as [Hobjs Hgraph].
    repeat split; auto.
    + rewrite addDep_heap. apply (setField_load _ _ _ _ Hset).
    + eapply addDep_dependency. rewrite Hobjs. exact Ho.
    + rewrite addDep_graph. exact Hgraph.
  - intros Hcase.
    assert (Hfree : tag.Private tg || negb (typeTaken (graph st) (TPtr (TStruct n))) = true).
    { destruct Hcase as [->|Hnone]; [reflexivity|].
      destruct (typeTaken (graph st) (TPtr (TStruct n))) eqn:Ht; [|apply orb_true_r].
      exfalso. destruct (Hbacked _ Ht) as (eid & e & Hin & He & Hp & Hte).
      specialize (Hnone eid Hin). unfold isCandidate in Hnone.
      rewrite He, Hp, Hte in Hnone. unfold AssignableTo in Hnone.
      rewrite type_eqb_refl in Hnone. discriminate. }
    assert (Hrun' : forall fuel, run fuel =
           match populateExplicit env fuel newObj st3 with
           | (st4, Done) =>
               match setField fa (VPtr na) st4 with
               | Some st5 => (addDep oid (StructField.Name f) newObj st5, Done)
               | None => (st4, Panicked)
               end
           | r => r
           end).
    { intros fuel. rewrite Hrun, Hfree.
      destruct (tag.Private tg) eqn:Hp; [reflexivity|].
      destruct Hcase as [?|Hnone]; [discriminate|].
      rewrite Hscan.
      destruct (List.find _ (unnamed (graph st))) as [eid|] eqn:Hfind; [|reflexivity].
      destruct (find_isCandidate _ _ _ _ _ Hfind) as [Hin Hce].
      rewrite (Hnone eid Hin) in Hce. discriminate. }
    assert (Hnew : objects st3 !! newObj = Some (withReflect lit)).
    { unfold st3, newObj. simpl. apply lookup_appended. }
    assert (Hin3 : newObj ∈ unnamed (graph st3)).
    { unfold st3. simpl. apply elem_of_app. right. left. }
    assert (Hna : heap st3 !! length (heap st) = Some (Zero env (TStruct n))).
    { unfold st3. simpl. rewrite lookup_app_r by lia. rewrite Nat.sub_diag. reflexivity. }
    split; [|split; [exact Hrun'|]].
    { split; [exact Hnew|]. split; [reflexivity|]. split; [reflexivity|].
      split; [exact Hin3|].
      split; [unfold load, na; simpl fst; simpl snd; rewrite Hna; reflexivity|].
      split; [apply isZero_Zero|].
      intros fs j fj Hl Hj. unfold load, fieldAddr, na. simpl fst. simpl snd.
      rewrite Hna. apply (Zero_fields env n fs j fj Hl Hj). }
    intros rk fuel Hrk Hfuel.
    assert (Hst : extends st st3).
    { eapply extends_trans; [apply extends_setHeap|apply extends_registered]. }
    pose proof (populateExplicit_returns env rk Hrk fuel newObj st st3 Hst Hfuel) as Hret.
    pose proof (populateExplicit_extends env fuel newObj st3) as Hext.
    pose proof (populateExplicit_keepsValues env fuel newObj st3) as Hkeep.
    pose proof (populateExplicit_fresh env fuel newObj st3 (withReflect lit)
                  (length (heap st)) Hnew eq_refl
                  (ex_intro _ _ (conj Hna (isZero_Zero env (TStruct n))))) as Hfresh.
    specialize (Hrun' fuel).
    destruct (populateExplicit env fuel newObj st3) as [st4 r4] eqn:Hcall.
    simpl in Hret, Hext, Hkeep, Hfresh.
    assert (Hold : oldKept st st4).
    { intros b Hb. destruct Hfresh as [_ H]. rewrite H.
      - unfold st3. simpl. apply lookup_app_l. exact Hb.
      - lia.
      - unfold st3. simpl. rewrite length_app. simpl. lia. }
    assert (Hload4 : load (heap st4) fa = Some field).
    { pose proof (load_allocated st (fst a) (snd a ++ [i])%list field Hload) as Hb.
      unfold load in *. rewrite Hold; [exact Hload|exact Hb]. }
    exists st4, r4. split; [reflexivity|]. split; [exact Hret|]. split; [exact Hold|].
    split.
    { intros Hnd. split; [|exact Hload4]. rewrite Hrun'.
      destruct r4; try reflexivity. contradiction Hnd. reflexivity. }
    intros ->.
    destruct (load_setField fa (VPtr na) field st4 Hload4) as [st5 Hset].
    exists st5. split; [exact Hset|]. rewrite Hset in Hrun'. rewrite Hrun'. cbn [fst snd].
    split; [reflexivity|].
    destruct (setField_objects _ _ _ _ Hset) as [Hobjs Hgraph].
    destruct (ext_objects _ _ (extends_trans _ _ _ Hst Hext) oid o Ho) as (o4 & Ho4 & _).
    destruct (ext_objects _ _ Hext newObj _ Hnew) as (n4 & Hn4 & Hsame).
    assert (Hext5 : extends st4 (addDep oid (StructField.Name f) newObj st5)).
    { eapply extends_trans; [eapply extends_setField; eauto|apply extends_addDep]. }
    split; [rewrite addDep_heap; apply (setField_load _ _ _ _ Hset)|].
    split; [eapply addDep_dependency; rewrite Hobjs; exact Ho4|].
    split.
    { rewrite addDep_graph, Hgraph.
      destruct (ext_unnamed _ _ Hext) as [k ->]. apply elem_of_app. left. exact Hin3. }
    split.
    { destruct (ext_objects _ _ Hext5 newObj n4 Hn4) as (o' & Ho' & Hs').
      exists o'. split; [exact Ho'|].
      destruct Hsame as (V & _ & _ & _ & _ & P & C & _).
      destruct Hs' as (V' & _ & _ & _ & _ & P' & C' & _).
      rewrite V', V, C', C, P', P. simpl. auto. }
    intros Hnz.
    assert (Hnz3 : valuesNonZero st3).
    { apply (valuesNonZero_registered lit (TPtr (TStruct n)) (VPtr na)); try reflexivity.
      - apply orb_true_iff in Hfree as [Hp|Hf]; [left; exact Hp|right].
        apply negb_true_iff in Hf. exact Hf.
      - apply (valuesNonZero_frame st); [apply extends_setHeap|reflexivity|reflexivity|].
        exact Hnz. }
    destruct (populateExplicit_walks_explicit env fuel newObj st3 st4 _ Hnz3 Hnew Hcall)
      as (o1 & Ho1 & Hset1).
    eapply (fieldsSet_kept env explicitTarget newObj st4); [exact Hext5| |exact Ho1|].
    + eapply keepsValues_trans; [|apply keepsValues_heap, addDep_heap].
      eapply keepsValues_setField; [exact Hload4|exact Hz|apply keepsValues_refl|exact Hset].
    + apply Hset1. rewrite Hn4 in Ho1. injection Ho1 as <-.
      destruct Hsame as (_ & _ & -> & _). reflexivity.
Qed.

Lemma holderProvided_ok : typedUnnamed holderProvided /\ typesBacked holderProvided.
Proof. apply Provide_graph_ok, empty_graph_ok. Qed.

Lemma pointer_field_reuse_or_create_witness :
  (snd (explicitField serviceEnv (populateExplicit serviceEnv 1) 1 (Some tServiceB)
          (1, []) 0 fieldA reuseProvided) = Done
   /\ load (heap (fst (explicitField serviceEnv (populateExplicit serviceEnv 1) 1
                         (Some tServiceB) (1, []) 0 fieldA reuseProvided)))
        (1, [0]) = Some (VPtr (0, []))
   /\ dependency (fst (explicitField serviceEnv (populateExplicit serviceEnv 1) 1
                         (Some tServiceB) (1, []) 0 fieldA reuseProvided)) 1 "A" = Some 0)
  /\ (snd (explicitField holderEnv (populateExplicit holderEnv 6) 0 (Some tHolder)
             (0, []) 0 fieldLeaf holderProvided) = Done
      /\ load (heap (fst (explicitField holderEnv (populateExplicit holderEnv 6) 0
                            (Some tHolder) (0, []) 0 fieldLeaf holderProvided)))
           (0, [0]) = Some (VPtr (1, []))
      /\ dependency (fst (explicitField holderEnv (populateExplicit holderEnv 6) 0
                            (Some tHolder) (0, []) 0 fieldLeaf holderProvided)) 0 "L"
         = Some 1).
Proof.
  split.
  - destruct (proj1 (pointer_field_reuse_or_create serviceEnv 1 (Some tServiceB) (1, []) 0
                       fieldA reuseProvided _ VNil injectOnly "ServiceA"
                       eq_refl eq_refl eq_refl eq_refl eq_refl eq_refl eq_refl eq_refl
                       (proj1 reuseProvided_ok) (proj2 reuseProvided_ok))
                eq_refl (ex_intro _ 0 (conj (list_elem_of_here 0 [1]) eq_refl)))
      as (eid & e & x & Hfind & He & _ & Hv & Hrun).
    vm_compute in Hfind. injection Hfind as <-.
    vm_compute in He. injection He as <-. vm_compute in Hv. injection Hv as <-.
    destruct (Hrun 1) as (Hdone & Hload & Hdep & _). auto.
  - destruct (proj2 (pointer_field_reuse_or_create holderEnv 0 (Some tHolder) (0, []) 0
                       fieldLeaf holderProvided _ VNil injectPrivate "Leaf"
                       eq_refl eq_refl eq_refl eq_refl eq_refl eq_refl eq_refl eq_refl
                       (proj1 holderProvided_ok) (proj2 holderProvided_ok))
                (or_introl eq_refl)) as (_ & _ & Hcreate).
    destruct (Hcreate holderRank 6 holderEnv_ranked) as (st4 & r4 & Hcall & _ & _ & _ & Hdone).
    { vm_compute. repeat constructor. }
    vm_compute in Hcall. injection Hcall as <- <-.
    destruct (Hdone eq_refl) as (st5 & _ & Hrun & Hload & Hdep & _).
    rewrite Hrun. split; [reflexivity|]. rewrite Hrun in Hload, Hdep. auto.
Defined.
(** * Loops, taken apart *)

Lemma structLoop_app (step : nat -> StructField.t -> state -> state * outcome)
    (pre rest : list StructField.t) :
  forall i st,
    structLoop step i (pre ++ rest)%list st =
      match structLoop step i pre st with
      | (st', Done) => structLoop step (i + length pre) rest st'
      | r => r
      end.
Proof.
  induction pre as [|g pre IH]; intros i st; simpl.
  - rewrite Nat.add_0_r. reflexivity.
  - destruct (step i g st) as [st1 []]; try reflexivity.
    rewrite IH. replace (S i + length pre) with (i + S (length pre)) by lia. reflexivity.
Qed.

Lemma structLoop_Failed_inv (step : nat -> StructField.t -> state -> state * outcome)
    (fs : list StructField.t) :
  forall i st st' e,
    structLoop step i fs st = (st', Failed e) ->
    exists pre f post s,
      fs = (pre ++ f :: post)%list
      /\ structLoop step i pre st = (s, Done)
      /\ step (i + length pre) f s = (st', Failed e).
Proof.
  induction fs as [|g fs IH]; intros i st st' e; simpl; [discriminate|].
  destruct (step i g st) as [st1 r1] eqn:Hstep. destruct r1; try discriminate.
  - intros H. destruct (IH _ _ _ _ H) as (pre & f & post & s & -> & Hpre & Hf).
    exists (g :: pre), f, post, s. simpl. rewrite Hstep. split; [reflexivity|].
    split; [exact Hpre|]. rewrite <- Hf. f_equal. lia.
  - intros [= <- <-]. exists [], g, fs, st. simpl. rewrite Nat.add_0_r. auto.
Qed.

Lemma structLoop_Done_rounds (step : nat -> StructField.t -> state -> state * outcome)
    (fs : list StructField.t) :
  forall i st st',
    structLoop step i fs st = (st', Done) ->
    forall j f, fs !! j = Some f -> exists s s', step (i + j) f s = (s', Done).
Proof.
  induction fs as [|g fs IH]; intros i st st' Hrun j f Hj; [discriminate|].
  simpl in Hrun. destruct (step i g st) as [st1 r1] eqn:Hstep.
  destruct r1; try discriminate.
  destruct j as [|j].
  - injection Hj as <-. rewrite Nat.add_0_r. eauto.
  - destruct (IH _ _ _ Hrun j f Hj) as (s & s' & H). exists s, s'.
    rewrite <- H. f_equal. lia.
Qed.

Lemma rangeUnnamed_app (f : nat -> state -> state * outcome) (l1 l2 : list nat) :
  forall st,
    rangeUnnamed f (l1 ++ l2)%list st =
      match rangeUnnamed f l1 st with
      | (st', Done) => rangeUnnamed f l2 st'
      | r => r
      end.
Proof.
  induction l1 as [|k l1 IH]; intros st; simpl; [reflexivity|].
  destruct (objects st !! k) as [o|]; [|reflexivity].
  destruct (Complete o); [apply IH|].
  destruct (f k st) as [st1 []]; try reflexivity. apply IH.
Qed.

Lemma rangeNamed_app (f : nat -> state -> state * outcome) (k1 k2 : list string) :
  forall st,
    rangeNamed f (k1 ++ k2)%list st =
      match rangeNamed f k1 st with
      | (st', Done) => rangeNamed f k2 st'
      | r => r
      end.
Proof.
  induction k1 as [|k k1 IH]; intros st; simpl; [reflexivity|].
  destruct (named (graph st) !! k) as [oid|]; [|apply IH].
  destruct (objects st !! oid) as [o|]; [|reflexivity].
  destruct (Complete o); [apply IH|].
  destruct (f oid st) as [st1 []]; try reflexivity. apply IH.
Qed.

(** * What the explicit pass has checked on the records it walked *)

Lemma visited_kept (Q : Object -> Prop) (s s' : state) (oid : nat) :
  (forall o o', sameButFields o o' -> Q o -> Q o') ->
  extends s s' -> visited Q s oid -> visited Q s' oid.
Proof.
  intros HQ Hext (o & Ho & Hq).
  destruct (ext_objects _ _ Hext oid o Ho) as (o' & Ho' & Hsame).
  exists o'. split; [exact Ho'|]. intros Hc. apply (HQ o o' Hsame). apply Hq.
  destruct Hsame as (_ & _ & <- & _). exact Hc.
Qed.

Section Visits.

Variable env : TypeEnv.
Variable fuel : nat.
Variable Q : Object -> Prop.

Hypothesis Q_same : forall o o', sameButFields o o' -> Q o -> Q o'.

Hypothesis call_Q :
  forall oid s s' o,
    objects s !! oid = Some o -> populateExplicit env fuel oid s = (s', Done) -> Q o.

Lemma call_visits (oid : nat) (s s' : state) (o : Object) :
  objects s !! oid = Some o -> populateExplicit env fuel oid s = (s', Done) ->
  visited Q s' oid.
Proof.
  intros Ho Hrun. apply (visited_kept Q s s' oid Q_same).
  - pose proof (populateExplicit_extends env fuel oid s) as H. rewrite Hrun in H. exact H.
  - exists o. split; [exact Ho|]. intros _. eapply call_Q; eauto.
Qed.

Lemma rangeNamed_visits (ks : list string) :
  forall st st',
    rangeNamed (populateExplicit env fuel) ks st = (st', Done) ->
    extends st st'
    /\ forall k oid, k ∈ ks -> named (graph st') !! k = Some oid -> visited Q st' oid.
Proof.
  induction ks as [|k ks IH]; intros st st' Hrun.
  { injection Hrun as <-. split; [apply extends_refl|]. intros k oid Hin. inversion Hin. }
  simpl in Hrun.
  destruct (named (graph st) !! k) as [oid|] eqn:Hk.
  2: { destruct (IH st st' Hrun) as [Hext Hv]. split; [exact Hext|].
       intros k' oid' Hin Hk'. apply elem_of_cons in Hin as [->|Hin]; [|eauto].
       rewrite (ext_named _ _ Hext), Hk in Hk'. discriminate. }
  destruct (objects st !! oid) as [o|] eqn:Ho; [|discriminate].
  destruct (Complete o) eqn:Hc.
  - destruct (IH st st' Hrun) as [Hext Hv]. split; [exact Hext|].
    intros k' oid' Hin Hk'. apply elem_of_cons in Hin as [->|Hin]; [|eauto].
    rewrite (ext_named _ _ Hext), Hk in Hk'. injection Hk' as <-.
    apply (visited_kept Q st st' oid Q_same Hext).
    exists o. split; [exact Ho|]. intros Hc'. congruence.
  - destruct (populateExplicit env fuel oid st) as [st1 r1] eqn:Hstep.
    destruct r1; try discriminate.
    pose proof (populateExplicit_extends env fuel oid st) as Hext1.
    rewrite Hstep in Hext1. simpl in Hext1.
    destruct (IH st1 st' Hrun) as [Hext Hv].
    split; [eapply extends_trans; eassumption|].
    intros k' oid' Hin Hk'. apply elem_of_cons in Hin as [->|Hin]; [|eauto].
    rewrite (ext_named _ _ Hext), (ext_named _ _ Hext1), Hk in Hk'. injection Hk' as <-.
    apply (visited_kept Q st1 st' oid Q_same Hext).
    exact (call_visits oid st st1 o Ho Hstep).
Qed.

Lemma explicitLoop_visits (rounds : nat) :
  forall i st st',
    explicitLoop env fuel rounds i st = (st', Done) ->
    (forall j oid, j < i -> unnamed (graph st) !! j = Some oid -> visited Q st oid) ->
    extends st st'
    /\ forall oid, oid ∈ unnamed (graph st') -> visited Q st' oid.
Proof.
  induction rounds as [|rounds IH]; intros i st st' Hrun Hinv; [discriminate|].
  simpl in Hrun.
  destruct (unnamed (graph st) !! i) as [oid|] eqn:Hi.
  2: { injection Hrun as <-. split; [apply extends_refl|].
       intros oid Hin. apply list_elem_of_lookup in Hin as [j Hj].
       apply (Hinv j oid); [|exact Hj].
       apply lookup_ge_None in Hi. apply lookup_lt_Some in Hj. lia. }
  destruct (objects st !! oid) as [o|] eqn:Ho; [|discriminate].
  destruct (Complete o) eqn:Hc.
  - apply (IH (S i) st st' Hrun). intros j oid' Hj Hlook.
    destruct (decide (j = i)) as [->|Hne]; [|apply (Hinv j oid'); [lia|exact Hlook]].
    rewrite Hi in Hlook. injection Hlook as <-.
    exists o. split; [exact Ho|]. intros Hc'. congruence.
  - destruct (populateExplicit env fuel oid st) as [st1 r1] eqn:Hstep.
    destruct r1; try discriminate.
    pose proof (populateExplicit_extends env fuel oid st) as Hext1.
    rewrite Hstep in Hext1. simpl in Hext1.
    destruct (IH (S i) st1 st' Hrun) as [Hext Hv].
    + intros j oid' Hj Hlook.
      destruct (ext_unnamed _ _ Hext1) as [k Hk].
      destruct (decide (j = i)) as [->|Hne].
      * rewrite Hk, (lookup_app_l_Some _ _ _ _ Hi) in Hlook. injection Hlook as <-.
        exact (call_visits oid st st1 o Ho Hstep).
      * apply (visited_kept Q st st1 oid' Q_same Hext1). apply (Hinv j oid'); [lia|].
        rewrite Hk in Hlook. rewrite lookup_app_l in Hlook; [exact Hlook|].
        apply lookup_lt_Some in Hi. lia.
    + split; [eapply extends_trans; eassumption|exact Hv].
Qed.

End Visits.

Lemma taggedExported_same (env : TypeEnv) (o o' : Object) :
  sameButFields o o' -> taggedExported env o -> taggedExported env o'.
Proof.
  intros Hsame H a fs j f tg Hw Hj Htag. rewrite (walkTarget_same env o o' Hsame) in Hw.
  exact (H a fs j f tg Hw Hj Htag).
Qed.

(** A call of the explicit pass that returns without error has been through
    the test of every field with a directive. *)
Lemma populateExplicit_exported (env : TypeEnv) (fuel : nat) (oid : nat) (s s' : state)
    (o : Object) :
  objects s !! oid = Some o -> populateExplicit env fuel oid s = (s', Done) ->
  taggedExported env o.
Proof.
  intros Ho Hrun a fs j f tg Hw Hj Htag.
  destruct fuel as [|fuel]; [discriminate|]. simpl in Hrun. rewrite Ho, Hw in Hrun.
  destruct (structLoop_Done_rounds _ _ _ _ _ Hrun j f Hj) as (sj & sj' & Hstep).
  unfold explicitField in Hstep.
  destruct (load (heap sj) (fieldAddr a (0 + j))); [|discriminate].
  rewrite Htag in Hstep.
  destruct (StructField.Exported f); [reflexivity|discriminate].
Qed.

Lemma interfaceField_kept (P : state -> Prop) :
  (forall st st', extends st st' ->
     unnamed (graph st') = unnamed (graph st) ->
     unnamedType (graph st') = unnamedType (graph st) ->
     P st -> P st') ->
  forall env oid ot a i f st,
    P st -> P (fst (interfaceField env oid ot a i f st)).
Proof.
  intros Hframe env oid ot a i f st Hok. unfold interfaceField.
  repeat case_match; simpl; try exact Hok. apply interfaceScan_kept; assumption.
Qed.

Lemma typedUnnamed_frame (st st' : state) :
  extends st st' ->
  unnamed (graph st') = unnamed (graph st) ->
  unnamedType (graph st') = unnamedType (graph st) ->
  typedUnnamed st -> typedUnnamed st'.
Proof.
  intros Hext Hu _ Hty eid Hin. rewrite Hu in Hin.
  destruct (Hty eid Hin) as (e & x & He & Hv & Hrt & Hrv).
  destruct (ext_objects _ _ Hext eid e He) as (e' & He' & V & _ & _ & T & RV & _).
  exists e', x. rewrite V, T, RV. auto.
Qed.

Lemma extends_frame (s : state) (st st' : state) :
  extends st st' ->
  unnamed (graph st') = unnamed (graph st) ->
  unnamedType (graph st') = unnamedType (graph st) ->
  extends s st -> extends s st'.
Proof. intros H _ _ H0. eapply extends_trans; eassumption. Qed.
(** * The interface pass inside [Populate] *)

Lemma interfacePass_extends (env : TypeEnv) (s : state) :
  forall oid s1 (o : Object), objects s1 !! oid = Some o -> Complete o = false ->
    extends s s1 -> extends s (fst (populateUnnamedInterface env oid s1)).
Proof.
  intros oid s1 o _ _ H. eapply extends_trans; [exact H|].
  apply (interface_step_relations env oid s1).
Qed.

Lemma explicitPass_extends (env : TypeEnv) (fuel : nat) (s : state) :
  forall oid s1 (o : Object), objects s1 !! oid = Some o -> Complete o = false ->
    extends s s1 -> extends s (fst (populateExplicit env fuel oid s1)).
Proof.
  intros oid s1 o _ _ H. eapply extends_trans; [exact H|].
  apply populateExplicit_extends.
Qed.

(** In a run of [Populate], the record that the interface pass is called on
    has been through the explicit pass, and what the call returns decides how
    [Populate] goes on. *)
Lemma interfacePassCalled_spec (env : TypeEnv) (fuel : nat) (ks1 ks4 : list string)
    (s : state) (oid : nat) (st0 : state) (rest : state -> state * outcome) (o : Object) :
  interfacePassCalled env fuel ks1 ks4 s oid st0 rest ->
  objects st0 !! oid = Some o -> Complete o = false ->
  taggedExported env o
  /\ Populate env fuel ks1 ks4 s =
       match populateUnnamedInterface env oid st0 with
       | (s', Done) => rest s'
       | r => r
       end.
Proof.
  intros (st1 & st2 & H1 & H2 & Hcase) Ho Hc.
  pose proof (explicitLoop_visits env fuel (taggedExported env) (taggedExported_same env)
                (populateExplicit_exported env fuel) fuel 0 st1 st2 H2) as Hloop2.
  destruct Hloop2 as [Hext12 Hv2]; [intros j k Hj; lia|].
  destruct Hcase as [(l1 & l2 & Hu & H3 & ->)|(st3 & ka & k & kb & -> & Hin & H3 & H4 & Hk & ->)].
  - pose proof (rangeUnnamed_kept (extends st2) (populateUnnamedInterface env) l1
                  (interfacePass_extends env st2) st2 (extends_refl st2)) as Hext20.
    rewrite H3 in Hext20. simpl in Hext20.
    split.
    + destruct (visited_kept _ st2 st0 oid (taggedExported_same env) Hext20)
        as (o' & Ho' & Hq).
      { apply Hv2. rewrite Hu. apply elem_of_app. right. left. }
      rewrite Ho in Ho'. injection Ho' as <-. apply Hq. exact Hc.
    + unfold Populate. rewrite H1, H2, Hu, rangeUnnamed_app, H3. simpl.
      rewrite Ho, Hc. destruct (populateUnnamedInterface env oid st0) as [s' []]; reflexivity.
  - destruct (rangeNamed_visits env fuel (taggedExported env) (taggedExported_same env)
                (populateExplicit_exported env fuel) ks1 s st1 H1) as [_ Hv1].
    pose proof (rangeUnnamed_kept (extends st2) (populateUnnamedInterface env)
                  (unnamed (graph st2)) (interfacePass_extends env st2) st2
                  (extends_refl st2)) as Hext23.
    rewrite H3 in Hext23. simpl in Hext23.
    pose proof (rangeNamed_kept (extends st3) (populateUnnamedInterface env) ka
                  (interfacePass_extends env st3) st3 (extends_refl st3)) as Hext30.
    rewrite H4 in Hext30. simpl in Hext30.
    assert (Hext10 : extends st1 st0).
    { eapply extends_trans; [exact Hext12|]. eapply extends_trans; eassumption. }
    split.
    + destruct (visited_kept _ st1 st0 oid (taggedExported_same env) Hext10)
        as (o' & Ho' & Hq).
      { apply (Hv1 k oid Hin). rewrite <- (ext_named _ _ Hext10). exact Hk. }
      rewrite Ho in Ho'. injection Ho' as <-. apply Hq. exact Hc.
    + unfold Populate. rewrite H1, H2, H3, rangeNamed_app, H4. simpl.
      rewrite Hk, Ho, Hc.
      destruct (populateUnnamedInterface env oid st0) as [s' []]; reflexivity.
Qed.

Lemma passReaches_run (env : TypeEnv) (oid : nat) (st0 : state) (o : Object) (a : addr)
    (pre : list StructField.t) (f : StructField.t) (post : list StructField.t)
    (st : state) :
  passReaches env oid st0 o a pre f post st ->
  populateUnnamedInterface env oid st0 =
    match interfaceField env oid (reflectType o) a (length pre) f st with
    | (st', Done) =>
        structLoop (interfaceField env oid (reflectType o) a) (S (length pre)) post st'
    | r => r
    end.
Proof.
  intros (Ho & Hw & Hpre). unfold populateUnnamedInterface.
  rewrite Ho, Hw, structLoop_app, Hpre. simpl.
  destruct (interfaceField _ _ _ _ _ _ st) as [st' []]; reflexivity.
Qed.

Lemma candidates_in (env : TypeEnv) (st : state) (ft : type) (e : nat) :
  e ∈ candidates env st ft ->
  e ∈ unnamed (graph st) /\ isCandidate env (objects st) ft e = true.
Proof.
  intros H. apply list_elem_of_In in H. apply filter_In in H as [H1 H2].
  split; [apply list_elem_of_In; exact H1|exact H2].
Qed.

(** C4: an unset interface field with a bare directive that is not private,
    met by the interface pass on a record. With no candidate among the
    unnamed objects the pass returns the no-assignable-value error and
    changes nothing; with exactly one the field receives that object's value,
    the edge is recorded and the pass goes on with the next field; with two or
    more the pass returns the ambiguity error, which carries the types and
    values of the first two candidates. In a run of [Populate] the fields that
    the interface pass meets are exported, the explicit pass having tested
    them, and [Populate] returns the error of the pass, or goes on with the
    next object when the pass returns without error. *)
Theorem interface_field_resolution (env : TypeEnv) (oid : nat) (st0 : state) (o : Object)
    (a : addr) (pre : list StructField.t) (f : StructField.t)
    (post : list StructField.t) (st : state) :
  passReaches env oid st0 o a pre f post st ->
  bareInterfaceField f st (fieldAddr a (length pre)) ->
  StructField.Exported f = true ->
  typedUnnamed st ->
  let fa := fieldAddr a (length pre) in
  let name := StructField.Name f in
  let ot := reflectType o in
  let cands := candidates env st (StructField.Type_ f) in
  let pass := populateUnnamedInterface env oid st0 in
  (cands = [] -> pass = (st, Failed (ErrNoAssignable name ot)))
  /\ (forall e1, cands = [e1] ->
        exists o1 x st1,
          objects st !! e1 = Some o1 /\ Value o1 = Some x
          /\ setField fa (VIface (fst x) (snd x)) st = Some st1
          /\ load (heap (addDep oid name e1 st1)) fa = Some (VIface (fst x) (snd x))
          /\ dependency (addDep oid name e1 st1) oid name = Some e1
          /\ graph (addDep oid name e1 st1) = graph st
          /\ pass = structLoop (interfaceField env oid ot a) (S (length pre)) post
                      (addDep oid name e1 st1))
  /\ (forall e1 e2 rest, cands = e1 :: e2 :: rest ->
        exists o1 o2 x st1,
          objects st !! e1 = Some o1 /\ objects st !! e2 = Some o2 /\ Value o1 = Some x
          /\ setField fa (VIface (fst x) (snd x)) st = Some st1
          /\ pass = (addDep oid name e1 st1,
                     Failed (ErrTwoAssignable name ot (reflectType o1) (Value o1)
                               (reflectType o2) (reflectValue o2))))
  /\ (forall fuel ks1 ks4 s rest,
        interfacePassCalled env fuel ks1 ks4 s oid st0 rest -> Complete o = false ->
        taggedExported env o
        /\ (forall s' e, pass = (s', Failed e) ->
              Populate env fuel ks1 ks4 s = (s', Failed e))
        /\ (forall s', pass = (s', Done) -> Populate env fuel ks1 ks4 s = rest s')).
Proof.
  intros Hreach (field & tg & Hload & Hz & Htag & Hp & Hn & Hk) Hexp Hty fa name ot cands pass.
  pose proof (passReaches_run env oid st0 o a pre f post st Hreach) as Hpass.
  fold pass ot in Hpass.
  destruct Hreach as (Ho0 & Hw & Hpre).
  assert (Hext : extends st0 st).
  { pose proof (structLoop_kept (extends st0) (interfaceField env oid ot a) pre
                  (fun i g s H => interfaceField_kept (extends st0) (extends_frame st0)
                                    env oid ot a i g s H)
                  0 st0 (extends_refl st0)) as H.
    unfold ot in H. rewrite Hpre in H. exact H. }
  destruct (ext_objects _ _ Hext oid o Ho0) as (o' & Ho & _).
  assert (Hrun := interfaceField_bare env oid ot a (length pre) f st field tg
                    Hload Hz Htag Hp Hn Hk Hexp).
  rewrite (interfaceScan_start env oid ot _ _ _ st field _ Hload (typedUnnamed_scan st Hty))
    in Hrun.
  fold fa name in Hrun. change (List.filter _ _) with cands in Hrun.
  assert (Hbox : forall x, boxFor (StructField.Type_ f) x = VIface (fst x) (snd x)).
  { intros x. unfold boxFor. rewrite Hk. reflexivity. }
  split; [|split; [|split]].
  - intros Hc. rewrite Hc in Hrun. rewrite Hpass, Hrun. reflexivity.
  - intros e1 Hc.
    destruct (candidates_head env st _ _ e1 [] Hty (fun k H => H) Hc)
      as (o1 & x & Ho1 & Hv & _).
    rewrite Hc, Ho1, Hv in Hrun.
    destruct (load_setField fa (boxFor (StructField.Type_ f) x) field st Hload) as [st1 Hset].
    rewrite Hset in Hrun. rewrite Hbox in Hset.
    destruct (setField_objects _ _ _ _ Hset) as [Hobjs Hgraph].
    exists o1, x, st1. repeat split; auto.
    + rewrite addDep_heap. apply (setField_load _ _ _ _ Hset).
    + eapply addDep_dependency. rewrite Hobjs. exact Ho.
    + rewrite addDep_graph. exact Hgraph.
    + rewrite Hpass, Hrun. reflexivity.
  - intros e1 e2 rest Hc.
    destruct (candidates_head env st _ _ e1 (e2 :: rest) Hty (fun k H => H) Hc)
      as (o1 & x & Ho1 & Hv & _).
    assert (Hin2 : e2 ∈ candidates env st (StructField.Type_ f)).
    { fold cands. rewrite Hc. right. left. }
    apply candidates_in in Hin2 as [Hin2 _].
    destruct (Hty e2 Hin2) as (o2 & x2 & Ho2 & _).
    rewrite Hc, Ho1, Hv, Ho2 in Hrun.
    destruct (load_setField fa (boxFor (StructField.Type_ f) x) field st Hload) as [st1 Hset].
    rewrite Hset in Hrun. rewrite Hbox in Hset.
    exists o1, o2, x, st1. repeat split; auto.
    rewrite Hpass, Hrun, Hv. reflexivity.
  - intros fuel ks1 ks4 s rest Hcalled Hc.
    destruct (interfacePassCalled_spec env fuel ks1 ks4 s oid st0 rest o Hcalled Ho0 Hc)
      as [Hq Hpop].
    fold pass in Hpop. split; [exact Hq|].
    split; [intros s' e He|intros s' He]; rewrite Hpop, He; reflexivity.
Qed.

Lemma loggerProvided_calls (both : bool) :
  interfacePassCalled loggerEnv 4 [] [] (loggerProvided both) 0 (loggerProvided both)
    (fun s' =>
       match rangeUnnamed (populateUnnamedInterface loggerEnv)
               (if both then [1; 2] else [1]) s' with
       | (st3, Done) => rangeNamed (populateUnnamedInterface loggerEnv) [] st3
       | r => r
       end).
Proof.
  exists (loggerProvided both), (loggerProvided both).
  split; [reflexivity|]. split; [destruct both; reflexivity|].
  left. exists [], (if both then [1; 2] else [1]).
  split; [destruct both; reflexivity|]. split; reflexivity.
Qed.

Lemma loggerProvided_reaches (both : bool) :
  passReaches loggerEnv 0 (loggerProvided both) (withReflect (objectFor tApp 0))
    (0, []) [] fieldLog [] (loggerProvided both)
  /\ bareInterfaceField fieldLog (loggerProvided both) (0, [0]).
Proof.
  split.
  - split; [destruct both; reflexivity|]. split; reflexivity.
  - exists VNil, injectOnly. destruct both; repeat split; reflexivity.
Qed.

Lemma interface_field_resolution_witness :
  snd (Populate loggerEnv 4 [] [] (loggerProvided true))
    = Failed (ErrTwoAssignable "Log" (Some tApp)
                (Some tConsole) (Some (tConsole, VPtr (1, [])))
                (Some tFile) (Some (VPtr (2, []))))
  /\ snd (Populate loggerEnv 4 [] [] (loggerProvided false)) = Done
  /\ load (heap (fst (Populate loggerEnv 4 [] [] (loggerProvided false)))) (0, [0])
     = Some (VIface tConsole (VPtr (1, []))).
Proof.
  split.
  - destruct (interface_field_resolution loggerEnv 0 (loggerProvided true) _ (0, []) []
                fieldLog [] (loggerProvided true)
                (proj1 (loggerProvided_reaches true)) (proj2 (loggerProvided_reaches true))
                eq_refl (loggerProvided_typed true)) as (_ & _ & Htwo & Hpop).
    destruct (Htwo 1 2 [] eq_refl) as (o1 & o2 & x & st1 & Ho1 & Ho2 & Hv & _ & Hpass).
    vm_compute in Ho1. injection Ho1 as <-. vm_compute in Ho2. injection Ho2 as <-.
    destruct (Hpop 4 [] [] (loggerProvided true) _ (loggerProvided_calls true) eq_refl)
      as (_ & Hfail & _).
    rewrite (Hfail _ _ Hpass). reflexivity.
  - destruct (interface_field_resolution loggerEnv 0 (loggerProvided false) _ (0, []) []
                fieldLog [] (loggerProvided false)
                (proj1 (loggerProvided_reaches false)) (proj2 (loggerProvided_reaches false))
                eq_refl (loggerProvided_typed false)) as (_ & Hone & _ & Hpop).
    destruct (Hone 1 eq_refl) as (o1 & x & st1 & Ho1 & Hv & Hset & _ & _ & _ & Hpass).
    vm_compute in Ho1. injection Ho1 as <-. vm_compute in Hv. injection Hv as <-.
    vm_compute in Hset. injection Hset as <-.
    destruct (Hpop 4 [] [] (loggerProvided false) _ (loggerProvided_calls false) eq_refl)
      as (_ & _ & Hdone).
    rewrite (Hdone _ Hpass). split; reflexivity.
Defined.

(** * The ambiguity error *)

Lemma candidates_kept (env : TypeEnv) (oid : nat) (name : string) (e1 : nat)
    (fa : addr) (v : value) (st st1 : state) (ft : type) :
  setField fa v st = Some st1 ->
  candidates env (addDep oid name e1 st1) ft = candidates env st ft.
Proof.
  intros Hset. destruct (setField_objects _ _ _ _ Hset) as [Hobjs Hgraph].
  unfold candidates. rewrite addDep_graph, Hgraph.
  apply filter_ext. intros k. apply isCandidate_same.
  rewrite <- Hobjs. apply addDep_lookup_other.
Qed.

(** A round of the interface pass that returns the ambiguity error. *)
Lemma interfaceField_ambiguity (env : TypeEnv) (oid : nat) (ot : option type) (a : addr)
    (i : nat) (f : StructField.t) (st st' : state) (name : string) (ot' t1 : option type)
    (v1 : iface) (t2 : option type) (v2 : option value) :
  typedUnnamed st ->
  interfaceField env oid ot a i f st
    = (st', Failed (ErrTwoAssignable name ot' t1 v1 t2 v2)) ->
  exists e1 e2 rest o1 o2 x st1,
    bareInterfaceField f st (fieldAddr a i)
    /\ StructField.Exported f = true
    /\ candidates env st (StructField.Type_ f) = e1 :: e2 :: rest
    /\ objects st !! e1 = Some o1 /\ objects st !! e2 = Some o2 /\ Value o1 = Some x
    /\ setField (fieldAddr a i) (VIface (fst x) (snd x)) st = Some st1
    /\ st' = addDep oid (StructField.Name f) e1 st1
    /\ name = StructField.Name f /\ ot' = ot
    /\ t1 = reflectType o1 /\ v1 = Some x /\ t2 = reflectType o2 /\ v2 = reflectValue o2.
Proof.
  intros Hty Hrun. pose proof Hrun as Hrun0. unfold interfaceField in Hrun.
  destruct (load (heap st) (fieldAddr a i)) as [field|] eqn:Hload; [|discriminate].
  destruct (parseTag (StructField.Tag f)) as [[tg|] [err|]] eqn:Htag; try discriminate.
  destruct (kindOf (StructField.Type_ f)) eqn:Hk; try discriminate. cbn [Kind_eqb negb] in Hrun.
  destruct (tag.Private tg) eqn:Hp; [discriminate|].
  destruct (StructField.Exported f) eqn:Hexp; [|discriminate]. cbn [negb] in Hrun.
  destruct (isNilOrZero field (StructField.Type_ f)) eqn:Hz; [|discriminate].
  cbn [negb] in Hrun.
  destruct (String.eqb (tag.Name tg) EmptyString) eqn:Hn; [|discriminate].
  apply String.eqb_eq in Hn. clear Hrun.
  rewrite (interfaceField_bare env oid ot a i f st field tg Hload Hz Htag Hp Hn Hk Hexp)
    in Hrun0.
  rewrite (interfaceScan_start env oid ot _ _ _ st field _ Hload (typedUnnamed_scan st Hty))
    in Hrun0.
  change (List.filter _ _) with (candidates env st (StructField.Type_ f)) in Hrun0.
  destruct (candidates env st (StructField.Type_ f)) as [|e1 [|e2 rest]] eqn:Hc;
    try discriminate.
  { destruct (objects st !! e1) as [o1|]; [|discriminate].
    destruct (Value o1) as [x|]; [|discriminate].
    destruct (setField _ _ st); discriminate. }
  destruct (objects st !! e1) as [o1|] eqn:Ho1; [|discriminate].
  destruct (Value o1) as [x|] eqn:Hv; [|discriminate].
  destruct (setField _ _ st) as [st1|] eqn:Hset; [|discriminate].
  destruct (objects st !! e2) as [o2|] eqn:Ho2; [|discriminate].
  injection Hrun0 as <- <- <- <- <- <- <-.
  unfold boxFor in Hset. rewrite Hk in Hset.
  exists e1, e2, rest, o1, o2, x, st1. repeat split; auto.
  exists field, tg. repeat split; auto.
Qed.

(** C10: when the interface pass on a record returns the ambiguity error, the
    error is for one of the record's fields of interface type that has two
    or more candidates; in the state returned that field is no longer nil, it
    holds the value of the first candidate, and the edge to that candidate is
    recorded. The error names the field and carries the types and values of
    the first two candidates. [Populate] returns this state with the error. *)
Theorem ambiguity_leaves_first_candidate (env : TypeEnv) (oid : nat) (st0 st' : state)
    (o : Object) (a : addr) (fs : list StructField.t) (name : string)
    (ot t1 : option type) (v1 : iface) (t2 : option type) (v2 : option value) :
  objects st0 !! oid = Some o ->
  walkTarget env o = Walk a fs ->
  typedUnnamed st0 ->
  populateUnnamedInterface env oid st0
    = (st', Failed (ErrTwoAssignable name ot t1 v1 t2 v2)) ->
  (exists j f e1 e2 rest o1 o2 x,
      fs !! j = Some f /\ StructField.Name f = name
      /\ kindOf (StructField.Type_ f) = Interface
      /\ candidates env st' (StructField.Type_ f) = e1 :: e2 :: rest
      /\ objects st' !! e1 = Some o1 /\ objects st' !! e2 = Some o2
      /\ Value o1 = Some x
      /\ t1 = reflectType o1 /\ v1 = Value o1
      /\ t2 = reflectType o2 /\ v2 = reflectValue o2
      /\ load (heap st') (fieldAddr a j) = Some (VIface (fst x) (snd x))
      /\ isNilOrZero (VIface (fst x) (snd x)) (StructField.Type_ f) = false
      /\ dependency st' oid name = Some e1)
  /\ (forall fuel ks1 ks4 s rest,
        interfacePassCalled env fuel ks1 ks4 s oid st0 rest -> Complete o = false ->
        Populate env fuel ks1 ks4 s
          = (st', Failed (ErrTwoAssignable name ot t1 v1 t2 v2))).
Proof.
  intros Ho0 Hw Hty0 Hpass. split.
  2: { intros fuel ks1 ks4 s rest Hcalled Hc.
       destruct (interfacePassCalled_spec env fuel ks1 ks4 s oid st0 rest o Hcalled Ho0 Hc)
         as [_ Hpop].
       rewrite Hpop, Hpass. reflexivity. }
  unfold populateUnnamedInterface in Hpass. rewrite Ho0, Hw in Hpass.
  destruct (structLoop_Failed_inv _ _ _ _ _ _ Hpass) as (pre & f & post & st & -> & Hpre & Hf).
  simpl in Hf.
  assert (Hext : extends st0 st).
  { pose proof (structLoop_kept (extends st0) (interfaceField env oid (reflectType o) a) pre
                  (fun i g s H => interfaceField_kept (extends st0) (extends_frame st0)
                                    env oid (reflectType o) a i g s H)
                  0 st0 (extends_refl st0)) as H.
    rewrite Hpre in H. exact H. }
  assert (Hty : typedUnnamed st).
  { pose proof (structLoop_kept typedUnnamed (interfaceField env oid (reflectType o) a) pre
                  (fun i g s H => interfaceField_kept typedUnnamed typedUnnamed_frame
                                    env oid (reflectType o) a i g s H)
                  0 st0 Hty0) as H.
    rewrite Hpre in H. exact H. }
  destruct (ext_objects _ _ Hext oid o Ho0) as (o' & Ho & _).
  destruct (interfaceField_ambiguity _ _ _ _ _ _ _ _ _ _ _ _ _ _ Hty Hf)
    as (e1 & e2 & rest & o1 & o2 & x & st1 & Hbare & Hexp & Hc & Ho1 & Ho2 & Hv & Hset
        & -> & -> & -> & -> & -> & -> & ->).
  destruct Hbare as (field & tg & _ & _ & _ & _ & _ & Hk).
  destruct (setField_objects _ _ _ _ Hset) as [Hobjs Hgraph].
  destruct (addDep_lookup_other oid (StructField.Name f) e1 st1 e1) as (s1 & Hs1 & Hl1).
  destruct (addDep_lookup_other oid (StructField.Name f) e1 st1 e2) as (s2 & Hs2 & Hl2).
  rewrite Hobjs, Ho1 in Hl1. rewrite Hobjs, Ho2 in Hl2. simpl in Hl1, Hl2.
  destruct (Hs1 o1) as (V1 & _ & _ & T1 & _).
  destruct (Hs2 o2) as (_ & _ & _ & T2 & RV2 & _).
  exists (length pre), f, e1, e2, rest, (s1 o1), (s2 o2), x.
  split; [apply list_lookup_middle; reflexivity|].
  split; [reflexivity|]. split; [exact Hk|].
  split; [rewrite (candidates_kept _ _ _ _ _ _ _ _ _ Hset); exact Hc|].
  split; [exact Hl1|]. split; [exact Hl2|].
  split; [rewrite V1; exact Hv|].
  split; [rewrite T1; reflexivity|]. split; [rewrite V1, Hv; reflexivity|].
  split; [rewrite T2; reflexivity|]. split; [rewrite RV2; reflexivity|].
  split; [rewrite addDep_heap; apply (setField_load _ _ _ _ Hset)|].
  split; [reflexivity|].
  eapply addDep_dependency. rewrite Hobjs. exact Ho.
Qed.

Lemma ambiguity_leaves_first_candidate_witness :
  load (heap (fst (Populate loggerEnv 4 [] [] (loggerProvided true)))) (0, [0])
    = Some (VIface tConsole (VPtr (1, [])))
  /\ dependency (fst (Populate loggerEnv 4 [] [] (loggerProvided true))) 0 "Log" = Some 1
  /\ load (heap (loggerProvided true)) (0, [0]) = Some VNil.
Proof.
  assert (Hpass : populateUnnamedInterface loggerEnv 0 (loggerProvided true)
                  = (fst (populateUnnamedInterface loggerEnv 0 (loggerProvided true)),
                     Failed (ErrTwoAssignable "Log" (Some tApp)
                               (Some tConsole) (Some (tConsole, VPtr (1, [])))
                               (Some tFile) (Some (VPtr (2, []))))))
    by (vm_compute; reflexivity).
  destruct (ambiguity_leaves_first_candidate loggerEnv 0 (loggerProvided true) _
              (withReflect (objectFor tApp 0)) (0, []) [fieldLog] _ _ _ _ _ _
              eq_refl eq_refl (loggerProvided_typed true) Hpass)
    as [(j & f & e1 & e2 & rest & o1 & o2 & x & Hj & _ & _ & Hc & Ho1 & _ & Hv & _ & _ & _
         & _ & Hload & _ & Hdep) Hpop].
  rewrite (Hpop 4 [] [] (loggerProvided true) _ (loggerProvided_calls true) eq_refl).
  cbn [fst].
  destruct j as [|j]; [|destruct j; discriminate]. injection Hj as <-.
  vm_compute in Hc. injection Hc as <- _ _.
  vm_compute in Ho1. injection Ho1 as <-. vm_compute in Hv. injection Hv as <-.
  split; [exact Hload|]. split; [exact Hdep|reflexivity].
Defined.
(** * Which errors reach the caller *)

(** C5 (amended): the errors of the engine reach the caller, with one
    exception. The loops over fields, over the unnamed objects and over the
    names stop at the first call that fails and return its error; both passes
    return the error of the round that fails; [Populate] returns the error of
    the first pass that fails, [Provide] the error of the first object it
    refuses, the container and the package-level [Populate] the error of the
    call they make. In a round of the explicit pass, the error of the call on
    a record created for a nil field fails the round, and so does the refusal
    of that record (which does not arise in a graph as [Provide] builds it);
    the registration of an inline struct cannot fail. The errors that a round
    builds itself for an unsupported field and for a private interface field
    are its result. The exception is the registration of a value found by
    deep injection: when [Provide] refuses it, the error is dropped, memory
    and graph stay as they are, and the round ends without error; when it is
    accepted, the round returns what the explicit pass on the new record
    returns. *)
Theorem errors_returned_except_refused_registration :
  (forall (env : TypeEnv) (fuel : nat) (oid : nat) (ot : option type) (a : addr)
          (i : nat) (f : StructField.t) (st : state) (p : addr) (tg : tag.t),
      load (heap st) (fieldAddr a i) = Some (VPtr p) ->
      parseTag (StructField.Tag f) = (Some tg, None) ->
      StructField.Exported f = true ->
      tag.Inline tg = false ->
      isStructPtr (StructField.Type_ f) = true ->
      tag.Private tg = false ->
      tracked st (Some (StructField.Type_ f, VPtr p)) = false ->
      let reg :=
        Provide [length (objects st)]
          (snd (newObject (objectLit (Some (StructField.Type_ f, VPtr p)) false false false)
                  st)) in
      let run := explicitField env (populateExplicit env fuel) oid ot a i f st in
      (forall st' e, reg = (st', Failed e) ->
         run = (st', Done) /\ heap st' = heap st /\ graph st' = graph st)
      /\ (forall st2, reg = (st2, Done) ->
            run = populateExplicit env fuel (length (objects st)) st2))
  /\ (forall (env : TypeEnv) (fuel : nat) (oid : nat) (ot : option type) (a : addr)
             (i : nat) (f : StructField.t) (st : state) (field : value) (tg : tag.t)
             (n : string),
         load (heap st) (fieldAddr a i) = Some field ->
         isZero field = true ->
         parseTag (StructField.Tag f) = (Some tg, None) ->
         StructField.Exported f = true ->
         tag.Inline tg = false ->
         tag.Name tg = EmptyString ->
         StructField.Type_ f = TPtr (TStruct n) ->
         tag.Private tg = false ->
         findAssignable env (objects st) (TPtr (TStruct n)) (unnamed (graph st)) = NotFound ->
         typeTaken (graph st) (TPtr (TStruct n)) = true ->
         snd (explicitField env (populateExplicit env fuel) oid ot a i f st)
         = Failed (ErrTwoUnnamed (TPtr (TStruct n))))
  /\ (forall (step : nat -> StructField.t -> state -> state * outcome) (i : nat)
             (fs1 : list StructField.t) (f : StructField.t) (fs2 : list StructField.t)
             (st st1 st2 : state) (e : error),
         structLoop step i fs1 st = (st1, Done) ->
         step (i + length fs1) f st1 = (st2, Failed e) ->
         structLoop step i (fs1 ++ f :: fs2)%list st = (st2, Failed e))
  /\ (forall (f : nat -> state -> state * outcome) (l1 : list nat) (oid : nat)
             (l2 : list nat) (st st1 st2 : state) (o : Object) (e : error),
         rangeUnnamed f l1 st = (st1, Done) ->
         objects st1 !! oid = Some o -> Complete o = false ->
         f oid st1 = (st2, Failed e) ->
         rangeUnnamed f (l1 ++ oid :: l2)%list st = (st2, Failed e))
  /\ (forall (f : nat -> state -> state * outcome) (ks1 : list string) (k : string)
             (ks2 : list string) (st st1 st2 : state) (oid : nat) (o : Object) (e : error),
         rangeNamed f ks1 st = (st1, Done) ->
         named (graph st1) !! k = Some oid ->
         objects st1 !! oid = Some o -> Complete o = false ->
         f oid st1 = (st2, Failed e) ->
         rangeNamed f (ks1 ++ k :: ks2)%list st = (st2, Failed e))
  /\ (forall (env : TypeEnv) (fuel rounds : nat) (i : nat) (st st2 : state) (oid : nat)
             (o : Object) (e : error),
         unnamed (graph st) !! i = Some oid ->
         objects st !! oid = Some o -> Complete o = false ->
         populateExplicit env fuel oid st = (st2, Failed e) ->
         explicitLoop env fuel (S rounds) i st = (st2, Failed e))
  /\ (forall (env : TypeEnv) (fuel : nat) (ks1 ks4 : list string) (st : state) (e : error),
         let p1 := rangeNamed (populateExplicit env fuel) ks1 st in
         let p2 := explicitLoop env fuel fuel 0 (fst p1) in
         let p3 := rangeUnnamed (populateUnnamedInterface env)
                     (unnamed (graph (fst p2))) (fst p2) in
         let p4 := rangeNamed (populateUnnamedInterface env) ks4 (fst p3) in
         (snd p1 = Failed e -> Populate env fuel ks1 ks4 st = p1)
         /\ (snd p1 = Done -> snd p2 = Failed e -> Populate env fuel ks1 ks4 st = p2)
         /\ (snd p1 = Done -> snd p2 = Done -> snd p3 = Failed e ->
             Populate env fuel ks1 ks4 st = p3)
         /\ (snd p1 = Done -> snd p2 = Done -> snd p3 = Done ->
             Populate env fuel ks1 ks4 st = p4))
  /\ (forall (l1 : list nat) (oid : nat) (l2 : list nat) (st st1 st2 : state) (e : error),
         Provide l1 st = (st1, Done) ->
         provideOne oid st1 = (st2, Failed e) ->
         Provide (l1 ++ oid :: l2)%list st = (st2, Failed e))
  /\ (forall (env : TypeEnv) (fuel : nat) (oid : nat) (ot : option type) (a : addr)
             (i : nat) (f : StructField.t) (st : state) (field : value) (tg : tag.t)
             (n : string) (st4 : state) (e : error),
         load (heap st) (fieldAddr a i) = Some field ->
         isZero field = true ->
         parseTag (StructField.Tag f) = (Some tg, None) ->
         StructField.Exported f = true ->
         tag.Inline tg = false ->
         tag.Name tg = EmptyString ->
         StructField.Type_ f = TPtr (TStruct n) ->
         (tag.Private tg = true
          \/ (findAssignable env (objects st) (TPtr (TStruct n)) (unnamed (graph st))
                = NotFound
              /\ typeTaken (graph st) (TPtr (TStruct n)) = false)) ->
         populateExplicit env fuel (length (objects st))
           (registered
              (objectLit (Some (TPtr (TStruct n), VPtr (length (heap st), [])))
                 (tag.Private tg) true false)
              (TPtr (TStruct n)) (setHeap st (heap st ++ [Zero env (TStruct n)])%list))
         = (st4, Failed e) ->
         explicitField env (populateExplicit env fuel) oid ot a i f st = (st4, Failed e))
  /\ (forall (env : TypeEnv) (st : state) (n : string),
         typedUnnamed st -> typesBacked st ->
         findAssignable env (objects st) (TPtr (TStruct n)) (unnamed (graph st)) = NotFound ->
         typeTaken (graph st) (TPtr (TStruct n)) = false)
  /\ (forall (v : type * value) (c e : bool) (st : state),
         isStructPtr (fst v) = true ->
         snd (Provide [length (objects st)] (snd (newObject (objectLit (Some v) true c e) st)))
         = Done)
  /\ (forall (env : TypeEnv) (fuel : nat) (oid : nat) (st st1 st2 : state) (o : Object)
             (a : addr) (fs1 : list StructField.t) (f : StructField.t)
             (fs2 : list StructField.t) (e : error),
         objects st !! oid = Some o ->
         walkTarget env o = Walk a (fs1 ++ f :: fs2)%list ->
         (structLoop (explicitField env (populateExplicit env fuel) oid (reflectType o) a)
            0 fs1 st = (st1, Done) ->
          explicitField env (populateExplicit env fuel) oid (reflectType o) a
            (length fs1) f st1 = (st2, Failed e) ->
          populateExplicit env (S fuel) oid st = (st2, Failed e))
         /\ (structLoop (interfaceField env oid (reflectType o) a) 0 fs1 st = (st1, Done) ->
             interfaceField env oid (reflectType o) a (length fs1) f st1 = (st2, Failed e) ->
             populateUnnamedInterface env oid st = (st2, Failed e)))
  /\ (forall (env : TypeEnv) (rec : nat -> state -> state * outcome) (oid : nat)
             (ot : option type) (a : addr) (i : nat) (f : StructField.t) (st : state)
             (field : value) (tg : tag.t),
         load (heap st) (fieldAddr a i) = Some field ->
         parseTag (StructField.Tag f) = (Some tg, None) ->
         (StructField.Exported f = true -> isZero field = true ->
          tag.Inline tg = false -> tag.Name tg = EmptyString ->
          kindOf (StructField.Type_ f) = OtherKind ->
          explicitField env rec oid ot a i f st
          = (st, Failed (ErrUnsupported (StructField.Name f) ot)))
         /\ (kindOf (StructField.Type_ f) = Interface -> tag.Private tg = true ->
             interfaceField env oid ot a i f st
             = (st, Failed (ErrPrivateInterface (StructField.Name f) ot))))
  /\ (forall (bean : iface) (rest : list iface) (st : state),
         let reg :=
           Provide [length (objects st)]
             (snd (newObject (objectLit bean false false false) st)) in
         (forall st' e, reg = (st', Failed e) ->
            Container.Provides (bean :: rest) st = (st', Failed e))
         /\ (forall st', reg = (st', Done) ->
               Container.Provides (bean :: rest) st = Container.Provides rest st'))
  /\ (forall (env : TypeEnv) (fuel : nat) (ks1 ks4 : list string) (values : list iface)
             (m : list value) (st : state) (e : error),
         (Container.Provides values (Container.NewContainer m) = (st, Failed e) ->
          inject.Populate env fuel ks1 ks4 values m = (st, Failed e))
         /\ (Container.Provides values (Container.NewContainer m) = (st, Done) ->
             inject.Populate env fuel ks1 ks4 values m = Populate env fuel ks1 ks4 st
             /\ Container.Populate env fuel ks1 ks4 st = Populate env fuel ks1 ks4 st)).
Proof.
  repeat match goal with |- _ /\ _ => split end.
  - intros env fuel oid ot a i f st p tg Hload Htag Hexp Hinl Hsp Hpriv Htr reg run.
    pose proof (explicitField_nonzero env (populateExplicit env fuel) oid ot a i f st
                  (VPtr p) tg Hload eq_refl Htag Hexp Hinl Hsp Hpriv) as Hrun.
    cbv zeta in Hrun. rewrite Htr in Hrun. fold run in Hrun.
    assert (Hreg := provideFresh_spec (StructField.Type_ f, VPtr p) false false false st).
    fold reg in Hreg. simpl fst in Hreg. rewrite Hsp in Hreg. cbn [orb] in Hreg.
    destruct (typeTaken (graph st) (StructField.Type_ f)); cbn [negb] in Hreg;
      rewrite Hreg; split; intros; simplify_eq; auto.
  - intros env fuel oid ot a i f st field tg n Hload Hz Htag Hexp Hinl Hname Hty Hpriv
      Hfind Htaken.
    rewrite (explicitField_pointer env (populateExplicit env fuel) oid ot a i f st
               field tg n Hload Hz Htag Hexp Hinl Hname Hty).
    cbv zeta. rewrite Hpriv, Hfind, Htaken. reflexivity.
  - exact structLoop_failure.
  - exact rangeUnnamed_failure.
  - exact rangeNamed_failure.
  - intros env fuel rounds i st st2 oid o e Hi Ho Hc Hrun. simpl.
    rewrite Hi, Ho, Hc, Hrun. reflexivity.
  - intros env fuel ks1 ks4 st e p1 p2 p3 p4. unfold Populate.
    fold p1. destruct p1 as [st1 r1] eqn:E1. simpl in p2. simpl.
    repeat split.
    + intros ->. reflexivity.
    + intros ->. subst p2. destruct (explicitLoop env fuel fuel 0 st1) as [st2 r2].
      simpl. intros ->. reflexivity.
    + intros ->. subst p3 p2. destruct (explicitLoop env fuel fuel 0 st1) as [st2 r2].
      simpl. intros ->.
      destruct (rangeUnnamed _ _ st2) as [st3 r3]. simpl. intros ->. reflexivity.
    + intros ->. subst p4 p3 p2. destruct (explicitLoop env fuel fuel 0 st1) as [st2 r2].
      simpl. intros ->.
      destruct (rangeUnnamed _ _ st2) as [st3 r3]. simpl. intros ->. reflexivity.
  - exact Provide_failure.
  - intros env fuel oid ot a i f st field tg n st4 e Hload Hz Htag Hexp Hinl Hname Hty
      Hcase Hrec.
    rewrite (explicitField_pointer env (populateExplicit env fuel) oid ot a i f st
               field tg n Hload Hz Htag Hexp Hinl Hname Hty).
    cbv zeta. revert Hrec. destruct Hcase as [Hp|[Hfind Hfree]].
    + rewrite Hp. cbn [orb]. intros ->. reflexivity.
    + destruct (tag.Private tg); cbn [orb]; rewrite ?Hfind, ?Hfree; cbn [negb];
        intros ->; reflexivity.
  - intros env st n Htyped Hbacked Hfind.
    destruct (typeTaken (graph st) (TPtr (TStruct n))) eqn:Ht; [|reflexivity].
    exfalso. destruct (Hbacked _ Ht) as (eid & e & Hin & He & Hp & Hte).
    rewrite findAssignable_find in Hfind.
    2: { intros k Hk. destruct (Htyped k Hk) as (e' & x & He' & Hv & Hrt & _). eauto. }
    destruct (List.find _ (unnamed (graph st))) as [c|] eqn:Hc.
    + destruct (find_isCandidate _ _ _ _ _ Hc) as [Hcin _].
      destruct (Htyped c Hcin) as (e' & x & He' & Hv & _).
      rewrite He', Hv in Hfind. discriminate.
    + apply list_elem_of_In in Hin. pose proof (find_none _ _ Hc eid Hin) as Hn.
      simpl in Hn. unfold isCandidate in Hn. rewrite He, Hp, Hte in Hn.
      unfold AssignableTo in Hn. rewrite type_eqb_refl in Hn. discriminate.
  - intros v c e st Hsp. rewrite provideFresh_spec, Hsp. reflexivity.
  - intros env fuel oid st st1 st2 o a fs1 f fs2 e Ho Hw. split.
    + intros H1 H2. simpl. rewrite Ho, Hw.
      apply (structLoop_failure _ 0 fs1 f fs2 st st1 st2 e H1). exact H2.
    + intros H1 H2. unfold populateUnnamedInterface. rewrite Ho, Hw.
      apply (structLoop_failure _ 0 fs1 f fs2 st st1 st2 e H1). exact H2.
  - intros env rec oid ot a i f st field tg Hload Htag. split.
    + intros Hexp Hz Hinl Hname Hk. unfold explicitField, isNilOrZero.
      rewrite Hload, Htag, Hexp, Hinl, Hz, Hname, Hk.
      destruct (StructField.Type_ f); try discriminate. reflexivity.
    + intros Hk Hp. unfold interfaceField. rewrite Hload, Htag, Hk, Hp. reflexivity.
  - intros bean rest st reg. subst reg. unfold newObject. cbn [snd]. split.
    + intros st' e Hreg. cbn [Container.Provides]. unfold newObject. rewrite Hreg.
      reflexivity.
    + intros st' Hreg. cbn [Container.Provides]. unfold newObject. rewrite Hreg.
      reflexivity.
  - intros env fuel ks1 ks4 values m st e. unfold inject.Populate, Container.NewContainer.
    split; intros ->; auto.
Qed.


Lemma errors_returned_except_refused_registration_witness :
  explicitField serviceEnv (populateExplicit serviceEnv 1) 2 (Some tServiceC) (2, []) 0
    fieldB crowdedProvided
  = (refused (objectLit (Some (tServiceB, VPtr (1, []))) false false false) crowdedProvided,
     Done).
Proof.
  apply (proj1 (proj1 errors_returned_except_refused_registration serviceEnv 1 2
                  (Some tServiceC) (2, []) 0 fieldB crowdedProvided (1, []) injectOnly
                  eq_refl eq_refl eq_refl eq_refl eq_refl eq_refl eq_refl)
           _ (ErrTwoUnnamed tServiceB)).
  reflexivity.
Defined.
(** * Named values that are not pointers to structs *)

Lemma namedNilProvided_ok :
  Container.ProvideWithName "nothing" None (Container.NewContainer [])
  = (namedNilProvided, Done).
Proof. reflexivity. Qed.

(** C9 (counterexample): [Provide] accepts a nil value under a name; the
    record has no type, and the explicit pass on it does not return nil. *)
Lemma named_nil_value_is_not_skipped : ~ namedValueIsSkipped noTypes 0 0 namedNilProvided.
Proof.
  intros H.
  destruct (H _ eq_refl ltac:(discriminate) ltac:(discriminate)) as [H1 _].
  vm_compute in H1. discriminate.
Qed.

(** C9 (amended): a named record whose value is not nil and has a type that
    is not a pointer to a struct is skipped by the explicit pass and by the
    interface pass: each returns nil at once and leaves memory, the objects
    and the graph as they were. On a named record whose value is nil, which
    has no type, both passes panic. *)
Theorem named_value_skipped (env : TypeEnv) (fuel : nat) (oid : nat) (st : state)
    (o : Object) :
  objects st !! oid = Some o ->
  Name o <> EmptyString ->
  (forall t, reflectType o = Some t -> isStructPtr t = false ->
     populateExplicit env (S fuel) oid st = (st, Done)
     /\ populateUnnamedInterface env oid st = (st, Done))
  /\ (reflectType o = None ->
      populateExplicit env (S fuel) oid st = (st, Panicked)
      /\ populateUnnamedInterface env oid st = (st, Panicked)).
Proof.
  intros Ho Hn. apply String.eqb_neq in Hn. split.
  - intros t Ht Hp.
    assert (Hw : walkTarget env o = Skip).
    { unfold walkTarget. rewrite Hn, Ht, Hp. reflexivity. }
    unfold populateUnnamedInterface. simpl. rewrite Ho, Hw. auto.
  - intros Ht.
    assert (Hw : walkTarget env o = Bad).
    { unfold walkTarget. rewrite Hn, Ht. reflexivity. }
    unfold populateUnnamedInterface. simpl. rewrite Ho, Hw. auto.
Qed.

Lemma named_value_skipped_witness :
  (populateExplicit noTypes 1 0 namedIntState = (namedIntState, Done)
   /\ populateUnnamedInterface noTypes 0 namedIntState = (namedIntState, Done))
  /\ (populateExplicit noTypes 1 0 namedNilProvided = (namedNilProvided, Panicked)
      /\ populateUnnamedInterface noTypes 0 namedNilProvided = (namedNilProvided, Panicked))
  /\ Populate noTypes 1 ["answer"] ["answer"] namedIntState = (namedIntState, Done)
  /\ Populate noTypes 1 ["nothing"] ["nothing"] namedNilProvided
     = (namedNilProvided, Panicked).
Proof.
  split; [|split; [|split; reflexivity]].
  - apply (proj1 (named_value_skipped noTypes 0 0 namedIntState _ eq_refl
                      ltac:(discriminate)) (TBasic "int")); reflexivity.
  - apply (proj2 (named_value_skipped noTypes 0 0 namedNilProvided _ eq_refl
                      ltac:(discriminate))); reflexivity.
Defined.
(** * A cycle through an inline field and a private pointer *)

Lemma carRecord_extends (st st' : state) (oid b : nat) :
  extends st st' -> carRecord st oid b -> carRecord st' oid b.
Proof.
  intros Hext (o & Ho & Hn & Hc & Hcase).
  destruct (ext_objects _ _ Hext oid o Ho) as (o' & Ho' & Hv & Hn' & Hc' & Ht & Hrv & _).
  exists o'. rewrite Hn', Hc', Ht, Hrv. auto.
Qed.

Lemma carRecord_address (st : state) (oid b b' : nat) :
  carRecord st oid b -> carRecord st oid b' -> b' = b.
Proof.
  intros (o & Ho & _ & _ & Hcase) (o' & Ho' & _ & _ & Hcase').
  rewrite Ho in Ho'. injection Ho' as <-.
  destruct Hcase as [[Ht Hv]|[Ht Hv]], Hcase' as [[Ht' Hv']|[Ht' Hv']]; congruence.
Qed.

Lemma parseTag_fieldEngine : parseTag (StructField.Tag fieldEngine) = (Some injectInline, None).
Proof. vm_compute. reflexivity. Qed.

Lemma parseTag_fieldOwner : parseTag (StructField.Tag fieldOwner) = (Some injectPrivate, None).
Proof. vm_compute. reflexivity. Qed.

(** The round for the engine of the car at [b], held by value. *)
Lemma car_round_engine (rec : nat -> state -> state * outcome) (oid : nat)
    (ot : option type) (b : nat) (st : state) (x : value) :
  heap st !! b = Some (VStruct [VStruct [x]]) ->
  (x = VNil \/ exists p, x = VPtr p) ->
  explicitField carEnv rec oid ot (b, []) 0 fieldEngine st
  = match x with
    | VNil =>
        (registered (objectLit (Some (tEngine, VPtr (b, [0]))) true false false) tEngine st,
         Done)
    | _ => (st, Done)
    end.
Proof.
  intros Hb Hx. unfold explicitField.
  assert (Hload : load (heap st) (fieldAddr (b, []) 0) = Some (VStruct [x])).
  { unfold load. simpl. rewrite Hb. reflexivity. }
  rewrite Hload, parseTag_fieldEngine. unfold isNilOrZero.
  destruct Hx as [->|[p ->]]; simpl; [|reflexivity].
  pose proof (provideFresh_spec (tEngine, VPtr (b, [0])) true false false st) as Hp.
  simpl in Hp. unfold fieldAddr. simpl. unfold tEngine in Hp. rewrite Hp. reflexivity.
Qed.

(** The round for the owner of the engine of the car at [b]. *)
Lemma car_round_owner (rec : nat -> state -> state * outcome) (oid : nat)
    (ot : option type) (b : nat) (st : state) (x : value) :
  heap st !! b = Some (VStruct [VStruct [x]]) ->
  (x = VNil \/ exists p, x = VPtr p) ->
  explicitField carEnv rec oid ot (b, [0]) 0 fieldOwner st
  = match x with
    | VNil =>
        match rec (length (objects st))
                (registered
                   (objectLit (Some (tCar, VPtr (length (heap st), []))) true true false)
                   tCar (setHeap st (heap st ++ [newCar])%list)) with
        | (st4, Done) =>
            match setField (b, [0; 0]) (VPtr (length (heap st), [])) st4 with
            | Some st5 => (addDep oid "Owner" (length (objects st)) st5, Done)
            | None => (st4, Panicked)
            end
        | r => r
        end
    | _ => (st, Done)
    end.
Proof.
  intros Hb Hx.
  assert (Hload : load (heap st) (fieldAddr (b, [0]) 0) = Some x).
  { unfold load. simpl. rewrite Hb. reflexivity. }
  destruct Hx as [->|[p ->]].
  - rewrite (explicitField_pointer carEnv rec oid ot (b, [0]) 0 fieldOwner st VNil
               injectPrivate "Car" Hload eq_refl parseTag_fieldOwner eq_refl eq_refl
               eq_refl eq_refl).
    reflexivity.
  - unfold explicitField. rewrite Hload, parseTag_fieldOwner. reflexivity.
Qed.

(** The explicit pass on the record of a car: its engine is registered if it
    has no owner yet. *)
Lemma car_call_car (fuel : nat) (oid b : nat) (st : state) (o : Object) (x : value) :
  objects st !! oid = Some o ->
  Name o = EmptyString ->
  reflectType o = Some tCar -> reflectValue o = Some (VPtr (b, [])) ->
  heap st !! b = Some (VStruct [VStruct [x]]) ->
  (x = VNil \/ exists p, x = VPtr p) ->
  populateExplicit carEnv (S fuel) oid st
  = match x with
    | VNil =>
        (registered (objectLit (Some (tEngine, VPtr (b, [0]))) true false false) tEngine st,
         Done)
    | _ => (st, Done)
    end.
Proof.
  intros Ho Hn Ht Hv Hb Hx. simpl. rewrite Ho.
  assert (Hw : walkTarget carEnv o = Walk (b, []) [fieldEngine]).
  { unfold walkTarget. rewrite Hn, Ht, Hv. reflexivity. }
  rewrite Hw. cbn [structLoop].
  rewrite (car_round_engine _ oid (reflectType o) b st x Hb Hx).
  destruct Hx as [->|[p ->]]; reflexivity.
Qed.

(** The explicit pass on the record of an engine without owner makes a new
    car, on whose record it runs before it sets the owner. *)
Lemma car_call_engine (fuel : nat) (oid b : nat) (st : state) (o : Object) (x : value) :
  objects st !! oid = Some o ->
  Name o = EmptyString ->
  reflectType o = Some tEngine -> reflectValue o = Some (VPtr (b, [0])) ->
  heap st !! b = Some (VStruct [VStruct [x]]) ->
  (x = VNil \/ exists p, x = VPtr p) ->
  let n := length (heap st) in
  let st3 :=
    registered (objectLit (Some (tCar, VPtr (n, []))) true true false) tCar
      (setHeap st (heap st ++ [newCar])%list) in
  let st4 :=
    registered (objectLit (Some (tEngine, VPtr (n, [0]))) true false false) tEngine st3 in
  populateExplicit carEnv (S (S fuel)) oid st
  = match x with
    | VNil =>
        (addDep oid "Owner" (length (objects st))
           (setHeap st4 (<[b := VStruct [VStruct [VPtr (n, [])]]]> (heap st4))), Done)
    | _ => (st, Done)
    end.
Proof.
  intros Ho Hn Ht Hv Hb Hx n st3 st4.
  change (populateExplicit carEnv (S (S fuel)) oid st) with
    (match objects st !! oid with
     | None => (st, Panicked)
     | Some o =>
         match walkTarget carEnv o with
         | Skip => (st, Done)
         | Bad => (st, Panicked)
         | Walk a fs =>
             structLoop
               (explicitField carEnv (populateExplicit carEnv (S fuel)) oid (reflectType o) a)
               0 fs st
         end
     end).
  rewrite Ho.
  assert (Hw : walkTarget carEnv o = Walk (b, [0]) [fieldOwner]).
  { unfold walkTarget. rewrite Hn, Ht, Hv. reflexivity. }
  rewrite Hw. cbn [structLoop].
  rewrite (car_round_owner _ oid (reflectType o) b st x Hb Hx).
  destruct Hx as [->|[p ->]]; [|reflexivity].
  fold n st3.
  assert (Hb3 : heap st3 !! n = Some (VStruct [VStruct [VNil]])).
  { unfold st3, n. simpl. rewrite lookup_app_r by lia. rewrite Nat.sub_diag. reflexivity. }
  assert (Ho3 : objects st3 !! length (objects st)
                = Some (withReflect (objectLit (Some (tCar, VPtr (n, []))) true true false))).
  { unfold st3. simpl. rewrite lookup_app_r by lia. rewrite Nat.sub_diag. reflexivity. }
  rewrite (car_call_car fuel (length (objects st)) n st3 _ VNil Ho3 eq_refl eq_refl eq_refl
             Hb3 (or_introl eq_refl)).
  fold st4.
  assert (Hb4 : heap st4 !! b = Some (VStruct [VStruct [VNil]])).
  { unfold st4, st3. simpl. rewrite lookup_app_l by (eapply lookup_lt_Some; eauto). exact Hb. }
  unfold setField, store. cbn [fst snd]. rewrite Hb4. reflexivity.
Qed.

Lemma carRecord_registered (st : state) (b : nat) :
  carRecord (registered (objectLit (Some (tEngine, VPtr (b, [0]))) true false false)
               tEngine st) (length (objects st)) b.
Proof.
  eexists. split; [|split; [|split]].
  - simpl. rewrite lookup_app_r by lia. rewrite Nat.sub_diag. reflexivity.
  - reflexivity.
  - reflexivity.
  - right. split; reflexivity.
Qed.

(** A record that is not the last one, or whose engine has an owner, leaves
    the pending records as they are. *)
Lemma carPending_skip (st : state) (i oid b : nat) (p : addr) :
  carPending st i -> unnamed (graph st) !! i = Some oid ->
  carRecord st oid b -> heap st !! b = Some (VStruct [VStruct [VPtr p]]) ->
  carPending st (S i).
Proof.
  intros (Hheap & Hpend & (j & lid & lb & Hij & Hlast & Hlj & Hlrec & Hlb)) Hi Hrec Hb.
  split; [exact Hheap|]. split.
  - intros j' oid' Hj'. apply Hpend. lia.
  - exists j, lid, lb. repeat split; auto.
    destruct (decide (j = i)) as [->|Hne]; [|lia].
    rewrite Hi in Hlj. injection Hlj as <-.
    rewrite (carRecord_address st oid b lb Hrec Hlrec) in Hlb.
    rewrite Hb in Hlb. discriminate.
Qed.

(** The engine of a car is appended to the pending records. *)
Lemma carPending_engine (st : state) (i oid b : nat) :
  carPending st i -> unnamed (graph st) !! i = Some oid ->
  heap st !! b = Some newCar ->
  carPending
    (registered (objectLit (Some (tEngine, VPtr (b, [0]))) true false false) tEngine st)
    (S i).
Proof.
  intros (Hheap & Hpend & _) Hi Hb.
  set (st' := registered _ tEngine st).
  assert (Hext : extends st st') by apply extends_registered.
  pose proof (lookup_lt_Some _ _ _ Hi) as Hlt.
  pose proof (lookup_lt_Some _ _ _ Hb) as Hblt.
  split; [exact Hheap|]. split.
  - intros j oid' Hj Hl. simpl in Hl.
    apply lookup_app_Some in Hl as [Hl|[Hlen Hl]].
    + destruct (Hpend j oid' ltac:(lia) Hl) as (b' & Hb' & Hrec).
      exists b'. split; [exact Hb'|]. exact (carRecord_extends st st' oid' b' Hext Hrec).
    + apply list_lookup_singleton_Some in Hl as [_ <-].
      exists b. split; [exact Hblt|]. apply carRecord_registered.
  - exists (length (unnamed (graph st))), (length (objects st)), b.
    split; [lia|]. split; [simpl; rewrite length_app; simpl; lia|]. split.
    + simpl. rewrite lookup_app_r by lia. rewrite Nat.sub_diag. reflexivity.
    + split; [apply carRecord_registered|exact Hb].
Qed.

(** A new car and its engine are appended when an engine gets its owner. *)
Lemma carPending_owner (st : state) (i oid b : nat) :
  carPending st i -> unnamed (graph st) !! i = Some oid ->
  heap st !! b = Some newCar ->
  let n := length (heap st) in
  let st3 :=
    registered (objectLit (Some (tCar, VPtr (n, []))) true true false) tCar
      (setHeap st (heap st ++ [newCar])%list) in
  let st4 :=
    registered (objectLit (Some (tEngine, VPtr (n, [0]))) true false false) tEngine st3 in
  carPending
    (addDep oid "Owner" (length (objects st))
       (setHeap st4 (<[b := VStruct [VStruct [VPtr (n, [])]]]> (heap st4))))
    (S i).
Proof.
  intros (Hheap & Hpend & _) Hi Hb n st3 st4.
  set (st5 := setHeap st4 _). set (st' := addDep _ _ _ st5).
  pose proof (lookup_lt_Some _ _ _ Hi) as Hlt.
  pose proof (lookup_lt_Some _ _ _ Hb) as Hblt.
  assert (Hext4 : extends st4 st').
  { eapply extends_trans; [apply (extends_setHeap st4)|apply extends_addDep]. }
  assert (Hext : extends st st').
  { eapply extends_trans; [|exact Hext4].
    eapply extends_trans; [apply (extends_setHeap st)|].
    eapply extends_trans; apply extends_registered. }
  assert (Hheap' : heap st' = <[b := VStruct [VStruct [VPtr (n, [])]]]> (heap st ++ [newCar])%list).
  { unfold st'. rewrite addDep_heap. reflexivity. }
  assert (Hlen : length (heap st') = S (length (heap st))).
  { rewrite Hheap', length_insert, length_app. simpl. lia. }
  assert (Hun : unnamed (graph st')
                = (unnamed (graph st) ++ [length (objects st); S (length (objects st))])%list).
  { unfold st'. rewrite addDep_graph. simpl. rewrite length_app. simpl.
    rewrite <- app_assoc. simpl. rewrite Nat.add_1_r. reflexivity. }
  assert (Hcar : carRecord st' (length (objects st)) n).
  { apply (carRecord_extends st4 st' _ _ Hext4).
    eexists. split; [|split; [|split]].
    - simpl. rewrite <- app_assoc. rewrite lookup_app_r by lia. rewrite Nat.sub_diag.
      reflexivity.
    - reflexivity.
    - reflexivity.
    - left. split; reflexivity. }
  assert (Heng : carRecord st' (S (length (objects st))) n).
  { apply (carRecord_extends st4 st' _ _ Hext4).
    replace (S (length (objects st))) with (length (objects st3))
      by (unfold st3; simpl; rewrite length_app; simpl; lia).
    apply carRecord_registered. }
  split; [|split].
  - intros b' v' Hl. rewrite Hheap' in Hl.
    destruct (decide (b' = b)) as [->|Hne].
    + rewrite list_lookup_insert_eq in Hl by (rewrite length_app; simpl; lia).
      injection Hl as <-. eexists. split; [reflexivity|]. right. eauto.
    + rewrite list_lookup_insert_ne in Hl by auto.
      apply lookup_app_Some in Hl as [Hl|[_ Hl]]; [exact (Hheap b' v' Hl)|].
      apply list_lookup_singleton_Some in Hl as [_ <-].
      eexists. split; [reflexivity|]. left. reflexivity.
  - intros j oid' Hj Hl. rewrite Hun in Hl.
    apply lookup_app_Some in Hl as [Hl|[Hge Hl]].
    + destruct (Hpend j oid' ltac:(lia) Hl) as (b' & Hb' & Hrec).
      exists b'. split; [lia|]. exact (carRecord_extends st st' oid' b' Hext Hrec).
    + exists n. split; [unfold n; lia|].
      destruct (j - length (unnamed (graph st))) as [|[|k]]; simpl in Hl.
      * injection Hl as <-. exact Hcar.
      * injection Hl as <-. exact Heng.
      * discriminate.
  - exists (S (length (unnamed (graph st)))), (S (length (objects st))), n.
    split; [lia|]. split; [rewrite Hun, length_app; simpl; lia|]. split.
    + rewrite Hun. rewrite lookup_app_r by lia.
      replace (S (length (unnamed (graph st))) - length (unnamed (graph st))) with 1 by lia.
      reflexivity.
    + split; [exact Heng|].
      rewrite Hheap'. rewrite list_lookup_insert_ne by (unfold n; lia).
      rewrite lookup_app_r by (unfold n; lia). unfold n. rewrite Nat.sub_diag. reflexivity.
Qed.

(** The explicit pass on a pending record ends without error, if it has the
    calls it needs, and leaves a record pending after it. *)
Lemma car_call (fuel : nat) (st : state) (i oid : nat) :
  carPending st i -> unnamed (graph st) !! i = Some oid ->
  snd (populateExplicit carEnv fuel oid st) = OutOfFuel
  \/ exists st', populateExplicit carEnv fuel oid st = (st', Done) /\ carPending st' (S i).
Proof.
  intros Hp Hi. pose proof Hp as (Hheap & Hpend & _).
  destruct (Hpend i oid (le_n i) Hi) as (b & Hblt & Hrec).
  pose proof Hrec as (o & Ho & Hn & _ & Hcase).
  destruct (lookup_lt_is_Some_2 (heap st) b Hblt) as [v Hv].
  destruct (Hheap b v Hv) as (x & -> & Hx).
  destruct fuel as [|fuel]; [left; reflexivity|].
  destruct Hcase as [[Ht Hval]|[Ht Hval]].
  - right. rewrite (car_call_car fuel oid b st o x Ho Hn Ht Hval Hv Hx).
    destruct Hx as [->|[p ->]].
    + eexists. split; [reflexivity|]. exact (carPending_engine st i oid b Hp Hi Hv).
    + exists st. split; [reflexivity|]. exact (carPending_skip st i oid b p Hp Hi Hrec Hv).
  - destruct Hx as [->|[p ->]].
    + destruct fuel as [|fuel].
      * left. simpl. rewrite Ho.
        assert (Hw : walkTarget carEnv o = Walk (b, [0]) [fieldOwner]).
        { unfold walkTarget. rewrite Hn, Ht, Hval. reflexivity. }
        rewrite Hw. cbn [structLoop].
        rewrite (car_round_owner _ oid (reflectType o) b st VNil Hv (or_introl eq_refl)).
        reflexivity.
      * right.
        rewrite (car_call_engine fuel oid b st o VNil Ho Hn Ht Hval Hv (or_introl eq_refl)).
        eexists. split; [reflexivity|]. exact (carPending_owner st i oid b Hp Hi Hv).
    + right. exists st. split.
      * destruct fuel as [|fuel].
        -- simpl. rewrite Ho.
           assert (Hw : walkTarget carEnv o = Walk (b, [0]) [fieldOwner]).
           { unfold walkTarget. rewrite Hn, Ht, Hval. reflexivity. }
           rewrite Hw. cbn [structLoop].
           rewrite (car_round_owner _ oid (reflectType o) b st (VPtr p) Hv
                      (or_intror (ex_intro _ p eq_refl))).
           reflexivity.
        -- exact (car_call_engine fuel oid b st o (VPtr p) Ho Hn Ht Hval Hv
                    (or_intror (ex_intro _ p eq_refl))).
      * exact (carPending_skip st i oid b p Hp Hi Hrec Hv).
Qed.

(** The second loop never comes to the end of the unnamed sequence. *)
Lemma car_loop (fuel rounds : nat) :
  forall (i : nat) (st : state),
    carPending st i -> snd (explicitLoop carEnv fuel rounds i st) = OutOfFuel.
Proof.
  induction rounds as [|rounds IH]; intros i st Hp; [reflexivity|].
  pose proof Hp as (_ & Hpend & (j & lid & lb & Hij & Hlast & _)).
  destruct (lookup_lt_is_Some_2 (unnamed (graph st)) i ltac:(lia)) as [oid Hi].
  destruct (Hpend i oid (le_n i) Hi) as (b & _ & (o & Ho & _ & Hc & _)).
  simpl. rewrite Hi, Ho, Hc.
  destruct (car_call fuel st i oid Hp Hi) as [Hout|(st' & Hcall & Hp')].
  - destruct (populateExplicit carEnv fuel oid st) as [s r]. simpl in Hout. subst r.
    reflexivity.
  - rewrite Hcall. apply IH. exact Hp'.
Qed.

Lemma carProvided_pending : carPending carProvided 0.
Proof.
  split; [|split].
  - intros b v Hl. destruct b as [|b]; [|discriminate]. injection Hl as <-.
    eexists. split; [reflexivity|]. left. reflexivity.
  - intros j oid _ Hl. destruct j as [|j]; [|discriminate]. injection Hl as <-.
    exists 0. split; [simpl; lia|].
    eexists. split; [reflexivity|]. split; [reflexivity|]. split; [reflexivity|].
    left. split; reflexivity.
  - exists 0, 0, 0. split; [lia|]. split; [reflexivity|]. split; [reflexivity|].
    split; [|reflexivity].
    eexists. split; [reflexivity|]. split; [reflexivity|]. split; [reflexivity|].
    left. split; reflexivity.
Qed.

(** With an inline field in the cycle the calls do not nest without end, but
    the second loop of [Populate] has a new record to visit after each one:
    for a provided car, [Populate] runs out of every number of rounds. *)
Lemma inline_private_cycle_never_returns (fuel : nat) :
  snd (Populate carEnv fuel [] [] carProvided) = OutOfFuel.
Proof.
  unfold Populate. simpl rangeNamed. cbv iota.
  pose proof (car_loop fuel fuel 0 carProvided carProvided_pending) as H.
  destruct (explicitLoop carEnv fuel fuel 0 carProvided) as [s r]. simpl in H. subst r.
  reflexivity.
Qed.

Lemma carEnv_has_cycle : ~ noPrivateCycle carEnv.
Proof.
  intros [rk Hrk].
  assert (H1 : rk "Engine" < rk "Car").
  { apply (Hrk ("Car", [fieldEngine]) fieldEngine "Engine").
    - simpl. apply list_elem_of_here.
    - simpl. apply list_elem_of_here.
    - exists injectInline. split; [exact parseTag_fieldEngine|]. split; [reflexivity|].
      left. split; reflexivity. }
  assert (H2 : rk "Car" < rk "Engine").
  { apply (Hrk ("Engine", [fieldOwner]) fieldOwner "Car").
    - simpl. apply list_elem_of_further, list_elem_of_here.
    - simpl. apply list_elem_of_here.
    - exists injectPrivate. split; [exact parseTag_fieldOwner|]. split; [reflexivity|].
      right. split; reflexivity. }
  lia.
Qed.
